(** * cgltf: a shallow embedding of the glTF loader core

    The development follows [cgltf.h]: the JSMN tokeniser, the container
    demultiplexer ([cgltf_parse]), the reference fix-up
    ([cgltf_fixup_pointers]), the accessor services, the validator and the
    extras helper.  Definitions carry the names of the C functions they embed.

    Conventions.
    - [cgltf_size] is [size_t]; it is taken to be 64 bits wide (LP64) and is
      modelled by a [Z] kept in [0, 2^64) by [size_wrap] where the C
      arithmetic can wrap.
    - bytes are [Z] values in [0, 256); a byte buffer is a [list Z].
    - [cgltf_float] is IEEE-754 binary32, modelled by [spec_float] with
      precision 24 and maximal exponent 128.
    - a C array with its element count is a [list]; the count is its length. *)

From Stdlib Require Import ZArith List Lia Bool SpecFloat.
From stdpp Require Import base tactics option list numbers strings.
Import ListNotations.

Local Open Scope Z_scope.

(** ** Scalar types *)

Definition SIZE_BITS : Z := 64.
Definition SIZE_MODULUS : Z := 2 ^ SIZE_BITS.
Definition SIZE_MAX : Z := SIZE_MODULUS - 1.

(** Conversion of a mathematical integer to [cgltf_size] (wrap-around). *)
Definition size_wrap (z : Z) : Z := z mod SIZE_MODULUS.

Inductive cgltf_file_type : Set :=
| cgltf_file_type_invalid
| cgltf_file_type_gltf
| cgltf_file_type_glb.

Inductive cgltf_result : Set :=
| cgltf_result_success
| cgltf_result_data_too_short
| cgltf_result_unknown_format
| cgltf_result_invalid_json
| cgltf_result_invalid_gltf
| cgltf_result_invalid_options
| cgltf_result_file_not_found
| cgltf_result_io_error
| cgltf_result_out_of_memory.

Inductive cgltf_component_type : Set :=
| cgltf_component_type_invalid
| cgltf_component_type_r_8
| cgltf_component_type_r_8u
| cgltf_component_type_r_16
| cgltf_component_type_r_16u
| cgltf_component_type_r_32u
| cgltf_component_type_r_32f.

Inductive cgltf_type : Set :=
| cgltf_type_invalid
| cgltf_type_scalar
| cgltf_type_vec2
| cgltf_type_vec3
| cgltf_type_vec4
| cgltf_type_mat2
| cgltf_type_mat3
| cgltf_type_mat4.

#[global] Instance cgltf_file_type_eq_dec : EqDecision cgltf_file_type.
Proof. solve_decision. Defined.
#[global] Instance cgltf_result_eq_dec : EqDecision cgltf_result.
Proof. solve_decision. Defined.
#[global] Instance cgltf_component_type_eq_dec : EqDecision cgltf_component_type.
Proof. solve_decision. Defined.
#[global] Instance cgltf_type_eq_dec : EqDecision cgltf_type.
Proof. solve_decision. Defined.

(** ** Element geometry *)

Definition cgltf_num_components (type : cgltf_type) : Z :=
  match type with
  | cgltf_type_vec2 => 2
  | cgltf_type_vec3 => 3
  | cgltf_type_vec4 => 4
  | cgltf_type_mat2 => 4
  | cgltf_type_mat3 => 9
  | cgltf_type_mat4 => 16
  | cgltf_type_invalid | cgltf_type_scalar => 1
  end.

Definition cgltf_component_size (component_type : cgltf_component_type) : Z :=
  match component_type with
  | cgltf_component_type_r_8 | cgltf_component_type_r_8u => 1
  | cgltf_component_type_r_16 | cgltf_component_type_r_16u => 2
  | cgltf_component_type_r_32u | cgltf_component_type_r_32f => 4
  | cgltf_component_type_invalid => 0
  end.

Definition cgltf_calc_size (type : cgltf_type) (component_type : cgltf_component_type) : Z :=
  let component_size := cgltf_component_size component_type in
  if bool_decide (type = cgltf_type_mat2) && (component_size =? 1) then
    8 * component_size
  else if bool_decide (type = cgltf_type_mat3)
          && ((component_size =? 1) || (component_size =? 2)) then
    12 * component_size
  else
    component_size * cgltf_num_components type.

(** ** The JSMN tokeniser ([jsmn.c], built with [JSMN_PARENT_LINKS] and
    without [JSMN_STRICT])

    The input [(js, len)] is the byte list [js] with [len = length js], a
    [size_t].  [pos] and [toknext] are [unsigned int]; [toksuper], the
    fields of a token and the token count are [int]; both types are 32 bits
    wide.  An [unsigned int] is modelled by a natural below 2^32 and an
    [int] by a [Z] in [-2^31, 2^31): [uint_nat] and [int_wrap] are the
    conversions the C code applies where it stores a value in one of them,
    and an [int] that overflows under [++] or [+] is undefined (the model is
    [None] there, as it is for a token read or written outside the token
    array).

    [jsmn_parse] is modelled for the inputs of fewer than 2^32 bytes.  On
    these [parser->pos] stays at most [len] once it is below it, so that
    [parser->pos++] and [parser->pos + 1] do not wrap around.  On a longer
    input [parser->pos < len] holds whatever [parser->pos] is; the model is
    [None] there. *)

Definition UINT_MODULUS : Z := 2 ^ 32.
Definition INT_MAX : Z := 2147483647.
Definition INT_MIN : Z := -2147483648.

(** Conversion to [unsigned int] (wrap-around), and the natural that models
    the result. *)
Definition uint_wrap (z : Z) : Z := z mod UINT_MODULUS.
Definition uint_nat (z : Z) : nat := Z.to_nat (uint_wrap z).

(** Conversion of a mathematical integer to [int]: the value modulo 2^32
    that lies in [INT_MIN, INT_MAX] (two's complement). *)
Definition int_wrap (z : Z) : Z := (z - INT_MIN) mod UINT_MODULUS + INT_MIN.

Inductive jsmntype_t : Set :=
| JSMN_UNDEFINED
| JSMN_OBJECT
| JSMN_ARRAY
| JSMN_STRING
| JSMN_PRIMITIVE.

#[global] Instance jsmntype_eq_dec : EqDecision jsmntype_t.
Proof. solve_decision. Defined.

Definition JSMN_ERROR_NOMEM : Z := -1.
Definition JSMN_ERROR_INVAL : Z := -2.
Definition JSMN_ERROR_PART : Z := -3.

Record jsmntok_t : Set := mk_jsmntok {
  tok_type : jsmntype_t;
  tok_start : Z;
  tok_end : Z;
  tok_size : Z;
  tok_parent : Z
}.

Record jsmn_parser : Set := mk_jsmn_parser {
  pos : nat;       (* offset in the JSON string *)
  toknext : nat;   (* next token to allocate *)
  toksuper : Z     (* superior token node, e.g. parent object or array *)
}.

Definition set_pos (p : nat) (parser : jsmn_parser) : jsmn_parser :=
  mk_jsmn_parser p (toknext parser) (toksuper parser).
Definition set_toksuper (s : Z) (parser : jsmn_parser) : jsmn_parser :=
  mk_jsmn_parser (pos parser) (toknext parser) s.

Definition set_tok_type (ty : jsmntype_t) (t : jsmntok_t) : jsmntok_t :=
  mk_jsmntok ty (tok_start t) (tok_end t) (tok_size t) (tok_parent t).
Definition set_tok_start (v : Z) (t : jsmntok_t) : jsmntok_t :=
  mk_jsmntok (tok_type t) v (tok_end t) (tok_size t) (tok_parent t).
Definition set_tok_end (v : Z) (t : jsmntok_t) : jsmntok_t :=
  mk_jsmntok (tok_type t) (tok_start t) v (tok_size t) (tok_parent t).
Definition set_tok_parent (v : Z) (t : jsmntok_t) : jsmntok_t :=
  mk_jsmntok (tok_type t) (tok_start t) (tok_end t) (tok_size t) v.
Definition incr_tok_size (t : jsmntok_t) : jsmntok_t :=
  mk_jsmntok (tok_type t) (tok_start t) (tok_end t) (tok_size t + 1) (tok_parent t).

(** [tokens[idx]] for an [int] index; [None]: outside the array. *)
Definition tok_at (tokens : list jsmntok_t) (idx : Z) : option jsmntok_t :=
  if idx <? 0 then None else tokens !! Z.to_nat idx.

(** A write through [&tokens[idx]], for an index inside the array. *)
Definition tok_update (f : jsmntok_t -> jsmntok_t) (idx : Z) (tokens : list jsmntok_t)
  : list jsmntok_t :=
  if idx <? 0 then tokens else alter f (Z.to_nat idx) tokens.

(** [tokens[idx].size++]; [None]: the token lies outside the array, or the
    [int] overflows. *)
Definition tok_size_incr (idx : Z) (tokens : list jsmntok_t) : option (list jsmntok_t) :=
  tok ← tok_at tokens idx;
  if INT_MAX <=? tok_size tok then None
  else Some (tok_update incr_tok_size idx tokens).

(** [count++] for the [int] count of tokens; [None]: the [int] overflows. *)
Definition count_incr (count : Z) : option Z :=
  if INT_MAX <=? count then None else Some (count + 1).

(** Character codes used by the tokeniser. *)
Definition CH_TAB : Z := 9.
Definition CH_LF : Z := 10.
Definition CH_CR : Z := 13.
Definition CH_SPACE : Z := 32.
Definition CH_QUOTE : Z := 34.
Definition CH_COMMA : Z := 44.
Definition CH_SLASH : Z := 47.
Definition CH_COLON : Z := 58.
Definition CH_LBRACKET : Z := 91.
Definition CH_BACKSLASH : Z := 92.
Definition CH_RBRACKET : Z := 93.
Definition CH_LBRACE : Z := 123.
Definition CH_RBRACE : Z := 125.

(** The value of a byte read through [char] (plain [char] is signed). *)
Definition char_val (b : Z) : Z := if b <? 128 then b else b - 256.

(** Allocates a fresh unused token from the token pool: [Some None] is
    [NULL]; otherwise the index of the token, the parser with [toknext]
    advanced, and the array with the token reset (its [type] is left as it
    was).  [None]: the token [tokens[parser->toknext]] lies outside the
    array. *)
Definition jsmn_alloc_token (parser : jsmn_parser) (tokens : list jsmntok_t)
    (num_tokens : Z) : option (option (nat * jsmn_parser * list jsmntok_t)) :=
  if num_tokens <=? Z.of_nat (toknext parser) then Some None
  else
    let i := toknext parser in
    if (length tokens <=? i)%nat then None
    else
      Some (Some (i,
                  mk_jsmn_parser (pos parser) (uint_nat (Z.of_nat i + 1)) (toksuper parser),
                  alter (fun tok => mk_jsmntok (tok_type tok) (-1) (-1) 0 (-1)) i tokens)).

(** Fills token type and boundaries. *)
Definition jsmn_fill_token (type : jsmntype_t) (start end_ : Z) (token : jsmntok_t)
  : jsmntok_t :=
  mk_jsmntok type start end_ 0 (tok_parent token).

(** The characters that end a primitive (the [switch] of
    [jsmn_parse_primitive], with the non-strict [':']). *)
Definition primitive_delimiter (c : Z) : bool :=
  (c =? CH_COLON) || (c =? CH_TAB) || (c =? CH_CR) || (c =? CH_LF)
  || (c =? CH_SPACE) || (c =? CH_COMMA) || (c =? CH_RBRACKET) || (c =? CH_RBRACE).

(** The scanning loop of [jsmn_parse_primitive] from position [pos], where
    [rest] are the bytes from [pos] on: [Some p] when the loop leaves at
    [found] (or at the end of the input) with [parser->pos = p], [None] when
    it meets a byte below 32 or from 127 on. *)
Fixpoint jsmn_primitive_scan (rest : list Z) (pos : nat) : option nat :=
  match rest with
  | [] => Some pos
  | c :: rest' =>
      if c =? 0 then Some pos
      else if primitive_delimiter c then Some pos
      else if (char_val c <? 32) || (127 <=? char_val c) then None
      else jsmn_primitive_scan rest' (S pos)
  end.

(** Fills next available token with JSON primitive.  The result is the
    returned [int], the parser and the token array ([None] for the array is
    [NULL]).  [start] is an [int]: [parser->pos] is converted to it, and
    back where the function restores it. *)
Definition jsmn_parse_primitive (parser : jsmn_parser) (js : list Z)
    (tokens : option (list jsmntok_t)) (num_tokens : Z)
  : option (Z * jsmn_parser * option (list jsmntok_t)) :=
  let start := int_wrap (Z.of_nat (pos parser)) in
  match jsmn_primitive_scan (drop (pos parser) js) (pos parser) with
  | None => Some (JSMN_ERROR_INVAL, set_pos (uint_nat start) parser, tokens)
  | Some p =>
      match tokens with
      | None => Some (0, set_pos (uint_nat (Z.of_nat p - 1)) parser, None)
      | Some toks =>
          token ← jsmn_alloc_token (set_pos p parser) toks num_tokens;
          match token with
          | None => Some (JSMN_ERROR_NOMEM, set_pos (uint_nat start) parser, tokens)
          | Some (i, parser', toks') =>
              let fill tok :=
                set_tok_parent (toksuper parser')
                  (jsmn_fill_token JSMN_PRIMITIVE start (int_wrap (Z.of_nat p)) tok) in
              Some (0, set_pos (uint_nat (Z.of_nat p - 1)) parser', Some (alter fill i toks'))
          end
      end
  end.

Definition is_hex_digit (c : Z) : bool :=
  let v := char_val c in
  ((48 <=? v) && (v <=? 57)) || ((65 <=? v) && (v <=? 70)) || ((97 <=? v) && (v <=? 102)).

(** The loop over the (at most four) hex digits of an escaped [\uXXXX]:
    [Some p] is the position after the digits read, [None] a non-hex byte. *)
Fixpoint jsmn_hex_digits (n : nat) (js : list Z) (pos : nat) : option nat :=
  match n with
  | O => Some pos
  | S n' =>
      match js !! pos with
      | None => Some pos
      | Some c =>
          if c =? 0 then Some pos
          else if is_hex_digit c then jsmn_hex_digits n' js (S pos)
          else None
      end
  end.

Definition allowed_escape (c : Z) : bool :=
  (c =? CH_QUOTE) || (c =? CH_SLASH) || (c =? CH_BACKSLASH) || (c =? 98)
  || (c =? 102) || (c =? 114) || (c =? 110) || (c =? 116).

Inductive string_scan : Set :=
| StringEnd (p : nat)      (* the closing quote stands at [p] *)
| StringError (r : Z).     (* JSMN_ERROR_INVAL or JSMN_ERROR_PART *)

(** The loop of [jsmn_parse_string], entered with [parser->pos = pos].  The
    loop advances [pos] in every round, so [fuel] rounds with
    [length js - pos <= fuel] complete it; [None] is a run out of fuel. *)
Fixpoint jsmn_string_scan (fuel : nat) (js : list Z) (pos : nat) : option string_scan :=
  match fuel with
  | O => match js !! pos with
         | None => Some (StringError JSMN_ERROR_PART)
         | Some _ => None
         end
  | S fuel' =>
      match js !! pos with
      | None => Some (StringError JSMN_ERROR_PART)
      | Some c =>
          if c =? 0 then Some (StringError JSMN_ERROR_PART)
          else if c =? CH_QUOTE then Some (StringEnd pos)
          else if (c =? CH_BACKSLASH) && (S pos <? length js)%nat then
            match js !! S pos with
            | None => None
            | Some e =>
                if allowed_escape e then jsmn_string_scan fuel' js (S (S pos))
                else if e =? 117 then
                  match jsmn_hex_digits 4 js (S (S pos)) with
                  | None => Some (StringError JSMN_ERROR_INVAL)
                  | Some p => jsmn_string_scan fuel' js (S (Nat.pred p))
                  end
                else Some (StringError JSMN_ERROR_INVAL)
            end
          else jsmn_string_scan fuel' js (S pos)
      end
  end.

(** Fills next token with JSON string.  [None]: the model ran out of fuel,
    the token lies outside the array, or [start + 1] overflows. *)
Definition jsmn_parse_string (parser : jsmn_parser) (js : list Z)
    (tokens : option (list jsmntok_t)) (num_tokens : Z)
  : option (Z * jsmn_parser * option (list jsmntok_t)) :=
  let start := int_wrap (Z.of_nat (pos parser)) in
  scan ← jsmn_string_scan (length js) js (S (pos parser));
  match scan with
  | StringError r => Some (r, set_pos (uint_nat start) parser, tokens)
  | StringEnd p =>
      match tokens with
      | None => Some (0, set_pos p parser, None)
      | Some toks =>
          token ← jsmn_alloc_token (set_pos p parser) toks num_tokens;
          match token with
          | None => Some (JSMN_ERROR_NOMEM, set_pos (uint_nat start) parser, tokens)
          | Some (i, parser', toks') =>
              if INT_MAX <=? start then None
              else
                let fill tok :=
                  set_tok_parent (toksuper parser')
                    (jsmn_fill_token JSMN_STRING (start + 1) (int_wrap (Z.of_nat p)) tok) in
                Some (0, parser', Some (alter fill i toks'))
          end
      end
  end.

Definition tok_is_open (t : jsmntok_t) : bool :=
  negb (tok_start t =? -1) && (tok_end t =? -1).

Inductive close_walk : Set :=
| CloseAt (idx : Z)   (* the open token [tokens[idx]] is closed *)
| CloseNone           (* the walk reaches a root token and breaks *)
| CloseInval.         (* return JSMN_ERROR_INVAL *)

(** The [for (;;)] walk along the parent links on a closing bracket, with
    [token = &tokens[idx]].  [None]: an index outside the array, or a chain of
    parent links longer than [fuel]. *)
Fixpoint jsmn_close_walk (fuel : nat) (tokens : list jsmntok_t) (type : jsmntype_t)
    (super : Z) (idx : Z) : option close_walk :=
  match fuel with
  | O => None
  | S fuel' =>
      match tok_at tokens idx with
      | None => None
      | Some token =>
          if tok_is_open token then
            if bool_decide (tok_type token <> type) then Some CloseInval
            else Some (CloseAt idx)
          else if tok_parent token =? -1 then
            if bool_decide (tok_type token <> type) || (super =? -1) then Some CloseInval
            else Some CloseNone
          else jsmn_close_walk fuel' tokens type super (tok_parent token)
      end
  end.

(** What one round of the main loop of [jsmn_parse] does. *)
Inductive jsmn_step : Set :=
| StepNext (parser : jsmn_parser) (tokens : option (list jsmntok_t)) (count : Z)
| StepReturn (r : Z) (parser : jsmn_parser) (tokens : option (list jsmntok_t)).

(** [tokens[parser->toksuper].size++] under [toksuper != -1 && tokens != NULL]. *)
Definition bump_super_size (parser : jsmn_parser) (tokens : option (list jsmntok_t))
  : option (option (list jsmntok_t)) :=
  match tokens with
  | Some toks =>
      if toksuper parser =? -1 then Some tokens
      else Some <$> tok_size_incr (toksuper parser) toks
  | None => Some None
  end.

(** The body of the [switch (c)] of [jsmn_parse] for the byte [c] at
    [parser->pos]. *)
Definition jsmn_parse_char (c : Z) (parser : jsmn_parser) (js : list Z)
    (tokens : option (list jsmntok_t)) (num_tokens : Z) (count : Z)
  : option jsmn_step :=
  if (c =? CH_LBRACE) || (c =? CH_LBRACKET) then
    count1 ← count_incr count;
    match tokens with
    | None => Some (StepNext parser None count1)
    | Some toks =>
        token ← jsmn_alloc_token parser toks num_tokens;
        match token with
        | None => Some (StepReturn JSMN_ERROR_NOMEM parser tokens)
        | Some (i, parser1, toks1) =>
            toks2 ←
              (if toksuper parser1 =? -1 then Some toks1
               else alter (set_tok_parent (toksuper parser1)) i
                      <$> tok_size_incr (toksuper parser1) toks1);
            let type := if c =? CH_LBRACE then JSMN_OBJECT else JSMN_ARRAY in
            let toks3 :=
              alter (fun t => set_tok_start (int_wrap (Z.of_nat (pos parser1)))
                                (set_tok_type type t))
                i toks2 in
            Some (StepNext (set_toksuper (int_wrap (Z.of_nat (toknext parser1) - 1)) parser1)
                    (Some toks3) count1)
        end
    end
  else if (c =? CH_RBRACE) || (c =? CH_RBRACKET) then
    match tokens with
    | None => Some (StepNext parser None count)
    | Some toks =>
        let type := if c =? CH_RBRACE then JSMN_OBJECT else JSMN_ARRAY in
        if (toknext parser <? 1)%nat then Some (StepReturn JSMN_ERROR_INVAL parser tokens)
        else
          match jsmn_close_walk (toknext parser) toks type (toksuper parser)
                  (Z.of_nat (toknext parser) - 1) with
          | None => None
          | Some CloseInval => Some (StepReturn JSMN_ERROR_INVAL parser tokens)
          | Some CloseNone => Some (StepNext parser tokens count)
          | Some (CloseAt idx) =>
              match tok_at toks idx with
              | None => None
              | Some token =>
                  Some (StepNext (set_toksuper (tok_parent token) parser)
                          (Some (tok_update
                                   (set_tok_end (int_wrap (Z.of_nat (pos parser) + 1)))
                                   idx toks))
                          count)
              end
          end
    end
  else if c =? CH_QUOTE then
    '(r, parser1, tokens1) ← jsmn_parse_string parser js tokens num_tokens;
    if r <? 0 then Some (StepReturn r parser1 tokens1)
    else
      count1 ← count_incr count;
      tokens2 ← bump_super_size parser1 tokens1;
      Some (StepNext parser1 tokens2 count1)
  else if (c =? CH_TAB) || (c =? CH_CR) || (c =? CH_LF) || (c =? CH_SPACE) then
    Some (StepNext parser tokens count)
  else if c =? CH_COLON then
    Some (StepNext (set_toksuper (int_wrap (Z.of_nat (toknext parser) - 1)) parser)
            tokens count)
  else if c =? CH_COMMA then
    match tokens with
    | None => Some (StepNext parser None count)
    | Some toks =>
        if toksuper parser =? -1 then Some (StepNext parser tokens count)
        else
          match tok_at toks (toksuper parser) with
          | None => None
          | Some super =>
              if bool_decide (tok_type super <> JSMN_ARRAY)
                 && bool_decide (tok_type super <> JSMN_OBJECT) then
                Some (StepNext (set_toksuper (tok_parent super) parser) tokens count)
              else Some (StepNext parser tokens count)
          end
    end
  else
    (* In non-strict mode every unquoted value is a primitive *)
    '(r, parser1, tokens1) ← jsmn_parse_primitive parser js tokens num_tokens;
    if r <? 0 then Some (StepReturn r parser1 tokens1)
    else
      count1 ← count_incr count;
      tokens2 ← bump_super_size parser1 tokens1;
      Some (StepNext parser1 tokens2 count1).

(** The check after the loop, [for (i = parser->toknext - 1; i >= 0; i--)]
    with an [int i]: an opened object or array was never closed.  [None]:
    the loop starts outside the array. *)
Definition jsmn_parse_finish (parser : jsmn_parser) (tokens : option (list jsmntok_t))
    (count : Z) : option (Z * jsmn_parser * option (list jsmntok_t)) :=
  match tokens with
  | Some toks =>
      let i := int_wrap (Z.of_nat (toknext parser) - 1) in
      if Z.of_nat (length toks) <=? i then None
      else if existsb tok_is_open (take (Z.to_nat (i + 1)) toks)
      then Some (JSMN_ERROR_PART, parser, tokens)
      else Some (count, parser, tokens)
  | None => Some (count, parser, tokens)
  end.

(** The main loop of [jsmn_parse]; every round advances [parser->pos]. *)
Fixpoint jsmn_parse_loop (fuel : nat) (js : list Z) (num_tokens : Z)
    (parser : jsmn_parser) (tokens : option (list jsmntok_t)) (count : Z)
  : option (Z * jsmn_parser * option (list jsmntok_t)) :=
  match js !! pos parser with
  | None => jsmn_parse_finish parser tokens count
  | Some c =>
      if c =? 0 then jsmn_parse_finish parser tokens count
      else
        match fuel with
        | O => None
        | S fuel' =>
            match jsmn_parse_char c parser js tokens num_tokens count with
            | None => None
            | Some (StepReturn r parser1 tokens1) => Some (r, parser1, tokens1)
            | Some (StepNext parser1 tokens1 count1) =>
                jsmn_parse_loop fuel' js num_tokens
                  (set_pos (S (pos parser1)) parser1) tokens1 count1
            end
        end
  end.

(** Parse JSON string and fill tokens.  The result is the returned [int]
    (the token count or a negative error), the parser and the token array;
    [None] when the model does not define the run: an input of 2^32 bytes or
    more, an [int] that overflows, or a token outside the array. *)
Definition jsmn_parse (parser : jsmn_parser) (js : list Z)
    (tokens : option (list jsmntok_t)) (num_tokens : Z)
  : option (Z * jsmn_parser * option (list jsmntok_t)) :=
  if UINT_MODULUS <=? Z.of_nat (length js) then None
  else
    jsmn_parse_loop (length js) js num_tokens parser tokens
      (int_wrap (Z.of_nat (toknext parser))).

(** Creates a new parser over a given buffer. *)
Definition jsmn_init (parser : jsmn_parser) : jsmn_parser :=
  mk_jsmn_parser 0 0 (-1).

(** Bytes of a string literal, with ['] standing for the double quote, so
    that JSON texts can be written down. *)
Fixpoint json_bytes (s : string) : list Z :=
  match s with
  | EmptyString => []
  | String a s' =>
      let n := Z.of_nat (Ascii.nat_of_ascii a) in
      (if n =? 39 then CH_QUOTE else n) :: json_bytes s'
  end.

(** ** The object graph

    Only the fields read or written by the modelled functions are kept.  A
    reference field of the C structures is a pointer slot: the decoder stores
    the integer [index + 1] in it ([CGLTF_PTRINDEX]) and the fix-up replaces
    it by the address of an element of the owning array.  The records are
    therefore parametrised by the type [P] of a pointer slot: [encoded] (the
    slot read as a [cgltf_size]) for a decoded graph and [ptr] (null, or the
    index of the element pointed to) for a linked one. *)

Definition cgltf_float : Set := spec_float.

(** The slot as the decoder leaves it. *)
Abbreviation encoded := Z (only parsing).
(** A resolved pointer into an array of the root: [None] is [NULL],
    [Some i] is [&array[i]]. *)
Abbreviation ptr := (option nat) (only parsing).

Set Implicit Arguments.

Record cgltf_extras : Set := mk_extras {
  start_offset : Z;
  end_offset : Z
}.

Record cgltf_buffer : Set := mk_buffer {
  buffer_size : Z;
  buffer_data : option (list Z)   (* loaded by cgltf_load_buffers *)
}.

Record cgltf_buffer_view (P : Set) : Set := mk_buffer_view {
  bv_buffer : P;
  bv_offset : Z;
  bv_size : Z;
  bv_stride : Z   (* 0 == automatically determined by accessor *)
}.

Record cgltf_accessor_sparse (P : Set) : Set := mk_accessor_sparse {
  sparse_count : Z;
  indices_buffer_view : P;
  indices_byte_offset : Z;
  indices_component_type : cgltf_component_type;
  values_buffer_view : P;
  values_byte_offset : Z
}.

Record cgltf_accessor (P : Set) : Set := mk_accessor {
  component_type : cgltf_component_type;
  normalized : bool;
  acc_type : cgltf_type;
  acc_offset : Z;
  acc_count : Z;
  acc_stride : Z;
  acc_buffer_view : P;
  is_sparse : bool;
  sparse : cgltf_accessor_sparse P
}.

Record cgltf_attribute (P : Set) : Set := mk_attribute {
  attr_data : P
}.

Record cgltf_image (P : Set) : Set := mk_image {
  image_buffer_view : P
}.

Record cgltf_texture (P : Set) : Set := mk_texture {
  tex_image : P;
  tex_sampler : P
}.

Record cgltf_texture_view (P : Set) : Set := mk_texture_view {
  tv_texture : P
}.

Record cgltf_pbr_metallic_roughness (P : Set) : Set := mk_pbr_metallic_roughness {
  base_color_texture : cgltf_texture_view P;
  metallic_roughness_texture : cgltf_texture_view P
}.

Record cgltf_pbr_specular_glossiness (P : Set) : Set := mk_pbr_specular_glossiness {
  diffuse_texture : cgltf_texture_view P;
  specular_glossiness_texture : cgltf_texture_view P
}.

Record cgltf_material (P : Set) : Set := mk_material {
  pbr_metallic_roughness : cgltf_pbr_metallic_roughness P;
  pbr_specular_glossiness : cgltf_pbr_specular_glossiness P;
  normal_texture : cgltf_texture_view P;
  occlusion_texture : cgltf_texture_view P;
  emissive_texture : cgltf_texture_view P
}.

Record cgltf_morph_target (P : Set) : Set := mk_morph_target {
  target_attributes : list (cgltf_attribute P)
}.

Record cgltf_primitive (P : Set) : Set := mk_primitive {
  prim_indices : P;
  prim_material : P;
  prim_attributes : list (cgltf_attribute P);
  prim_targets : list (cgltf_morph_target P)
}.

Record cgltf_mesh (P : Set) : Set := mk_mesh {
  primitives : list (cgltf_primitive P);
  mesh_weights : option (list cgltf_float)
}.

Record cgltf_skin (P : Set) : Set := mk_skin {
  joints : list P;
  skeleton : P;
  inverse_bind_matrices : P
}.

Record cgltf_node (P : Set) : Set := mk_node {
  node_parent : ptr;   (* never written by the decoder *)
  children : list P;
  node_skin : P;
  node_mesh : P;
  node_camera : P;
  node_light : P;
  node_weights : option (list cgltf_float)
}.

Record cgltf_scene (P : Set) : Set := mk_scene {
  scene_nodes : list P
}.

Record cgltf_animation_sampler (P : Set) : Set := mk_animation_sampler {
  sampler_input : P;
  sampler_output : P
}.

Record cgltf_animation_channel (P : Set) : Set := mk_animation_channel {
  channel_sampler : P;
  target_node : P
}.

Record cgltf_animation (P : Set) : Set := mk_animation {
  anim_samplers : list (cgltf_animation_sampler P);
  anim_channels : list (cgltf_animation_channel P)
}.

Record cgltf_data (P : Set) : Set := mk_data {
  file_type : cgltf_file_type;
  meshes : list (cgltf_mesh P);
  materials : list (cgltf_material P);
  accessors : list (cgltf_accessor P);
  buffer_views : list (cgltf_buffer_view P);
  buffers : list cgltf_buffer;
  images : list (cgltf_image P);
  textures : list (cgltf_texture P);
  samplers_count : Z;
  skins : list (cgltf_skin P);
  cameras_count : Z;
  lights_count : Z;
  nodes : list (cgltf_node P);
  scenes : list (cgltf_scene P);
  scene : P;
  animations : list (cgltf_animation P);
  json : list Z;                (* json and json_size *)
  bin : option (list Z)         (* bin and bin_size *)
}.

Unset Implicit Arguments.

(** The element count of an array of the root, as a [cgltf_size]. *)
Definition count_of {A : Type} (array : list A) : Z := Z.of_nat (length array).

(** ** Reading typed values from a byte buffer

    The host is little-endian, as the glTF buffers are.  A read outside the
    buffer has no defined result ([None]). *)

Definition read_u8 (mem : list Z) (addr : Z) : option Z :=
  if addr <? 0 then None else mem !! Z.to_nat addr.

Definition read_u16 (mem : list Z) (addr : Z) : option Z :=
  b0 ← read_u8 mem addr;
  b1 ← read_u8 mem (addr + 1);
  Some (Z.lor b0 (Z.shiftl b1 8)).

Definition read_u32 (mem : list Z) (addr : Z) : option Z :=
  b0 ← read_u8 mem addr;
  b1 ← read_u8 mem (addr + 1);
  b2 ← read_u8 mem (addr + 2);
  b3 ← read_u8 mem (addr + 3);
  Some (Z.lor (Z.lor b0 (Z.shiftl b1 8)) (Z.lor (Z.shiftl b2 16) (Z.shiftl b3 24))).

(** The value of a [bits]-wide unsigned integer read as two's complement. *)
Definition to_signed (bits : Z) (v : Z) : Z :=
  if v <? 2 ^ (bits - 1) then v else v - 2 ^ bits.

Definition read_i8 (mem : list Z) (addr : Z) : option Z := to_signed 8 <$> read_u8 mem addr.
Definition read_i16 (mem : list Z) (addr : Z) : option Z := to_signed 16 <$> read_u16 mem addr.

(** *** binary32 arithmetic *)

Definition F32_PREC : Z := 24.
Definition F32_EMAX : Z := 128.

(** Conversion of an integer to [float] (round to nearest, ties to even). *)
Definition f32_of_Z (z : Z) : cgltf_float := binary_normalize F32_PREC F32_EMAX z 0 false.

Definition f32_div (x y : cgltf_float) : cgltf_float := SFdiv F32_PREC F32_EMAX x y.

(** The [float] whose IEEE-754 encoding is the 32-bit word [w]. *)
Definition f32_of_bits (w : Z) : cgltf_float :=
  let s := Z.testbit w 31 in
  let e := Z.land (Z.shiftr w 23) 255 in
  let m := Z.land w (2 ^ 23 - 1) in
  if e =? 0 then
    if m =? 0 then S754_zero s else S754_finite s (Z.to_pos m) (-149)
  else if e =? 255 then
    if m =? 0 then S754_infinity s else S754_nan
  else S754_finite s (Z.to_pos (m + 2 ^ 23)) (e - 150).

Definition read_f32 (mem : list Z) (addr : Z) : option cgltf_float :=
  f32_of_bits <$> read_u32 mem addr.

(** Conversion of a [float] to [cgltf_size]: truncation toward zero; not
    defined for a NaN, an infinity or a value outside the range of the type. *)
Definition size_of_f32 (f : cgltf_float) : option Z :=
  match f with
  | S754_zero _ => Some 0
  | S754_finite s m e =>
      let t := if 0 <=? e then Z.pos m * 2 ^ e else Z.pos m / 2 ^ (- e) in
      if s then (if t =? 0 then Some 0 else None)
      else if t <=? SIZE_MAX then Some t else None
  | _ => None
  end.

(** Modelled from the spec: the constants of [<limits.h>] that
    [cgltf_component_read_float] divides by; the system header is not part
    of the repository.  Plain [char] is signed, so that [CHAR_MAX] is 127,
    as sections 4.5 and 9 of the specification state. *)
Definition UINT_MAX : Z := 4294967295.
Definition SHRT_MAX : Z := 32767.
Definition USHRT_MAX : Z := 65535.
Definition SCHAR_MAX : Z := 127.
Definition CHAR_MAX : Z := 127.

(** ** Accessor services *)

Definition cgltf_component_read_index (mem : list Z) (in_ : Z)
    (component_type : cgltf_component_type) : option Z :=
  match component_type with
  | cgltf_component_type_r_16 => size_wrap <$> read_i16 mem in_
  | cgltf_component_type_r_16u => read_u16 mem in_
  | cgltf_component_type_r_32u => read_u32 mem in_
  | cgltf_component_type_r_32f => read_f32 mem in_ ≫= size_of_f32
  | cgltf_component_type_r_8 => size_wrap <$> read_i8 mem in_
  | cgltf_component_type_r_8u | cgltf_component_type_invalid => read_u8 mem in_
  end.

Definition cgltf_component_read_float (mem : list Z) (in_ : Z)
    (component_type : cgltf_component_type) (normalized : bool) : option cgltf_float :=
  if bool_decide (component_type = cgltf_component_type_r_32f) then read_f32 mem in_
  else if normalized then
    match component_type with
    | cgltf_component_type_r_32u =>
        v ← read_u32 mem in_; Some (f32_div (f32_of_Z v) (f32_of_Z UINT_MAX))
    | cgltf_component_type_r_16 =>
        v ← read_i16 mem in_; Some (f32_div (f32_of_Z v) (f32_of_Z SHRT_MAX))
    | cgltf_component_type_r_16u =>
        v ← read_u16 mem in_; Some (f32_div (f32_of_Z v) (f32_of_Z USHRT_MAX))
    | cgltf_component_type_r_8 =>
        v ← read_i8 mem in_; Some (f32_div (f32_of_Z v) (f32_of_Z SCHAR_MAX))
    | _ =>
        v ← read_u8 mem in_; Some (f32_div (f32_of_Z v) (f32_of_Z CHAR_MAX))
    end
  else f32_of_Z <$> cgltf_component_read_index mem in_ component_type.

(** The assignments [out[i] = cgltf_component_read_float(element + off, ...)]
    for the offsets [off] of [offsets] in turn, starting at [out[i]]. *)
Fixpoint read_components (mem : list Z) (element : Z)
    (component_type : cgltf_component_type) (normalized : bool)
    (offsets : list Z) (i : nat) (out : list cgltf_float) : option (list cgltf_float) :=
  match offsets with
  | [] => Some out
  | off :: offsets' =>
      v ← cgltf_component_read_float mem (element + off) component_type normalized;
      read_components mem element component_type normalized offsets' (S i) (<[i := v]> out)
  end.

(** The element pointer is [mem + element], where [mem] is the [data] of the
    buffer ([None] while the buffer is not loaded); [element_size] is the
    number of floats of [out]. *)
Definition cgltf_element_read_float (mem : option (list Z)) (element : Z) (type : cgltf_type)
    (component_type : cgltf_component_type) (normalized : bool)
    (out : list cgltf_float) (element_size : Z) : option (bool * list cgltf_float) :=
  let num_components := cgltf_num_components type in
  if element_size <? num_components then Some (false, out)
  else
    (* There are three special cases for component extraction *)
    let component_size := cgltf_component_size component_type in
    let read offsets :=
      bytes ← mem;
      out' ← read_components bytes element component_type normalized offsets 0 out;
      Some (true, out') in
    if bool_decide (type = cgltf_type_mat2) && (component_size =? 1) then
      read [0; 1; 4; 5]
    else if bool_decide (type = cgltf_type_mat3) && (component_size =? 1) then
      read [0; 1; 2; 4; 5; 6; 8; 9; 10]
    else if bool_decide (type = cgltf_type_mat3) && (component_size =? 2) then
      read [0; 2; 4; 8; 10; 12; 16; 18; 20]
    else
      read ((fun i => component_size * i) <$> seqZ 0 num_components).

(** Dereference of a pointer into [array]; [None] for a null or dangling
    pointer. *)
Definition deref {A : Type} (array : list A) (p : ptr) : option A :=
  i ← p; array !! i.

(** [accessor->buffer_view->buffer->data] with the view, for a view pointer
    that is not null. *)
Definition view_data (data : cgltf_data ptr) (view : ptr)
  : option (cgltf_buffer_view ptr * option (list Z)) :=
  bv ← deref (buffer_views data) view;
  buf ← deref (buffers data) (bv_buffer bv);
  Some (bv, buffer_data buf).

Definition cgltf_accessor_read_float (data : cgltf_data ptr) (accessor : cgltf_accessor ptr)
    (index : Z) (out : list cgltf_float) (element_size : Z)
  : option (bool * list cgltf_float) :=
  if is_sparse accessor || bool_decide (acc_buffer_view accessor = None) then
    Some (false, out)
  else
    '(bv, mem) ← view_data data (acc_buffer_view accessor);
    let offset := size_wrap (acc_offset accessor + bv_offset bv) in
    let element := size_wrap (offset + acc_stride accessor * index) in
    cgltf_element_read_float mem element (acc_type accessor) (component_type accessor)
      (normalized accessor) out element_size.

Definition cgltf_accessor_read_index (data : cgltf_data ptr) (accessor : cgltf_accessor ptr)
    (index : Z) : option Z :=
  if bool_decide (acc_buffer_view accessor = None) then Some 0
  else
    '(bv, mem) ← view_data data (acc_buffer_view accessor);
    mem ← mem;
    let offset := size_wrap (acc_offset accessor + bv_offset bv) in
    let element := size_wrap (offset + acc_stride accessor * index) in
    cgltf_component_read_index mem element (component_type accessor).

(** ** Reference fix-up *)

Definition CGLTF_ERROR_JSON : Z := -1.
Definition CGLTF_ERROR_NOMEM : Z := -2.

(** The outcome of a function that returns a negative [int] on error and
    otherwise carries on with the (updated) object. *)
Inductive fixup (A : Type) : Type :=
| Fixed (a : A)
| FixupError (code : Z).
Arguments Fixed {A} a.
Arguments FixupError {A} code.

Definition fixup_bind {A B : Type} (m : fixup A) (f : A -> fixup B) : fixup B :=
  match m with
  | Fixed a => f a
  | FixupError code => FixupError code
  end.

#[global] Instance fixup_mbind : MBind fixup := fun A B f m => fixup_bind m f.
#[global] Instance fixup_mret : MRet fixup := @Fixed.

(** [(type* )(cgltf_size)(idx + 1)] for the [int] index the decoder read. *)
Definition CGLTF_PTRINDEX (idx : Z) : encoded := size_wrap (idx + 1).

(** [CGLTF_PTRFIXUP(var, data, size)]: an optional edge. *)
Definition CGLTF_PTRFIXUP (var : encoded) (size : Z) : fixup ptr :=
  if var =? 0 then Fixed None
  else if size <? var then FixupError CGLTF_ERROR_JSON
  else Fixed (Some (Z.to_nat (var - 1))).

(** [CGLTF_PTRFIXUP_REQ(var, data, size)]: a required edge; the result is the
    index [i] of the element [&data[i]] stored in the slot. *)
Definition CGLTF_PTRFIXUP_REQ (var : encoded) (size : Z) : fixup nat :=
  if (var =? 0) || (size <? var) then FixupError CGLTF_ERROR_JSON
  else Fixed (Z.to_nat (var - 1)).

(** A [for] loop over an array whose body fixes one element and may return. *)
Fixpoint fixup_each {A B : Type} (body : A -> fixup B) (array : list A) : fixup (list B) :=
  match array with
  | [] => Fixed []
  | a :: rest =>
      b ← body a;
      rest' ← fixup_each body rest;
      Fixed (b :: rest')
  end.

Section Fixup.

(** The decoded root whose slots are being fixed. *)
Variable data : cgltf_data encoded.

Definition fixup_attribute (a : cgltf_attribute encoded) : fixup (cgltf_attribute ptr) :=
  i ← CGLTF_PTRFIXUP_REQ (attr_data a) (count_of (accessors data));
  Fixed (mk_attribute (Some i)).

Definition fixup_morph_target (t : cgltf_morph_target encoded)
  : fixup (cgltf_morph_target ptr) :=
  attrs ← fixup_each fixup_attribute (target_attributes t);
  Fixed (mk_morph_target attrs).

Definition fixup_primitive (p : cgltf_primitive encoded) : fixup (cgltf_primitive ptr) :=
  indices ← CGLTF_PTRFIXUP (prim_indices p) (count_of (accessors data));
  material ← CGLTF_PTRFIXUP (prim_material p) (count_of (materials data));
  attrs ← fixup_each fixup_attribute (prim_attributes p);
  targets ← fixup_each fixup_morph_target (prim_targets p);
  Fixed (mk_primitive indices material attrs targets).

Definition fixup_mesh (m : cgltf_mesh encoded) : fixup (cgltf_mesh ptr) :=
  prims ← fixup_each fixup_primitive (primitives m);
  Fixed (mk_mesh prims (mesh_weights m)).

Definition fixup_accessor (a : cgltf_accessor encoded) : fixup (cgltf_accessor ptr) :=
  view ← CGLTF_PTRFIXUP (acc_buffer_view a) (count_of (buffer_views data));
  sp ← (if is_sparse a then
            iv ← CGLTF_PTRFIXUP_REQ (indices_buffer_view (sparse a))
                     (count_of (buffer_views data));
            vv ← CGLTF_PTRFIXUP_REQ (values_buffer_view (sparse a))
                     (count_of (buffer_views data));
            Fixed (Some iv, Some vv)
          else
            (* the slots of a non-sparse accessor are left as the decoder
               zero-initialised them *)
            Fixed (None, None));
  let stride1 :=
    match view with
    | Some v =>
        match buffer_views data !! v with
        | Some bv => bv_stride bv
        | None => acc_stride a   (* not reached: v is below the count *)
        end
    | None => acc_stride a
    end in
  let stride2 :=
    if stride1 =? 0 then cgltf_calc_size (acc_type a) (component_type a) else stride1 in
  Fixed (mk_accessor (component_type a) (normalized a) (acc_type a) (acc_offset a)
           (acc_count a) stride2 view (is_sparse a)
           (mk_accessor_sparse (sparse_count (sparse a)) sp.1
              (indices_byte_offset (sparse a)) (indices_component_type (sparse a))
              sp.2 (values_byte_offset (sparse a)))).

Definition fixup_texture (t : cgltf_texture encoded) : fixup (cgltf_texture ptr) :=
  image ← CGLTF_PTRFIXUP (tex_image t) (count_of (images data));
  sampler ← CGLTF_PTRFIXUP (tex_sampler t) (samplers_count data);
  Fixed (mk_texture image sampler).

Definition fixup_image (i : cgltf_image encoded) : fixup (cgltf_image ptr) :=
  view ← CGLTF_PTRFIXUP (image_buffer_view i) (count_of (buffer_views data));
  Fixed (mk_image view).

Definition fixup_texture_view (v : cgltf_texture_view encoded)
  : fixup (cgltf_texture_view ptr) :=
  t ← CGLTF_PTRFIXUP (tv_texture v) (count_of (textures data));
  Fixed (mk_texture_view t).

Definition fixup_material (m : cgltf_material encoded) : fixup (cgltf_material ptr) :=
  normal ← fixup_texture_view (normal_texture m);
  emissive ← fixup_texture_view (emissive_texture m);
  occlusion ← fixup_texture_view (occlusion_texture m);
  base_color ← fixup_texture_view (base_color_texture (pbr_metallic_roughness m));
  metallic_roughness ←
    fixup_texture_view (metallic_roughness_texture (pbr_metallic_roughness m));
  diffuse ← fixup_texture_view (diffuse_texture (pbr_specular_glossiness m));
  specular_glossiness ←
    fixup_texture_view (specular_glossiness_texture (pbr_specular_glossiness m));
  Fixed (mk_material (mk_pbr_metallic_roughness base_color metallic_roughness)
           (mk_pbr_specular_glossiness diffuse specular_glossiness)
           normal occlusion emissive).

Definition fixup_buffer_view (v : cgltf_buffer_view encoded)
  : fixup (cgltf_buffer_view ptr) :=
  b ← CGLTF_PTRFIXUP_REQ (bv_buffer v) (count_of (buffers data));
  Fixed (mk_buffer_view (Some b) (bv_offset v) (bv_size v) (bv_stride v)).

Definition fixup_joint (j : encoded) : fixup ptr :=
  i ← CGLTF_PTRFIXUP_REQ j (count_of (nodes data));
  Fixed (Some i).

Definition fixup_skin (s : cgltf_skin encoded) : fixup (cgltf_skin ptr) :=
  js ← fixup_each fixup_joint (joints s);
  skel ← CGLTF_PTRFIXUP (skeleton s) (count_of (nodes data));
  ibm ← CGLTF_PTRFIXUP (inverse_bind_matrices s) (count_of (accessors data));
  Fixed (mk_skin js skel ibm).

(** The loop over the children of node [i].  [parents] holds the [parent]
    fields of [data->nodes], one per node: the loop writes the field of the
    child, which is another element of the array than the one it visits. *)
Fixpoint fixup_children (i : nat) (slots : list encoded) (parents : list ptr)
  : fixup (list ptr * list ptr) :=
  match slots with
  | [] => Fixed ([], parents)
  | slot :: rest =>
      c ← CGLTF_PTRFIXUP_REQ slot (count_of (nodes data));
      match parents !!! c with
      | Some _ => FixupError CGLTF_ERROR_JSON
      | None =>
          '(rest', parents') ← fixup_children i rest (<[c := Some i]> parents);
          Fixed (Some c :: rest', parents')
      end
  end.

Definition fixup_node (i : nat) (n : cgltf_node encoded) (parents : list ptr)
  : fixup (cgltf_node ptr * list ptr) :=
  '(cs, parents') ← fixup_children i (children n) parents;
  mesh ← CGLTF_PTRFIXUP (node_mesh n) (count_of (meshes data));
  skin ← CGLTF_PTRFIXUP (node_skin n) (count_of (skins data));
  camera ← CGLTF_PTRFIXUP (node_camera n) (cameras_count data);
  light ← CGLTF_PTRFIXUP (node_light n) (lights_count data);
  Fixed (mk_node (node_parent n) cs skin mesh camera light (node_weights n), parents').

(** The loop over [data->nodes] from index [i] on. *)
Fixpoint fixup_nodes (i : nat) (ns : list (cgltf_node encoded)) (parents : list ptr)
  : fixup (list (cgltf_node ptr) * list ptr) :=
  match ns with
  | [] => Fixed ([], parents)
  | n :: rest =>
      '(n', parents1) ← fixup_node i n parents;
      '(rest', parents2) ← fixup_nodes (S i) rest parents1;
      Fixed (n' :: rest', parents2)
  end.

Definition set_node_parent (n : cgltf_node ptr) (parent : ptr) : cgltf_node ptr :=
  mk_node parent (children n) (node_skin n) (node_mesh n) (node_camera n) (node_light n)
    (node_weights n).

(** A root of a scene: the slot is fixed and the node must have no parent. *)
Definition fixup_scene_node (parents : list ptr) (slot : encoded) : fixup ptr :=
  r ← CGLTF_PTRFIXUP_REQ slot (count_of (nodes data));
  match parents !!! r with
  | Some _ => FixupError CGLTF_ERROR_JSON
  | None => Fixed (Some r)
  end.

Definition fixup_scene (parents : list ptr) (s : cgltf_scene encoded)
  : fixup (cgltf_scene ptr) :=
  roots ← fixup_each (fixup_scene_node parents) (scene_nodes s);
  Fixed (mk_scene roots).

Definition fixup_animation_sampler (s : cgltf_animation_sampler encoded)
  : fixup (cgltf_animation_sampler ptr) :=
  input ← CGLTF_PTRFIXUP_REQ (sampler_input s) (count_of (accessors data));
  output ← CGLTF_PTRFIXUP_REQ (sampler_output s) (count_of (accessors data));
  Fixed (mk_animation_sampler (Some input) (Some output)).

Definition fixup_animation_channel (samplers_count : Z) (c : cgltf_animation_channel encoded)
  : fixup (cgltf_animation_channel ptr) :=
  sampler ← CGLTF_PTRFIXUP_REQ (channel_sampler c) samplers_count;
  node ← CGLTF_PTRFIXUP (target_node c) (count_of (nodes data));
  Fixed (mk_animation_channel (Some sampler) node).

Definition fixup_animation (a : cgltf_animation encoded) : fixup (cgltf_animation ptr) :=
  samplers ← fixup_each fixup_animation_sampler (anim_samplers a);
  channels ←
    fixup_each (fixup_animation_channel (count_of (anim_samplers a))) (anim_channels a);
  Fixed (mk_animation samplers channels).

Definition cgltf_fixup_pointers : fixup (cgltf_data ptr) :=
  meshes' ← fixup_each fixup_mesh (meshes data);
  accessors' ← fixup_each fixup_accessor (accessors data);
  textures' ← fixup_each fixup_texture (textures data);
  images' ← fixup_each fixup_image (images data);
  materials' ← fixup_each fixup_material (materials data);
  buffer_views' ← fixup_each fixup_buffer_view (buffer_views data);
  skins' ← fixup_each fixup_skin (skins data);
  '(nodes', parents) ← fixup_nodes 0 (nodes data) ((fun n => node_parent n) <$> nodes data);
  scenes' ← fixup_each (fixup_scene parents) (scenes data);
  scene' ← CGLTF_PTRFIXUP (scene data) (count_of (scenes data));
  animations' ← fixup_each fixup_animation (animations data);
  Fixed (mk_data (file_type data) meshes' materials' accessors' buffer_views'
           (buffers data) images' textures' (samplers_count data) skins'
           (cameras_count data) (lights_count data)
           (zip_with set_node_parent nodes' parents)
           scenes' scene' animations' (json data) (bin data)).

End Fixup.

(** ** Validator *)

(** What a check inside [cgltf_validate] does: fall through, or return. *)
Inductive check : Set :=
| Pass
| Stop (r : cgltf_result).

(** A [for] loop whose body may return; [None] when a round is not defined
    (it dereferences a null or dangling pointer, or reads outside a buffer). *)
Fixpoint check_each {A : Type} (body : A -> option check) (array : list A) : option check :=
  match array with
  | [] => Some Pass
  | a :: rest =>
      match body a with
      | Some Pass => check_each body rest
      | other => other
      end
  end.

(** The maximum of the [count] indices of width [width] stored from [addr] on. *)
Fixpoint index_bound_loop (read : list Z -> Z -> option Z) (width : Z) (mem : list Z)
    (addr : Z) (count : nat) (bound : Z) : option Z :=
  match count with
  | O => Some bound
  | S count' =>
      v ← read mem addr;
      index_bound_loop read width mem (addr + width) count'
        (if v <? bound then bound else v)
  end.

Definition cgltf_calc_index_bound (data : cgltf_data ptr) (buffer_view : ptr) (offset : Z)
    (component_type : cgltf_component_type) (count : Z) : option Z :=
  '(bv, mem) ← view_data data buffer_view;
  mem ← mem;
  let addr := size_wrap (offset + bv_offset bv) in
  match component_type with
  | cgltf_component_type_r_8u => index_bound_loop read_u8 1 mem addr (Z.to_nat count) 0
  | cgltf_component_type_r_16u => index_bound_loop read_u16 2 mem addr (Z.to_nat count) 0
  | cgltf_component_type_r_32u => index_bound_loop read_u32 4 mem addr (Z.to_nat count) 0
  | _ => Some 0
  end.

Definition is_index_type (component_type : cgltf_component_type) : bool :=
  bool_decide (component_type = cgltf_component_type_r_8u)
  || bool_decide (component_type = cgltf_component_type_r_16u)
  || bool_decide (component_type = cgltf_component_type_r_32u).

(** [req_size] of the first loop of [cgltf_validate], in [cgltf_size]
    arithmetic. *)
Definition accessor_req_size (accessor : cgltf_accessor ptr) : Z :=
  let element_size := cgltf_calc_size (acc_type accessor) (component_type accessor) in
  size_wrap (acc_offset accessor
             + size_wrap (acc_stride accessor * size_wrap (acc_count accessor - 1))
             + element_size).

(** The body of the loop over [data->accessors]. *)
Definition validate_accessor (data : cgltf_data ptr) (accessor : cgltf_accessor ptr)
  : option check :=
  let element_size := cgltf_calc_size (acc_type accessor) (component_type accessor) in
  c ← (if bool_decide (acc_buffer_view accessor = None) then Some Pass
       else
         bv ← deref (buffer_views data) (acc_buffer_view accessor);
         if bv_size bv <? accessor_req_size accessor
         then Some (Stop cgltf_result_data_too_short) else Some Pass);
  match c with
  | Stop r => Some (Stop r)
  | Pass =>
      if is_sparse accessor then
        let sp := sparse accessor in
        let indices_component_size :=
          cgltf_calc_size cgltf_type_scalar (indices_component_type sp) in
        let indices_req_size :=
          size_wrap (indices_byte_offset sp
                     + size_wrap (indices_component_size * sparse_count sp)) in
        let values_req_size :=
          size_wrap (values_byte_offset sp + size_wrap (element_size * sparse_count sp)) in
        ibv ← deref (buffer_views data) (indices_buffer_view sp);
        short ← (if bv_size ibv <? indices_req_size then Some true
                 else vbv ← deref (buffer_views data) (values_buffer_view sp);
                      Some (bv_size vbv <? values_req_size));
        if short : bool then Some (Stop cgltf_result_data_too_short)
        else if negb (is_index_type (indices_component_type sp))
        then Some (Stop cgltf_result_invalid_gltf)
        else
          '(_, mem) ← view_data data (indices_buffer_view sp);
          match mem with
          | None => Some Pass
          | Some _ =>
              index_bound ← cgltf_calc_index_bound data (indices_buffer_view sp)
                              (indices_byte_offset sp) (indices_component_type sp)
                              (sparse_count sp);
              if acc_count accessor <=? index_bound
              then Some (Stop cgltf_result_data_too_short) else Some Pass
          end
      else Some Pass
  end.

(** The body of the loop over [data->buffer_views]. *)
Definition validate_buffer_view (data : cgltf_data ptr) (view : cgltf_buffer_view ptr)
  : option check :=
  let req_size := size_wrap (bv_offset view + bv_size view) in
  if bool_decide (bv_buffer view = None) then Some Pass
  else
    buf ← deref (buffers data) (bv_buffer view);
    if buffer_size buf <? req_size then Some (Stop cgltf_result_data_too_short)
    else Some Pass.

Definition targets_count (p : cgltf_primitive ptr) : Z := count_of (prim_targets p).

Definition weights_count (weights : option (list cgltf_float)) : Z :=
  match weights with
  | Some w => count_of w
  | None => 0
  end.

(** [attribute.data->count != first->count] *)
Definition validate_attribute_count (data : cgltf_data ptr) (first : cgltf_accessor ptr)
    (a : cgltf_attribute ptr) : option check :=
  acc ← deref (accessors data) (attr_data a);
  if bool_decide (acc_count acc <> acc_count first)
  then Some (Stop cgltf_result_invalid_gltf) else Some Pass.

(** The body of the loop over the primitives of a mesh whose first primitive
    is [first_prim]. *)
Definition validate_primitive (data : cgltf_data ptr) (first_prim : cgltf_primitive ptr)
    (p : cgltf_primitive ptr) : option check :=
  if bool_decide (targets_count p <> targets_count first_prim)
  then Some (Stop cgltf_result_invalid_gltf)
  else
    match prim_attributes p with
    | [] => Some Pass
    | a0 :: _ =>
        first ← deref (accessors data) (attr_data a0);
        c1 ← check_each (validate_attribute_count data first) (prim_attributes p);
        match c1 with
        | Stop r => Some (Stop r)
        | Pass =>
            c2 ← check_each
                   (fun t => check_each (validate_attribute_count data first)
                               (target_attributes t))
                   (prim_targets p);
            match c2 with
            | Stop r => Some (Stop r)
            | Pass =>
                match prim_indices p with
                | None => Some Pass
                | Some _ =>
                    indices ← deref (accessors data) (prim_indices p);
                    if negb (is_index_type (component_type indices))
                    then Some (Stop cgltf_result_invalid_gltf)
                    else if bool_decide (acc_buffer_view indices = None) then Some Pass
                    else
                      '(_, mem) ← view_data data (acc_buffer_view indices);
                      match mem with
                      | None => Some Pass
                      | Some _ =>
                          index_bound ← cgltf_calc_index_bound data
                                          (acc_buffer_view indices) (acc_offset indices)
                                          (component_type indices) (acc_count indices);
                          if acc_count first <=? index_bound
                          then Some (Stop cgltf_result_data_too_short) else Some Pass
                      end
                end
            end
        end
    end.

(** The body of the loop over [data->meshes]. *)
Definition validate_mesh (data : cgltf_data ptr) (m : cgltf_mesh ptr) : option check :=
  match primitives m with
  | [] => Some Pass
  | first_prim :: _ =>
      if bool_decide (mesh_weights m <> None)
         && bool_decide (targets_count first_prim <> weights_count (mesh_weights m))
      then Some (Stop cgltf_result_invalid_gltf)
      else check_each (validate_primitive data first_prim) (primitives m)
  end.

(** The body of the loop over [data->nodes]. *)
Definition validate_node (data : cgltf_data ptr) (n : cgltf_node ptr) : option check :=
  if bool_decide (node_weights n <> None) && bool_decide (node_mesh n <> None) then
    m ← deref (meshes data) (node_mesh n);
    match primitives m with
    | [] => Some Pass
    | first_prim :: _ =>
        if bool_decide (targets_count first_prim <> weights_count (node_weights n))
        then Some (Stop cgltf_result_invalid_gltf) else Some Pass
    end
  else Some Pass.

Definition cgltf_validate (data : cgltf_data ptr) : option cgltf_result :=
  c ← check_each (validate_accessor data) (accessors data);
  match c with
  | Stop r => Some r
  | Pass =>
      c ← check_each (validate_buffer_view data) (buffer_views data);
      match c with
      | Stop r => Some r
      | Pass =>
          c ← check_each (validate_mesh data) (meshes data);
          match c with
          | Stop r => Some r
          | Pass =>
              c ← check_each (validate_node data) (nodes data);
              match c with
              | Stop r => Some r
              | Pass => Some cgltf_result_success
              end
          end
      end
  end.

(** ** Extras *)

(** What the copy does to the destination: it completes, or it writes at an
    index outside the destination, or its behaviour is not defined (a read
    outside the JSON text, or a null [dest_size] that is dereferenced). *)
Inductive copy (A : Type) : Type :=
| Copied (a : A)
| WritesOutside (index : Z)
| CopyUndefined.
Arguments Copied {A} a.
Arguments WritesOutside {A} index.
Arguments CopyUndefined {A}.

(** [n] zero bytes written from [dest[i]] on. *)
Fixpoint store_zeros (dest : list Z) (n : Z) (i : Z) : copy (list Z) :=
  if n <=? 0 then Copied dest
  else
    match dest with
    | [] => WritesOutside i
    | _ :: dest' =>
        match store_zeros dest' (n - 1) (i + 1) with
        | Copied d => Copied (0 :: d)
        | other => other
        end
    end.

(** [strncpy(dest + i, src, n)]: exactly [n] bytes are written, the bytes of
    [src] up to its first NUL and NUL bytes from there on. *)
Fixpoint strncpy (dest : list Z) (src : list Z) (n : Z) (i : Z) : copy (list Z) :=
  if n <=? 0 then Copied dest
  else
    match dest with
    | [] => WritesOutside i
    | _ :: dest' =>
        match src with
        | [] => CopyUndefined
        | c :: src' =>
            if c =? 0 then store_zeros dest n i
            else
              match strncpy dest' src' (n - 1) (i + 1) with
              | Copied d => Copied (c :: d)
              | other => other
              end
        end
    end.

(** [dest[idx] = 0] *)
Definition store_nul (dest : list Z) (idx : Z) : copy (list Z) :=
  if (idx <? 0) || (count_of dest <=? idx) then WritesOutside idx
  else Copied (<[Z.to_nat idx := 0]> dest).

(** [dest] is the destination array ([None] for a null pointer) and
    [dest_size] the value [*dest_size] ([None] for a null pointer).  The
    result is the returned code with the destination and [*dest_size]. *)
Definition cgltf_copy_extras_json {P : Set} (data : cgltf_data P) (extras : cgltf_extras)
    (dest : option (list Z)) (dest_size : option Z)
  : copy (cgltf_result * option (list Z) * option Z) :=
  let json_size := size_wrap (end_offset extras - start_offset extras) in
  match dest with
  | None =>
      match dest_size with
      | Some _ => Copied (cgltf_result_success, None, Some (size_wrap (json_size + 1)))
      | None => Copied (cgltf_result_invalid_options, None, None)
      end
  | Some buf =>
      match dest_size with
      | None => CopyUndefined
      | Some size =>
          let src := drop (Z.to_nat (start_offset extras)) (json data) in
          let copied :=
            if size_wrap (size + 1) <? json_size then
              match strncpy buf src (size_wrap (size - 1)) 0 with
              | Copied buf' => store_nul buf' (size_wrap (size - 1))
              | other => other
              end
            else
              match strncpy buf src json_size 0 with
              | Copied buf' => store_nul buf' json_size
              | other => other
              end in
          match copied with
          | Copied buf' => Copied (cgltf_result_success, Some buf', Some size)
          | WritesOutside i => WritesOutside i
          | CopyUndefined => CopyUndefined
          end
      end
  end.

(** ** Container demultiplexer and top-level decoding *)

Definition GlbHeaderSize : Z := 12.
Definition GlbChunkHeaderSize : Z := 8.
Definition GlbVersion : Z := 2.
Definition GlbMagic : Z := 0x46546C67.
Definition GlbMagicJsonChunk : Z := 0x4E4F534A.
Definition GlbMagicBinChunk : Z := 0x004E4942.

(** The allocator callbacks of [cgltf_options] are reduced to what the parse
    observes of them: whether an allocation of a given size succeeds.  [None]
    is a null callback. *)
Record cgltf_options : Type := mk_options {
  type : cgltf_file_type;      (* invalid == auto detect *)
  json_token_count : Z;        (* 0 == auto *)
  memory_alloc : option (Z -> bool)
}.

(** [memcpy(&tmp, data + offset, 4)] for a [uint32_t tmp], with [0] for a
    byte outside the input (the callers check the size first). *)
Definition load_u32 (data : list Z) (offset : Z) : Z :=
  default 0 (read_u32 data offset).

Definition SIZEOF_jsmntok_t : Z := 20.

Section Parse.

(** The call of the schema decoder [cgltf_parse_json_root] on a zeroed root
    from token 0: the returned [int] and the root as the decoder leaves it.
    The driver is defined for any such function, and the statements about
    the driver hold for all of them; the decoder of the source is
    [decode_root] below. *)
Variable decoder : cgltf_options -> list jsmntok_t -> list Z -> Z * cgltf_data encoded.

(** [cgltf_default_alloc]: whether [malloc] of a size succeeds. *)
Variable cgltf_default_alloc : Z -> bool.

(** [sizeof(cgltf_data)], and the content of a token as [memory_alloc]
    returns it. *)
Variable SIZEOF_cgltf_data : Z.
Variable uninitialized_token : jsmntok_t.

Definition options_alloc (options : cgltf_options) (size : Z) : bool :=
  match memory_alloc options with
  | Some alloc => alloc size
  | None => cgltf_default_alloc size
  end.

(** The end of [cgltf_parse_json], from the value [i] returned by the
    decoder for the root [data] on: the result code and [*out_data] ([None]
    when it is not written, the partial root having been freed). *)
Definition cgltf_parse_json_link (i : Z) (data : cgltf_data encoded) (json_chunk : list Z)
  : cgltf_result * option (cgltf_data ptr) :=
  if i <? 0 then
    (if i =? CGLTF_ERROR_NOMEM then cgltf_result_out_of_memory
     else cgltf_result_invalid_gltf, None)
  else
    match cgltf_fixup_pointers data with
    | FixupError _ => (cgltf_result_invalid_gltf, None)
    | Fixed data =>
        (cgltf_result_success,
         Some (mk_data (file_type data) (meshes data) (materials data)
                 (accessors data) (buffer_views data) (buffers data)
                 (images data) (textures data) (samplers_count data)
                 (skins data) (cameras_count data) (lights_count data)
                 (nodes data) (scenes data) (scene data) (animations data)
                 json_chunk (bin data)))
    end.

(** [cgltf_parse_json] from the allocation of the token array on, with the
    token count settled in [options].  The array is the block of
    [sizeof(jsmntok_t) * json_token_count] bytes, a product of [cgltf_size]:
    it holds the tokens that fit in that many bytes.  The outer [None]: the
    tokeniser's run is not defined. *)
Definition cgltf_parse_json_tokens (options : cgltf_options) (json_chunk : list Z)
  : option (cgltf_result * option (cgltf_data ptr)) :=
  let tokens_size := size_wrap (SIZEOF_jsmntok_t * json_token_count options) in
  if negb (options_alloc options tokens_size)
  then Some (cgltf_result_out_of_memory, None)
  else
    let tokens :=
      replicate (Z.to_nat (tokens_size / SIZEOF_jsmntok_t)) uninitialized_token in
    let parser := jsmn_init (mk_jsmn_parser 0 0 0) in
    '(token_count, _, tokens) ←
      jsmn_parse parser json_chunk (Some tokens) (json_token_count options);
    if token_count <=? 0 then Some (cgltf_result_invalid_json, None)
    else if negb (options_alloc options SIZEOF_cgltf_data)
    then Some (cgltf_result_out_of_memory, None)
    else
      let '(i, data) :=
        decoder options (default [] tokens) json_chunk in
      Some (cgltf_parse_json_link i data json_chunk).

(** The result code and [*out_data].  The outer [None]: the tokeniser's run
    is not defined. *)
Definition cgltf_parse_json (options : cgltf_options) (json_chunk : list Z)
  : option (cgltf_result * option (cgltf_data ptr)) :=
  let parser := mk_jsmn_parser 0 0 0 in
  if json_token_count options =? 0 then
    '(token_count, _, _) ← jsmn_parse parser json_chunk None 0;
    if token_count <=? 0 then Some (cgltf_result_invalid_json, None)
    else
      cgltf_parse_json_tokens
        (mk_options (type options) token_count (memory_alloc options)) json_chunk
  else cgltf_parse_json_tokens options json_chunk.

Definition set_file_type_bin (ft : cgltf_file_type) (bin : option (list Z))
    (data : cgltf_data ptr) : cgltf_data ptr :=
  mk_data ft (meshes data) (materials data) (accessors data) (buffer_views data)
    (buffers data) (images data) (textures data) (samplers_count data) (skins data)
    (cameras_count data) (lights_count data) (nodes data) (scenes data) (scene data)
    (animations data) (json data) bin.

(** The call of [cgltf_parse_json] with what follows it in both branches of
    [cgltf_parse]: the error is passed on, or the root is tagged with the
    file type and the BIN payload. *)
Definition parse_json_as (ft : cgltf_file_type) (bin : option (list Z))
    (fixed_options : cgltf_options) (json_chunk : list Z)
  : option (cgltf_result * option (cgltf_data ptr)) :=
  match cgltf_parse_json fixed_options json_chunk with
  | None => None
  | Some (json_result, out_data) =>
      if bool_decide (json_result <> cgltf_result_success)
      then Some (json_result, None)
      else Some (cgltf_result_success, set_file_type_bin ft bin <$> out_data)
  end.

(** [options] is [None] for a null pointer; [size] is the length of [data]. *)
Definition cgltf_parse (options : option cgltf_options) (data : list Z)
  : option (cgltf_result * option (cgltf_data ptr)) :=
  let size := count_of data in
  if size <? GlbHeaderSize then Some (cgltf_result_data_too_short, None)
  else
    match options with
    | None => Some (cgltf_result_invalid_options, None)
    | Some options =>
        let fixed_options :=
          mk_options (type options) (json_token_count options)
            (Some (options_alloc options)) in
        (* Magic *)
        let tmp := load_u32 data 0 in
        let after_magic : cgltf_result + cgltf_options :=
          if bool_decide (tmp <> GlbMagic) then
            if bool_decide (type fixed_options = cgltf_file_type_invalid) then
              inr (mk_options cgltf_file_type_gltf (json_token_count fixed_options)
                     (memory_alloc fixed_options))
            else if bool_decide (type fixed_options = cgltf_file_type_glb) then
              inl cgltf_result_unknown_format
            else inr fixed_options
          else inr fixed_options in
        match after_magic with
        | inl r => Some (r, None)
        | inr fixed_options =>
            if bool_decide (type fixed_options = cgltf_file_type_gltf) then
              parse_json_as cgltf_file_type_gltf None fixed_options data
            else
              (* Version *)
              let version := load_u32 data 4 in
              if bool_decide (version <> GlbVersion)
              then Some (cgltf_result_unknown_format, None)
              (* Total length *)
              else if size <? load_u32 data 8
              then Some (cgltf_result_data_too_short, None)
              else if size <? GlbHeaderSize + GlbChunkHeaderSize
              then Some (cgltf_result_data_too_short, None)
              else
                (* JSON chunk: length *)
                let json_length := load_u32 data GlbHeaderSize in
                if size <? GlbHeaderSize + GlbChunkHeaderSize + json_length
                then Some (cgltf_result_data_too_short, None)
                (* JSON chunk: magic *)
                else if bool_decide (load_u32 data (GlbHeaderSize + 4) <> GlbMagicJsonChunk)
                then Some (cgltf_result_unknown_format, None)
                else
                  let json_offset := GlbHeaderSize + GlbChunkHeaderSize in
                  let json_chunk :=
                    take (Z.to_nat json_length) (drop (Z.to_nat json_offset) data) in
                  let bin_offset := json_offset + json_length in
                  if bin_offset + GlbChunkHeaderSize <=? size then
                    (* We can read another chunk *)
                    let bin_length := load_u32 data bin_offset in
                    if size <? bin_offset + GlbChunkHeaderSize + bin_length
                    then Some (cgltf_result_data_too_short, None)
                    else if bool_decide (load_u32 data (bin_offset + 4) <> GlbMagicBinChunk)
                    then Some (cgltf_result_unknown_format, None)
                    else
                      let bin :=
                        take (Z.to_nat bin_length)
                          (drop (Z.to_nat (bin_offset + GlbChunkHeaderSize)) data) in
                      parse_json_as cgltf_file_type_glb (Some bin) fixed_options json_chunk
                  else parse_json_as cgltf_file_type_glb None fixed_options json_chunk
        end
    end.

End Parse.

(** ** C strings

    A [const char*] that points to a string is modelled by a [list Z]: the
    string is made of the bytes before the first NUL of the list, or of the
    whole list when it holds no NUL (the terminator is then left out). *)

Definition CH_NUL : Z := 0.

(** The bytes of the string. *)
Fixpoint c_str (s : list Z) : list Z :=
  match s with
  | [] => []
  | c :: s' => if c =? CH_NUL then [] else c :: c_str s'
  end.

Definition strlen (s : list Z) : Z := count_of (c_str s).

(** The byte a pointer to the string reads: the terminator at its end. *)
Definition str_head (s : list Z) : Z :=
  match s with
  | [] => CH_NUL
  | c :: _ => c
  end.

(** [strncmp(s1, s2, n)]: the difference of the first pair of bytes that
    differ among the first [n], read as [unsigned char], and 0 when there is
    none before the end of the strings.  ISO C fixes the sign of the result
    only. *)
Fixpoint strncmp (s1 s2 : list Z) (n : nat) : Z :=
  match n with
  | O => 0
  | S n' =>
      let c1 := str_head s1 in
      let c2 := str_head s2 in
      if c1 =? c2 then (if c1 =? CH_NUL then 0 else strncmp (tail s1) (tail s2) n')
      else c1 - c2
  end.

(** [strchr(s, c)] for a byte [c] other than NUL: the offset of the first
    occurrence of [c] in the string; [None] is [NULL]. *)
Fixpoint strchr (s : list Z) (c : Z) : option nat :=
  match s with
  | [] => None
  | x :: s' =>
      if x =? CH_NUL then None
      else if x =? c then Some 0%nat
      else S <$> strchr s' c
  end.

(** [strrchr(s, c)] for a byte [c] other than NUL: the offset of the last
    occurrence. *)
Fixpoint strrchr (s : list Z) (c : Z) : option nat :=
  match s with
  | [] => None
  | x :: s' =>
      if x =? CH_NUL then None
      else
        match strrchr s' c with
        | Some k => Some (S k)
        | None => if x =? c then Some 0%nat else None
        end
  end.

(** [strstr(s, sub) != NULL], for a string [sub] without NUL. *)
Fixpoint strstr (s sub : list Z) : bool :=
  (strncmp s sub (length sub) =? 0)
  || match s with
     | [] => false
     | x :: s' => if x =? CH_NUL then false else strstr s' sub
     end.

(** [strcpy(dest + i, src)]: the bytes of the string and its terminator are
    written from [dest[i]] on; [dest] is what is left of the destination
    array from there. *)
Fixpoint strcpy (dest : list Z) (src : list Z) (i : Z) : copy (list Z) :=
  match dest with
  | [] => WritesOutside i
  | _ :: dest' =>
      if str_head src =? CH_NUL then Copied (CH_NUL :: dest')
      else
        match strcpy dest' (tail src) (i + 1) with
        | Copied d => Copied (str_head src :: d)
        | other => other
        end
  end.

(** The string literals of the loader. *)
Definition STR_DATA : list Z := [100; 97; 116; 97; 58].                 (* "data:" *)
Definition STR_BASE64 : list Z := [59; 98; 97; 115; 101; 54; 52].       (* ";base64" *)
Definition STR_SCHEME : list Z := [58; 47; 47].                         (* "://" *)

(** ** Loading buffers *)

(** [index] in the loop of [cgltf_load_buffer_base64], for the byte [ch]
    read through [char]. *)
Definition base64_index (ch : Z) : Z :=
  let ch := char_val ch in
  if uint_wrap (ch - 65) <? 26 then ch - 65
  else if uint_wrap (ch - 97) <? 26 then ch - 97 + 26
  else if uint_wrap (ch - 48) <? 10 then ch - 48 + 52
  else if ch =? 43 then 62
  else if ch =? 47 then 63
  else -1.

(** The loop [while (buffer_bits < 8)]: the string left, [buffer] and
    [buffer_bits] when the loop is left, and [None] when it returns
    [cgltf_result_io_error]. *)
Fixpoint base64_fill (base64 : list Z) (buffer buffer_bits : Z) : option (list Z * Z * Z) :=
  if 8 <=? buffer_bits then Some (base64, buffer, buffer_bits)
  else
    let index := base64_index (str_head base64) in
    if index <? 0 then None
    else
      match base64 with
      | [] => None   (* not reached: the terminator has no index *)
      | _ :: rest =>
          base64_fill rest (uint_wrap (Z.lor (Z.shiftl buffer 6) index)) (buffer_bits + 6)
      end.

(** The loop over the [size - i] bytes still to be decoded: the bytes
    stored, and [None] when the loop returns [cgltf_result_io_error]. *)
Fixpoint base64_loop (count : nat) (base64 : list Z) (buffer buffer_bits : Z)
  : option (list Z) :=
  match count with
  | O => Some []
  | S count' =>
      '(rest, buffer, buffer_bits) ← base64_fill base64 buffer buffer_bits;
      data ← base64_loop count' rest buffer (buffer_bits - 8);
      Some (Z.shiftr buffer (buffer_bits - 8) mod 256 :: data)
  end.

(** The path is a buffer of [memory_alloc]: its content is whatever it was.
    [cgltf_combine_paths] writes into it the directory of [base], up to its
    last slash or backslash, and [uri] after it. *)
Definition cgltf_combine_paths (path : list Z) (base uri : list Z) : copy (list Z) :=
  let s0 := strrchr base CH_SLASH in
  let s1 := strrchr base CH_BACKSLASH in
  let slash :=
    match s0 with
    | Some a =>
        match s1 with
        | Some b => if (a <? b)%nat then Some b else Some a
        | None => Some a
        end
    | None => s1
    end in
  match slash with
  | Some k =>
      let prefix := S k in
      match strncpy path base (Z.of_nat prefix) 0 with
      | Copied path' =>
          match strcpy (drop prefix path') uri (Z.of_nat prefix) with
          | Copied rest => Copied (take prefix path' ++ rest)
          | other => other
          end
      | other => other
      end
  | None => strcpy path uri 0
  end.

Section LoadBuffers.

(** [cgltf_default_alloc]: whether [malloc] of a size succeeds. *)
Variable cgltf_default_alloc : Z -> bool.

(** A byte of a buffer that [memory_alloc] returns. *)
Variable uninitialized_byte : Z.

(** [fopen(path, "rb")]: the content of the file, [None] when it cannot be
    opened.  [fread] reads as many bytes as asked for, or all there are. *)
Variable fopen : list Z -> option (list Z).

Local Abbreviation alloc := (options_alloc cgltf_default_alloc).

(** The result code and [*out_data] ([None] when it is not written).  The
    outer [None]: the behaviour is not defined (a null [gltf_path], or a
    write outside the path buffer). *)
Definition cgltf_load_buffer_file (options : cgltf_options) (size : Z) (uri : list Z)
    (gltf_path : option (list Z)) : option (cgltf_result * option (list Z)) :=
  gltf_path ← gltf_path;
  let path_size := size_wrap (strlen uri + strlen gltf_path + 1) in
  if negb (alloc options path_size) then Some (cgltf_result_out_of_memory, None)
  else
    let path := replicate (Z.to_nat path_size) uninitialized_byte in
    match cgltf_combine_paths path gltf_path uri with
    | Copied path =>
        match fopen (c_str path) with
        | None => Some (cgltf_result_file_not_found, None)
        | Some file =>
            if negb (alloc options size) then Some (cgltf_result_out_of_memory, None)
            else
              let read_size := Z.min size (count_of file) in
              if bool_decide (read_size <> size) then Some (cgltf_result_io_error, None)
              else Some (cgltf_result_success, Some (take (Z.to_nat size) file))
        end
    | _ => None
    end.

Definition cgltf_load_buffer_base64 (options : cgltf_options) (size : Z) (base64 : list Z)
  : cgltf_result * option (list Z) :=
  if negb (alloc options size) then (cgltf_result_out_of_memory, None)
  else
    match base64_loop (Z.to_nat size) base64 0 0 with
    | None => (cgltf_result_io_error, None)
    | Some data => (cgltf_result_success, Some data)
    end.

(** The [uri] field of [cgltf_buffer] is kept beside the record: a buffer
    of the loop is a pair of its [uri] ([None] is [NULL]) and its record.  The
    loop returns the code and the buffers as it leaves them. *)
Fixpoint load_buffers_loop (options : cgltf_options) (gltf_path : option (list Z))
    (buffers : list (option (list Z) * cgltf_buffer))
  : option (cgltf_result * list cgltf_buffer) :=
  match buffers with
  | [] => Some (cgltf_result_success, [])
  | (uri, buffer) :: rest =>
      let continue (buffer : cgltf_buffer) :=
        '(res, rest') ← load_buffers_loop options gltf_path rest;
        Some (res, buffer :: rest') in
      let stop (res : cgltf_result) := Some (res, buffer :: (snd <$> rest)) in
      if bool_decide (buffer_data buffer <> None) then continue buffer
      else
        match uri with
        | None => continue buffer
        | Some uri =>
            if strncmp uri STR_DATA 5 =? 0 then
              match strchr uri CH_COMMA with
              | Some comma =>
                  if (7 <=? comma)%nat
                     && (strncmp (drop (comma - 7) uri) STR_BASE64 7 =? 0) then
                    let '(res, data) :=
                      cgltf_load_buffer_base64 options (buffer_size buffer)
                        (drop (S comma) uri) in
                    if bool_decide (res <> cgltf_result_success) then stop res
                    else continue (mk_buffer (buffer_size buffer) data)
                  else stop cgltf_result_unknown_format
              | None => stop cgltf_result_unknown_format
              end
            else if negb (strstr uri STR_SCHEME) then
              '(res, data) ← cgltf_load_buffer_file options (buffer_size buffer) uri
                               gltf_path;
              if bool_decide (res <> cgltf_result_success) then stop res
              else continue (mk_buffer (buffer_size buffer) data)
            else stop cgltf_result_unknown_format
        end
  end.

Definition set_buffers (buffers : list cgltf_buffer) (data : cgltf_data ptr)
  : cgltf_data ptr :=
  mk_data (file_type data) (meshes data) (materials data) (accessors data)
    (buffer_views data) buffers (images data) (textures data) (samplers_count data)
    (skins data) (cameras_count data) (lights_count data) (nodes data) (scenes data)
    (scene data) (animations data) (json data) (bin data).

(** [options] is [None] for a null pointer; [uris] are the [uri] fields of
    [data->buffers], one per buffer.  The result is the code and the root as
    the call leaves it. *)
Definition cgltf_load_buffers (options : option cgltf_options) (data : cgltf_data ptr)
    (uris : list (option (list Z))) (gltf_path : option (list Z))
  : option (cgltf_result * cgltf_data ptr) :=
  match options with
  | None => Some (cgltf_result_invalid_options, data)
  | Some options =>
      let attached : cgltf_result + list cgltf_buffer :=
        match buffers data, uris, bin data with
        | buffer :: rest, None :: _, Some payload =>
            if bool_decide (buffer_data buffer = None) then
              if count_of payload <? buffer_size buffer
              then inl cgltf_result_data_too_short
              else inr (mk_buffer (buffer_size buffer) (Some payload) :: rest)
            else inr (buffers data)
        | _, _, _ => inr (buffers data)
        end in
      match attached with
      | inl res => Some (res, data)
      | inr buffers =>
          if bool_decide (length uris <> length buffers) then None
          else
            '(res, buffers') ← load_buffers_loop options gltf_path (zip uris buffers);
            Some (res, set_buffers buffers' data)
      end
  end.

End LoadBuffers.

(** ** Reading JSON tokens *)

(** [atoi] of [<stdlib.h>]: white space is skipped, then an optional sign and
    the decimal digits that follow are read; the result is not defined when
    the value is outside the range of [int]. *)

Definition isspace (c : Z) : bool := (c =? 32) || ((9 <=? c) && (c <=? 13)).
Definition isdigit (c : Z) : bool := (48 <=? c) && (c <=? 57).

Fixpoint skip_spaces (s : list Z) : list Z :=
  match s with
  | c :: s' => if isspace c then skip_spaces s' else s
  | [] => []
  end.

(** The value of the decimal digits at the start of [s], after the digits
    of value [acc]. *)
Fixpoint digits_value (s : list Z) (acc : Z) : Z :=
  match s with
  | c :: s' => if isdigit c then digits_value s' (10 * acc + (c - 48)) else acc
  | [] => acc
  end.

Definition atoi (s : list Z) : option Z :=
  let s := skip_spaces s in
  let v :=
    match s with
    | 45 :: s' => - digits_value s' 0
    | 43 :: s' => digits_value s' 0
    | _ => digits_value s 0
    end in
  if (INT_MIN <=? v) && (v <=? INT_MAX) then Some v else None.

(** [strncmp(mem + addr, s2, n)] for a first argument inside a byte array
    that is not a string: a read outside the array is not defined. *)
Fixpoint strncmp_at (mem : list Z) (addr : Z) (s2 : list Z) (n : nat) : option Z :=
  match n with
  | O => Some 0
  | S n' =>
      c1 ← read_u8 mem addr;
      let c2 := str_head s2 in
      if c1 =? c2 then (if c1 =? CH_NUL then Some 0 else strncmp_at mem (addr + 1) (tail s2) n')
      else Some (c1 - c2)
  end.

(** The [n] bytes of [mem] from [addr] on. *)
Fixpoint read_bytes (mem : list Z) (addr : Z) (n : nat) : option (list Z) :=
  match n with
  | O => Some []
  | S n' =>
      c ← read_u8 mem addr;
      rest ← read_bytes mem (addr + 1) n';
      Some (c :: rest)
  end.

(** The bytes that [strncpy(tmp, mem + addr, n)] copies before it pads: the
    bytes of the source up to its first NUL, [n] at most. *)
Fixpoint read_string (mem : list Z) (addr : Z) (n : nat) : option (list Z) :=
  match n with
  | O => Some []
  | S n' =>
      c ← read_u8 mem addr;
      if c =? CH_NUL then Some []
      else rest ← read_string mem (addr + 1) n'; Some (c :: rest)
  end.

(** [CGLTF_CHECK_KEY] passes. *)
Definition is_key (tok : jsmntok_t) : bool :=
  bool_decide (tok_type tok = JSMN_STRING) && negb (tok_size tok =? 0).

Definition cgltf_json_strcmp (tok : jsmntok_t) (json_chunk : list Z) (str : list Z)
  : option Z :=
  if bool_decide (tok_type tok <> JSMN_STRING) then Some CGLTF_ERROR_JSON
  else
    let str_len := strlen str in
    let name_length := size_wrap (tok_end tok - tok_start tok) in
    if str_len =? name_length
    then strncmp_at json_chunk (tok_start tok) str (Z.to_nat str_len)
    else Some 128.

Definition SIZEOF_tmp : Z := 128.

Definition cgltf_json_to_int (tok : jsmntok_t) (json_chunk : list Z) : option Z :=
  if bool_decide (tok_type tok <> JSMN_PRIMITIVE) then Some CGLTF_ERROR_JSON
  else
    let size :=
      if size_wrap (tok_end tok - tok_start tok) <? SIZEOF_tmp
      then tok_end tok - tok_start tok else SIZEOF_tmp - 1 in
    tmp ← read_string json_chunk (tok_start tok) (Z.to_nat size);
    atoi tmp.

Definition STR_TRUE : list Z := [116; 114; 117; 101].   (* "true" *)

Definition cgltf_json_to_bool (tok : jsmntok_t) (json_chunk : list Z) : option bool :=
  let size := tok_end tok - tok_start tok in
  if size =? 4 then
    text ← read_bytes json_chunk (tok_start tok) 4;
    Some (bool_decide (text = STR_TRUE))
  else Some false.

(** The loop of [cgltf_skip_json] over the [size] elements of an array,
    with [skip] for the recursive call. *)
Fixpoint skip_elements (skip : Z -> option Z) (size : nat) (i : Z) : option Z :=
  match size with
  | O => Some i
  | S size' =>
      i ← skip i;
      if i <? 0 then Some i else skip_elements skip size' i
  end.

(** The loop over the [size] members of an object. *)
Fixpoint skip_members (skip : Z -> option Z) (tokens : list jsmntok_t) (size : nat) (i : Z)
  : option Z :=
  match size with
  | O => Some i
  | S size' =>
      key ← tok_at tokens i;
      if negb (is_key key) then Some CGLTF_ERROR_JSON
      else
        i ← skip (i + 1);
        if i <? 0 then Some i else skip_members skip tokens size' i
  end.

(** The recursion of [cgltf_skip_json] is as deep as the value is nested;
    [fuel] bounds the depth.  [None]: no fuel left, or a token outside the
    array. *)
Fixpoint cgltf_skip_json (fuel : nat) (tokens : list jsmntok_t) (i : Z) : option Z :=
  match fuel with
  | O => None
  | S fuel' =>
      tok ← tok_at tokens i;
      match tok_type tok with
      | JSMN_ARRAY =>
          skip_elements (cgltf_skip_json fuel' tokens) (Z.to_nat (tok_size tok)) (i + 1)
      | JSMN_OBJECT =>
          skip_members (cgltf_skip_json fuel' tokens) tokens (Z.to_nat (tok_size tok))
            (i + 1)
      | JSMN_PRIMITIVE | JSMN_STRING => Some (i + 1)
      | JSMN_UNDEFINED => Some i
      end
  end.

Inductive cgltf_attribute_type : Set :=
| cgltf_attribute_type_invalid
| cgltf_attribute_type_position
| cgltf_attribute_type_normal
| cgltf_attribute_type_tangent
| cgltf_attribute_type_texcoord
| cgltf_attribute_type_color
| cgltf_attribute_type_joints
| cgltf_attribute_type_weights.

#[global] Instance cgltf_attribute_type_eq_dec : EqDecision cgltf_attribute_type.
Proof. solve_decision. Defined.

Definition CH_UNDERSCORE : Z := 95.
Definition STR_POSITION : list Z := [80; 79; 83; 73; 84; 73; 79; 78].
Definition STR_NORMAL : list Z := [78; 79; 82; 77; 65; 76].
Definition STR_TANGENT : list Z := [84; 65; 78; 71; 69; 78; 84].
Definition STR_TEXCOORD : list Z := [84; 69; 88; 67; 79; 79; 82; 68].
Definition STR_COLOR : list Z := [67; 79; 76; 79; 82].
Definition STR_JOINTS : list Z := [74; 79; 73; 78; 84; 83].
Definition STR_WEIGHTS : list Z := [87; 69; 73; 71; 72; 84; 83].

(** [out_index] is the value of [*out_index] before the call; the result is
    [*out_type] and [*out_index] after it ([None]: the value of [atoi] is
    not defined). *)
Definition cgltf_parse_attribute_type (name : list Z) (out_index : Z)
  : option (cgltf_attribute_type * Z) :=
  let us := strchr name CH_UNDERSCORE in
  let len :=
    match us with
    | Some k => Z.of_nat k
    | None => strlen name
    end in
  let out_type :=
    if (len =? 8) && (strncmp name STR_POSITION 8 =? 0) then cgltf_attribute_type_position
    else if (len =? 6) && (strncmp name STR_NORMAL 6 =? 0) then cgltf_attribute_type_normal
    else if (len =? 7) && (strncmp name STR_TANGENT 7 =? 0) then cgltf_attribute_type_tangent
    else if (len =? 8) && (strncmp name STR_TEXCOORD 8 =? 0)
    then cgltf_attribute_type_texcoord
    else if (len =? 5) && (strncmp name STR_COLOR 5 =? 0) then cgltf_attribute_type_color
    else if (len =? 6) && (strncmp name STR_JOINTS 6 =? 0) then cgltf_attribute_type_joints
    else if (len =? 7) && (strncmp name STR_WEIGHTS 7 =? 0) then cgltf_attribute_type_weights
    else cgltf_attribute_type_invalid in
  match us with
  | Some k =>
      if bool_decide (out_type <> cgltf_attribute_type_invalid) then
        index ← atoi (drop (S k) name);
        Some (out_type, index)
      else Some (out_type, out_index)
  | None => Some (out_type, out_index)
  end.

Definition cgltf_json_to_component_type (tok : jsmntok_t) (json_chunk : list Z)
  : option cgltf_component_type :=
  type ← cgltf_json_to_int tok json_chunk;
  Some (if type =? 5120 then cgltf_component_type_r_8
        else if type =? 5121 then cgltf_component_type_r_8u
        else if type =? 5122 then cgltf_component_type_r_16
        else if type =? 5123 then cgltf_component_type_r_16u
        else if type =? 5125 then cgltf_component_type_r_32u
        else if type =? 5126 then cgltf_component_type_r_32f
        else cgltf_component_type_invalid).

(** [options->memory_alloc(options->memory_user_data, size)] inside the
    decoder, where the pointer is called as it is: whether the allocation
    succeeds; [None]: the call of a null function pointer ([cgltf_parse]
    sets the pointer before it calls the decoder). *)
Definition options_memory_alloc (options : cgltf_options) (size : Z) : option bool :=
  alloc ← memory_alloc options;
  Some (alloc size).

(** The zeroed block, [Some None] for [NULL]; the outer [None]: a division
    by an [element_size] of zero, or a null [memory_alloc]. *)
Definition cgltf_calloc (options : cgltf_options) (element_size count : Z)
  : option (option (list Z)) :=
  if element_size =? 0 then None
  else if SIZE_MAX / element_size <? count then Some None
  else
    allocated ← options_memory_alloc options (size_wrap (element_size * count));
    if negb allocated then Some None
    else Some (Some (replicate (Z.to_nat (size_wrap (element_size * count))) 0)).

(** [out_array] and [out_size] are [*out_array] ([None] is [NULL]) and
    [*out_size] before the call; the result is the returned [int] with both
    after it.  The [int] size of the token is converted to [cgltf_size] for
    [cgltf_calloc] and for [*out_size]. *)
Definition cgltf_parse_json_array (options : cgltf_options) (tokens : list jsmntok_t)
    (i : Z) (element_size : Z) (out_array : option (list Z)) (out_size : Z)
  : option (Z * option (list Z) * Z) :=
  tok ← tok_at tokens i;
  if bool_decide (tok_type tok <> JSMN_ARRAY) then Some (CGLTF_ERROR_JSON, out_array, out_size)
  else if bool_decide (out_array <> None) then Some (CGLTF_ERROR_JSON, out_array, out_size)
  else
    let size := tok_size tok in
    result ← cgltf_calloc options element_size (size_wrap size);
    match result with
    | None => Some (CGLTF_ERROR_NOMEM, out_array, out_size)
    | Some block => Some (i + 1, Some block, size_wrap size)
    end.

(** [out_string] is [*out_string] before the call ([None] is [NULL]); the
    result is the returned [int] and [*out_string] after it, the block of
    [size + 1] bytes with the copy.  The outer [None]: a read outside the
    JSON text, or a null [memory_alloc]. *)
Definition cgltf_parse_json_string (options : cgltf_options) (tokens : list jsmntok_t)
    (i : Z) (json_chunk : list Z) (out_string : option (list Z))
    (uninitialized_byte : Z) : option (copy (Z * option (list Z))) :=
  tok ← tok_at tokens i;
  if bool_decide (tok_type tok <> JSMN_STRING) then Some (Copied (CGLTF_ERROR_JSON, out_string))
  else if bool_decide (out_string <> None) then Some (Copied (CGLTF_ERROR_JSON, out_string))
  else
    let size := tok_end tok - tok_start tok in
    allocated ← options_memory_alloc options (size_wrap (size + 1));
    if negb allocated then Some (Copied (CGLTF_ERROR_NOMEM, out_string))
    else if tok_start tok <? 0 then None
    else
      let result := replicate (Z.to_nat (size_wrap (size + 1))) uninitialized_byte in
      match strncpy result (drop (Z.to_nat (tok_start tok)) json_chunk) (size_wrap size) 0 with
      | Copied result =>
          match store_nul result size with
          | Copied result => Some (Copied (i + 1, Some result))
          | WritesOutside k => Some (WritesOutside k)
          | CopyUndefined => None
          end
      | WritesOutside k => Some (WritesOutside k)
      | CopyUndefined => None
      end.

(** ** The schema decoder

    The decoders fill the objects of the root from the token array.  The
    records below are the objects as the decoders see them: a pointer to an
    array or to a string is [None] while it is [NULL], for a second value of
    an array or of a string is an error, and a field that no later stage
    reads is kept where the decoders read it back or it is dropped.  A
    decoder returns a negative [int] on error and the index of the next
    token otherwise; after an error the root is freed unread, so that the
    model keeps the object only where the decoder succeeds.  Everywhere
    [None] is a run that C does not define: a token outside the token array,
    a byte outside the JSON text, a call of a null allocator, an [int] that
    overflows. *)

Inductive decoded (A : Type) : Type :=
| DecodeError (code : Z)
| Decoded (i : Z) (a : A).
Arguments DecodeError {A} code.
Arguments Decoded {A} i a.

(** [i = f(...); if (i < 0) return i;] *)
Definition decode_bind {A B : Type} (m : option (decoded A))
    (f : Z -> A -> option (decoded B)) : option (decoded B) :=
  match m with
  | None => None
  | Some (DecodeError code) => Some (DecodeError code)
  | Some (Decoded i a) => f i a
  end.

(** The [int] a function returns: an error when it is negative. *)
Definition decode_int {A : Type} (i : Z) (a : A) : decoded A :=
  if i <? 0 then DecodeError i else Decoded i a.

(** [for (j = 0; j < count; ++j) { i = body(i, &array[j]); if (i < 0)
    return i; }] over the elements of an array. *)
Fixpoint decode_each {A : Type} (body : Z -> A -> option (decoded A)) (i : Z)
    (array : list A) : option (decoded (list A)) :=
  match array with
  | [] => Some (Decoded i [])
  | a :: rest =>
      decode_bind (body i a) (fun i a' =>
        decode_bind (decode_each body i rest) (fun i rest' =>
          Some (Decoded i (a' :: rest'))))
  end.

(** [for (int j = 0; j < size; ++j) { CGLTF_CHECK_KEY(tokens[i]); ...;
    if (i < 0) return i; }] over the members of an object, where [body] is
    given the key token [tokens[i]] and [i]. *)
Fixpoint decode_members {A : Type} (body : jsmntok_t -> Z -> A -> option (decoded A))
    (tokens : list jsmntok_t) (size : nat) (i : Z) (a : A) : option (decoded A) :=
  match size with
  | O => Some (Decoded i a)
  | S size' =>
      key ← tok_at tokens i;
      if negb (is_key key) then Some (DecodeError CGLTF_ERROR_JSON)
      else decode_bind (body key i a) (decode_members body tokens size')
  end.

(** [CGLTF_CHECK_TOKTYPE(tokens[i], JSMN_OBJECT); int size = tokens[i].size;
    ++i;] and the loop over the members. *)
Definition decode_object {A : Type} (body : jsmntok_t -> Z -> A -> option (decoded A))
    (tokens : list jsmntok_t) (i : Z) (a : A) : option (decoded A) :=
  tok ← tok_at tokens i;
  if bool_decide (tok_type tok <> JSMN_OBJECT) then Some (DecodeError CGLTF_ERROR_JSON)
  else decode_members body tokens (Z.to_nat (tok_size tok)) (i + 1) a.

(** [cgltf_json_strcmp(tokens + i, json_chunk, str) == 0] for a string
    literal [str]. *)
Definition key_is (tok : jsmntok_t) (json_chunk : list Z) (str : string) : option bool :=
  r ← cgltf_json_strcmp tok json_chunk (json_bytes str);
  Some (r =? 0).
Arguments key_is tok json_chunk str%_string.

(** [cgltf_json_to_int(tokens + i, json_chunk)]. *)
Definition json_to_int_at (tokens : list jsmntok_t) (i : Z) (json_chunk : list Z)
  : option Z :=
  tok ← tok_at tokens i;
  cgltf_json_to_int tok json_chunk.

(** [CGLTF_PTRINDEX(type, cgltf_json_to_int(tokens + i, json_chunk))];
    [None] also when [idx + 1] overflows. *)
Definition json_to_ptrindex (tokens : list jsmntok_t) (i : Z) (json_chunk : list Z)
  : option encoded :=
  idx ← json_to_int_at tokens i json_chunk;
  if INT_MAX <=? idx then None else Some (CGLTF_PTRINDEX idx).

(** The depth of the recursion of [cgltf_skip_json] is below the number of
    tokens. *)
Definition skip_json (tokens : list jsmntok_t) (i : Z) : option Z :=
  cgltf_skip_json (S (length tokens)) tokens i.

Record decoded_attribute : Type := mk_decoded_attribute {
  da_name : option (list Z);
  da_type : cgltf_attribute_type;
  da_index : Z;
  da_data : encoded
}.

Record decoded_primitive : Type := mk_decoded_primitive {
  dp_type : Z;
  dp_indices : encoded;
  dp_material : encoded;
  dp_attributes : option (list decoded_attribute);
  dp_targets : option (list (option (list decoded_attribute)));
  dp_extras : cgltf_extras
}.

Record decoded_mesh : Type := mk_decoded_mesh {
  dm_name : option (list Z);
  dm_primitives : option (list decoded_primitive);
  dm_weights : option (list cgltf_float);
  dm_extras : cgltf_extras
}.

(** The objects as [cgltf_calloc] leaves them. *)
Definition zero_extras : cgltf_extras := mk_extras 0 0.
Definition zero_attribute : decoded_attribute :=
  mk_decoded_attribute None cgltf_attribute_type_invalid 0 0.
Definition zero_primitive : decoded_primitive :=
  mk_decoded_primitive 0 0 0 None None zero_extras.
Definition zero_mesh : decoded_mesh := mk_decoded_mesh None None None zero_extras.
Definition zero_sparse : cgltf_accessor_sparse encoded :=
  mk_accessor_sparse 0 0 0 cgltf_component_type_invalid 0 0.
Definition zero_accessor : cgltf_accessor encoded :=
  mk_accessor cgltf_component_type_invalid false cgltf_type_invalid 0 0 0 0 false zero_sparse.

(** The objects of the root that the decoders of the meshes leave, with the
    arrays at their counts. *)
Definition attribute_of (a : decoded_attribute) : cgltf_attribute encoded :=
  mk_attribute (da_data a).
Definition attributes_of (attributes : option (list decoded_attribute))
  : list (cgltf_attribute encoded) :=
  attribute_of <$> default [] attributes.
Definition primitive_of (p : decoded_primitive) : cgltf_primitive encoded :=
  mk_primitive (dp_indices p) (dp_material p) (attributes_of (dp_attributes p))
    ((fun t => mk_morph_target (attributes_of t)) <$> default [] (dp_targets p)).
Definition mesh_of (m : decoded_mesh) : cgltf_mesh encoded :=
  mk_mesh (primitive_of <$> default [] (dm_primitives m)) (dm_weights m).

Definition CGLTF_PRIMITIVE_TYPE_TRIANGLES : Z := 4.
Definition SIZEOF_pointer : Z := 8.
Definition SIZEOF_cgltf_float : Z := 4.

Section Decoder.

(** [(cgltf_float)atof(tmp)] for the string in [tmp]. *)
Variable atof : list Z -> cgltf_float.

(** The content of a byte as [memory_alloc] returns it. *)
Variable uninitialized_byte : Z.

Variable SIZEOF_cgltf_attribute : Z.
Variable SIZEOF_cgltf_morph_target : Z.
Variable SIZEOF_cgltf_primitive : Z.
Variable SIZEOF_cgltf_mesh : Z.
Variable SIZEOF_cgltf_accessor : Z.

Definition cgltf_json_to_float (tok : jsmntok_t) (json_chunk : list Z)
  : option cgltf_float :=
  if bool_decide (tok_type tok <> JSMN_PRIMITIVE) then Some (f32_of_Z CGLTF_ERROR_JSON)
  else
    let size :=
      if size_wrap (tok_end tok - tok_start tok) <? SIZEOF_tmp
      then tok_end tok - tok_start tok else SIZEOF_tmp - 1 in
    tmp ← read_string json_chunk (tok_start tok) (Z.to_nat size);
    Some (atof tmp).

(** The loop of [cgltf_parse_json_float_array]: the floats it stores in
    [out_array[0]], [out_array[1]], ... *)
Fixpoint float_array_loop (tokens : list jsmntok_t) (json_chunk : list Z) (size : nat)
    (i : Z) : option (decoded (list cgltf_float)) :=
  match size with
  | O => Some (Decoded i [])
  | S size' =>
      tok ← tok_at tokens i;
      if bool_decide (tok_type tok <> JSMN_PRIMITIVE)
      then Some (DecodeError CGLTF_ERROR_JSON)
      else
        x ← cgltf_json_to_float tok json_chunk;
        decode_bind (float_array_loop tokens json_chunk size' (i + 1)) (fun i rest =>
          Some (Decoded i (x :: rest)))
  end.

(** [out_array] is the array of floats that [out_array] points to, before
    and after the call; [None] also when the floats do not fit in it. *)
Definition cgltf_parse_json_float_array (tokens : list jsmntok_t) (i : Z)
    (json_chunk : list Z) (out_array : list cgltf_float) (size : Z)
  : option (decoded (list cgltf_float)) :=
  tok ← tok_at tokens i;
  if bool_decide (tok_type tok <> JSMN_ARRAY) then Some (DecodeError CGLTF_ERROR_JSON)
  else if bool_decide (tok_size tok <> size) then Some (DecodeError CGLTF_ERROR_JSON)
  else
    decode_bind (float_array_loop tokens json_chunk (Z.to_nat size) (i + 1))
      (fun i values =>
         if (length out_array <? length values)%nat then None
         else Some (Decoded i (values ++ drop (length values) out_array))).

(** The call of [cgltf_parse_json_string] with [*out_string] before and
    after it. *)
Definition parse_json_string (options : cgltf_options) (tokens : list jsmntok_t) (i : Z)
    (json_chunk : list Z) (out_string : option (list Z))
  : option (decoded (option (list Z))) :=
  r ← cgltf_parse_json_string options tokens i json_chunk out_string uninitialized_byte;
  match r with
  | Copied (i, out_string) => Some (decode_int i out_string)
  | WritesOutside _ | CopyUndefined => None
  end.

(** The call of [cgltf_parse_json_array] for an array of objects with the
    zeroed object [zero]: [*out_array] before and after it, where the zeroed
    block is read as [*out_size] objects. *)
Definition parse_json_array {A : Type} (zero : A) (element_size : Z)
    (options : cgltf_options) (tokens : list jsmntok_t) (i : Z)
    (out_array : option (list A)) : option (decoded (option (list A))) :=
  '(r, _, out_size) ←
    cgltf_parse_json_array options tokens i element_size
      ((fun _ => []) <$> out_array) (count_of (default [] out_array));
  Some (if r <? 0 then DecodeError r
        else Decoded r (Some (replicate (Z.to_nat out_size) zero))).

(** [out_array] is [*out_array] with its [*out_size] pointers, each [None]
    while it is [NULL]. *)
Definition cgltf_parse_json_string_array (options : cgltf_options)
    (tokens : list jsmntok_t) (i : Z) (json_chunk : list Z)
    (out_array : option (list (option (list Z))))
  : option (decoded (option (list (option (list Z))))) :=
  tok ← tok_at tokens i;
  if bool_decide (tok_type tok <> JSMN_ARRAY) then Some (DecodeError CGLTF_ERROR_JSON)
  else
    r ← parse_json_array None SIZEOF_pointer options tokens i out_array;
    let '(i, out_array) :=
      match r with
      | DecodeError code => (code, out_array)
      | Decoded i a => (i, a)
      end in
    match default [] out_array with
    | [] => Some (decode_int i out_array)
    | strings =>
        decode_bind
          (decode_each (fun i s => parse_json_string options tokens i json_chunk s)
             i strings)
          (fun i strings => Some (Decoded i (Some strings)))
    end.

(** The loop of [cgltf_parse_json_attribute_list] over the attributes. *)
Definition attribute_member (options : cgltf_options) (tokens : list jsmntok_t)
    (json_chunk : list Z) (i : Z) (a : decoded_attribute)
  : option (decoded decoded_attribute) :=
  key ← tok_at tokens i;
  if negb (is_key key) then Some (DecodeError CGLTF_ERROR_JSON)
  else
    r ← parse_json_string options tokens i json_chunk (da_name a);
    match r with
    | DecodeError _ => Some (DecodeError CGLTF_ERROR_JSON)
    | Decoded i name =>
        '(type, index) ← cgltf_parse_attribute_type (default [] name) (da_index a);
        data ← json_to_ptrindex tokens i json_chunk;
        Some (Decoded (i + 1) (mk_decoded_attribute name type index data))
    end.

(** [out_attributes] is [*out_attributes] with its [*out_attributes_count]
    attributes. *)
Definition cgltf_parse_json_attribute_list (options : cgltf_options)
    (tokens : list jsmntok_t) (i : Z) (json_chunk : list Z)
    (out_attributes : option (list decoded_attribute))
  : option (decoded (option (list decoded_attribute))) :=
  tok ← tok_at tokens i;
  if bool_decide (tok_type tok <> JSMN_OBJECT) then Some (DecodeError CGLTF_ERROR_JSON)
  else if bool_decide (out_attributes <> None) then Some (DecodeError CGLTF_ERROR_JSON)
  else
    let out_attributes_count := size_wrap (tok_size tok) in
    block ← cgltf_calloc options SIZEOF_cgltf_attribute out_attributes_count;
    match block with
    | None => Some (DecodeError CGLTF_ERROR_NOMEM)
    | Some _ =>
        decode_bind
          (decode_each (attribute_member options tokens json_chunk) (i + 1)
             (replicate (Z.to_nat out_attributes_count) zero_attribute))
          (fun i attributes => Some (Decoded i (Some attributes)))
    end.

Definition cgltf_parse_json_extras (tokens : list jsmntok_t) (i : Z)
  : option (decoded cgltf_extras) :=
  tok ← tok_at tokens i;
  r ← skip_json tokens i;
  Some (decode_int r (mk_extras (size_wrap (tok_start tok)) (size_wrap (tok_end tok)))).

(** The body of the loop of [cgltf_parse_json_primitive] for the key
    [tokens[i]]. *)
Definition primitive_member (options : cgltf_options) (tokens : list jsmntok_t)
    (json_chunk : list Z) (key : jsmntok_t) (i : Z) (p : decoded_primitive)
  : option (decoded decoded_primitive) :=
  is_mode ← key_is key json_chunk "mode";
  if (is_mode : bool) then
    type ← json_to_int_at tokens (i + 1) json_chunk;
    Some (Decoded (i + 2)
            (mk_decoded_primitive type (dp_indices p) (dp_material p) (dp_attributes p)
               (dp_targets p) (dp_extras p)))
  else
    is_indices ← key_is key json_chunk "indices";
    if (is_indices : bool) then
      indices ← json_to_ptrindex tokens (i + 1) json_chunk;
      Some (Decoded (i + 2)
              (mk_decoded_primitive (dp_type p) indices (dp_material p) (dp_attributes p)
                 (dp_targets p) (dp_extras p)))
    else
      is_material ← key_is key json_chunk "material";
      if (is_material : bool) then
        material ← json_to_ptrindex tokens (i + 1) json_chunk;
        Some (Decoded (i + 2)
                (mk_decoded_primitive (dp_type p) (dp_indices p) material
                   (dp_attributes p) (dp_targets p) (dp_extras p)))
      else
        is_attributes ← key_is key json_chunk "attributes";
        if (is_attributes : bool) then
          decode_bind
            (cgltf_parse_json_attribute_list options tokens (i + 1) json_chunk
               (dp_attributes p))
            (fun i attributes =>
               Some (Decoded i
                       (mk_decoded_primitive (dp_type p) (dp_indices p) (dp_material p)
                          attributes (dp_targets p) (dp_extras p))))
        else
          is_targets ← key_is key json_chunk "targets";
          if (is_targets : bool) then
            decode_bind
              (parse_json_array None SIZEOF_cgltf_morph_target options tokens (i + 1)
                 (dp_targets p))
              (fun i targets =>
                 decode_bind
                   (decode_each
                      (fun i t =>
                         cgltf_parse_json_attribute_list options tokens i json_chunk t)
                      i (default [] targets))
                   (fun i targets =>
                      Some (Decoded i
                              (mk_decoded_primitive (dp_type p) (dp_indices p)
                                 (dp_material p) (dp_attributes p) (Some targets)
                                 (dp_extras p)))))
          else
            is_extras ← key_is key json_chunk "extras";
            if (is_extras : bool) then
              decode_bind (cgltf_parse_json_extras tokens (i + 1)) (fun i extras =>
                Some (Decoded i
                        (mk_decoded_primitive (dp_type p) (dp_indices p) (dp_material p)
                           (dp_attributes p) (dp_targets p) extras)))
            else
              r ← skip_json tokens (i + 1);
              Some (decode_int r p).

Definition cgltf_parse_json_primitive (options : cgltf_options) (tokens : list jsmntok_t)
    (i : Z) (json_chunk : list Z) (out_prim : decoded_primitive)
  : option (decoded decoded_primitive) :=
  tok ← tok_at tokens i;
  if bool_decide (tok_type tok <> JSMN_OBJECT) then Some (DecodeError CGLTF_ERROR_JSON)
  else
    let out_prim :=
      mk_decoded_primitive CGLTF_PRIMITIVE_TYPE_TRIANGLES (dp_indices out_prim)
        (dp_material out_prim) (dp_attributes out_prim) (dp_targets out_prim)
        (dp_extras out_prim) in
    decode_members (primitive_member options tokens json_chunk) tokens
      (Z.to_nat (tok_size tok)) (i + 1) out_prim.

(** The body of the loop of [cgltf_parse_json_mesh] for the key
    [tokens[i]]. *)
Definition mesh_member (options : cgltf_options) (tokens : list jsmntok_t)
    (json_chunk : list Z) (key : jsmntok_t) (i : Z) (m : decoded_mesh)
  : option (decoded decoded_mesh) :=
  is_name ← key_is key json_chunk "name";
  if (is_name : bool) then
    decode_bind (parse_json_string options tokens (i + 1) json_chunk (dm_name m))
      (fun i name =>
         Some (Decoded i (mk_decoded_mesh name (dm_primitives m) (dm_weights m)
                            (dm_extras m))))
  else
    is_primitives ← key_is key json_chunk "primitives";
    if (is_primitives : bool) then
      decode_bind
        (parse_json_array zero_primitive SIZEOF_cgltf_primitive options tokens (i + 1)
           (dm_primitives m))
        (fun i primitives =>
           decode_bind
             (decode_each
                (fun i p => cgltf_parse_json_primitive options tokens i json_chunk p)
                i (default [] primitives))
             (fun i primitives =>
                Some (Decoded i (mk_decoded_mesh (dm_name m) (Some primitives)
                                   (dm_weights m) (dm_extras m)))))
    else
      is_weights ← key_is key json_chunk "weights";
      if (is_weights : bool) then
        decode_bind
          (parse_json_array (f32_of_Z 0) SIZEOF_cgltf_float options tokens (i + 1)
             (dm_weights m))
          (fun i weights =>
             decode_bind
               (cgltf_parse_json_float_array tokens (i - 1) json_chunk
                  (default [] weights) (int_wrap (count_of (default [] weights))))
               (fun i weights =>
                  Some (Decoded i (mk_decoded_mesh (dm_name m) (dm_primitives m)
                                     (Some weights) (dm_extras m)))))
      else
        is_extras ← key_is key json_chunk "extras";
        if (is_extras : bool) then
          decode_bind (cgltf_parse_json_extras tokens (i + 1)) (fun i extras =>
            Some (Decoded i (mk_decoded_mesh (dm_name m) (dm_primitives m) (dm_weights m)
                               extras)))
        else
          r ← skip_json tokens (i + 1);
          Some (decode_int r m).

Definition cgltf_parse_json_mesh (options : cgltf_options) (tokens : list jsmntok_t)
    (i : Z) (json_chunk : list Z) (out_mesh : decoded_mesh)
  : option (decoded decoded_mesh) :=
  decode_object (mesh_member options tokens json_chunk) tokens i out_mesh.

(** [meshes] is [out_data->meshes] with its [meshes_count] meshes. *)
Definition cgltf_parse_json_meshes (options : cgltf_options) (tokens : list jsmntok_t)
    (i : Z) (json_chunk : list Z) (meshes : option (list decoded_mesh))
  : option (decoded (option (list decoded_mesh))) :=
  decode_bind (parse_json_array zero_mesh SIZEOF_cgltf_mesh options tokens i meshes)
    (fun i meshes =>
       decode_bind
         (decode_each (fun i m => cgltf_parse_json_mesh options tokens i json_chunk m)
            i (default [] meshes))
         (fun i meshes => Some (Decoded i (Some meshes)))).

(** The bodies of the loops of [cgltf_parse_json_accessor_sparse] over the
    members of [indices] and of [values]. *)
Definition sparse_indices_member (tokens : list jsmntok_t) (json_chunk : list Z)
    (key : jsmntok_t) (i : Z) (s : cgltf_accessor_sparse encoded)
  : option (decoded (cgltf_accessor_sparse encoded)) :=
  is_view ← key_is key json_chunk "bufferView";
  if (is_view : bool) then
    view ← json_to_ptrindex tokens (i + 1) json_chunk;
    Some (Decoded (i + 2)
            (mk_accessor_sparse (sparse_count s) view (indices_byte_offset s)
               (indices_component_type s) (values_buffer_view s) (values_byte_offset s)))
  else
    is_offset ← key_is key json_chunk "byteOffset";
    if (is_offset : bool) then
      offset ← json_to_int_at tokens (i + 1) json_chunk;
      Some (Decoded (i + 2)
              (mk_accessor_sparse (sparse_count s) (indices_buffer_view s)
                 (size_wrap offset) (indices_component_type s) (values_buffer_view s)
                 (values_byte_offset s)))
    else
      is_type ← key_is key json_chunk "componentType";
      if (is_type : bool) then
        tok ← tok_at tokens (i + 1);
        type ← cgltf_json_to_component_type tok json_chunk;
        Some (Decoded (i + 2)
                (mk_accessor_sparse (sparse_count s) (indices_buffer_view s)
                   (indices_byte_offset s) type (values_buffer_view s)
                   (values_byte_offset s)))
      else
        is_extras ← key_is key json_chunk "extras";
        if (is_extras : bool) then
          decode_bind (cgltf_parse_json_extras tokens (i + 1)) (fun i _ =>
            Some (Decoded i s))
        else
          r ← skip_json tokens (i + 1);
          Some (decode_int r s).

Definition sparse_values_member (tokens : list jsmntok_t) (json_chunk : list Z)
    (key : jsmntok_t) (i : Z) (s : cgltf_accessor_sparse encoded)
  : option (decoded (cgltf_accessor_sparse encoded)) :=
  is_view ← key_is key json_chunk "bufferView";
  if (is_view : bool) then
    view ← json_to_ptrindex tokens (i + 1) json_chunk;
    Some (Decoded (i + 2)
            (mk_accessor_sparse (sparse_count s) (indices_buffer_view s)
               (indices_byte_offset s) (indices_component_type s) view
               (values_byte_offset s)))
  else
    is_offset ← key_is key json_chunk "byteOffset";
    if (is_offset : bool) then
      offset ← json_to_int_at tokens (i + 1) json_chunk;
      Some (Decoded (i + 2)
              (mk_accessor_sparse (sparse_count s) (indices_buffer_view s)
                 (indices_byte_offset s) (indices_component_type s)
                 (values_buffer_view s) (size_wrap offset)))
    else
      is_extras ← key_is key json_chunk "extras";
      if (is_extras : bool) then
        decode_bind (cgltf_parse_json_extras tokens (i + 1)) (fun i _ =>
          Some (Decoded i s))
      else
        r ← skip_json tokens (i + 1);
        Some (decode_int r s).

(** The body of the loop of [cgltf_parse_json_accessor_sparse]. *)
Definition sparse_member (tokens : list jsmntok_t) (json_chunk : list Z)
    (key : jsmntok_t) (i : Z) (s : cgltf_accessor_sparse encoded)
  : option (decoded (cgltf_accessor_sparse encoded)) :=
  is_count ← key_is key json_chunk "count";
  if (is_count : bool) then
    count ← json_to_int_at tokens (i + 1) json_chunk;
    Some (Decoded (i + 2)
            (mk_accessor_sparse (size_wrap count) (indices_buffer_view s)
               (indices_byte_offset s) (indices_component_type s) (values_buffer_view s)
               (values_byte_offset s)))
  else
    is_indices ← key_is key json_chunk "indices";
    if (is_indices : bool) then
      decode_object (sparse_indices_member tokens json_chunk) tokens (i + 1) s
    else
      is_values ← key_is key json_chunk "values";
      if (is_values : bool) then
        decode_object (sparse_values_member tokens json_chunk) tokens (i + 1) s
      else
        is_extras ← key_is key json_chunk "extras";
        if (is_extras : bool) then
          decode_bind (cgltf_parse_json_extras tokens (i + 1)) (fun i _ =>
            Some (Decoded i s))
        else
          r ← skip_json tokens (i + 1);
          Some (decode_int r s).

Definition cgltf_parse_json_accessor_sparse (tokens : list jsmntok_t) (i : Z)
    (json_chunk : list Z) (out_sparse : cgltf_accessor_sparse encoded)
  : option (decoded (cgltf_accessor_sparse encoded)) :=
  decode_object (sparse_member tokens json_chunk) tokens i out_sparse.

(** The chain of comparisons of the value of ["type"]; [type] is the type
    the accessor has before. *)
Definition accessor_type_of (tok : jsmntok_t) (json_chunk : list Z) (type : cgltf_type)
  : option cgltf_type :=
  is_scalar ← key_is tok json_chunk "SCALAR";
  if (is_scalar : bool) then Some cgltf_type_scalar
  else
    is_vec2 ← key_is tok json_chunk "VEC2";
    if (is_vec2 : bool) then Some cgltf_type_vec2
    else
      is_vec3 ← key_is tok json_chunk "VEC3";
      if (is_vec3 : bool) then Some cgltf_type_vec3
      else
        is_vec4 ← key_is tok json_chunk "VEC4";
        if (is_vec4 : bool) then Some cgltf_type_vec4
        else
          is_mat2 ← key_is tok json_chunk "MAT2";
          if (is_mat2 : bool) then Some cgltf_type_mat2
          else
            is_mat3 ← key_is tok json_chunk "MAT3";
            if (is_mat3 : bool) then Some cgltf_type_mat3
            else
              is_mat4 ← key_is tok json_chunk "MAT4";
              if (is_mat4 : bool) then Some cgltf_type_mat4 else Some type.

(** [has_min] and [min], [has_max] and [max] are written and not read: the
    model follows the tokens of the bounds and drops the floats. *)
Definition accessor_bounds (tokens : list jsmntok_t) (json_chunk : list Z) (i : Z)
  : option (decoded unit) :=
  tok ← tok_at tokens i;
  let size := if 16 <? tok_size tok then 16 else tok_size tok in
  decode_bind
    (cgltf_parse_json_float_array tokens i json_chunk (replicate 16 (f32_of_Z 0)) size)
    (fun i _ => Some (Decoded i tt)).

(** The body of the loop of [cgltf_parse_json_accessor]. *)
Definition accessor_member (tokens : list jsmntok_t) (json_chunk : list Z)
    (key : jsmntok_t) (i : Z) (a : cgltf_accessor encoded)
  : option (decoded (cgltf_accessor encoded)) :=
  is_view ← key_is key json_chunk "bufferView";
  if (is_view : bool) then
    view ← json_to_ptrindex tokens (i + 1) json_chunk;
    Some (Decoded (i + 2)
            (mk_accessor (component_type a) (normalized a) (acc_type a) (acc_offset a)
               (acc_count a) (acc_stride a) view (is_sparse a) (sparse a)))
  else
    is_offset ← key_is key json_chunk "byteOffset";
    if (is_offset : bool) then
      offset ← json_to_int_at tokens (i + 1) json_chunk;
      Some (Decoded (i + 2)
              (mk_accessor (component_type a) (normalized a) (acc_type a)
                 (size_wrap offset) (acc_count a) (acc_stride a) (acc_buffer_view a)
                 (is_sparse a) (sparse a)))
    else
      is_component ← key_is key json_chunk "componentType";
      if (is_component : bool) then
        tok ← tok_at tokens (i + 1);
        type ← cgltf_json_to_component_type tok json_chunk;
        Some (Decoded (i + 2)
                (mk_accessor type (normalized a) (acc_type a) (acc_offset a)
                   (acc_count a) (acc_stride a) (acc_buffer_view a) (is_sparse a)
                   (sparse a)))
      else
        is_normalized ← key_is key json_chunk "normalized";
        if (is_normalized : bool) then
          tok ← tok_at tokens (i + 1);
          flag ← cgltf_json_to_bool tok json_chunk;
          Some (Decoded (i + 2)
                  (mk_accessor (component_type a) flag (acc_type a) (acc_offset a)
                     (acc_count a) (acc_stride a) (acc_buffer_view a) (is_sparse a)
                     (sparse a)))
        else
          is_count ← key_is key json_chunk "count";
          if (is_count : bool) then
            count ← json_to_int_at tokens (i + 1) json_chunk;
            Some (Decoded (i + 2)
                    (mk_accessor (component_type a) (normalized a) (acc_type a)
                       (acc_offset a) (size_wrap count) (acc_stride a)
                       (acc_buffer_view a) (is_sparse a) (sparse a)))
          else
            is_type ← key_is key json_chunk "type";
            if (is_type : bool) then
              tok ← tok_at tokens (i + 1);
              type ← accessor_type_of tok json_chunk (acc_type a);
              Some (Decoded (i + 2)
                      (mk_accessor (component_type a) (normalized a) type (acc_offset a)
                         (acc_count a) (acc_stride a) (acc_buffer_view a) (is_sparse a)
                         (sparse a)))
            else
              is_min ← key_is key json_chunk "min";
              if (is_min : bool) then
                decode_bind (accessor_bounds tokens json_chunk (i + 1)) (fun i _ =>
                  Some (Decoded i a))
              else
                is_max ← key_is key json_chunk "max";
                if (is_max : bool) then
                  decode_bind (accessor_bounds tokens json_chunk (i + 1)) (fun i _ =>
                    Some (Decoded i a))
                else
                  is_sparse_key ← key_is key json_chunk "sparse";
                  if (is_sparse_key : bool) then
                    decode_bind
                      (cgltf_parse_json_accessor_sparse tokens (i + 1) json_chunk
                         (sparse a))
                      (fun i s =>
                         Some (Decoded i
                                 (mk_accessor (component_type a) (normalized a)
                                    (acc_type a) (acc_offset a) (acc_count a)
                                    (acc_stride a) (acc_buffer_view a) true s)))
                  else
                    is_extras ← key_is key json_chunk "extras";
                    if (is_extras : bool) then
                      decode_bind (cgltf_parse_json_extras tokens (i + 1)) (fun i _ =>
                        Some (Decoded i a))
                    else
                      r ← skip_json tokens (i + 1);
                      Some (decode_int r a).

Definition cgltf_parse_json_accessor (tokens : list jsmntok_t) (i : Z)
    (json_chunk : list Z) (out_accessor : cgltf_accessor encoded)
  : option (decoded (cgltf_accessor encoded)) :=
  decode_object (accessor_member tokens json_chunk) tokens i out_accessor.

(** [accessors] is [out_data->accessors] with its [accessors_count]
    accessors. *)
Definition cgltf_parse_json_accessors (options : cgltf_options) (tokens : list jsmntok_t)
    (i : Z) (json_chunk : list Z) (accessors : option (list (cgltf_accessor encoded)))
  : option (decoded (option (list (cgltf_accessor encoded)))) :=
  decode_bind
    (parse_json_array zero_accessor SIZEOF_cgltf_accessor options tokens i accessors)
    (fun i accessors =>
       decode_bind
         (decode_each (fun i a => cgltf_parse_json_accessor tokens i json_chunk a)
            i (default [] accessors))
         (fun i accessors => Some (Decoded i (Some accessors)))).

(** The decoders of the other members of the root, which are not modelled:
    [cgltf_parse_json_asset], [cgltf_parse_json_buffer_views],
    [cgltf_parse_json_buffers], ... and [cgltf_parse_json_lights]. *)
Inductive root_decoder : Set :=
| decoder_asset
| decoder_buffer_views
| decoder_buffers
| decoder_materials
| decoder_images
| decoder_textures
| decoder_samplers
| decoder_skins
| decoder_cameras
| decoder_nodes
| decoder_scenes
| decoder_animations
| decoder_lights.

(** The fields of the root that these decoders write, zeroed, and the call
    of one of them from token [i] on. *)
Variable other_fields : Type.
Variable zero_other : other_fields.
Variable cgltf_parse_json_other :
  root_decoder -> cgltf_options -> list jsmntok_t -> Z -> list Z -> other_fields ->
  option (decoded other_fields).

(** A root with the arrays that these decoders have left. *)
Variable other_data : other_fields -> cgltf_data encoded.

Record decoded_root : Type := mk_decoded_root {
  dr_meshes : option (list decoded_mesh);
  dr_accessors : option (list (cgltf_accessor encoded));
  dr_scene : encoded;
  dr_extensions_used : option (list (option (list Z)));
  dr_extensions_required : option (list (option (list Z)));
  dr_other : other_fields
}.

Definition zero_root : decoded_root := mk_decoded_root None None 0 None None zero_other.

Definition other_member (d : root_decoder) (options : cgltf_options)
    (tokens : list jsmntok_t) (json_chunk : list Z) (i : Z) (r : decoded_root)
  : option (decoded decoded_root) :=
  decode_bind (cgltf_parse_json_other d options tokens i json_chunk (dr_other r))
    (fun i other =>
       Some (Decoded i (mk_decoded_root (dr_meshes r) (dr_accessors r) (dr_scene r)
                          (dr_extensions_used r) (dr_extensions_required r) other))).

(** The body of the loop over the members of [KHR_lights_punctual]. *)
Definition lights_member (options : cgltf_options) (tokens : list jsmntok_t)
    (json_chunk : list Z) (key : jsmntok_t) (i : Z) (r : decoded_root)
  : option (decoded decoded_root) :=
  is_lights ← key_is key json_chunk "lights";
  if (is_lights : bool) then
    other_member decoder_lights options tokens json_chunk (i + 1) r
  else
    next ← skip_json tokens (i + 1);
    Some (decode_int next r).

(** The body of the loop over the members of [extensions]. *)
Definition extension_member (options : cgltf_options) (tokens : list jsmntok_t)
    (json_chunk : list Z) (key : jsmntok_t) (i : Z) (r : decoded_root)
  : option (decoded decoded_root) :=
  is_lights ← key_is key json_chunk "KHR_lights_punctual";
  if (is_lights : bool) then
    decode_object (lights_member options tokens json_chunk) tokens (i + 1) r
  else
    next ← skip_json tokens (i + 1);
    Some (decode_int next r).

(** The body of the loop of [cgltf_parse_json_root] for the key
    [tokens[i]]. *)
Definition root_member (options : cgltf_options) (tokens : list jsmntok_t)
    (json_chunk : list Z) (key : jsmntok_t) (i : Z) (r : decoded_root)
  : option (decoded decoded_root) :=
  let other d := other_member d options tokens json_chunk (i + 1) r in
  is_asset ← key_is key json_chunk "asset";
  if (is_asset : bool) then other decoder_asset
  else
  is_meshes ← key_is key json_chunk "meshes";
  if (is_meshes : bool) then
    decode_bind (cgltf_parse_json_meshes options tokens (i + 1) json_chunk (dr_meshes r))
      (fun i meshes =>
         Some (Decoded i (mk_decoded_root meshes (dr_accessors r) (dr_scene r)
                            (dr_extensions_used r) (dr_extensions_required r)
                            (dr_other r))))
  else
  is_accessors ← key_is key json_chunk "accessors";
  if (is_accessors : bool) then
    decode_bind
      (cgltf_parse_json_accessors options tokens (i + 1) json_chunk (dr_accessors r))
      (fun i accessors =>
         Some (Decoded i (mk_decoded_root (dr_meshes r) accessors (dr_scene r)
                            (dr_extensions_used r) (dr_extensions_required r)
                            (dr_other r))))
  else
  is_buffer_views ← key_is key json_chunk "bufferViews";
  if (is_buffer_views : bool) then other decoder_buffer_views
  else
  is_buffers ← key_is key json_chunk "buffers";
  if (is_buffers : bool) then other decoder_buffers
  else
  is_materials ← key_is key json_chunk "materials";
  if (is_materials : bool) then other decoder_materials
  else
  is_images ← key_is key json_chunk "images";
  if (is_images : bool) then other decoder_images
  else
  is_textures ← key_is key json_chunk "textures";
  if (is_textures : bool) then other decoder_textures
  else
  is_samplers ← key_is key json_chunk "samplers";
  if (is_samplers : bool) then other decoder_samplers
  else
  is_skins ← key_is key json_chunk "skins";
  if (is_skins : bool) then other decoder_skins
  else
  is_cameras ← key_is key json_chunk "cameras";
  if (is_cameras : bool) then other decoder_cameras
  else
  is_nodes ← key_is key json_chunk "nodes";
  if (is_nodes : bool) then other decoder_nodes
  else
  is_scenes ← key_is key json_chunk "scenes";
  if (is_scenes : bool) then other decoder_scenes
  else
  is_scene ← key_is key json_chunk "scene";
  if (is_scene : bool) then
    scene ← json_to_ptrindex tokens (i + 1) json_chunk;
    Some (Decoded (i + 2)
            (mk_decoded_root (dr_meshes r) (dr_accessors r) scene (dr_extensions_used r)
               (dr_extensions_required r) (dr_other r)))
  else
  is_animations ← key_is key json_chunk "animations";
  if (is_animations : bool) then other decoder_animations
  else
  is_extras ← key_is key json_chunk "extras";
  if (is_extras : bool) then
    decode_bind (cgltf_parse_json_extras tokens (i + 1)) (fun i _ => Some (Decoded i r))
  else
  is_extensions ← key_is key json_chunk "extensions";
  if (is_extensions : bool) then
    decode_object (extension_member options tokens json_chunk) tokens (i + 1) r
  else
  is_used ← key_is key json_chunk "extensionsUsed";
  if (is_used : bool) then
    decode_bind
      (cgltf_parse_json_string_array options tokens (i + 1) json_chunk
         (dr_extensions_used r))
      (fun i used =>
         Some (Decoded i (mk_decoded_root (dr_meshes r) (dr_accessors r) (dr_scene r)
                            used (dr_extensions_required r) (dr_other r))))
  else
  is_required ← key_is key json_chunk "extensionsRequired";
  if (is_required : bool) then
    decode_bind
      (cgltf_parse_json_string_array options tokens (i + 1) json_chunk
         (dr_extensions_required r))
      (fun i required =>
         Some (Decoded i (mk_decoded_root (dr_meshes r) (dr_accessors r) (dr_scene r)
                            (dr_extensions_used r) required (dr_other r))))
  else
    next ← skip_json tokens (i + 1);
    Some (decode_int next r).

Definition cgltf_parse_json_root (options : cgltf_options) (tokens : list jsmntok_t)
    (i : Z) (json_chunk : list Z) (out_data : decoded_root)
  : option (decoded decoded_root) :=
  decode_object (root_member options tokens json_chunk) tokens i out_data.

(** The root as the fix-up reads it: the arrays of the meshes and of the
    accessors with the scene slot, beside the arrays of the other decoders. *)
Definition root_data (r : decoded_root) : cgltf_data encoded :=
  let other := other_data (dr_other r) in
  mk_data (file_type other) (mesh_of <$> default [] (dr_meshes r)) (materials other)
    (default [] (dr_accessors r)) (buffer_views other) (buffers other) (images other)
    (textures other) (samplers_count other) (skins other) (cameras_count other)
    (lights_count other) (nodes other) (scenes other) (dr_scene r) (animations other)
    (json other) (bin other).

(** The call [cgltf_parse_json_root(options, tokens, 0, json_chunk, data)] of
    [cgltf_parse_json] on the zeroed root: the returned [int] and, where it
    is not negative, the decoded root. *)
Definition decode_root (options : cgltf_options) (tokens : list jsmntok_t)
    (json_chunk : list Z) : option (Z * cgltf_data encoded) :=
  r ← cgltf_parse_json_root options tokens 0 json_chunk zero_root;
  Some match r with
       | DecodeError code => (code, root_data zero_root)
       | Decoded i root => (i, root_data root)
       end.

End Decoder.

(** * Definitions used by the statements

    The definitions below are not part of the program: they name the
    notions the properties are stated with, and the concrete inputs of
    the scenarios. *)

(** ** The table of element sizes *)

(** The table of element sizes: the product of the component size and the
    number of components, but for the three matrix shapes whose columns are
    padded to four bytes. *)
Definition element_size_table (type : cgltf_type) (component_size : Z) : Z :=
  match type, component_size with
  | cgltf_type_mat2, 1 => 8
  | cgltf_type_mat3, 1 => 12
  | cgltf_type_mat3, 2 => 24
  | _, _ => component_size * cgltf_num_components type
  end.

(** ** The tokeniser over unbounded integers

    The functions [ideal_...] below are the functions of the tokeniser with
    the position, the token counter, the count of tokens and the fields of
    the tokens taken as unbounded integers: no conversion between [int] and
    [unsigned int], no overflow.  They are a device of the proofs, where the
    inductions on the input are done on them; they agree with the functions
    of the tokeniser on an input of at most [INT_MAX] bytes
    ([jsmn_parse_exact_count], [jsmn_parse_exact_fill]), and no statement
    about the code is made on them. *)

(** [jsmn_alloc_token] with [toknext + 1] unbounded, and [None] for
    [NULL]. *)
Definition ideal_jsmn_alloc_token (parser : jsmn_parser) (tokens : list jsmntok_t)
    (num_tokens : Z) : option (nat * jsmn_parser * list jsmntok_t) :=
  if num_tokens <=? Z.of_nat (toknext parser) then None
  else
    let i := toknext parser in
    Some (i,
          mk_jsmn_parser (pos parser) (S i) (toksuper parser),
          alter (fun tok => mk_jsmntok (tok_type tok) (-1) (-1) 0 (-1)) i tokens).

(** [jsmn_parse_primitive] with the positions unbounded. *)
Definition ideal_jsmn_parse_primitive (parser : jsmn_parser) (js : list Z)
    (tokens : option (list jsmntok_t)) (num_tokens : Z)
  : Z * jsmn_parser * option (list jsmntok_t) :=
  let start := pos parser in
  match jsmn_primitive_scan (drop start js) start with
  | None => (JSMN_ERROR_INVAL, set_pos start parser, tokens)
  | Some p =>
      match tokens with
      | None => (0, set_pos (Nat.pred p) parser, None)
      | Some toks =>
          match ideal_jsmn_alloc_token (set_pos p parser) toks num_tokens with
          | None => (JSMN_ERROR_NOMEM, set_pos start parser, tokens)
          | Some (i, parser', toks') =>
              let fill tok :=
                set_tok_parent (toksuper parser')
                  (jsmn_fill_token JSMN_PRIMITIVE (Z.of_nat start) (Z.of_nat p) tok) in
              (0, set_pos (Nat.pred p) parser', Some (alter fill i toks'))
          end
      end
  end.

(** [jsmn_parse_string] with the positions unbounded; [None]: the scan of
    the string ran out of fuel. *)
Definition ideal_jsmn_parse_string (parser : jsmn_parser) (js : list Z)
    (tokens : option (list jsmntok_t)) (num_tokens : Z)
  : option (Z * jsmn_parser * option (list jsmntok_t)) :=
  let start := pos parser in
  match jsmn_string_scan (length js) js (S start) with
  | None => None
  | Some (StringError r) => Some (r, set_pos start parser, tokens)
  | Some (StringEnd p) =>
      match tokens with
      | None => Some (0, set_pos p parser, None)
      | Some toks =>
          match ideal_jsmn_alloc_token (set_pos p parser) toks num_tokens with
          | None => Some (JSMN_ERROR_NOMEM, set_pos start parser, tokens)
          | Some (i, parser', toks') =>
              let fill tok :=
                set_tok_parent (toksuper parser')
                  (jsmn_fill_token JSMN_STRING (Z.of_nat start + 1) (Z.of_nat p) tok) in
              Some (0, parser', Some (alter fill i toks'))
          end
      end
  end.

(** [tokens[parser->toksuper].size++] under [toksuper != -1 && tokens != NULL],
    with the size unbounded. *)
Definition ideal_bump_super_size (parser : jsmn_parser) (tokens : option (list jsmntok_t))
  : option (list jsmntok_t) :=
  match tokens with
  | Some toks =>
      if toksuper parser =? -1 then tokens
      else Some (tok_update incr_tok_size (toksuper parser) toks)
  | None => None
  end.

(** [jsmn_parse_char] with the count, the sizes and the positions
    unbounded. *)
Definition ideal_jsmn_parse_char (c : Z) (parser : jsmn_parser) (js : list Z)
    (tokens : option (list jsmntok_t)) (num_tokens : Z) (count : Z)
  : option jsmn_step :=
  if (c =? CH_LBRACE) || (c =? CH_LBRACKET) then
    match tokens with
    | None => Some (StepNext parser None (count + 1))
    | Some toks =>
        match ideal_jsmn_alloc_token parser toks num_tokens with
        | None => Some (StepReturn JSMN_ERROR_NOMEM parser tokens)
        | Some (i, parser1, toks1) =>
            let toks2 :=
              if toksuper parser1 =? -1 then toks1
              else alter (set_tok_parent (toksuper parser1)) i
                     (tok_update incr_tok_size (toksuper parser1) toks1) in
            let type := if c =? CH_LBRACE then JSMN_OBJECT else JSMN_ARRAY in
            let toks3 :=
              alter (fun t => set_tok_start (Z.of_nat (pos parser1)) (set_tok_type type t))
                i toks2 in
            Some (StepNext (set_toksuper (Z.of_nat (toknext parser1) - 1) parser1)
                    (Some toks3) (count + 1))
        end
    end
  else if (c =? CH_RBRACE) || (c =? CH_RBRACKET) then
    match tokens with
    | None => Some (StepNext parser None count)
    | Some toks =>
        let type := if c =? CH_RBRACE then JSMN_OBJECT else JSMN_ARRAY in
        if (toknext parser <? 1)%nat then Some (StepReturn JSMN_ERROR_INVAL parser tokens)
        else
          match jsmn_close_walk (toknext parser) toks type (toksuper parser)
                  (Z.of_nat (toknext parser) - 1) with
          | None => None
          | Some CloseInval => Some (StepReturn JSMN_ERROR_INVAL parser tokens)
          | Some CloseNone => Some (StepNext parser tokens count)
          | Some (CloseAt idx) =>
              match tok_at toks idx with
              | None => None
              | Some token =>
                  Some (StepNext (set_toksuper (tok_parent token) parser)
                          (Some (tok_update (set_tok_end (Z.of_nat (pos parser) + 1)) idx toks))
                          count)
              end
          end
    end
  else if c =? CH_QUOTE then
    match ideal_jsmn_parse_string parser js tokens num_tokens with
    | None => None
    | Some (r, parser1, tokens1) =>
        if r <? 0 then Some (StepReturn r parser1 tokens1)
        else Some (StepNext parser1 (ideal_bump_super_size parser1 tokens1) (count + 1))
    end
  else if (c =? CH_TAB) || (c =? CH_CR) || (c =? CH_LF) || (c =? CH_SPACE) then
    Some (StepNext parser tokens count)
  else if c =? CH_COLON then
    Some (StepNext (set_toksuper (Z.of_nat (toknext parser) - 1) parser) tokens count)
  else if c =? CH_COMMA then
    match tokens with
    | None => Some (StepNext parser None count)
    | Some toks =>
        if toksuper parser =? -1 then Some (StepNext parser tokens count)
        else
          match tok_at toks (toksuper parser) with
          | None => None
          | Some super =>
              if bool_decide (tok_type super <> JSMN_ARRAY)
                 && bool_decide (tok_type super <> JSMN_OBJECT) then
                Some (StepNext (set_toksuper (tok_parent super) parser) tokens count)
              else Some (StepNext parser tokens count)
          end
    end
  else
    (* In non-strict mode every unquoted value is a primitive *)
    match ideal_jsmn_parse_primitive parser js tokens num_tokens with
    | (r, parser1, tokens1) =>
        if r <? 0 then Some (StepReturn r parser1 tokens1)
        else Some (StepNext parser1 (ideal_bump_super_size parser1 tokens1) (count + 1))
    end.

(** The check after the loop on the tokens below [toknext]: an opened
    object or array was never closed. *)
Definition jsmn_unmatched (parser : jsmn_parser) (tokens : list jsmntok_t) : bool :=
  existsb tok_is_open (take (toknext parser) tokens).

Definition ideal_jsmn_parse_finish (parser : jsmn_parser) (tokens : option (list jsmntok_t))
    (count : Z) : Z * jsmn_parser * option (list jsmntok_t) :=
  match tokens with
  | Some toks =>
      if jsmn_unmatched parser toks then (JSMN_ERROR_PART, parser, tokens)
      else (count, parser, tokens)
  | None => (count, parser, tokens)
  end.

(** [jsmn_parse_loop] over [ideal_jsmn_parse_char]. *)
Fixpoint ideal_jsmn_parse_loop (fuel : nat) (js : list Z) (num_tokens : Z)
    (parser : jsmn_parser) (tokens : option (list jsmntok_t)) (count : Z)
  : option (Z * jsmn_parser * option (list jsmntok_t)) :=
  match js !! pos parser with
  | None => Some (ideal_jsmn_parse_finish parser tokens count)
  | Some c =>
      if c =? 0 then Some (ideal_jsmn_parse_finish parser tokens count)
      else
        match fuel with
        | O => None
        | S fuel' =>
            match ideal_jsmn_parse_char c parser js tokens num_tokens count with
            | None => None
            | Some (StepReturn r parser1 tokens1) => Some (r, parser1, tokens1)
            | Some (StepNext parser1 tokens1 count1) =>
                ideal_jsmn_parse_loop fuel' js num_tokens
                  (set_pos (S (pos parser1)) parser1) tokens1 count1
            end
        end
  end.

(** [jsmn_parse] for an input of any length. *)
Definition ideal_jsmn_parse (parser : jsmn_parser) (js : list Z)
    (tokens : option (list jsmntok_t)) (num_tokens : Z)
  : option (Z * jsmn_parser * option (list jsmntok_t)) :=
  ideal_jsmn_parse_loop (length js) js num_tokens parser tokens (Z.of_nat (toknext parser)).

(** ** The tokeniser: what a round reads, and well-formed token arrays *)

(** *** What a round does to the position and to the count

    The position the round leaves and the number of tokens it counts depend
    on the input alone; [LexReturn] is an error of the string or primitive
    scanner. *)

Inductive lex_step : Set :=
| LexNext (pos' : nat) (d : Z)
| LexReturn (r : Z).

Definition jsmn_lex (c : Z) (js : list Z) (pos : nat) : option lex_step :=
  if (c =? CH_LBRACE) || (c =? CH_LBRACKET) then Some (LexNext pos 1)
  else if (c =? CH_RBRACE) || (c =? CH_RBRACKET) then Some (LexNext pos 0)
  else if c =? CH_QUOTE then
    match jsmn_string_scan (length js) js (S pos) with
    | None => None
    | Some (StringError r) => Some (LexReturn r)
    | Some (StringEnd p) => Some (LexNext p 1)
    end
  else if (c =? CH_TAB) || (c =? CH_CR) || (c =? CH_LF) || (c =? CH_SPACE) then
    Some (LexNext pos 0)
  else if c =? CH_COLON then Some (LexNext pos 0)
  else if c =? CH_COMMA then Some (LexNext pos 0)
  else
    match jsmn_primitive_scan (drop pos js) pos with
    | None => Some (LexReturn JSMN_ERROR_INVAL)
    | Some p => Some (LexNext (Nat.pred p) 1)
    end.

(** *** The token array of the filling pass *)

(** The [parent] fields of the token array. *)
Definition parent_links (toks : list jsmntok_t) : list Z := tok_parent <$> toks.

(** The allocated tokens lie inside the array, and every parent link of an
    allocated token, like [toksuper], is [-1] or points to an earlier token. *)
Definition tokens_wf (parser : jsmn_parser) (toks : list jsmntok_t) : Prop :=
  (toknext parser <= length toks)%nat
  /\ -1 <= toksuper parser < Z.of_nat (toknext parser)
  /\ forall (i : nat) (x : Z),
       (i < toknext parser)%nat -> parent_links toks !! i = Some x ->
       -1 <= x < Z.of_nat i.

(** The minimal document: an [asset] object with its [version]. *)
Definition asset_doc : list Z := json_bytes "{'asset':{'version':'2.0'}}"%string.

(** ** JSON texts, and the rounds of the filling pass *)

(** *** JSON texts

    The grammar of RFC 8259 over bytes, with the number of tokens of a text:
    one for a literal, a number, a string (a member name too), an array and
    an object.  A number is taken as any run of the characters numbers are
    made of. *)

Definition json_space (c : Z) : Prop :=
  c = CH_SPACE \/ c = CH_TAB \/ c = CH_LF \/ c = CH_CR.

Definition json_ws (w : list Z) : Prop := Forall json_space w.

Definition json_hex (c : Z) : Prop :=
  48 <= c <= 57 \/ 65 <= c <= 70 \/ 97 <= c <= 102.

(** The characters that may follow a backslash, [u] apart. *)
Definition json_escape (c : Z) : Prop :=
  c = CH_QUOTE \/ c = CH_BACKSLASH \/ c = CH_SLASH \/ c = 98 \/ c = 102
  \/ c = 110 \/ c = 114 \/ c = 116.

(** The characters between the quotes of a string. *)
Inductive json_chars : list Z -> Prop :=
| chars_end : json_chars []
| chars_plain c s :
    32 <= c < 256 -> c <> CH_QUOTE -> c <> CH_BACKSLASH ->
    json_chars s -> json_chars (c :: s)
| chars_escape e s :
    json_escape e -> json_chars s -> json_chars (CH_BACKSLASH :: e :: s)
| chars_unicode h1 h2 h3 h4 s :
    json_hex h1 -> json_hex h2 -> json_hex h3 -> json_hex h4 ->
    json_chars s -> json_chars (CH_BACKSLASH :: 117 :: h1 :: h2 :: h3 :: h4 :: s).

(** Digits, signs, the decimal point and the exponent mark. *)
Definition json_number_char (c : Z) : Prop :=
  48 <= c <= 57 \/ c = 43 \/ c = 45 \/ c = 46 \/ c = 69 \/ c = 101.

Definition json_literal (s : list Z) : Prop :=
  s = json_bytes "true" \/ s = json_bytes "false" \/ s = json_bytes "null"
  \/ (s <> [] /\ Forall json_number_char s).

Inductive json_value : list Z -> nat -> Prop :=
| value_literal s : json_literal s -> json_value s 1
| value_string s : json_chars s -> json_value (CH_QUOTE :: s ++ [CH_QUOTE]) 1
| value_empty_array w :
    json_ws w -> json_value (CH_LBRACKET :: w ++ [CH_RBRACKET]) 1
| value_array es n :
    json_elements es n -> json_value (CH_LBRACKET :: es ++ [CH_RBRACKET]) (S n)
| value_empty_object w :
    json_ws w -> json_value (CH_LBRACE :: w ++ [CH_RBRACE]) 1
| value_object ms n :
    json_members ms n -> json_value (CH_LBRACE :: ms ++ [CH_RBRACE]) (S n)
with json_element : list Z -> nat -> Prop :=
| element_value w1 v n w2 :
    json_ws w1 -> json_value v n -> json_ws w2 -> json_element (w1 ++ v ++ w2) n
with json_elements : list Z -> nat -> Prop :=
| elements_last e n : json_element e n -> json_elements e n
| elements_more e n es m :
    json_element e n -> json_elements es m ->
    json_elements (e ++ CH_COMMA :: es) (n + m)
with json_member : list Z -> nat -> Prop :=
| member_pair w1 k w2 e n :
    json_ws w1 -> json_chars k -> json_ws w2 -> json_element e n ->
    json_member (w1 ++ CH_QUOTE :: k ++ CH_QUOTE :: w2 ++ CH_COLON :: e) (S n)
with json_members : list Z -> nat -> Prop :=
| members_last e n : json_member e n -> json_members e n
| members_more e n ms m :
    json_member e n -> json_members ms m ->
    json_members (e ++ CH_COMMA :: ms) (n + m).

Scheme json_value_ind' := Minimality for json_value Sort Prop
  with json_element_ind' := Minimality for json_element Sort Prop
  with json_elements_ind' := Minimality for json_elements Sort Prop
  with json_member_ind' := Minimality for json_member Sort Prop
  with json_members_ind' := Minimality for json_members Sort Prop.
Combined Scheme json_mutind from json_value_ind', json_element_ind',
  json_elements_ind', json_member_ind', json_members_ind'.

(** A JSON text: one value between white space. *)
Definition json_text (js : list Z) (n : nat) : Prop := json_element js n.

(** *** Texts inside the input *)

(** The input [js] holds the text [s] from position [k] on. *)
Definition at_pos (js : list Z) (k : nat) (s : list Z) : Prop :=
  forall (i : nat) (c : Z), s !! i = Some c -> js !! (k + i)%nat = Some c.

(** The input ends at position [k], or holds there a byte that ends a
    primitive. *)
Definition value_end (js : list Z) (k : nat) : Prop :=
  match js !! k with
  | None => True
  | Some c => primitive_delimiter c = true
  end.

(** The bytes a primitive is made of, for the tokeniser. *)
Definition primitive_char (c : Z) : Prop :=
  primitive_delimiter c = false /\ 32 <= c < 127.

(** *** The rounds of the filling pass

    The control flow of the filling pass reads the [type], [start], [end]
    and [parent] fields of the tokens, never [size]: the state of a run is
    followed on the tokens with their [size] put to zero. *)

Definition shape (t : jsmntok_t) : jsmntok_t :=
  mk_jsmntok (tok_type t) (tok_start t) (tok_end t) 0 (tok_parent t).

Definition shapes (toks : list jsmntok_t) : list jsmntok_t := shape <$> toks.

(** Rounds of the loop of [ideal_jsmn_parse] that neither return nor end it. *)
Inductive jsmn_rounds (js : list Z) (N : Z)
  : jsmn_parser * list jsmntok_t * Z -> jsmn_parser * list jsmntok_t * Z -> Prop :=
| rounds_done st : jsmn_rounds js N st st
| rounds_next p toks cnt c q toks' cnt' st :
    js !! pos p = Some c -> c <> 0 ->
    ideal_jsmn_parse_char c p js (Some toks) N cnt = Some (StepNext q (Some toks') cnt') ->
    jsmn_rounds js N (set_pos (S (pos q)) q, toks', cnt') st ->
    jsmn_rounds js N (p, toks, cnt) st.

Record config : Type := mk_config {
  at_byte : nat;                   (* [parser->pos] *)
  next_token : nat;                (* [parser->toknext] *)
  super_token : Z;                 (* [parser->toksuper] *)
  token_shapes : list jsmntok_t;   (* the shapes of [tokens] *)
  counted : Z                      (* [count] *)
}.

(** The loop runs from [a] to [b], on any token array of the shapes of [a]. *)
Definition runs (js : list Z) (a b : config) : Prop :=
  length (token_shapes b) = length (token_shapes a)
  /\ forall toks,
       shapes toks = token_shapes a ->
       exists toks',
         shapes toks' = token_shapes b
         /\ jsmn_rounds js (Z.of_nat (length toks))
              (mk_jsmn_parser (at_byte a) (next_token a) (super_token a), toks, counted a)
              (mk_jsmn_parser (at_byte b) (next_token b) (super_token b), toks', counted b).

(** The tokens after [c] are closed and hang, directly or not, under [c]. *)
Definition closed_above (sh : list jsmntok_t) (c n : nat) : Prop :=
  forall i : nat,
    (c < i < n)%nat ->
    exists u, sh !! i = Some u /\ tok_end u <> -1
              /\ Z.of_nat c <= tok_parent u < Z.of_nat i.

(** *** Segments of the token array

    What the run over a text does to the array: the [m] tokens from [n] on
    are new, closed, and hang under tokens from [lo] on; the tokens before
    [n] keep their shapes. *)

Definition segment (lo : Z) (n m : nat) (sh sh' : list jsmntok_t) : Prop :=
  length sh' = length sh
  /\ take n sh' = take n sh
  /\ forall i : nat,
       (n <= i < n + m)%nat ->
       exists u, sh' !! i = Some u /\ tok_end u <> -1 /\ lo <= tok_parent u < Z.of_nat i.

(** *** What the run over a JSON text does *)

(** A value (alone, or between white space) leaves [toksuper] as it is. *)
Definition value_runs (js : list Z) (v : list Z) (m : nat) : Prop :=
  forall k n s sh cnt lo,
    at_pos js k v -> value_end js (k + length v) ->
    (n + m <= length sh)%nat -> -1 <= lo <= s -> s < Z.of_nat n ->
    exists sh',
      runs js (mk_config k n s sh cnt)
        (mk_config (k + length v) (n + m) s sh' (cnt + Z.of_nat m))
      /\ segment lo n m sh sh'.

(** The elements of an array, or any values under the token [c]. *)
Definition elements_run (js : list Z) (es : list Z) (m : nat) : Prop :=
  forall k n c sh cnt t,
    at_pos js k es -> value_end js (k + length es) ->
    (n + m <= length sh)%nat -> (c < n)%nat ->
    sh !! c = Some t -> tok_type t = JSMN_ARRAY \/ tok_type t = JSMN_OBJECT ->
    exists sh',
      runs js (mk_config k n (Z.of_nat c) sh cnt)
        (mk_config (k + length es) (n + m) (Z.of_nat c) sh' (cnt + Z.of_nat m))
      /\ segment (Z.of_nat c) n m sh sh'.

(** A member of the object [c]: its name is the first new token, and is
    [toksuper] after the member. *)
Definition member_runs (js : list Z) (e : list Z) (m : nat) : Prop :=
  forall k n c sh cnt,
    at_pos js k e -> value_end js (k + length e) ->
    (n + m <= length sh)%nat -> (c < n)%nat ->
    exists sh' name,
      runs js (mk_config k n (Z.of_nat c) sh cnt)
        (mk_config (k + length e) (n + m) (Z.of_nat n) sh' (cnt + Z.of_nat m))
      /\ segment (Z.of_nat c) n m sh sh'
      /\ (1 <= m)%nat
      /\ sh' !! n = Some name /\ tok_type name = JSMN_STRING
      /\ tok_parent name = Z.of_nat c.

Definition members_run (js : list Z) (ms : list Z) (m : nat) : Prop :=
  forall k n c sh cnt,
    at_pos js k ms -> value_end js (k + length ms) ->
    (n + m <= length sh)%nat -> (c < n)%nat ->
    exists sh' s',
      runs js (mk_config k n (Z.of_nat c) sh cnt)
        (mk_config (k + length ms) (n + m) s' sh' (cnt + Z.of_nat m))
      /\ segment (Z.of_nat c) n m sh sh'.

(** ** The tokens that a round of the filling pass leaves *)

(** What a round of the filling pass does to the token array: nothing, or
    it closes an open token, or it fills the next token under [toksuper]
    and counts it in the [size] of [toksuper]. *)
Inductive token_step (p : jsmn_parser) (toks : list jsmntok_t) (q : jsmn_parser)
    (toks' : list jsmntok_t) : Prop :=
| step_keep :
    toks' = toks -> toknext q = toknext p -> token_step p toks q toks'
| step_close (idx : nat) (t : jsmntok_t) :
    toknext q = toknext p -> (idx < toknext p)%nat ->
    toks !! idx = Some t -> tok_is_open t = true ->
    toks' = <[idx := set_tok_end (Z.of_nat (pos p) + 1) t]> toks ->
    token_step p toks q toks'
| step_push (type : jsmntype_t) (start end_ : Z) :
    toknext q = S (toknext p) -> (toknext p < length toks)%nat ->
    toks' = <[toknext p := mk_jsmntok type start end_ 0 (toksuper p)]>
              (tok_update incr_tok_size (toksuper p) toks) ->
    type <> JSMN_UNDEFINED ->
    Z.of_nat (pos p) <= start <= Z.of_nat (pos q) ->
    end_ = -1 \/ start <= end_ <= Z.of_nat (S (pos q)) ->
    token_step p toks q toks'.

(** The number of tokens among the first [n] whose parent link is [i]. *)
Definition child_tokens (toks : list jsmntok_t) (n i : nat) : nat :=
  length (filter (fun x => x = Z.of_nat i) (take n (parent_links toks))).

(** Token [i] of an array whose first [n] tokens are filled from the bytes
    before [limit]. *)
Definition filled (limit : Z) (toks : list jsmntok_t) (n i : nat) (t : jsmntok_t) : Prop :=
  tok_type t <> JSMN_UNDEFINED
  /\ 0 <= tok_start t < limit
  /\ (tok_end t = -1 \/ tok_start t <= tok_end t <= limit)
  /\ -1 <= tok_parent t < Z.of_nat i
  /\ tok_size t = Z.of_nat (child_tokens toks n i).

Definition tokens_filled (limit : Z) (n : nat) (toks : list jsmntok_t) : Prop :=
  (forall i, (i < n)%nat -> exists t, toks !! i = Some t /\ filled limit toks n i t)
  /\ (forall i j ti tj, (i < j < n)%nat -> toks !! i = Some ti -> toks !! j = Some tj ->
        tok_start ti < tok_start tj).

(** ** The states of the filling pass, and a long JSON text *)

(** The state of the filling pass at the head of a round. *)
Definition fill_state (js : list Z) (p : jsmn_parser) (toks : list jsmntok_t) : Prop :=
  Z.of_nat (length js) <= INT_MAX
  /\ (pos p <= length js)%nat
  /\ (toknext p <= pos p)%nat
  /\ tokens_wf p toks
  /\ tokens_filled (Z.of_nat (pos p)) (toknext p) toks.

(** The text [[], [n] spaces, []]. *)
Definition spaced_array (n : nat) : list Z :=
  CH_LBRACKET :: replicate n CH_SPACE ++ [CH_RBRACKET].

(** The JSON text of 2^32 - 1 bytes: an empty array with 2^32 - 3 spaces
    between its brackets. *)
Definition long_text : list Z := spaced_array (Z.to_nat (UINT_MODULUS - 3)).

(** ** The container: concrete inputs *)

(** The zero-initialised root. *)
Definition cgltf_data_zero : cgltf_data encoded :=
  mk_data cgltf_file_type_invalid [] [] [] [] [] [] [] 0 [] 0 0 [] [] 0 [] [] None.

(** A decoder that rejects every token stream, and an allocator that never
    fails, to run the parse on concrete inputs. *)
Definition reject_all (_ : cgltf_options) (_ : list jsmntok_t) (_ : list Z)
  : Z * cgltf_data encoded := (CGLTF_ERROR_JSON, cgltf_data_zero).
Definition always_alloc (_ : Z) : bool := true.
Definition zero_token : jsmntok_t := mk_jsmntok JSMN_UNDEFINED 0 0 0 0.

(** The twelve bytes of a GLB header: magic, version 2, total length 12. *)
Definition glb_header : list Z := [103; 108; 84; 70; 2; 0; 0; 0; 12; 0; 0; 0].

(** ** The fix-up: the edges of a decoded root, and the scene forest *)

(** A deferred reference of a decoded root: the encoded slot and the length
    of the array it points into, with the policy that applies to it. *)
Inductive edge : Set :=
| Required (var size : Z)
| Optional (var size : Z).

Definition edge_ok (e : edge) : Prop :=
  match e with
  | Required var size => var <> 0 /\ var <= size
  | Optional var size => var = 0 \/ var <= size
  end.

Section Edges.

Variable data : cgltf_data encoded.

Definition attribute_edges (a : cgltf_attribute encoded) : list edge :=
  [Required (attr_data a) (count_of (accessors data))].

Definition morph_target_edges (t : cgltf_morph_target encoded) : list edge :=
  target_attributes t ≫= attribute_edges.

Definition primitive_edges (p : cgltf_primitive encoded) : list edge :=
  Optional (prim_indices p) (count_of (accessors data))
  :: Optional (prim_material p) (count_of (materials data))
  :: (prim_attributes p ≫= attribute_edges) ++ (prim_targets p ≫= morph_target_edges).

Definition mesh_edges (m : cgltf_mesh encoded) : list edge :=
  primitives m ≫= primitive_edges.

Definition accessor_edges (a : cgltf_accessor encoded) : list edge :=
  Optional (acc_buffer_view a) (count_of (buffer_views data))
  :: (if is_sparse a then
        [Required (indices_buffer_view (sparse a)) (count_of (buffer_views data));
         Required (values_buffer_view (sparse a)) (count_of (buffer_views data))]
      else []).

Definition texture_edges (t : cgltf_texture encoded) : list edge :=
  [Optional (tex_image t) (count_of (images data));
   Optional (tex_sampler t) (samplers_count data)].

Definition image_edges (i : cgltf_image encoded) : list edge :=
  [Optional (image_buffer_view i) (count_of (buffer_views data))].

Definition texture_view_edge (v : cgltf_texture_view encoded) : edge :=
  Optional (tv_texture v) (count_of (textures data)).

Definition material_edges (m : cgltf_material encoded) : list edge :=
  [texture_view_edge (normal_texture m);
   texture_view_edge (emissive_texture m);
   texture_view_edge (occlusion_texture m);
   texture_view_edge (base_color_texture (pbr_metallic_roughness m));
   texture_view_edge (metallic_roughness_texture (pbr_metallic_roughness m));
   texture_view_edge (diffuse_texture (pbr_specular_glossiness m));
   texture_view_edge (specular_glossiness_texture (pbr_specular_glossiness m))].

Definition buffer_view_edges (v : cgltf_buffer_view encoded) : list edge :=
  [Required (bv_buffer v) (count_of (buffers data))].

Definition node_slot_edges (slot : encoded) : list edge :=
  [Required slot (count_of (nodes data))].

Definition skin_edges (s : cgltf_skin encoded) : list edge :=
  (joints s ≫= node_slot_edges)
  ++ [Optional (skeleton s) (count_of (nodes data));
      Optional (inverse_bind_matrices s) (count_of (accessors data))].

Definition node_edges (n : cgltf_node encoded) : list edge :=
  (children n ≫= node_slot_edges)
  ++ [Optional (node_mesh n) (count_of (meshes data));
      Optional (node_skin n) (count_of (skins data));
      Optional (node_camera n) (cameras_count data);
      Optional (node_light n) (lights_count data)].

Definition scene_edges (s : cgltf_scene encoded) : list edge :=
  scene_nodes s ≫= node_slot_edges.

Definition animation_sampler_edges (s : cgltf_animation_sampler encoded) : list edge :=
  [Required (sampler_input s) (count_of (accessors data));
   Required (sampler_output s) (count_of (accessors data))].

Definition animation_channel_edges (samplers : Z) (c : cgltf_animation_channel encoded)
  : list edge :=
  [Required (channel_sampler c) samplers;
   Optional (target_node c) (count_of (nodes data))].

Definition animation_edges (a : cgltf_animation encoded) : list edge :=
  (anim_samplers a ≫= animation_sampler_edges)
  ++ (anim_channels a ≫= animation_channel_edges (count_of (anim_samplers a))).

(** Every deferred reference of the root, in the order of the fix-up. *)
Definition data_edges : list edge :=
  (meshes data ≫= mesh_edges)
  ++ (accessors data ≫= accessor_edges)
  ++ (textures data ≫= texture_edges)
  ++ (images data ≫= image_edges)
  ++ (materials data ≫= material_edges)
  ++ (buffer_views data ≫= buffer_view_edges)
  ++ (skins data ≫= skin_edges)
  ++ (nodes data ≫= node_edges)
  ++ (scenes data ≫= scene_edges)
  ++ [Optional (scene data) (count_of (scenes data))]
  ++ (animations data ≫= animation_edges).

End Edges.

(** Every parse that reaches the decoder and in which the decoder leaves the
    root [data] returns invalid-gltf and no root: the input has twelve bytes
    or more and is parsed as text with the token count left to the
    tokeniser, no allocation fails, the counting pass returns [N] tokens,
    the filling pass over [N] tokens returns the token array [tokens], and
    the decoder, called with these tokens, returns the int [i >= 0] and
    the root [data]. *)
Definition parse_returns_invalid_gltf (data : cgltf_data encoded) : Prop :=
  forall decoder malloc sizeof_data garbage options js N N' q1 q2 t1 tokens i,
    GlbHeaderSize <= count_of js ->
    json_token_count options = 0 ->
    type options = cgltf_file_type_gltf
    \/ (type options = cgltf_file_type_invalid /\ load_u32 js 0 <> GlbMagic) ->
    (forall size, options_alloc malloc options size = true) ->
    jsmn_parse (mk_jsmn_parser 0 0 0) js None 0 = Some (N, q1, t1) -> 0 < N ->
    jsmn_parse (jsmn_init (mk_jsmn_parser 0 0 0)) js
      (Some (replicate (Z.to_nat N) garbage)) N
    = Some (N', q2, Some tokens) ->
    0 < N' ->
    decoder (mk_options cgltf_file_type_gltf N (Some (options_alloc malloc options)))
      tokens js = (i, data) ->
    0 <= i ->
    cgltf_parse decoder malloc sizeof_data garbage (Some options) js
    = Some (cgltf_result_invalid_gltf, None).

(** The value of the attribute [a] is the integer of token [i], plus one. *)
Definition attribute_value (tokens : list jsmntok_t) (json_chunk : list Z) (i : Z)
    (a : decoded_attribute) : Prop :=
  exists n,
    json_to_int_at tokens i json_chunk = Some n /\ n < INT_MAX
    /\ da_data a = CGLTF_PTRINDEX n.

(** The decoder of the root for the documents below, whose objects are
    meshes and accessors: the struct sizes are those of an LP64 platform, no
    float is read, and the decoders of the other arrays of the root are not
    reached (the model is undefined where one would be). *)
Definition no_other_decoder (_ : root_decoder) (_ : cgltf_options) (_ : list jsmntok_t)
    (_ : Z) (_ : list Z) (_ : unit) : option (decoded unit) := None.
Definition mesh_decoder
  : cgltf_options -> list jsmntok_t -> list Z -> option (Z * cgltf_data encoded) :=
  decode_root (fun _ => f32_of_Z 0) 0 24 16 72 56 304 unit tt no_other_decoder
    (fun _ => cgltf_data_zero).

(** [mesh_decoder] as the decoder of [cgltf_parse_json]; the value where the
    model is undefined plays no role on the documents below, where it is
    defined. *)
Definition source_decoder (options : cgltf_options) (tokens : list jsmntok_t)
    (json_chunk : list Z) : Z * cgltf_data encoded :=
  default (CGLTF_ERROR_JSON, cgltf_data_zero) (mesh_decoder options tokens json_chunk).

(** A document with three accessors and one primitive whose attribute refers
    to accessor 5, and the root that the decoder leaves for it. *)
Definition dangling_doc : list Z :=
  json_bytes
    "{'meshes':[{'primitives':[{'attributes':{'POSITION':5}}]}],'accessors':[{},{},{}]}".
Definition dangling_primitive : cgltf_primitive encoded :=
  mk_primitive 0 0 [mk_attribute (CGLTF_PTRINDEX 5)] [].
Definition dangling_data : cgltf_data encoded :=
  mk_data cgltf_file_type_invalid [mk_mesh [dangling_primitive] None] []
    [zero_accessor; zero_accessor; zero_accessor] [] [] [] [] 0 [] 0 0 [] [] 0 [] [] None.

(** A document whose root object has an array of three accessors and whose
    primitive has an attribute on accessor 5 and a member [mode] with an
    object for its value, which holds an array of six objects under the key
    [accessors]. *)
Definition misread_doc : list Z :=
  json_bytes
    "{'meshes':[{'primitives':[{'attributes':{'POSITION':5},'mode':{'accessors':[{},{},{},{},{},{}]}}]}],'accessors':[{},{},{}]}".

(** [passes m edges]: when [m] carries on, the edges it covers are in order,
    and when it returns, it returns [CGLTF_ERROR_JSON]. *)
Definition passes {A : Type} (m : fixup A) (edges : list edge) : Prop :=
  match m with
  | Fixed _ => Forall edge_ok edges
  | FixupError code => code = CGLTF_ERROR_JSON
  end.

(** The children [ks] fixed by a loop run as node [i], between the columns
    [parents] and [parents'] of parent fields. *)
Definition adopts (i : nat) (ks : list nat) (parents parents' : list ptr) : Prop :=
  length parents' = length parents
  /\ (forall k, k ∈ ks -> parents !! k = Some None /\ parents' !! k = Some (Some i))
  /\ (forall c p, parents !! c = Some (Some p) -> parents' !! c = Some (Some p))
  /\ (forall c p, parents' !! c = Some (Some p) ->
                  parents !! c = Some (Some p) \/ (p = i /\ c ∈ ks)).

(** The indices of the children of a linked node. *)
Definition child_indices (n : cgltf_node ptr) : list nat := omap id (children n).

(** Slot [j] of the children of node [p] points to node [c]. *)
Definition child_at (ns : list (cgltf_node ptr)) (p j c : nat) : Prop :=
  exists n, ns !! p = Some n /\ children n !! j = Some (Some c).

(** Slot [r] of the roots of scene [s] points to node [c]. *)
Definition root_at (ss : list (cgltf_scene ptr)) (s r c : nat) : Prop :=
  exists sc, ss !! s = Some sc /\ scene_nodes sc !! r = Some (Some c).

(** The [parent] field of node [c]. *)
Definition parent_of (ns : list (cgltf_node ptr)) (c : nat) : ptr :=
  n ← ns !! c; node_parent n.

(** The scene forest of a linked root: a node is in at most one slot of one
    [children] array, a node in a [children] array is a root of no scene,
    and the [parent] field of a node is the one node that lists it. *)
Definition scene_forest (root : cgltf_data ptr) : Prop :=
  (forall p1 j1 p2 j2 c,
     child_at (nodes root) p1 j1 c -> child_at (nodes root) p2 j2 c ->
     p1 = p2 /\ j1 = j2)
  /\ (forall p j s r c,
        child_at (nodes root) p j c -> root_at (scenes root) s r c -> False)
  /\ (forall c p,
        parent_of (nodes root) c = Some p <-> exists j, child_at (nodes root) p j c).

(** Three nodes: node 0 has the children 1 and 2, and is the root of the
    only scene. *)
Definition leaf_node : cgltf_node encoded := mk_node None [] 0 0 0 0 None.
Definition family_data : cgltf_data encoded :=
  mk_data cgltf_file_type_invalid [] [] [] [] [] [] [] 0 [] 0 0
    [mk_node None [CGLTF_PTRINDEX 1; CGLTF_PTRINDEX 2] 0 0 0 0 None; leaf_node; leaf_node]
    [mk_scene [CGLTF_PTRINDEX 0]] (CGLTF_PTRINDEX 0) [] [] None.
Definition family_linked : cgltf_data ptr :=
  mk_data cgltf_file_type_invalid [] [] [] [] [] [] [] 0 [] 0 0
    [mk_node None [Some 1%nat; Some 2%nat] None None None None None;
     mk_node (Some 0%nat) [] None None None None None;
     mk_node (Some 0%nat) [] None None None None None]
    [mk_scene [Some 0%nat]] (Some 0%nat) [] [] None.

(** ** The accessor services, the validator and the extras: scenarios *)

Definition f32_one : cgltf_float := S754_finite false 8388608 (-23).

(** The byte offset of component [k] inside an element: the columns of a
    matrix start on 4-byte boundaries, every other element is contiguous. *)
Definition component_offset (type : cgltf_type) (component_type : cgltf_component_type)
    (k : Z) : Z :=
  let cs := cgltf_component_size component_type in
  match type, cs with
  | cgltf_type_mat2, 1 => 4 * (k / 2) + k mod 2
  | cgltf_type_mat3, 1 => 4 * (k / 3) + k mod 3
  | cgltf_type_mat3, 2 => 8 * (k / 3) + 2 * (k mod 3)
  | _, _ => cs * k
  end.

(** A buffer holding the two bytes FF FF under one view, and a
    single-element scalar accessor with normalized u16 components over it. *)
Definition no_sparse : cgltf_accessor_sparse ptr :=
  mk_accessor_sparse 0 None 0 cgltf_component_type_invalid None 0.
Definition u16_accessor : cgltf_accessor ptr :=
  mk_accessor cgltf_component_type_r_16u true cgltf_type_scalar 0 1 2 (Some 0%nat)
    false no_sparse.
Definition u16_data : cgltf_data ptr :=
  mk_data cgltf_file_type_gltf [] [] [u16_accessor]
    [mk_buffer_view (Some 0%nat) 0 2 0] [mk_buffer 2 (Some [255; 255])]
    [] [] 0 [] 0 0 [] [] None [] [] None.

(** Scenario: three vec3 float elements over a view of 20 bytes. *)
Definition short_view_accessor : cgltf_accessor ptr :=
  mk_accessor cgltf_component_type_r_32f false cgltf_type_vec3 0 3 12 (Some 0%nat)
    false no_sparse.
Definition short_view_data : cgltf_data ptr :=
  mk_data cgltf_file_type_gltf [] [] [short_view_accessor]
    [mk_buffer_view (Some 0%nat) 0 20 0] [mk_buffer 20 None]
    [] [] 0 [] 0 0 [] [] None [] [] None.

(** Scenario: 2^64 - 1 four-byte indices (the [count] the decoder stores
    for ["count": -1]) from offset 4 on with stride 4, over a view of 8
    bytes. *)
Definition wrapped_accessor : cgltf_accessor ptr :=
  mk_accessor cgltf_component_type_r_32u false cgltf_type_scalar 4 SIZE_MAX 4 (Some 0%nat)
    false no_sparse.
Definition wrapped_view : cgltf_buffer_view ptr := mk_buffer_view (Some 0%nat) 0 8 0.
Definition wrapped_data : cgltf_data ptr :=
  mk_data cgltf_file_type_gltf [] [] [wrapped_accessor] [wrapped_view] [mk_buffer 8 None]
    [] [] 0 [] 0 0 [] [] None [] [] None.

(** A document whose [extras] value is the text [12345], at offsets 10 to 15. *)
Definition extras_doc : cgltf_data ptr :=
  mk_data cgltf_file_type_gltf [] [] [] [] [] [] [] 0 [] 0 0 [] [] None []
    (json_bytes "{'extras':12345}") None.

(** ** What a successful validation establishes *)

(** Index [k] of a run of tightly packed indices of component type
    [component_type] that starts at [addr]. *)
Definition packed_index (mem : list Z) (addr : Z) (component_type : cgltf_component_type)
    (k : Z) : option Z :=
  cgltf_component_read_index mem (addr + cgltf_component_size component_type * k)
    component_type.

(** The accessor of every attribute of [attributes] has [count] elements. *)
Definition attributes_have_count (data : cgltf_data ptr) (count : Z)
    (attributes : list (cgltf_attribute ptr)) : Prop :=
  Forall (fun a => exists acc, deref (accessors data) (attr_data a) = Some acc
                               /\ acc_count acc = count) attributes.

(** The address of the first byte of the data an accessor or a sparse index
    run refers to, [offset] bytes into the view. *)
Definition view_address (view : cgltf_buffer_view ptr) (offset : Z) : Z :=
  size_wrap (offset + bv_offset view).

Definition validation_failure (r : cgltf_result) : Prop :=
  r = cgltf_result_data_too_short \/ r = cgltf_result_invalid_gltf.

(** [indices_req_size] and [values_req_size] of the sparse checks. *)
Definition sparse_indices_req_size (accessor : cgltf_accessor ptr) : Z :=
  let sp := sparse accessor in
  size_wrap (indices_byte_offset sp
             + size_wrap (cgltf_calc_size cgltf_type_scalar (indices_component_type sp)
                          * sparse_count sp)).

Definition sparse_values_req_size (accessor : cgltf_accessor ptr) : Z :=
  let sp := sparse accessor in
  size_wrap (values_byte_offset sp
             + size_wrap (cgltf_calc_size (acc_type accessor) (component_type accessor)
                          * sparse_count sp)).

(** Scenario: a triangle.  The buffer holds three vec3 float positions (36
    bytes) and then the 16-bit indices 0, 1, 2; a view covers each part. *)
Definition triangle_bytes : list Z := replicate 36 0 ++ [0; 0; 1; 0; 2; 0].
Definition triangle_positions : cgltf_accessor ptr :=
  mk_accessor cgltf_component_type_r_32f false cgltf_type_vec3 0 3 12 (Some 0%nat)
    false no_sparse.
Definition triangle_indices : cgltf_accessor ptr :=
  mk_accessor cgltf_component_type_r_16u false cgltf_type_scalar 0 3 2 (Some 1%nat)
    false no_sparse.
Definition triangle_primitive : cgltf_primitive ptr :=
  mk_primitive (Some 1%nat) None [mk_attribute (Some 0%nat)] [].
Definition triangle_mesh : cgltf_mesh ptr := mk_mesh [triangle_primitive] None.
Definition triangle_views : list (cgltf_buffer_view ptr) :=
  [mk_buffer_view (Some 0%nat) 0 36 0; mk_buffer_view (Some 0%nat) 36 6 0].
Definition triangle_data : cgltf_data ptr :=
  mk_data cgltf_file_type_gltf [triangle_mesh] [] [triangle_positions; triangle_indices]
    triangle_views [mk_buffer 42 (Some triangle_bytes)]
    [] [] 0 [] 0 0 [mk_node None [] None (Some 0%nat) None None None] [] None [] [] None.

(** Scenario: a mesh of two primitives over three vertices.  Each has a
    position and a normal, in either order, and one morph target that
    displaces the positions; the mesh and the node that shows it carry one
    weight for the target. *)
Definition morph_accessor : cgltf_accessor ptr :=
  mk_accessor cgltf_component_type_r_32f false cgltf_type_vec3 0 3 12 (Some 0%nat)
    false no_sparse.
Definition morph_position : cgltf_attribute ptr := mk_attribute (Some 0%nat).
Definition morph_normal : cgltf_attribute ptr := mk_attribute (Some 1%nat).
Definition morph_target : cgltf_morph_target ptr :=
  mk_morph_target [mk_attribute (Some 2%nat)].
Definition morph_primitive_a : cgltf_primitive ptr :=
  mk_primitive None None [morph_position; morph_normal] [morph_target].
Definition morph_primitive_b : cgltf_primitive ptr :=
  mk_primitive None None [morph_normal; morph_position]
    [mk_morph_target [mk_attribute (Some 2%nat); mk_attribute (Some 1%nat)]].
Definition morph_weights : option (list cgltf_float) := Some [S754_zero false].
Definition morph_mesh : cgltf_mesh ptr :=
  mk_mesh [morph_primitive_a; morph_primitive_b] morph_weights.
Definition morph_node : cgltf_node ptr :=
  mk_node None [] None (Some 0%nat) None None morph_weights.
Definition morph_data : cgltf_data ptr :=
  mk_data cgltf_file_type_gltf [morph_mesh] []
    [morph_accessor; morph_accessor; morph_accessor]
    [mk_buffer_view (Some 0%nat) 0 36 0] [mk_buffer 36 None]
    [] [] 0 [] 0 0 [morph_node] [] None [] [] None.

(** Scenario: a sparse accessor of three floats that replaces the elements
    0 and 2; the buffer holds the two 8-bit indices and the two values. *)
Definition sparse_accessor : cgltf_accessor ptr :=
  mk_accessor cgltf_component_type_r_32f false cgltf_type_scalar 0 3 4 None true
    (mk_accessor_sparse 2 (Some 0%nat) 0 cgltf_component_type_r_8u (Some 1%nat) 0).
Definition sparse_data : cgltf_data ptr :=
  mk_data cgltf_file_type_gltf [] [] [sparse_accessor]
    [mk_buffer_view (Some 0%nat) 0 2 0; mk_buffer_view (Some 0%nat) 4 8 0]
    [mk_buffer 12 (Some ([0; 2; 0; 0] ++ replicate 8 0))]
    [] [] 0 [] 0 0 [] [] None [] [] None.

(** The fields of an accessor over a view are values of [cgltf_size], and
    the sums the validator forms of them do not wrap around. *)
Definition sizes_do_not_wrap (accessor : cgltf_accessor ptr) (view : cgltf_buffer_view ptr)
  : Prop :=
  0 <= acc_offset accessor /\ 0 <= acc_stride accessor
  /\ 0 <= bv_offset view /\ 0 <= bv_size view
  /\ acc_offset accessor + acc_stride accessor * (acc_count accessor - 1)
     + cgltf_calc_size (acc_type accessor) (component_type accessor) < SIZE_MODULUS
  /\ bv_offset view + bv_size view < SIZE_MODULUS.

(** ** The results of the parse, and GLB containers *)

(** The codes with which [cgltf_parse_json] fails. *)
Definition json_failure (r : cgltf_result) : Prop :=
  r = cgltf_result_invalid_json \/ r = cgltf_result_out_of_memory
  \/ r = cgltf_result_invalid_gltf.

(** A decoder that accepts every token stream and leaves the root empty. *)
Definition accept_all (_ : cgltf_options) (_ : list jsmntok_t) (_ : list Z)
  : Z * cgltf_data encoded := (1, cgltf_data_zero).

(** The four bytes of a [uint32_t], least significant first. *)
Definition le32 (n : Z) : list Z :=
  [n mod 256; (n / 256) mod 256; (n / 65536) mod 256; (n / 16777216) mod 256].

(** A GLB container: the header, the JSON chunk and the BIN chunk. *)
Definition glb_file (json_chunk bin_chunk : list Z) : list Z :=
  le32 GlbMagic ++ le32 GlbVersion
  ++ le32 (GlbHeaderSize + GlbChunkHeaderSize + count_of json_chunk
           + GlbChunkHeaderSize + count_of bin_chunk)
  ++ le32 (count_of json_chunk) ++ le32 GlbMagicJsonChunk ++ json_chunk
  ++ le32 (count_of bin_chunk) ++ le32 GlbMagicBinChunk ++ bin_chunk.

(** The bytes of the input are values of [uint8_t]. *)
Definition bytes (data : list Z) : Prop := Forall (fun b => 0 <= b < 256) data.

(** What a successful parse of a GLB container hands out. *)
Definition glb_root (data : list Z) (root : cgltf_data ptr) : Prop :=
  file_type root = cgltf_file_type_glb
  /\ load_u32 data 0 = GlbMagic
  /\ load_u32 data 4 = GlbVersion
  /\ load_u32 data 8 <= count_of data
  /\ load_u32 data 16 = GlbMagicJsonChunk
  /\ 20 + load_u32 data 12 <= count_of data
  /\ json root = take (Z.to_nat (load_u32 data 12)) (drop 20 data)
  /\ ((count_of data < 20 + load_u32 data 12 + 8 /\ bin root = None)
      \/ (load_u32 data (20 + load_u32 data 12 + 4) = GlbMagicBinChunk
          /\ 20 + load_u32 data 12 + 8 + load_u32 data (20 + load_u32 data 12)
             <= count_of data
          /\ bin root =
             Some (take (Z.to_nat (load_u32 data (20 + load_u32 data 12)))
                     (drop (Z.to_nat (20 + load_u32 data 12 + 8)) data)))).

(** The codes with which [cgltf_parse] fails. *)
Definition parse_failure (r : cgltf_result) : Prop :=
  json_failure r \/ r = cgltf_result_data_too_short
  \/ r = cgltf_result_invalid_options \/ r = cgltf_result_unknown_format.

(** The root that [accept_all] leaves, once linked: empty, with the
    chunks of the input. *)
Definition empty_root (ft : cgltf_file_type) (text : list Z) (payload : option (list Z))
  : cgltf_data ptr :=
  mk_data ft [] [] [] [] [] [] [] 0 [] 0 0 [] [] None [] text payload.

(** The minimal document in a GLB container with four bytes of payload. *)
Definition asset_glb : list Z := glb_file asset_doc [1; 2; 3; 4].

Definition auto_options : cgltf_options := mk_options cgltf_file_type_invalid 0 None.

(** ** The filled token array *)

(** The tokens of the minimal document. *)
Definition asset_tokens : list jsmntok_t :=
  [mk_jsmntok JSMN_OBJECT 0 27 1 (-1); mk_jsmntok JSMN_STRING 2 7 1 0;
   mk_jsmntok JSMN_OBJECT 9 26 1 1; mk_jsmntok JSMN_STRING 11 18 1 2;
   mk_jsmntok JSMN_STRING 21 24 0 3].

(** ** Paths of buffer files *)

(** A directory part: empty, or ended by a slash or a backslash. *)
Definition directory (dir : list Z) : Prop :=
  dir = [] \/ exists d c, dir = d ++ [c] /\ (c = CH_SLASH \/ c = CH_BACKSLASH).

(** The path of a scene, the URI of its buffer and a fresh path buffer of
    [strlen(uri) + strlen(gltf_path) + 1] bytes. *)
Definition scene_path : list Z := json_bytes "models/scene.gltf".
Definition mesh_uri : list Z := json_bytes "mesh.bin".
Definition fresh_path : list Z := replicate 26 205.

(** ** Base64, data URIs and the buffers after the loaders *)

(** [buffer = (buffer << 6) | index] *)
Definition base64_shift (buffer index : Z) : Z :=
  uint_wrap (Z.lor (Z.shiftl buffer 6) index).

(** The base64 alphabet of RFC 4648. *)
Definition base64_char (v : Z) : Z :=
  if v <? 26 then v + 65
  else if v <? 52 then v - 26 + 97
  else if v <? 62 then v - 52 + 48
  else if v =? 62 then 43
  else 47.

Definition CH_PAD : Z := 61.

(** The base64 encoding of RFC 4648, with padding. *)
Fixpoint base64_encode (data : list Z) : list Z :=
  match data with
  | [] => []
  | [a] => [base64_char (a / 4); base64_char (a mod 4 * 16); CH_PAD; CH_PAD]
  | [a; b] =>
      [base64_char (a / 4); base64_char (a mod 4 * 16 + b / 16);
       base64_char (b mod 16 * 4); CH_PAD]
  | a :: b :: c :: rest =>
      base64_char (a / 4) :: base64_char (a mod 4 * 16 + b / 16)
      :: base64_char (b mod 16 * 4 + c / 64) :: base64_char (c mod 64)
      :: base64_encode rest
  end.

(** What a loader hands out: with success the [size] bytes of the buffer,
    and nothing with any other code. *)
Definition loader_outcome (size : Z) (res : cgltf_result) (out : option (list Z)) : Prop :=
  (res = cgltf_result_success
   /\ exists data, out = Some data /\ length data = Z.to_nat size)
  \/ (res <> cgltf_result_success /\ out = None).

(** A buffer after the loop, against the buffer and its [uri] before it:
    it is as it was when it was loaded already or has no [uri]; otherwise it
    holds [size] bytes, or is as it was when the loop stopped with an error. *)
Definition buffer_after (ok : bool) (uri : option (list Z)) (b b' : cgltf_buffer) : Prop :=
  buffer_size b' = buffer_size b
  /\ match buffer_data b, uri with
     | None, Some _ =>
         (exists data, buffer_data b' = Some data
                       /\ length data = Z.to_nat (buffer_size b))
         \/ (ok = false /\ b' = b)
     | _, _ => b' = b
     end.

(** A data URI as the loader takes it: [data:], a media type, [;base64,]
    and the payload. *)
Definition data_uri (media payload : list Z) : list Z :=
  STR_DATA ++ media ++ STR_BASE64 ++ CH_COMMA :: payload.

(** URIs the loaders do not take: one with a scheme that does not start
    with [data:], and a data URI without a comma or without [;base64] before
    its first comma. *)
Definition unsupported_uri (uri : list Z) : Prop :=
  (take 5 uri <> STR_DATA
   /\ exists a b, uri = a ++ STR_SCHEME ++ b /\ Forall (fun c => c <> 0) a)
  \/ (exists media rest,
        uri = STR_DATA ++ media ++ rest
        /\ Forall (fun c => c <> 0 /\ c <> CH_COMMA) media
        /\ (str_head rest = CH_NUL
            \/ (str_head rest = CH_COMMA /\ forall m, media <> m ++ STR_BASE64))).

(** The bytes of "Man" and "Ma", the examples of RFC 4648. *)
Definition man_bytes : list Z := [77; 97; 110].

(** A disk with one file of five bytes, beside the scene. *)
Definition disk (path : list Z) : option (list Z) :=
  if bool_decide (path = json_bytes "models/mesh.bin") then Some [1; 2; 3; 4; 5] else None.

(** A root with the buffers [bs] and the BIN chunk [payload], and nothing
    else. *)
Definition buffers_root (bs : list cgltf_buffer) (payload : option (list Z))
  : cgltf_data ptr :=
  mk_data cgltf_file_type_glb [] [] [] [] bs [] [] 0 [] 0 0 [] [] None [] [] payload.

Definition media_octets : list Z := json_bytes "application/octet-stream".

(** Two buffers of three bytes: the first in the BIN chunk, the second in a
    data URI. *)
Definition embedded_root : cgltf_data ptr :=
  buffers_root [mk_buffer 3 None; mk_buffer 3 None] (Some [9; 8; 7; 6]).
Definition embedded_uris : list (option (list Z)) :=
  [None; Some (data_uri media_octets (base64_encode man_bytes))].

(** A buffer of eight bytes with a BIN chunk of four. *)
Definition short_bin_root : cgltf_data ptr :=
  buffers_root [mk_buffer 8 None] (Some [9; 8; 7; 6]).

(** ** Token texts, token trees and decimal notation *)

(** The bytes of a token in the JSON text. *)
Definition token_text (tok : jsmntok_t) (json_chunk : list Z) : list Z :=
  take (Z.to_nat (tok_end tok - tok_start tok)) (drop (Z.to_nat (tok_start tok)) json_chunk).

(** A JSON value as far as its tokens go: the values of the elements of an
    array, and the values of the members of an object. *)
#[warnings="-register-all"] Inductive token_tree : Set :=
| TPrimitive
| TString
| TArray (elements : list token_tree)
| TObject (members : list token_tree).

(** The types and sizes of the tokens of a value, in the order of the
    tokeniser: the token of an array is followed by the tokens of its
    elements; the token of an object by those of its members, each one the
    string of the key, of size 1, and the tokens of the value. *)
Fixpoint token_layout (v : token_tree) : list (jsmntype_t * Z) :=
  match v with
  | TPrimitive => [(JSMN_PRIMITIVE, 0)]
  | TString => [(JSMN_STRING, 0)]
  | TArray es => (JSMN_ARRAY, count_of es) :: flat_map token_layout es
  | TObject ms =>
      (JSMN_OBJECT, count_of ms)
      :: flat_map (fun v => (JSMN_STRING, 1) :: token_layout v) ms
  end.

Fixpoint tree_depth (v : token_tree) : nat :=
  match v with
  | TPrimitive | TString => 0
  | TArray es => S (list_max (map tree_depth es))
  | TObject ms => S (list_max (map tree_depth ms))
  end.

(** The types and sizes of the tokens of an array. *)
Definition token_kinds (tokens : list jsmntok_t) : list (jsmntype_t * Z) :=
  (fun t => (tok_type t, tok_size t)) <$> tokens.

Definition skips (fuel : nat) (tokens : list jsmntok_t) (v : token_tree) : Prop :=
  forall pre post,
    token_kinds tokens = pre ++ token_layout v ++ post ->
    cgltf_skip_json fuel tokens (count_of pre)
    = Some (count_of pre + count_of (token_layout v)).

(** The progress of [cgltf_skip_json]: the index it returns is not before
    the one it is given, unless it is the error code. *)
Definition advances (skip : Z -> option Z) : Prop :=
  forall i r, 0 <= i -> skip i = Some r -> r = CGLTF_ERROR_JSON \/ i <= r.

(** The tokens of [{"asset":{"version":"2.0"}}] as a value. *)
Definition asset_tree : token_tree := TObject [TObject [TString]].

(** The decimal digits of [n] before [rest], [fuel] digits at most. *)
Fixpoint decimal_digits (fuel : nat) (n : Z) (rest : list Z) : list Z :=
  match fuel with
  | O => rest
  | S fuel' =>
      let rest' := (48 + n mod 10) :: rest in
      if n <? 10 then rest' else decimal_digits fuel' (n / 10) rest'
  end.

(** The decimal notation of a number from 0 to [INT_MAX]. *)
Definition decimal (n : Z) : list Z := decimal_digits 10 n [].

(** The decimal notation of an [int]. *)
Definition decimal_int (z : Z) : list Z :=
  if z <? 0 then 45 :: decimal (- z) else decimal z.

(** The names of the attribute semantics. *)
Definition attribute_names : list (list Z * cgltf_attribute_type) :=
  [(STR_POSITION, cgltf_attribute_type_position);
   (STR_NORMAL, cgltf_attribute_type_normal);
   (STR_TANGENT, cgltf_attribute_type_tangent);
   (STR_TEXCOORD, cgltf_attribute_type_texcoord);
   (STR_COLOR, cgltf_attribute_type_color);
   (STR_JOINTS, cgltf_attribute_type_joints);
   (STR_WEIGHTS, cgltf_attribute_type_weights)].

(** The bytes of a name before its first underscore, or all of them. *)
Definition attribute_stem (name : list Z) : list Z :=
  match strchr name CH_UNDERSCORE with
  | Some k => take k name
  | None => c_str name
  end.

Definition attribute_of_stem (stem : list Z) : cgltf_attribute_type :=
  match find (fun p => bool_decide (p.1 = stem)) attribute_names with
  | Some p => p.2
  | None => cgltf_attribute_type_invalid
  end.

(** The key ["asset"] of the asset document, options with an allocator and
    the tokens of [[1,2,3]] and of [5126]. *)
Definition asset_key : jsmntok_t := mk_jsmntok JSMN_STRING 2 7 1 0.
Definition alloc_options : cgltf_options :=
  mk_options cgltf_file_type_invalid 0 (Some always_alloc).
Definition triple_tokens : list jsmntok_t :=
  [mk_jsmntok JSMN_ARRAY 0 7 3 (-1); mk_jsmntok JSMN_PRIMITIVE 1 2 0 0;
   mk_jsmntok JSMN_PRIMITIVE 3 4 0 0; mk_jsmntok JSMN_PRIMITIVE 5 6 0 0].
Definition float_type_token : jsmntok_t := mk_jsmntok JSMN_PRIMITIVE 0 4 0 (-1).

(** The token of [true] in a text. *)
Definition true_token : jsmntok_t := mk_jsmntok JSMN_PRIMITIVE 5 9 0 0.

(** * Properties *)

(** ** Element geometry *)

(** C3 (amended): [cgltf_calc_size] is the product of the component size
    and the number of components, with exactly three exceptions: mat2 with
    1-byte components occupies 8 bytes, mat3 with 1-byte components 12
    bytes, and mat3 with 2-byte components 24 bytes, which is
    [12 * component_size]. *)
Theorem cgltf_calc_size_table (type : cgltf_type) (component_type : cgltf_component_type) :
  cgltf_calc_size type component_type
  = element_size_table type (cgltf_component_size component_type)
  /\ (cgltf_calc_size type component_type
      <> cgltf_component_size component_type * cgltf_num_components type
      <-> (type = cgltf_type_mat2 /\ cgltf_component_size component_type = 1)
          \/ (type = cgltf_type_mat3
              /\ (cgltf_component_size component_type = 1
                  \/ cgltf_component_size component_type = 2)))
  /\ (type = cgltf_type_mat3 -> cgltf_component_size component_type = 2 ->
      cgltf_calc_size type component_type = 12 * cgltf_component_size component_type).
Proof.
  destruct type, component_type; vm_compute; (split; [reflexivity |]);
    (split; [| intros; (reflexivity || discriminate)]);
    (split; [intros H; first [exfalso; apply H; reflexivity | auto]
            | intros [[? ?] | [? [? | ?]]] ?; discriminate]).
Qed.

(** C3, as stated, fails on mat3 with 2-byte components: the element
    occupies 24 bytes, not 12. *)
Lemma cgltf_calc_size_mat3_short_is_24 :
  cgltf_component_size cgltf_component_type_r_16 = 2
  /\ cgltf_calc_size cgltf_type_mat3 cgltf_component_type_r_16 = 24
  /\ cgltf_calc_size cgltf_type_mat3 cgltf_component_type_r_16u = 24
  /\ 24 <> 12.
Proof. vm_compute. repeat split; discriminate. Qed.

(** ** Properties of the tokeniser *)

(** *** The scanners advance *)

Lemma jsmn_primitive_scan_le (rest : list Z) :
  forall pos p, jsmn_primitive_scan rest pos = Some p -> (pos <= p)%nat.
Proof.
  induction rest as [| c rest IH]; intros pos p; cbn.
  - intros [= <-]. lia.
  - destruct (c =? 0); [intros [= <-]; lia |].
    destruct (primitive_delimiter c); [intros [= <-]; lia |].
    destruct (_ || _); [discriminate |].
    intros H%IH. lia.
Qed.

Lemma jsmn_primitive_scan_lt (js : list Z) (pos p : nat) (c : Z) :
  js !! pos = Some c -> c <> 0 -> primitive_delimiter c = false ->
  jsmn_primitive_scan (drop pos js) pos = Some p -> (pos < p)%nat.
Proof.
  intros Hc Hnz Hnd. rewrite (drop_S _ _ _ Hc). cbn.
  destruct (Z.eqb_spec c 0); [contradiction |]. rewrite Hnd.
  destruct (_ || _); [discriminate |].
  intros H%jsmn_primitive_scan_le. lia.
Qed.

Lemma jsmn_hex_digits_le (n : nat) (js : list Z) :
  forall pos p, jsmn_hex_digits n js pos = Some p -> (pos <= p)%nat.
Proof.
  induction n as [| n IH]; intros pos p; cbn.
  - intros [= <-]. lia.
  - destruct (js !! pos) as [c |]; [| intros [= <-]; lia].
    destruct (c =? 0); [intros [= <-]; lia |].
    destruct (is_hex_digit c); [| discriminate].
    intros H%IH. lia.
Qed.

(** The scan of a string is defined, and a closing quote it finds stands
    inside the input, not before the position the scan started from. *)
Lemma jsmn_string_scan_defined (js : list Z) (fuel : nat) :
  forall pos,
    (length js <= pos + fuel)%nat ->
    exists s, jsmn_string_scan fuel js pos = Some s
              /\ forall p, s = StringEnd p -> (pos <= p < length js)%nat.
Proof.
  induction fuel as [| fuel IH]; intros pos Hfuel; cbn [jsmn_string_scan].
  - rewrite (lookup_ge_None_2 js pos) by lia. eexists. split; [reflexivity | discriminate].
  - destruct (js !! pos) as [c |] eqn:Hc;
      [| eexists; split; [reflexivity | discriminate]].
    pose proof (lookup_lt_Some _ _ _ Hc) as Hlt.
    destruct (c =? 0); [eexists; split; [reflexivity | discriminate] |].
    destruct (c =? CH_QUOTE).
    { eexists. split; [reflexivity |]. intros p [= <-]. lia. }
    assert (Hnext : exists s, jsmn_string_scan fuel js (S pos) = Some s
                              /\ forall p, s = StringEnd p -> (pos <= p < length js)%nat).
    { destruct (IH (S pos) ltac:(lia)) as (s & Hs & Hp). exists s.
      split; [exact Hs |]. intros p E. specialize (Hp p E). lia. }
    destruct (c =? CH_BACKSLASH); cbn [andb]; [| exact Hnext].
    destruct (Nat.ltb_spec (S pos) (length js)) as [Hin | _]; [| exact Hnext].
    destruct (lookup_lt_is_Some_2 js (S pos) Hin) as [e ->].
    destruct (allowed_escape e).
    { destruct (IH (S (S pos)) ltac:(lia)) as (s & Hs & Hp). exists s.
      split; [exact Hs |]. intros p E. specialize (Hp p E). lia. }
    destruct (e =? 117); [| eexists; split; [reflexivity | discriminate]].
    destruct (jsmn_hex_digits 4 js (S (S pos))) as [q |] eqn:Hq;
      [| eexists; split; [reflexivity | discriminate]].
    apply jsmn_hex_digits_le in Hq.
    destruct (IH (S (Nat.pred q)) ltac:(lia)) as (s & Hs & Hp). exists s.
    split; [exact Hs |]. intros p E. specialize (Hp p E). lia.
Qed.

(** *** The counting pass follows the input alone *)

Lemma jsmn_string_scan_error (js : list Z) (fuel : nat) :
  forall pos r,
    jsmn_string_scan fuel js pos = Some (StringError r) ->
    r = JSMN_ERROR_INVAL \/ r = JSMN_ERROR_PART.
Proof.
  induction fuel as [| fuel IH]; intros pos r; cbn [jsmn_string_scan].
  - destruct (js !! pos); [discriminate | intros [= <-]; auto].
  - repeat match goal with
           | |- context [match ?x with _ => _ end] => destruct x
           | |- context [if ?b then _ else _] => destruct b
           end;
      try discriminate; try (intros [= <-]; auto); try apply IH.
Qed.

Lemma jsmn_primitive_scan_bound (rest : list Z) :
  forall pos p, jsmn_primitive_scan rest pos = Some p -> (p <= pos + length rest)%nat.
Proof.
  induction rest as [| c rest IH]; intros pos p; cbn.
  - intros [= <-]. lia.
  - destruct (c =? 0); [intros [= <-]; lia |].
    destruct (primitive_delimiter c); [intros [= <-]; lia |].
    destruct (_ || _); [discriminate |].
    intros H%IH. lia.
Qed.

Lemma jsmn_lex_defined (c : Z) (js : list Z) (pos : nat) :
  js !! pos = Some c -> c <> 0 ->
  exists s, jsmn_lex c js pos = Some s
            /\ match s with
               | LexNext pos' d => (pos <= pos' < length js)%nat /\ (d = 0 \/ d = 1)
               | LexReturn r => r = JSMN_ERROR_INVAL \/ r = JSMN_ERROR_PART
               end.
Proof.
  intros Hc Hnz. pose proof (lookup_lt_Some _ _ _ Hc) as Hlt. unfold jsmn_lex.
  destruct ((c =? CH_LBRACE) || (c =? CH_LBRACKET));
    [eexists; split; [reflexivity |]; split; [lia | auto] |].
  destruct ((c =? CH_RBRACE) || (c =? CH_RBRACKET)) eqn:Hclose;
    [eexists; split; [reflexivity |]; split; [lia | auto] |].
  destruct (c =? CH_QUOTE).
  { destruct (jsmn_string_scan_defined js (length js) (S pos) ltac:(lia))
      as (s & Hs & Hp).
    rewrite Hs. destruct s as [p | r].
    - eexists. split; [reflexivity |]. specialize (Hp p eq_refl). split; [lia | auto].
    - eexists. split; [reflexivity |]. eapply jsmn_string_scan_error. exact Hs. }
  destruct ((c =? CH_TAB) || (c =? CH_CR) || (c =? CH_LF) || (c =? CH_SPACE)) eqn:Hws;
    [eexists; split; [reflexivity |]; split; [lia | auto] |].
  destruct (c =? CH_COLON) eqn:Hcolon;
    [eexists; split; [reflexivity |]; split; [lia | auto] |].
  destruct (c =? CH_COMMA) eqn:Hcomma;
    [eexists; split; [reflexivity |]; split; [lia | auto] |].
  destruct (jsmn_primitive_scan (drop pos js) pos) as [p |] eqn:Hp;
    [| eexists; split; [reflexivity | left; reflexivity]].
  assert (Hd : primitive_delimiter c = false).
  { unfold primitive_delimiter. rewrite Hcolon, Hcomma.
    apply orb_false_elim in Hclose as [Hc1 Hc2].
    apply orb_false_elim in Hws as [Hws Hw4].
    apply orb_false_elim in Hws as [Hws Hw3].
    apply orb_false_elim in Hws as [Hw1 Hw2].
    rewrite Hc1, Hc2, Hw1, Hw2, Hw3, Hw4. reflexivity. }
  pose proof (jsmn_primitive_scan_lt js pos p c Hc Hnz Hd Hp) as Hgt.
  pose proof (jsmn_primitive_scan_bound _ _ _ Hp) as Hle. rewrite length_drop in Hle.
  eexists. split; [reflexivity |]. split; [lia | auto].
Qed.

(** The counting pass ([tokens == NULL]) does what [jsmn_lex] says. *)
Lemma ideal_jsmn_parse_char_null (c : Z) (p : jsmn_parser) (js : list Z) (n cnt : Z) :
  match jsmn_lex c js (pos p) with
  | None => ideal_jsmn_parse_char c p js None n cnt = None
  | Some (LexNext pos' d) =>
      exists q, ideal_jsmn_parse_char c p js None n cnt = Some (StepNext q None (cnt + d))
                /\ pos q = pos'
  | Some (LexReturn r) =>
      exists q t, ideal_jsmn_parse_char c p js None n cnt = Some (StepReturn r q t)
  end.
Proof.
  unfold jsmn_lex, ideal_jsmn_parse_char.
  destruct ((c =? CH_LBRACE) || (c =? CH_LBRACKET)); [eauto |].
  destruct ((c =? CH_RBRACE) || (c =? CH_RBRACKET));
    [exists p; rewrite Z.add_0_r; auto |].
  destruct (c =? CH_QUOTE).
  { unfold ideal_jsmn_parse_string.
    destruct (jsmn_string_scan (length js) js (S (pos p))) as [[e | r] |] eqn:Hs;
      [| | reflexivity].
    - cbn. eauto.
    - apply jsmn_string_scan_error in Hs.
      destruct Hs as [-> | ->]; cbn; eauto. }
  destruct ((c =? CH_TAB) || (c =? CH_CR) || (c =? CH_LF) || (c =? CH_SPACE));
    [exists p; rewrite Z.add_0_r; auto |].
  destruct (c =? CH_COLON); [rewrite Z.add_0_r; eauto |].
  destruct (c =? CH_COMMA); [exists p; rewrite Z.add_0_r; auto |].
  unfold ideal_jsmn_parse_primitive.
  destruct (jsmn_primitive_scan (drop (pos p) js) (pos p)); cbn; eauto.
Qed.

(** *** Well-formed token arrays *)

Lemma parent_links_alter_keep (f : jsmntok_t -> jsmntok_t) (k : nat) (toks : list jsmntok_t) :
  (forall t, tok_parent (f t) = tok_parent t) ->
  parent_links (alter f k toks) = parent_links toks.
Proof.
  intros Hf. unfold parent_links. revert k.
  induction toks as [| t toks IH]; intros [| k]; cbn; f_equal; auto.
Qed.

Lemma parent_links_alter_set (f : jsmntok_t -> jsmntok_t) (v : Z) (k : nat)
    (toks : list jsmntok_t) :
  (forall t, tok_parent (f t) = v) ->
  parent_links (alter f k toks) = <[k := v]> (parent_links toks).
Proof.
  intros Hf. unfold parent_links. revert k.
  induction toks as [| t toks IH]; intros [| k]; cbn; f_equal; auto.
Qed.

Lemma parent_links_update_keep (f : jsmntok_t -> jsmntok_t) (idx : Z)
    (toks : list jsmntok_t) :
  (forall t, tok_parent (f t) = tok_parent t) ->
  parent_links (tok_update f idx toks) = parent_links toks.
Proof.
  intros Hf. unfold tok_update. destruct (idx <? 0); [reflexivity |].
  apply parent_links_alter_keep, Hf.
Qed.

Lemma length_tok_update (f : jsmntok_t -> jsmntok_t) (idx : Z) (toks : list jsmntok_t) :
  length (tok_update f idx toks) = length toks.
Proof. unfold tok_update. destruct (idx <? 0); [reflexivity | apply length_alter]. Qed.

Lemma tok_at_wf (parser : jsmn_parser) (toks : list jsmntok_t) (idx : Z) :
  tokens_wf parser toks -> 0 <= idx < Z.of_nat (toknext parser) ->
  exists token, tok_at toks idx = Some token
                /\ -1 <= tok_parent token < idx.
Proof.
  intros (Hlen & _ & Hpar) Hidx. unfold tok_at.
  destruct (Z.ltb_spec idx 0); [lia |].
  destruct (lookup_lt_is_Some_2 toks (Z.to_nat idx) ltac:(lia)) as [token Ht].
  exists token. split; [exact Ht |].
  specialize (Hpar (Z.to_nat idx) (tok_parent token) ltac:(lia)).
  unfold parent_links in Hpar. rewrite list_lookup_fmap, Ht in Hpar.
  specialize (Hpar eq_refl). lia.
Qed.

(** The walk on a closing bracket ends within [idx + 1] steps. *)
Lemma jsmn_close_walk_defined (parser : jsmn_parser) (toks : list jsmntok_t)
    (type : jsmntype_t) (super : Z) (fuel : nat) :
  tokens_wf parser toks ->
  forall idx,
    0 <= idx < Z.of_nat (toknext parser) -> idx < Z.of_nat fuel ->
    exists w, jsmn_close_walk fuel toks type super idx = Some w
              /\ match w with
                 | CloseAt k => 0 <= k <= idx
                 | _ => True
                 end.
Proof.
  intros Hwf. induction fuel as [| fuel IH]; intros idx Hidx Hfuel; [lia |].
  cbn [jsmn_close_walk].
  destruct (tok_at_wf parser toks idx Hwf Hidx) as (token & -> & Hpar).
  destruct (tok_is_open token).
  { destruct (bool_decide _); eexists; (split; [reflexivity |]); cbn; [exact I | lia]. }
  destruct (Z.eqb_spec (tok_parent token) (-1)) as [_ | Hne].
  { destruct (_ || _); eexists; (split; [reflexivity | exact I]). }
  destruct (IH (tok_parent token) ltac:(lia) ltac:(lia)) as (w & Hw & Hk).
  exists w. split; [exact Hw |]. destruct w; auto. lia.
Qed.

Lemma ideal_jsmn_alloc_token_spec (p : jsmn_parser) (toks : list jsmntok_t) (N : Z) :
  (N <= Z.of_nat (toknext p) /\ ideal_jsmn_alloc_token p toks N = None)
  \/ (Z.of_nat (toknext p) < N
      /\ ideal_jsmn_alloc_token p toks N =
         Some (toknext p,
               mk_jsmn_parser (pos p) (S (toknext p)) (toksuper p),
               alter (fun tok => mk_jsmntok (tok_type tok) (-1) (-1) 0 (-1))
                 (toknext p) toks)).
Proof.
  unfold ideal_jsmn_alloc_token. destruct (Z.leb_spec N (Z.of_nat (toknext p))); auto.
Qed.

Lemma tokens_wf_push (p : jsmn_parser) (toks toks' : list jsmntok_t) (pos' : nat)
    (super' : Z) :
  tokens_wf p toks -> (toknext p < length toks)%nat ->
  parent_links toks' = <[toknext p := toksuper p]> (parent_links toks) ->
  length toks' = length toks ->
  -1 <= super' < Z.of_nat (S (toknext p)) ->
  tokens_wf (mk_jsmn_parser pos' (S (toknext p)) super') toks'.
Proof.
  intros (Hlen & Hsuper & Hpar) Hroom Hlinks Hlen' Hs. unfold tokens_wf. cbn.
  split; [lia |]. split; [lia |]. intros i x Hi. rewrite Hlinks.
  destruct (decide (i = toknext p)) as [-> | Hne].
  - rewrite list_lookup_insert_eq by (unfold parent_links; rewrite length_fmap; lia).
    intros [= <-]. lia.
  - rewrite list_lookup_insert_ne by auto. intros Hx.
    apply (Hpar i x); [lia | exact Hx].
Qed.

Lemma tokens_wf_keep (p : jsmn_parser) (toks toks' : list jsmntok_t) (pos' : nat)
    (super' : Z) :
  tokens_wf p toks ->
  parent_links toks' = parent_links toks ->
  length toks' = length toks ->
  -1 <= super' < Z.of_nat (toknext p) ->
  tokens_wf (mk_jsmn_parser pos' (toknext p) super') toks'.
Proof.
  intros (Hlen & Hsuper & Hpar) Hlinks Hlen' Hs. unfold tokens_wf. cbn.
  split; [lia |]. split; [lia |]. rewrite Hlinks. exact Hpar.
Qed.

(** The links after a token is allocated and given [toksuper] as parent. *)
Lemma parent_links_alloc (p : jsmn_parser) (toks : list jsmntok_t)
    (f : jsmntok_t -> jsmntok_t) :
  (forall t, tok_parent (f t) = toksuper p) ->
  parent_links
    (alter f (toknext p)
       (alter (fun tok => mk_jsmntok (tok_type tok) (-1) (-1) 0 (-1)) (toknext p) toks))
  = <[toknext p := toksuper p]> (parent_links toks).
Proof.
  intros Hf. rewrite (parent_links_alter_set f (toksuper p)) by exact Hf.
  rewrite (parent_links_alter_set _ (-1)) by reflexivity.
  apply list_insert_insert_eq.
Qed.

Ltac token_lengths :=
  repeat (rewrite length_alter || rewrite length_tok_update); reflexivity.

Ltac push_token p toks Hwf :=
  unfold set_pos; cbn [pos toknext toksuper];
  eexists _, _; split; [reflexivity |]; split; [reflexivity |];
  split; [cbn; lia |]; split; [| token_lengths];
  apply (tokens_wf_push p toks);
  [ exact Hwf | lia
  | rewrite ?parent_links_update_keep by reflexivity;
    apply (parent_links_alloc p); reflexivity
  | token_lengths | lia ].

(** What a round of the filling pass does, against [jsmn_lex]: it follows
    the counting pass and keeps the token array well formed, or it returns
    [JSMN_ERROR_INVAL] on a closing bracket, or it returns
    [JSMN_ERROR_NOMEM] when no token is left for the one it has to count. *)
Lemma ideal_jsmn_parse_char_fill (c : Z) (p : jsmn_parser) (js : list Z)
    (toks : list jsmntok_t) (N cnt : Z) :
  tokens_wf p toks -> Z.of_nat (length toks) = N ->
  match jsmn_lex c js (pos p) with
  | None => True
  | Some (LexReturn r) =>
      exists q,
        ideal_jsmn_parse_char c p js (Some toks) N cnt = Some (StepReturn r q (Some toks))
        /\ toknext q = toknext p
  | Some (LexNext pos' d) =>
      (exists q toks',
         ideal_jsmn_parse_char c p js (Some toks) N cnt
         = Some (StepNext q (Some toks') (cnt + d))
         /\ pos q = pos'
         /\ Z.of_nat (toknext q) = Z.of_nat (toknext p) + d
         /\ tokens_wf q toks'
         /\ length toks' = length toks)
      \/ (exists q,
            ideal_jsmn_parse_char c p js (Some toks) N cnt
            = Some (StepReturn JSMN_ERROR_INVAL q (Some toks))
            /\ toknext q = toknext p)
      \/ (d = 1 /\ N <= Z.of_nat (toknext p)
          /\ exists q,
               ideal_jsmn_parse_char c p js (Some toks) N cnt
               = Some (StepReturn JSMN_ERROR_NOMEM q (Some toks))
               /\ toknext q = toknext p)
  end.
Proof.
  intros Hwf HN. pose proof Hwf as (Hlen & Hsuper & Hpar).
  unfold jsmn_lex, ideal_jsmn_parse_char.
  destruct ((c =? CH_LBRACE) || (c =? CH_LBRACKET)).
  { destruct (ideal_jsmn_alloc_token_spec p toks N) as [[Hfull ->] | [Hroom ->]].
    - right. right. eauto.
    - left. cbn [toksuper toknext pos set_toksuper].
      eexists _, _. split; [reflexivity |]. split; [reflexivity |].
      split; [cbn; lia |]. split; [| destruct (toksuper p =? -1);
                                      repeat (rewrite length_alter || rewrite length_tok_update);
                                      reflexivity].
      apply (tokens_wf_push p toks); [exact Hwf | lia | | | lia].
      + rewrite parent_links_alter_keep by reflexivity.
        destruct (Z.eqb_spec (toksuper p) (-1)) as [E | _].
        * rewrite (parent_links_alter_set _ (-1)) by reflexivity. rewrite E. reflexivity.
        * rewrite (parent_links_alter_set _ (toksuper p)) by reflexivity.
          rewrite parent_links_update_keep by reflexivity.
          rewrite (parent_links_alter_set _ (-1)) by reflexivity.
          apply list_insert_insert_eq.
      + destruct (toksuper p =? -1);
          repeat (rewrite length_alter || rewrite length_tok_update); reflexivity. }
  destruct ((c =? CH_RBRACE) || (c =? CH_RBRACKET)).
  { destruct (Nat.ltb_spec (toknext p) 1) as [Hnone | Hsome]; [right; left; eauto |].
    destruct (jsmn_close_walk_defined p toks
                (if c =? CH_RBRACE then JSMN_OBJECT else JSMN_ARRAY) (toksuper p)
                (toknext p) Hwf (Z.of_nat (toknext p) - 1) ltac:(lia) ltac:(lia))
      as (w & -> & Hw).
    destruct w as [k | |]; [| | right; left; eauto].
    - destruct (tok_at_wf p toks k Hwf ltac:(lia)) as (token & -> & Hk).
      left. eexists _, _. split; [rewrite Z.add_0_r; reflexivity |].
      split; [reflexivity |]. split; [cbn; lia |].
      split; [| apply length_tok_update].
      destruct p as [ps tn ts]. cbn in *.
      apply (tokens_wf_keep (mk_jsmn_parser ps tn ts) toks); cbn;
        [exact Hwf | apply parent_links_update_keep; reflexivity
         | apply length_tok_update | lia].
    - left. exists p, toks. rewrite Z.add_0_r.
      split; [reflexivity |]. split; [reflexivity |]. split; [lia |].
      split; [exact Hwf | reflexivity]. }
  destruct (c =? CH_QUOTE).
  { unfold ideal_jsmn_parse_string.
    destruct (jsmn_string_scan (length js) js (S (pos p))) as [[e | r] |] eqn:Hs;
      [| | exact I].
    - destruct (ideal_jsmn_alloc_token_spec (set_pos e p) toks N) as [[Hfull ->] | [Hroom ->]].
      + right. right. cbn. eauto.
      + left. cbn [toksuper toknext pos set_pos] in *. cbn.
        destruct (toksuper p =? -1); push_token p toks Hwf.
    - apply jsmn_string_scan_error in Hs. destruct Hs as [-> | ->]; cbn; eauto. }
  destruct ((c =? CH_TAB) || (c =? CH_CR) || (c =? CH_LF) || (c =? CH_SPACE)).
  { left. exists p, toks. rewrite Z.add_0_r.
      split; [reflexivity |]. split; [reflexivity |]. split; [lia |].
      split; [exact Hwf | reflexivity]. }
  destruct (c =? CH_COLON).
  { left. eexists _, _. split; [rewrite Z.add_0_r; reflexivity |].
    split; [reflexivity |]. split; [cbn; lia |]. split; [| reflexivity].
    destruct p as [ps tn ts]. cbn in *.
    apply (tokens_wf_keep (mk_jsmn_parser ps tn ts) toks); cbn; auto; lia. }
  destruct (c =? CH_COMMA).
  { destruct (Z.eqb_spec (toksuper p) (-1)) as [E | Hne].
    { left. exists p, toks. rewrite Z.add_0_r.
      split; [reflexivity |]. split; [reflexivity |]. split; [lia |].
      split; [exact Hwf | reflexivity]. }
    destruct (tok_at_wf p toks (toksuper p) Hwf ltac:(lia)) as (token & -> & Hk).
    destruct (_ && _).
    - left. eexists _, _. split; [rewrite Z.add_0_r; reflexivity |].
      split; [reflexivity |]. split; [cbn; lia |]. split; [| reflexivity].
      destruct p as [ps tn ts]. cbn in *.
      apply (tokens_wf_keep (mk_jsmn_parser ps tn ts) toks); cbn; auto; lia.
    - left. exists p, toks. rewrite Z.add_0_r.
      split; [reflexivity |]. split; [reflexivity |]. split; [lia |].
      split; [exact Hwf | reflexivity]. }
  unfold ideal_jsmn_parse_primitive.
  destruct (jsmn_primitive_scan (drop (pos p) js) (pos p)) as [e |] eqn:Hs;
    [| cbn; eauto].
  destruct (ideal_jsmn_alloc_token_spec (set_pos e p) toks N) as [[Hfull ->] | [Hroom ->]].
  - right. right. cbn. eauto.
  - left. cbn [toksuper toknext pos set_pos] in *. cbn.
    destruct (toksuper p =? -1); push_token p toks Hwf.
Qed.

(** *** The loops of the two passes *)

Lemma tokens_wf_set_pos (n : nat) (p : jsmn_parser) (toks : list jsmntok_t) :
  tokens_wf p toks -> tokens_wf (set_pos n p) toks.
Proof. intros Hwf. exact Hwf. Qed.

(** The counting pass returns for every input: every round moves the
    position forward, and the fuel is the length of the input. *)
Lemma ideal_jsmn_parse_loop_count_defined (js : list Z) (n : Z) (fuel : nat) :
  forall p cnt,
    (length js <= fuel + pos p)%nat ->
    exists res, ideal_jsmn_parse_loop fuel js n p None cnt = Some res.
Proof.
  induction fuel as [| fuel IH]; intros p cnt Hfuel.
  - cbn [ideal_jsmn_parse_loop]. destruct (js !! pos p) as [c |] eqn:Hc; [| eauto].
    apply lookup_lt_Some in Hc. lia.
  - cbn [ideal_jsmn_parse_loop]. destruct (js !! pos p) as [c |] eqn:Hc; [| eauto].
    destruct (Z.eqb_spec c 0) as [| Hnz]; [eauto |].
    destruct (jsmn_lex_defined c js (pos p) Hc Hnz) as (s & Hs & Hprop).
    pose proof (ideal_jsmn_parse_char_null c p js n cnt) as Hstep. rewrite Hs in Hstep.
    destruct s as [pos' d | r].
    + destruct Hstep as (q & -> & Hq). apply IH. cbn. lia.
    + destruct Hstep as (q & t & ->). eauto.
Qed.

(** The count of the counting pass only grows. *)
Lemma ideal_jsmn_parse_loop_count_grows (js : list Z) (n : Z) (fuel : nat) :
  forall p cnt r q t,
    ideal_jsmn_parse_loop fuel js n p None cnt = Some (r, q, t) ->
    0 <= r -> cnt <= r.
Proof.
  induction fuel as [| fuel IH]; intros p cnt r q t; cbn [ideal_jsmn_parse_loop].
  - destruct (js !! pos p) as [c |]; [| cbn; intros [= <- _ _]; lia].
    destruct (c =? 0); [cbn; intros [= <- _ _]; lia | discriminate].
  - destruct (js !! pos p) as [c |] eqn:Hc; [| cbn; intros [= <- _ _]; lia].
    destruct (Z.eqb_spec c 0) as [| Hnz]; [cbn; intros [= <- _ _]; lia |].
    destruct (jsmn_lex_defined c js (pos p) Hc Hnz) as (s & Hs & Hprop).
    pose proof (ideal_jsmn_parse_char_null c p js n cnt) as Hstep. rewrite Hs in Hstep.
    destruct s as [pos' d | e].
    + destruct Hstep as (q' & -> & Hq). intros Hrun Hr.
      specialize (IH _ _ _ _ _ Hrun Hr). lia.
    + destruct Hstep as (q' & t' & ->). intros [= <- _ _].
      unfold JSMN_ERROR_INVAL, JSMN_ERROR_PART in Hprop. lia.
Qed.

(** The end of the loop: the filling pass checks for unclosed brackets. *)
Lemma ideal_jsmn_parse_finish_fill (p1 p2 : jsmn_parser) (toks : list jsmntok_t)
    (cnt r1 : Z) (q1 : jsmn_parser) (t1 : option (list jsmntok_t)) :
  tokens_wf p2 toks ->
  Some (ideal_jsmn_parse_finish p1 None cnt) = Some (r1, q1, t1) ->
  exists r2 q2 toks2,
    Some (ideal_jsmn_parse_finish p2 (Some toks) cnt) = Some (r2, q2, Some toks2)
    /\ (r2 = r1 \/ r2 = JSMN_ERROR_INVAL \/ r2 = JSMN_ERROR_PART)
    /\ length toks2 = length toks
    /\ (toknext q2 <= length toks2)%nat.
Proof.
  intros (Hlen & _) [= <- _ _]. unfold ideal_jsmn_parse_finish.
  destruct (jsmn_unmatched p2 toks); eexists _, _, _;
    (split; [reflexivity |]); auto.
Qed.

(** The filling pass against the counting pass, from any common position:
    with room for the tokens still to be counted, the filling pass returns,
    and returns the count of the counting pass or a bracket error. *)
Lemma ideal_jsmn_parse_loop_fill (js : list Z) (n : Z) (fuel : nat) :
  forall p1 p2 toks cnt r1 q1 t1,
    ideal_jsmn_parse_loop fuel js n p1 None cnt = Some (r1, q1, t1) ->
    pos p1 = pos p2 ->
    tokens_wf p2 toks ->
    cnt = Z.of_nat (toknext p2) ->
    0 <= r1 <= Z.of_nat (length toks) ->
    exists r2 q2 toks2,
      ideal_jsmn_parse_loop fuel js (Z.of_nat (length toks)) p2 (Some toks) cnt
      = Some (r2, q2, Some toks2)
      /\ (r2 = r1 \/ r2 = JSMN_ERROR_INVAL \/ r2 = JSMN_ERROR_PART)
      /\ length toks2 = length toks
      /\ (toknext q2 <= length toks2)%nat.
Proof.
  induction fuel as [| fuel IH]; intros p1 p2 toks cnt r1 q1 t1 Hrun Hpos Hwf Hcnt Hr1;
    cbn [ideal_jsmn_parse_loop] in *; rewrite <- Hpos.
  - destruct (js !! pos p1) as [c |].
    + destruct (c =? 0); [| discriminate]. revert Hrun.
      apply (ideal_jsmn_parse_finish_fill p1 p2 toks cnt r1 q1 t1 Hwf).
    + revert Hrun. apply (ideal_jsmn_parse_finish_fill p1 p2 toks cnt r1 q1 t1 Hwf).
  - destruct (js !! pos p1) as [c |] eqn:Hc;
      [| revert Hrun; apply (ideal_jsmn_parse_finish_fill p1 p2 toks cnt r1 q1 t1 Hwf)].
    destruct (Z.eqb_spec c 0) as [| Hnz];
      [revert Hrun; apply (ideal_jsmn_parse_finish_fill p1 p2 toks cnt r1 q1 t1 Hwf) |].
    destruct (jsmn_lex_defined c js (pos p1) Hc Hnz) as (s & Hs & Hprop).
    pose proof (ideal_jsmn_parse_char_null c p1 js n cnt) as Hnull.
    pose proof (ideal_jsmn_parse_char_fill c p2 js toks (Z.of_nat (length toks)) cnt
                  Hwf eq_refl) as Hfill.
    rewrite <- Hpos, Hs in Hfill. rewrite Hs in Hnull.
    pose proof Hwf as (Hlen & _).
    destruct s as [pos' d | e].
    + destruct Hnull as (q & Hq & Hqpos). rewrite Hq in Hrun.
      destruct Hfill as [(q2 & toks' & -> & Hq2pos & Hnext & Hwf' & Hlen')
                        | [(q2 & -> & Hnext) | (-> & Hfull & q2 & -> & Hnext)]].
      * rewrite <- Hlen'.
        destruct (IH (set_pos (S (pos q)) q) (set_pos (S (pos q2)) q2) toks' (cnt + d)
                    r1 q1 t1 Hrun) as (r2 & q3 & toks2 & Hrun2 & Hr2 & Hlen2 & Hnext2).
        { cbn. congruence. }
        { apply tokens_wf_set_pos, Hwf'. }
        { cbn. lia. }
        { lia. }
        exists r2, q3, toks2. split; [exact Hrun2 |]. split; [exact Hr2 |].
        split; [congruence | exact Hnext2].
      * exists JSMN_ERROR_INVAL, q2, toks. split; [reflexivity |].
        split; [auto |]. split; [reflexivity | lia].
      * apply ideal_jsmn_parse_loop_count_grows in Hrun; lia.
    + destruct Hnull as (q & t & Hq). rewrite Hq in Hrun. injection Hrun as <- _ _.
      unfold JSMN_ERROR_INVAL, JSMN_ERROR_PART in Hprop. lia.
Qed.

Lemma tokens_wf_init (toks : list jsmntok_t) (parser : jsmn_parser) :
  tokens_wf (jsmn_init parser) toks.
Proof.
  unfold tokens_wf, jsmn_init. cbn. split; [lia |]. split; [lia |].
  intros i x Hi. lia.
Qed.

(** ** The two passes on JSON texts *)

(** *** JSON texts without white space *)

Lemma json_element_tight (v : list Z) (n : nat) : json_value v n -> json_element v n.
Proof.
  intros Hv. rewrite <- (app_nil_r v). apply (element_value [] v n []); auto; constructor.
Qed.

Lemma json_member_tight (k e : list Z) (n : nat) :
  json_chars k -> json_element e n ->
  json_member (CH_QUOTE :: k ++ CH_QUOTE :: CH_COLON :: e) (S n).
Proof.
  intros Hk He. apply (member_pair [] k [] e n); auto; constructor.
Qed.

Lemma json_chars_plain (s : list Z) :
  Forall (fun c => 32 <= c < 256 /\ c <> CH_QUOTE /\ c <> CH_BACKSLASH) s -> json_chars s.
Proof.
  induction 1 as [| c s (? & ? & ?) _ IH]; [constructor | apply chars_plain; auto].
Qed.

Ltac plain_chars :=
  apply json_chars_plain; repeat constructor; (cbn; lia) || discriminate.

Example json_text_asset : json_text asset_doc 5.
Proof.
  apply json_element_tight.
  apply (value_object (json_bytes "'asset':{'version':'2.0'}") 4), members_last.
  apply (json_member_tight (json_bytes "asset") (json_bytes "{'version':'2.0'}") 3);
    [plain_chars |].
  apply json_element_tight.
  apply (value_object (json_bytes "'version':'2.0'") 2), members_last.
  apply (json_member_tight (json_bytes "version") (json_bytes "'2.0'") 1);
    [plain_chars |].
  apply json_element_tight, (value_string (json_bytes "2.0")). plain_chars.
Qed.

(** *** The scanners on a text *)

Lemma at_pos_whole (js : list Z) : at_pos js 0 js.
Proof. intros i c H. exact H. Qed.

Lemma at_pos_app (js : list Z) (k : nat) (a b : list Z) :
  at_pos js k (a ++ b) -> at_pos js k a /\ at_pos js (k + length a) b.
Proof.
  intros H. split; intros i c Hi.
  - apply H. rewrite lookup_app_l; [exact Hi | eapply lookup_lt_Some, Hi].
  - replace (k + length a + i)%nat with (k + (length a + i))%nat by lia.
    apply H. rewrite lookup_app_r by lia.
    replace (length a + i - length a)%nat with i by lia. exact Hi.
Qed.

Lemma at_pos_cons (js : list Z) (k : nat) (c : Z) (s : list Z) :
  at_pos js k (c :: s) -> js !! k = Some c /\ at_pos js (S k) s.
Proof.
  intros H. split.
  - rewrite <- (H 0%nat c eq_refl). f_equal. lia.
  - intros i x Hi. rewrite <- (H (S i) x Hi). f_equal. lia.
Qed.

Lemma value_end_here (js : list Z) (k : nat) (c : Z) :
  js !! k = Some c -> primitive_delimiter c = true -> value_end js k.
Proof. intros Hc Hd. unfold value_end. rewrite Hc. exact Hd. Qed.

Lemma json_space_delimiter (c : Z) : json_space c -> primitive_delimiter c = true.
Proof. intros [-> | [-> | [-> | ->]]]; reflexivity. Qed.

(** White space before the end of a value is an end too. *)
Lemma value_end_ws (js : list Z) (k : nat) (w : list Z) :
  json_ws w -> at_pos js k w -> value_end js (k + length w) -> value_end js k.
Proof.
  intros Hw Hat Hend. destruct Hw as [| c w Hc _].
  - replace k with (k + length (@nil Z))%nat by (cbn; lia). exact Hend.
  - apply at_pos_cons in Hat as [Hk _].
    exact (value_end_here js k c Hk (json_space_delimiter c Hc)).
Qed.

Lemma json_literal_chars (s : list Z) :
  json_literal s -> s <> [] /\ Forall primitive_char s.
Proof.
  intros [-> | [-> | [-> | [Hne Hs]]]];
    [split; [discriminate |]; vm_compute json_bytes;
     repeat (apply Forall_cons_2; [split; [reflexivity | lia] |]); apply Forall_nil_2 ..|].
  split; [exact Hne |]. eapply Forall_impl; [exact Hs |].
  intros c Hc. unfold json_number_char in Hc. unfold primitive_char, primitive_delimiter.
  unfold CH_COLON, CH_TAB, CH_CR, CH_LF, CH_SPACE, CH_COMMA, CH_RBRACKET, CH_RBRACE.
  split; [| lia].
  repeat (apply orb_false_intro); apply Z.eqb_neq; lia.
Qed.

(** The scanner of primitives stops at the end of the text. *)
Lemma jsmn_primitive_scan_text (js : list Z) (s : list Z) :
  forall k,
    at_pos js k s -> Forall primitive_char s -> value_end js (k + length s) ->
    jsmn_primitive_scan (drop k js) k = Some (k + length s)%nat.
Proof.
  induction s as [| c s IH]; intros k Hat Hs Hend.
  - cbn [length] in *. rewrite Nat.add_0_r in *. unfold value_end in Hend.
    destruct (js !! k) as [c |] eqn:Hc.
    + rewrite (drop_S js c k Hc). cbn. rewrite Hend.
      destruct (c =? 0); reflexivity.
    + rewrite drop_ge by (apply lookup_ge_None; exact Hc). reflexivity.
  - apply at_pos_cons in Hat as [Hc Hat]. inversion Hs as [| ? ? [Hd Hrange] Hs']; subst.
    rewrite (drop_S js c k Hc). cbn [jsmn_primitive_scan].
    destruct (Z.eqb_spec c 0); [lia |]. rewrite Hd.
    unfold char_val. destruct (Z.ltb_spec c 128); [| lia].
    destruct (Z.ltb_spec c 32); [lia |]. destruct (Z.leb_spec 127 c); [lia |].
    cbn [orb]. rewrite (IH (S k) Hat Hs'); [f_equal; cbn; lia |].
    replace (S k + length s)%nat with (k + length (c :: s))%nat by (cbn; lia).
    exact Hend.
Qed.

Lemma json_hex_digit (c : Z) : json_hex c -> is_hex_digit c = true /\ c <> 0.
Proof.
  unfold json_hex, is_hex_digit, char_val. intros H.
  destruct (Z.ltb_spec c 128); [| lia]. split; [| lia].
  destruct H as [H | [H | H]];
    repeat match goal with
           | |- context [?a <=? ?b] => destruct (Z.leb_spec a b); try lia
           end; reflexivity.
Qed.

(** The scanner of strings stops at the closing quote. *)
Lemma jsmn_string_scan_text (js : list Z) (s : list Z) :
  json_chars s ->
  forall fuel k res,
    at_pos js k (s ++ [CH_QUOTE]) ->
    jsmn_string_scan fuel js k = Some res -> res = StringEnd (k + length s)%nat.
Proof.
  induction 1 as [| c s Hc Hq Hb _ IH | e s He _ IH | h1 h2 h3 h4 s H1 H2 H3 H4 _ IH];
    intros fuel k res Hat; cbn [app] in Hat.
  - apply at_pos_cons in Hat as [Hk _].
    destruct fuel; cbn [jsmn_string_scan]; rewrite Hk; [discriminate |].
    cbn. intros [= <-]. f_equal. cbn. lia.
  - apply at_pos_cons in Hat as [Hk Hat].
    destruct fuel; cbn [jsmn_string_scan]; rewrite Hk; [discriminate |].
    destruct (Z.eqb_spec c 0); [lia |].
    destruct (Z.eqb_spec c CH_QUOTE); [contradiction |].
    destruct (Z.eqb_spec c CH_BACKSLASH); [contradiction |]. cbn [andb].
    intros Hscan. rewrite (IH fuel (S k) res Hat Hscan). f_equal. cbn. lia.
  - apply at_pos_cons in Hat as [Hk Hat]. apply at_pos_cons in Hat as [He' Hat].
    destruct fuel; cbn [jsmn_string_scan]; rewrite Hk; [discriminate |].
    cbn [Z.eqb CH_BACKSLASH CH_QUOTE Pos.eqb andb].
    destruct (Nat.ltb_spec (S k) (length js)) as [_ | Hge];
      [| apply lookup_lt_Some in He'; lia].
    rewrite He'.
    assert (allowed_escape e = true) as ->
      by (destruct He as [-> | [-> | [-> | [-> | [-> | [-> | [-> | ->]]]]]]]; reflexivity).
    intros Hscan. rewrite (IH fuel (S (S k)) res Hat Hscan). f_equal. cbn. lia.
  - apply at_pos_cons in Hat as [Hk Hat]. apply at_pos_cons in Hat as [Hu Hat].
    apply at_pos_cons in Hat as [Hh1 Hat]. apply at_pos_cons in Hat as [Hh2 Hat].
    apply at_pos_cons in Hat as [Hh3 Hat]. apply at_pos_cons in Hat as [Hh4 Hat].
    destruct fuel; cbn [jsmn_string_scan]; rewrite Hk; [discriminate |].
    cbn [Z.eqb CH_BACKSLASH CH_QUOTE Pos.eqb andb].
    destruct (Nat.ltb_spec (S k) (length js)) as [_ | Hge];
      [| apply lookup_lt_Some in Hu; lia].
    rewrite Hu. cbn [allowed_escape Z.eqb Pos.eqb orb CH_QUOTE CH_SLASH CH_BACKSLASH].
    cbn [jsmn_hex_digits]. rewrite Hh1.
    destruct (json_hex_digit h1 H1) as [-> Hn1%Z.eqb_neq]. rewrite Hn1.
    rewrite Hh2. destruct (json_hex_digit h2 H2) as [-> Hn2%Z.eqb_neq]. rewrite Hn2.
    rewrite Hh3. destruct (json_hex_digit h3 H3) as [-> Hn3%Z.eqb_neq]. rewrite Hn3.
    rewrite Hh4. destruct (json_hex_digit h4 H4) as [-> Hn4%Z.eqb_neq]. rewrite Hn4.
    cbn [Nat.pred]. intros Hscan.
    rewrite (IH fuel (S (S (S (S (S (S k)))))) res Hat Hscan). f_equal. cbn. lia.
Qed.

(** *** Rounds and runs *)

Lemma jsmn_rounds_trans (js : list Z) (N : Z) st1 st2 st3 :
  jsmn_rounds js N st1 st2 -> jsmn_rounds js N st2 st3 -> jsmn_rounds js N st1 st3.
Proof.
  induction 1 as [| p toks cnt c q toks' cnt' st Hc Hnz Hstep _ IH]; [auto |].
  intros H23. eapply rounds_next; eauto.
Qed.

Lemma length_shapes (toks : list jsmntok_t) : length (shapes toks) = length toks.
Proof. apply length_fmap. Qed.

Lemma runs_refl (js : list Z) (a : config) : runs js a a.
Proof. split; [reflexivity |]. intros toks H. exists toks. split; [exact H | constructor]. Qed.

Lemma runs_trans (js : list Z) (a b c : config) : runs js a b -> runs js b c -> runs js a c.
Proof.
  intros [Hlab Hab] [Hlbc Hbc]. split; [congruence |].
  intros toks Ha. destruct (Hab toks Ha) as (toks1 & Hb & Hr1).
  destruct (Hbc toks1 Hb) as (toks2 & Hc & Hr2). exists toks2. split; [exact Hc |].
  eapply jsmn_rounds_trans; [exact Hr1 |].
  replace (length toks) with (length toks1); [exact Hr2 |].
  rewrite <- (length_shapes toks1), <- (length_shapes toks). congruence.
Qed.

(** One round, from the value of [ideal_jsmn_parse_char]. *)
Lemma runs_round (js : list Z) (a b : config) (c : Z) :
  js !! at_byte a = Some c -> c <> 0 ->
  length (token_shapes b) = length (token_shapes a) ->
  (forall toks,
     shapes toks = token_shapes a ->
     exists q toks',
       ideal_jsmn_parse_char c (mk_jsmn_parser (at_byte a) (next_token a) (super_token a)) js
         (Some toks) (Z.of_nat (length toks)) (counted a)
       = Some (StepNext q (Some toks') (counted b))
       /\ S (pos q) = at_byte b /\ toknext q = next_token b /\ toksuper q = super_token b
       /\ shapes toks' = token_shapes b) ->
  runs js a b.
Proof.
  intros Hc Hnz Hlen Hstep. split; [exact Hlen |]. intros toks Ha.
  destruct (Hstep toks Ha) as (q & toks' & Hchar & Hpos & Hnext & Hsuper & Hb).
  exists toks'. split; [exact Hb |].
  eapply rounds_next; [exact Hc | exact Hnz | exact Hchar |].
  destruct q as [qp qn qs]. cbn in *. subst qn qs. rewrite <- Hpos. apply rounds_done.
Qed.

Lemma shapes_alter (f g : jsmntok_t -> jsmntok_t) (k : nat) (toks : list jsmntok_t) :
  (forall t, shape (f t) = g (shape t)) ->
  shapes (alter f k toks) = alter g k (shapes toks).
Proof.
  intros Hf. unfold shapes. revert k.
  induction toks as [| t toks IH]; intros [| k]; cbn; f_equal; auto.
Qed.

Lemma shapes_update_size (idx : Z) (toks : list jsmntok_t) :
  shapes (tok_update incr_tok_size idx toks) = shapes toks.
Proof.
  unfold tok_update. destruct (idx <? 0); [reflexivity |].
  rewrite (shapes_alter _ id) by reflexivity. apply list_alter_id. reflexivity.
Qed.

Lemma alter_constant {A : Type} (h : A -> A) (v : A) (k : nat) (l : list A) :
  (forall t, h t = v) -> alter h k l = <[k := v]> l.
Proof.
  intros Hh. revert k. induction l as [| t l IH]; intros [| k]; cbn; f_equal; auto.
Qed.

Lemma alter_at {A : Type} (h : A -> A) (t : A) (k : nat) (l : list A) :
  l !! k = Some t -> alter h k l = <[k := h t]> l.
Proof.
  revert k. induction l as [| x l IH]; intros [| k]; cbn; try discriminate.
  - intros [= ->]. reflexivity.
  - intros H. f_equal. auto.
Qed.

Lemma shapes_lookup (toks : list jsmntok_t) (i : nat) (s : jsmntok_t) :
  shapes toks !! i = Some s -> exists t, toks !! i = Some t /\ shape t = s.
Proof.
  unfold shapes. rewrite list_lookup_fmap.
  destruct (toks !! i) as [t |]; cbn; [intros [= <-]; eauto | discriminate].
Qed.

Lemma shape_fields (t : jsmntok_t) :
  tok_type (shape t) = tok_type t /\ tok_parent (shape t) = tok_parent t
  /\ tok_end (shape t) = tok_end t /\ tok_is_open (shape t) = tok_is_open t.
Proof. repeat split. Qed.

(** *** The rounds, byte by byte *)

Lemma runs_space (js : list Z) (k n : nat) (s : Z) (sh : list jsmntok_t) (cnt c : Z) :
  js !! k = Some c -> json_space c ->
  runs js (mk_config k n s sh cnt) (mk_config (S k) n s sh cnt).
Proof.
  intros Hc Hs. apply (runs_round js _ _ c); cbn; [exact Hc | | reflexivity |].
  { destruct Hs as [-> | [-> | [-> | ->]]]; discriminate. }
  intros toks Ha. exists (mk_jsmn_parser k n s), toks.
  split; [| auto].
  destruct Hs as [-> | [-> | [-> | ->]]]; reflexivity.
Qed.

Lemma runs_ws (js : list Z) (w : list Z) :
  json_ws w ->
  forall k n s sh cnt,
    at_pos js k w ->
    runs js (mk_config k n s sh cnt) (mk_config (k + length w) n s sh cnt).
Proof.
  induction 1 as [| c w Hc _ IH]; intros k n s sh cnt Hat.
  - cbn. rewrite Nat.add_0_r. apply runs_refl.
  - apply at_pos_cons in Hat as [Hk Hat].
    eapply runs_trans; [exact (runs_space js k n s sh cnt c Hk Hc) |].
    replace (k + length (c :: w))%nat with (S k + length w)%nat by (cbn; lia).
    apply IH, Hat.
Qed.

Lemma runs_colon (js : list Z) (k n : nat) (s : Z) (sh : list jsmntok_t) (cnt : Z) :
  js !! k = Some CH_COLON ->
  runs js (mk_config k n s sh cnt) (mk_config (S k) n (Z.of_nat n - 1) sh cnt).
Proof.
  intros Hc. apply (runs_round js _ _ CH_COLON); cbn;
    [exact Hc | discriminate | reflexivity |].
  intros toks Ha. eexists _, toks. split; [reflexivity |]. cbn. auto.
Qed.

(** A comma under an array or an object leaves [toksuper] as it is. *)
Lemma runs_comma_container (js : list Z) (k n c : nat) (sh : list jsmntok_t) (cnt : Z)
    (t : jsmntok_t) :
  js !! k = Some CH_COMMA -> sh !! c = Some t ->
  tok_type t = JSMN_ARRAY \/ tok_type t = JSMN_OBJECT ->
  runs js (mk_config k n (Z.of_nat c) sh cnt) (mk_config (S k) n (Z.of_nat c) sh cnt).
Proof.
  intros Hc Ht Hty. apply (runs_round js _ _ CH_COMMA); cbn;
    [exact Hc | discriminate | reflexivity |].
  intros toks Ha. exists (mk_jsmn_parser k n (Z.of_nat c)), toks.
  split; [| auto]. rewrite <- Ha in Ht.
  apply shapes_lookup in Ht as (t0 & Ht0 & <-).
  unfold ideal_jsmn_parse_char. cbn.
  destruct (Z.eqb_spec (Z.of_nat c) (-1)); [lia |].
  unfold tok_at. destruct (Z.ltb_spec (Z.of_nat c) 0); [lia |].
  rewrite Nat2Z.id, Ht0. cbn in Hty.
  destruct Hty as [-> | ->]; reflexivity.
Qed.

(** A comma under a member name goes back to the object of the member. *)
Lemma runs_comma_name (js : list Z) (k n c : nat) (sh : list jsmntok_t) (cnt : Z)
    (t : jsmntok_t) :
  js !! k = Some CH_COMMA -> sh !! c = Some t -> tok_type t = JSMN_STRING ->
  runs js (mk_config k n (Z.of_nat c) sh cnt) (mk_config (S k) n (tok_parent t) sh cnt).
Proof.
  intros Hc Ht Hty. apply (runs_round js _ _ CH_COMMA); cbn;
    [exact Hc | discriminate | reflexivity |].
  intros toks Ha. exists (mk_jsmn_parser k n (tok_parent t)), toks.
  split; [| auto]. rewrite <- Ha in Ht.
  apply shapes_lookup in Ht as (t0 & Ht0 & <-).
  unfold ideal_jsmn_parse_char. cbn.
  destruct (Z.eqb_spec (Z.of_nat c) (-1)); [lia |].
  unfold tok_at. destruct (Z.ltb_spec (Z.of_nat c) 0); [lia |].
  rewrite Nat2Z.id, Ht0. cbn in Hty. rewrite Hty. reflexivity.
Qed.

Lemma insert_alter_same {A : Type} (h : A -> A) (v : A) (k : nat) (l : list A) :
  <[k := v]> (alter h k l) = <[k := v]> l.
Proof. revert k. induction l as [| t l IH]; intros [| k]; cbn; f_equal; auto. Qed.

(** An opening bracket allocates an open token under [toksuper] and makes
    it the new [toksuper]. *)
Lemma runs_open (js : list Z) (k n : nat) (s : Z) (sh : list jsmntok_t) (cnt c : Z)
    (type : jsmntype_t) :
  js !! k = Some c ->
  (c = CH_LBRACE /\ type = JSMN_OBJECT) \/ (c = CH_LBRACKET /\ type = JSMN_ARRAY) ->
  (n < length sh)%nat ->
  runs js (mk_config k n s sh cnt)
    (mk_config (S k) (S n) (Z.of_nat n)
       (<[n := mk_jsmntok type (Z.of_nat k) (-1) 0 s]> sh) (cnt + 1)).
Proof.
  intros Hc Hbracket Hroom. apply (runs_round js _ _ c); cbn;
    [exact Hc | destruct Hbracket as [[-> _] | [-> _]]; discriminate
     | apply length_insert |].
  intros toks Ha.
  assert (Hlen : length toks = length sh) by (rewrite <- Ha; symmetry; apply length_shapes).
  assert (Hstep :
    ideal_jsmn_parse_char c (mk_jsmn_parser k n s) js (Some toks) (Z.of_nat (length toks)) cnt
    = Some (StepNext (mk_jsmn_parser k (S n) (Z.of_nat (S n) - 1))
              (Some (alter (fun t => set_tok_start (Z.of_nat k) (set_tok_type type t)) n
                       (if s =? -1
                        then alter (fun tok => mk_jsmntok (tok_type tok) (-1) (-1) 0 (-1))
                               n toks
                        else alter (set_tok_parent s) n
                               (tok_update incr_tok_size s
                                  (alter (fun tok =>
                                            mk_jsmntok (tok_type tok) (-1) (-1) 0 (-1))
                                     n toks)))))
              (cnt + 1))).
  { unfold ideal_jsmn_parse_char, ideal_jsmn_alloc_token. cbn [toknext pos toksuper].
    destruct (Z.leb_spec (Z.of_nat (length toks)) (Z.of_nat n)); [lia |].
    destruct Hbracket as [[-> ->] | [-> ->]]; reflexivity. }
  eexists _, _. split; [exact Hstep |]. cbn.
  split; [reflexivity |]. split; [reflexivity |]. split; [lia |].
  rewrite <- Ha.
  rewrite (shapes_alter _ (fun t => set_tok_start (Z.of_nat k) (set_tok_type type t)))
    by reflexivity.
  destruct (s =? -1) eqn:Hs.
  - apply Z.eqb_eq in Hs. subst s.
    rewrite (shapes_alter _ (fun tok => mk_jsmntok (tok_type tok) (-1) (-1) 0 (-1)))
      by reflexivity.
    rewrite list_alter_alter_eq. apply alter_constant. reflexivity.
  - rewrite (shapes_alter _ (set_tok_parent s)) by reflexivity.
    rewrite shapes_update_size.
    rewrite (shapes_alter _ (fun tok => mk_jsmntok (tok_type tok) (-1) (-1) 0 (-1)))
      by reflexivity.
    rewrite !list_alter_alter_eq. apply alter_constant. reflexivity.
Qed.

(** A string allocates a closed token under [toksuper]. *)
Lemma runs_string (js : list Z) (k n : nat) (s : Z) (sh : list jsmntok_t) (cnt : Z)
    (body : list Z) :
  at_pos js k (CH_QUOTE :: body ++ [CH_QUOTE]) -> json_chars body ->
  (n < length sh)%nat ->
  runs js (mk_config k n s sh cnt)
    (mk_config (k + length (CH_QUOTE :: body ++ [CH_QUOTE])) (S n) s
       (<[n := mk_jsmntok JSMN_STRING (Z.of_nat k + 1) (Z.of_nat (S k + length body)) 0 s]>
          sh)
       (cnt + 1)).
Proof.
  intros Hat Hbody Hroom. apply at_pos_cons in Hat as [Hc Hat].
  apply (runs_round js _ _ CH_QUOTE); cbn [at_byte next_token super_token token_shapes counted];
    [exact Hc | discriminate | apply length_insert |].
  intros toks Ha.
  assert (Hlen : length toks = length sh) by (rewrite <- Ha; symmetry; apply length_shapes).
  destruct (jsmn_string_scan_defined js (length js) (S k) ltac:(lia)) as (res & Hscan & _).
  pose proof (jsmn_string_scan_text js body Hbody _ _ _ Hat Hscan) as ->.
  assert (Hstep :
    ideal_jsmn_parse_char CH_QUOTE (mk_jsmn_parser k n s) js (Some toks)
      (Z.of_nat (length toks)) cnt
    = Some (StepNext (mk_jsmn_parser (S k + length body) (S n) s)
              (ideal_bump_super_size (mk_jsmn_parser (S k + length body) (S n) s)
                 (Some (alter (fun tok =>
                                 set_tok_parent s
                                   (jsmn_fill_token JSMN_STRING (Z.of_nat k + 1)
                                      (Z.of_nat (S k + length body)) tok))
                          n
                          (alter (fun tok => mk_jsmntok (tok_type tok) (-1) (-1) 0 (-1))
                             n toks))))
              (cnt + 1))).
  { unfold ideal_jsmn_parse_char. cbn [Z.eqb Pos.eqb orb CH_QUOTE CH_LBRACE CH_LBRACKET
                                  CH_RBRACE CH_RBRACKET].
    unfold ideal_jsmn_parse_string, ideal_jsmn_alloc_token. cbn [toknext pos toksuper set_pos].
    rewrite Hscan.
    destruct (Z.leb_spec (Z.of_nat (length toks)) (Z.of_nat n)); [lia |]. reflexivity. }
  unfold ideal_bump_super_size in Hstep. cbn [toksuper] in Hstep.
  assert (Hfill :
    shapes (alter (fun tok =>
                     set_tok_parent s
                       (jsmn_fill_token JSMN_STRING (Z.of_nat k + 1)
                          (Z.of_nat (S k + length body)) tok))
              n (alter (fun tok => mk_jsmntok (tok_type tok) (-1) (-1) 0 (-1)) n toks))
    = <[n := mk_jsmntok JSMN_STRING (Z.of_nat k + 1) (Z.of_nat (S k + length body)) 0 s]>
        (shapes toks)).
  { rewrite (shapes_alter _ (fun _ =>
               mk_jsmntok JSMN_STRING (Z.of_nat k + 1) (Z.of_nat (S k + length body)) 0 s))
      by reflexivity.
    rewrite (shapes_alter _ (fun tok => mk_jsmntok (tok_type tok) (-1) (-1) 0 (-1)))
      by reflexivity.
    rewrite list_alter_alter_eq. apply alter_constant. reflexivity. }
  destruct (s =? -1);
    (eexists _, _; split; [exact Hstep |]; cbn [pos toknext toksuper];
     split; [rewrite length_cons, length_app; cbn; lia |];
     split; [reflexivity |]; split; [reflexivity |];
     rewrite <- Ha, ?shapes_update_size; exact Hfill).
Qed.

(** A primitive allocates a closed token under [toksuper]. *)
Lemma runs_primitive (js : list Z) (k n : nat) (s : Z) (sh : list jsmntok_t) (cnt : Z)
    (c : Z) (text : list Z) :
  at_pos js k (c :: text) -> Forall primitive_char (c :: text) ->
  c <> CH_LBRACE -> c <> CH_LBRACKET -> c <> CH_QUOTE ->
  value_end js (k + length (c :: text)) ->
  (n < length sh)%nat ->
  runs js (mk_config k n s sh cnt)
    (mk_config (k + length (c :: text)) (S n) s
       (<[n := mk_jsmntok JSMN_PRIMITIVE (Z.of_nat k) (Z.of_nat (k + length (c :: text)))
                0 s]> sh)
       (cnt + 1)).
Proof.
  intros Hat Hchars Hbrace Hbracket Hquote Hend Hroom.
  pose proof (jsmn_primitive_scan_text js (c :: text) k Hat Hchars Hend) as Hscan.
  pose proof (at_pos_cons js k c text Hat) as [Hc _].
  inversion Hchars as [| ? ? [Hdelim Hrange] _]; subst.
  apply (runs_round js _ _ c); cbn [at_byte next_token super_token token_shapes counted];
    [exact Hc | lia | apply length_insert |].
  intros toks Ha.
  assert (Hlen : length toks = length sh) by (rewrite <- Ha; symmetry; apply length_shapes).
  set (e := (k + length (c :: text))%nat) in *.
  assert (Hstep :
    ideal_jsmn_parse_char c (mk_jsmn_parser k n s) js (Some toks) (Z.of_nat (length toks)) cnt
    = Some (StepNext (mk_jsmn_parser (Nat.pred e) (S n) s)
              (ideal_bump_super_size (mk_jsmn_parser (Nat.pred e) (S n) s)
                 (Some (alter (fun tok =>
                                 set_tok_parent s
                                   (jsmn_fill_token JSMN_PRIMITIVE (Z.of_nat k)
                                      (Z.of_nat e) tok))
                          n
                          (alter (fun tok => mk_jsmntok (tok_type tok) (-1) (-1) 0 (-1))
                             n toks))))
              (cnt + 1))).
  { unfold ideal_jsmn_parse_char.
    unfold primitive_delimiter in Hdelim.
    repeat (apply orb_false_elim in Hdelim as [Hdelim ?]).
    destruct (Z.eqb_spec c CH_LBRACE); [contradiction |].
    destruct (Z.eqb_spec c CH_LBRACKET); [contradiction |].
    destruct (Z.eqb_spec c CH_QUOTE); [contradiction |].
    repeat match goal with H : (c =? _) = false |- _ => rewrite H; clear H end.
    cbn [orb].
    unfold ideal_jsmn_parse_primitive, ideal_jsmn_alloc_token. cbn [toknext pos toksuper set_pos].
    rewrite Hscan.
    destruct (Z.leb_spec (Z.of_nat (length toks)) (Z.of_nat n)); [lia |]. reflexivity. }
  unfold ideal_bump_super_size in Hstep. cbn [toksuper] in Hstep.
  assert (Hfill :
    shapes (alter (fun tok =>
                     set_tok_parent s
                       (jsmn_fill_token JSMN_PRIMITIVE (Z.of_nat k) (Z.of_nat e) tok))
              n (alter (fun tok => mk_jsmntok (tok_type tok) (-1) (-1) 0 (-1)) n toks))
    = <[n := mk_jsmntok JSMN_PRIMITIVE (Z.of_nat k) (Z.of_nat e) 0 s]> (shapes toks)).
  { rewrite (shapes_alter _ (fun _ =>
               mk_jsmntok JSMN_PRIMITIVE (Z.of_nat k) (Z.of_nat e) 0 s)) by reflexivity.
    rewrite (shapes_alter _ (fun tok => mk_jsmntok (tok_type tok) (-1) (-1) 0 (-1)))
      by reflexivity.
    rewrite list_alter_alter_eq. apply alter_constant. reflexivity. }
  destruct (s =? -1);
    (eexists _, _; split; [exact Hstep |]; cbn [pos toknext toksuper];
     split; [subst e; cbn; lia |];
     split; [reflexivity |]; split; [reflexivity |];
     rewrite <- Ha, ?shapes_update_size; exact Hfill).
Qed.

(** *** Closing brackets *)

Lemma closed_not_open (u : jsmntok_t) : tok_end u <> -1 -> tok_is_open u = false.
Proof.
  intros H. unfold tok_is_open. destruct (Z.eqb_spec (tok_end u) (-1)); [contradiction |].
  apply andb_false_r.
Qed.

(** The walk along the parent links reaches the innermost open token. *)
Lemma jsmn_close_walk_finds (toks : list jsmntok_t) (type : jsmntype_t) (super : Z)
    (c n : nat) (t : jsmntok_t) :
  shapes toks !! c = Some t -> tok_is_open t = true -> tok_type t = type ->
  closed_above (shapes toks) c n ->
  forall (fuel idx : nat),
    (c <= idx < n)%nat -> (idx - c < fuel)%nat ->
    jsmn_close_walk fuel toks type super (Z.of_nat idx) = Some (CloseAt (Z.of_nat c)).
Proof.
  intros Ht Hopen Htype Hclosed. induction fuel as [| fuel IH]; intros idx Hidx Hfuel;
    [lia |].
  cbn [jsmn_close_walk]. unfold tok_at.
  destruct (Z.ltb_spec (Z.of_nat idx) 0); [lia |]. rewrite Nat2Z.id.
  destruct (decide (idx = c)) as [-> | Hne].
  - apply shapes_lookup in Ht as (t0 & -> & <-).
    destruct (shape_fields t0) as (Hty & _ & _ & Hop). rewrite Hop in Hopen.
    rewrite Hty in Htype. rewrite Hopen.
    rewrite bool_decide_eq_false_2 by (intros H'; apply H'; exact Htype). reflexivity.
  - destruct (Hclosed idx ltac:(lia)) as (u & Hu & Hend & Hpar).
    apply shapes_lookup in Hu as (u0 & -> & <-).
    destruct (shape_fields u0) as (_ & Hpa & Hen & _). rewrite Hen in Hend.
    rewrite Hpa in Hpar. rewrite (closed_not_open u0 Hend).
    destruct (Z.eqb_spec (tok_parent u0) (-1)); [lia |].
    rewrite <- (Z2Nat.id (tok_parent u0)) by lia. apply IH; lia.
Qed.

(** A closing bracket closes the innermost open token and goes back to
    its parent. *)
Lemma runs_close (js : list Z) (k n : nat) (s : Z) (sh : list jsmntok_t) (cnt ch : Z)
    (type : jsmntype_t) (c : nat) (t : jsmntok_t) :
  js !! k = Some ch ->
  (ch = CH_RBRACE /\ type = JSMN_OBJECT) \/ (ch = CH_RBRACKET /\ type = JSMN_ARRAY) ->
  (c < n)%nat ->
  sh !! c = Some t -> tok_is_open t = true -> tok_type t = type ->
  closed_above sh c n ->
  runs js (mk_config k n s sh cnt)
    (mk_config (S k) n (tok_parent t) (<[c := set_tok_end (Z.of_nat k + 1) t]> sh) cnt).
Proof.
  intros Hch Hbracket Hcn Ht Hopen Htype Hclosed.
  apply (runs_round js _ _ ch); cbn [at_byte next_token super_token token_shapes counted];
    [exact Hch | destruct Hbracket as [[-> _] | [-> _]]; discriminate
     | apply length_insert |].
  intros toks Ha. subst sh.
  pose proof (jsmn_close_walk_finds toks type s c n t Ht Hopen Htype Hclosed n
                (n - 1)%nat ltac:(lia) ltac:(lia)) as Hwalk.
  replace (Z.of_nat (n - 1)%nat) with (Z.of_nat n - 1) in Hwalk by lia.
  pose proof Ht as Ht'. apply shapes_lookup in Ht' as (t0 & Ht0 & Hshape).
  exists (mk_jsmn_parser k n (tok_parent t)),
         (tok_update (set_tok_end (Z.of_nat k + 1)) (Z.of_nat c) toks).
  split.
  - unfold ideal_jsmn_parse_char. cbn [toknext pos toksuper].
    destruct (Nat.ltb_spec n 1); [lia |].
    assert (Htype' : (if ch =? CH_RBRACE then JSMN_OBJECT else JSMN_ARRAY) = type)
      by (destruct Hbracket as [[-> ->] | [-> ->]]; reflexivity).
    assert (Hdispatch : (ch =? CH_LBRACE) || (ch =? CH_LBRACKET) = false
                        /\ (ch =? CH_RBRACE) || (ch =? CH_RBRACKET) = true)
      by (destruct Hbracket as [[-> _] | [-> _]]; split; reflexivity).
    destruct Hdispatch as [-> ->]. rewrite Htype', Hwalk.
    unfold tok_at. destruct (Z.ltb_spec (Z.of_nat c) 0); [lia |].
    rewrite Nat2Z.id, Ht0. subst t. reflexivity.
  - cbn. split; [reflexivity |]. split; [reflexivity |]. split; [reflexivity |].
    unfold tok_update. destruct (Z.ltb_spec (Z.of_nat c) 0); [lia |]. rewrite Nat2Z.id.
    rewrite (shapes_alter _ (set_tok_end (Z.of_nat k + 1))) by reflexivity.
    apply alter_at, Ht.
Qed.

(** *** Segments compose *)

Lemma segment_empty (lo : Z) (n : nat) (sh : list jsmntok_t) : segment lo n 0 sh sh.
Proof. split; [reflexivity |]. split; [reflexivity |]. intros i Hi. lia. Qed.

Lemma segment_below (lo : Z) (n m : nat) (sh sh' : list jsmntok_t) (i : nat) :
  segment lo n m sh sh' -> (i < n)%nat -> sh' !! i = sh !! i.
Proof.
  intros (_ & Htake & _) Hi.
  rewrite <- (lookup_take_lt sh' n i Hi), Htake. apply lookup_take_lt, Hi.
Qed.

Lemma segment_one (lo : Z) (n : nat) (sh : list jsmntok_t) (v : jsmntok_t) :
  (n < length sh)%nat -> tok_end v <> -1 -> lo <= tok_parent v < Z.of_nat n ->
  segment lo n 1 sh (<[n := v]> sh).
Proof.
  intros Hn Hend Hpar. split; [apply length_insert |].
  split; [apply take_insert_ge; lia |].
  intros i Hi. assert (i = n) as -> by lia. exists v.
  split; [apply list_lookup_insert_eq, Hn | auto].
Qed.

Lemma segment_app (lo : Z) (n m1 m2 : nat) (sh sh1 sh2 : list jsmntok_t) :
  segment lo n m1 sh sh1 -> segment lo (n + m1) m2 sh1 sh2 ->
  segment lo n (m1 + m2) sh sh2.
Proof.
  intros (Hlen1 & Htake1 & Hnew1) H2. pose proof H2 as (Hlen2 & Htake2 & Hnew2).
  split; [congruence |]. split.
  - rewrite <- Htake1. apply list_eq. intros i.
    rewrite !lookup_take. case_decide; [| reflexivity].
    apply (segment_below lo (n + m1) m2 sh1 sh2 i H2). lia.
  - intros i Hi. destruct (decide (i < n + m1)%nat) as [Hlt | Hge].
    + rewrite (segment_below lo (n + m1) m2 sh1 sh2 i H2 Hlt). apply Hnew1. lia.
    + apply Hnew2. lia.
Qed.

Lemma segment_closed_above (c m : nat) (sh sh' : list jsmntok_t) :
  segment (Z.of_nat c) (S c) m sh sh' -> closed_above sh' c (S c + m).
Proof. intros (_ & _ & Hnew) i Hi. apply Hnew. lia. Qed.

Lemma runs_to (js : list Z) (a b b' : config) : runs js a b -> b = b' -> runs js a b'.
Proof. intros H <-. exact H. Qed.

Lemma runs_eq (js : list Z) (a a' b b' : config) :
  runs js a b -> a = a' -> b = b' -> runs js a' b'.
Proof. intros H <- <-. exact H. Qed.

(** An array or an object: the opening bracket, what stands between the
    brackets (which leaves the tokens after the opened one closed and under
    it), and the closing bracket. *)
Lemma runs_container (js : list Z) (opening closing : Z) (type : jsmntype_t)
    (inner : list Z) (m : nat) (k n : nat) (s : Z) (sh : list jsmntok_t) (cnt lo : Z) :
  (opening = CH_LBRACE /\ closing = CH_RBRACE /\ type = JSMN_OBJECT)
  \/ (opening = CH_LBRACKET /\ closing = CH_RBRACKET /\ type = JSMN_ARRAY) ->
  at_pos js k (opening :: inner ++ [closing]) ->
  (n + S m <= length sh)%nat -> -1 <= lo <= s -> s < Z.of_nat n ->
  (forall sh1 t,
     length sh1 = length sh -> sh1 !! n = Some t -> tok_type t = type ->
     exists sh2 s2,
       runs js (mk_config (S k) (S n) (Z.of_nat n) sh1 (cnt + 1))
         (mk_config (S k + length inner) (S n + m) s2 sh2 (cnt + 1 + Z.of_nat m))
       /\ segment (Z.of_nat n) (S n) m sh1 sh2) ->
  exists sh',
    runs js (mk_config k n s sh cnt)
      (mk_config (k + length (opening :: inner ++ [closing])) (n + S m) s sh'
         (cnt + Z.of_nat (S m)))
    /\ segment lo n (S m) sh sh'.
Proof.
  intros Hbrackets Hat Hroom Hlo Hs Hinner.
  apply at_pos_cons in Hat as [Hopen Hat]. apply at_pos_app in Hat as [_ Hclose].
  apply at_pos_cons in Hclose as [Hclose _].
  set (t := mk_jsmntok type (Z.of_nat k) (-1) 0 s).
  assert (Ht : <[n := t]> sh !! n = Some t) by (apply list_lookup_insert_eq; lia).
  destruct (Hinner (<[n := t]> sh) t (length_insert _ _ _) Ht eq_refl)
    as (sh2 & s2 & Hrun & Hseg).
  pose proof Hseg as (Hlen2 & Htake2 & Hnew2).
  assert (Ht2 : sh2 !! n = Some t).
  { rewrite (segment_below _ _ _ _ _ n Hseg) by lia. exact Ht. }
  exists (<[n := set_tok_end (Z.of_nat (S k + length inner) + 1) t]> sh2). split.
  - eapply runs_trans.
    { apply (runs_open js k n s sh cnt opening type Hopen); [| lia].
      destruct Hbrackets as [(-> & _ & ->) | (-> & _ & ->)]; auto. }
    eapply runs_trans; [exact Hrun |].
    eapply runs_to.
    { apply (runs_close js (S k + length inner) (S n + m) s2 sh2 _ closing type n t
               Hclose); [| lia | exact Ht2 | | reflexivity |].
      - destruct Hbrackets as [(_ & -> & ->) | (_ & -> & ->)]; auto.
      - unfold tok_is_open. cbn. destruct (Z.eqb_spec (Z.of_nat k) (-1)); [lia | reflexivity].
      - apply segment_closed_above with (sh := <[n := t]> sh). exact Hseg. }
    cbn [tok_parent t]. f_equal; [rewrite length_cons, length_app; cbn; lia | lia | lia].
  - split; [rewrite length_insert, Hlen2; apply length_insert |]. split.
    + rewrite take_insert_ge by lia.
      rewrite <- (take_insert_ge sh n n t) by lia.
      apply list_eq. intros i. rewrite !lookup_take. case_decide; [| reflexivity].
      apply (segment_below _ _ _ _ _ i Hseg). lia.
    + intros i Hi. destruct (decide (i = n)) as [-> | Hne].
      * eexists. split; [apply list_lookup_insert_eq; rewrite Hlen2, length_insert; lia |].
        unfold set_tok_end, t. cbn [tok_end tok_parent]. lia.
      * rewrite list_lookup_insert_ne by auto.
        destruct (Hnew2 i ltac:(lia)) as (u & Hu & Hend & Hpar).
        exists u. split; [exact Hu |]. split; [exact Hend | lia].
Qed.

Lemma json_literal_first (c : Z) (text : list Z) :
  json_literal (c :: text) -> c <> CH_LBRACE /\ c <> CH_LBRACKET /\ c <> CH_QUOTE.
Proof.
  unfold CH_LBRACE, CH_LBRACKET, CH_QUOTE.
  intros [H | [H | [H | [_ H]]]];
    [vm_compute in H; injection H as -> _; lia ..|].
  inversion H as [| ? ? Hc _]; subst. unfold json_number_char in Hc. lia.
Qed.

(** *** The run of the filling pass over a JSON text *)

Section TextRuns.

Variable js : list Z.

Lemma value_literal_runs (s : list Z) : json_literal s -> value_runs js s 1.
Proof.
  intros Hs k n sup sh cnt lo Hat Hend Hroom Hlo Hsup.
  destruct (json_literal_chars s Hs) as [Hne Hchars].
  destruct s as [| c text]; [contradiction |].
  destruct (json_literal_first c text Hs) as (Hbrace & Hbracket & Hquote).
  eexists. split.
  - eapply runs_to;
      [exact (runs_primitive js k n sup sh cnt c text Hat Hchars Hbrace Hbracket Hquote
                Hend ltac:(lia)) |].
    f_equal; lia.
  - apply segment_one; [lia | cbn; lia | cbn; lia].
Qed.

Lemma value_string_runs (s : list Z) :
  json_chars s -> value_runs js (CH_QUOTE :: s ++ [CH_QUOTE]) 1.
Proof.
  intros Hs k n sup sh cnt lo Hat Hend Hroom Hlo Hsup.
  eexists. split.
  - eapply runs_to; [exact (runs_string js k n sup sh cnt s Hat Hs ltac:(lia)) |].
    f_equal; lia.
  - apply segment_one; [lia | cbn [tok_end]; lia | cbn; lia].
Qed.

Lemma value_empty_runs (opening closing : Z) (type : jsmntype_t) (w : list Z) :
  (opening = CH_LBRACE /\ closing = CH_RBRACE /\ type = JSMN_OBJECT)
  \/ (opening = CH_LBRACKET /\ closing = CH_RBRACKET /\ type = JSMN_ARRAY) ->
  json_ws w -> value_runs js (opening :: w ++ [closing]) 1.
Proof.
  intros Hbrackets Hw k n sup sh cnt lo Hat Hend Hroom Hlo Hsup.
  apply (runs_container js opening closing type w 0 k n sup sh cnt lo Hbrackets Hat);
    [lia | exact Hlo | exact Hsup |].
  intros sh1 t Hlen Ht Hty. exists sh1, (Z.of_nat n). split; [| apply segment_empty].
  apply at_pos_cons in Hat as [_ Hat]. apply at_pos_app in Hat as [Hat _].
  eapply runs_to; [exact (runs_ws js w Hw (S k) (S n) (Z.of_nat n) sh1 (cnt + 1) Hat) |].
  f_equal; lia.
Qed.

Lemma value_array_runs (es : list Z) (m : nat) :
  elements_run js es m -> value_runs js (CH_LBRACKET :: es ++ [CH_RBRACKET]) (S m).
Proof.
  intros IH k n sup sh cnt lo Hat Hend Hroom Hlo Hsup.
  apply (runs_container js CH_LBRACKET CH_RBRACKET JSMN_ARRAY es m k n sup sh cnt lo);
    [auto | exact Hat | lia | exact Hlo | exact Hsup |].
  intros sh1 t Hlen Ht Hty.
  apply at_pos_cons in Hat as [_ Hat]. apply at_pos_app in Hat as [Hes Hclose].
  apply at_pos_cons in Hclose as [Hclose _].
  destruct (IH (S k) (S n) n sh1 (cnt + 1) t Hes
              (value_end_here js _ CH_RBRACKET Hclose eq_refl)
              ltac:(lia) ltac:(lia) Ht ltac:(auto)) as (sh2 & Hrun & Hseg).
  exists sh2, (Z.of_nat n). split; [exact Hrun | exact Hseg].
Qed.

Lemma value_object_runs (ms : list Z) (m : nat) :
  members_run js ms m -> value_runs js (CH_LBRACE :: ms ++ [CH_RBRACE]) (S m).
Proof.
  intros IH k n sup sh cnt lo Hat Hend Hroom Hlo Hsup.
  apply (runs_container js CH_LBRACE CH_RBRACE JSMN_OBJECT ms m k n sup sh cnt lo);
    [auto | exact Hat | lia | exact Hlo | exact Hsup |].
  intros sh1 t Hlen Ht Hty.
  apply at_pos_cons in Hat as [_ Hat]. apply at_pos_app in Hat as [Hms Hclose].
  apply at_pos_cons in Hclose as [Hclose _].
  exact (IH (S k) (S n) n sh1 (cnt + 1) Hms
           (value_end_here js _ CH_RBRACE Hclose eq_refl) ltac:(lia) ltac:(lia)).
Qed.

Lemma element_runs (w1 v : list Z) (m : nat) (w2 : list Z) :
  json_ws w1 -> value_runs js v m -> json_ws w2 -> value_runs js (w1 ++ v ++ w2) m.
Proof.
  intros Hw1 IH Hw2 k n sup sh cnt lo Hat Hend Hroom Hlo Hsup.
  apply at_pos_app in Hat as [Hat1 Hat]. apply at_pos_app in Hat as [Hatv Hat2].
  rewrite !length_app in Hend.
  destruct (IH (k + length w1)%nat n sup sh cnt lo Hatv) as (sh' & Hrun & Hseg);
    [| lia | exact Hlo | exact Hsup |].
  { apply (value_end_ws js _ w2 Hw2 Hat2).
    replace (k + length w1 + length v + length w2)%nat
      with (k + (length w1 + (length v + length w2)))%nat by lia.
    exact Hend. }
  exists sh'. split; [| exact Hseg].
  eapply runs_trans; [exact (runs_ws js w1 Hw1 k n sup sh cnt Hat1) |].
  eapply runs_trans; [exact Hrun |].
  eapply runs_to; [exact (runs_ws js w2 Hw2 _ _ _ _ _ Hat2) |].
  rewrite !length_app. f_equal; lia.
Qed.

Lemma elements_last_run (e : list Z) (m : nat) : value_runs js e m -> elements_run js e m.
Proof.
  intros IH k n c sh cnt t Hat Hend Hroom Hc Ht Hty.
  apply (IH k n (Z.of_nat c) sh cnt (Z.of_nat c) Hat Hend Hroom); lia.
Qed.

Lemma elements_more_run (e : list Z) (m1 : nat) (es : list Z) (m2 : nat) :
  value_runs js e m1 -> elements_run js es m2 -> elements_run js (e ++ CH_COMMA :: es) (m1 + m2).
Proof.
  intros IH1 IH2 k n c sh cnt t Hat Hend Hroom Hc Ht Hty.
  apply at_pos_app in Hat as [Hate Hat]. apply at_pos_cons in Hat as [Hcomma Hates].
  rewrite length_app, length_cons in Hend.
  destruct (IH1 k n (Z.of_nat c) sh cnt (Z.of_nat c) Hate
              (value_end_here js _ CH_COMMA Hcomma eq_refl))
    as (sh1 & Hrun1 & Hseg1); [lia | lia | lia |].
  assert (Ht1 : sh1 !! c = Some t)
    by (rewrite (segment_below _ _ _ _ _ c Hseg1 Hc); exact Ht).
  pose proof Hseg1 as (Hlen1 & _).
  destruct (IH2 (S (k + length e)) (n + m1)%nat c sh1 (cnt + Z.of_nat m1) t Hates)
    as (sh2 & Hrun2 & Hseg2); [| lia | lia | exact Ht1 | exact Hty |].
  { replace (S (k + length e) + length es)%nat with (k + (length e + S (length es)))%nat
      by lia.
    exact Hend. }
  exists sh2. split; [| exact (segment_app _ _ _ _ _ _ _ Hseg1 Hseg2)].
  eapply runs_trans; [exact Hrun1 |].
  eapply runs_trans;
    [exact (runs_comma_container js _ _ c sh1 _ t Hcomma Ht1 Hty) |].
  eapply runs_to; [exact Hrun2 |].
  rewrite length_app, length_cons. f_equal; lia.
Qed.

Lemma member_pair_runs (w1 name w2 e : list Z) (m : nat) :
  json_ws w1 -> json_chars name -> json_ws w2 -> value_runs js e m ->
  member_runs js (w1 ++ CH_QUOTE :: name ++ CH_QUOTE :: w2 ++ CH_COLON :: e) (S m).
Proof.
  intros Hw1 Hname Hw2 IH k n c sh cnt Hat Hend Hroom Hc.
  replace (w1 ++ CH_QUOTE :: name ++ CH_QUOTE :: w2 ++ CH_COLON :: e)
    with (w1 ++ (CH_QUOTE :: name ++ [CH_QUOTE]) ++ w2 ++ CH_COLON :: e) in *
    by (cbn; rewrite <- app_assoc; reflexivity).
  apply at_pos_app in Hat as [Hat1 Hat]. apply at_pos_app in Hat as [Hatn Hat].
  apply at_pos_app in Hat as [Hat2 Hat]. apply at_pos_cons in Hat as [Hcolon Hate].
  set (q := (CH_QUOTE :: name ++ [CH_QUOTE])) in *.
  rewrite !length_app, length_cons in Hend.
  set (k1 := (k + length w1)%nat) in *.
  set (key := mk_jsmntok JSMN_STRING (Z.of_nat k1 + 1) (Z.of_nat (S k1 + length name)) 0
                (Z.of_nat c)).
  assert (Hkey : <[n := key]> sh !! n = Some key) by (apply list_lookup_insert_eq; lia).
  destruct (IH (S (k1 + length q + length w2)) (S n) (Z.of_nat n) (<[n := key]> sh)
              (cnt + 1) (Z.of_nat c) Hate) as (sh2 & Hrun & Hseg);
    [| rewrite length_insert; lia | lia | lia |].
  { replace (S (k1 + length q + length w2) + length e)%nat
      with (k + (length w1 + (length q + (length w2 + S (length e)))))%nat
      by (subst k1; lia).
    exact Hend. }
  exists sh2, key. split; [| split; [| split; [lia | split; [| auto]]]].
  - eapply runs_trans; [exact (runs_ws js w1 Hw1 k n (Z.of_nat c) sh cnt Hat1) |].
    eapply runs_trans;
      [exact (runs_string js k1 n (Z.of_nat c) sh cnt name Hatn Hname ltac:(lia)) |].
    eapply runs_trans; [exact (runs_ws js w2 Hw2 _ _ _ _ _ Hat2) |].
    eapply runs_trans; [exact (runs_colon js _ _ _ _ _ Hcolon) |].
    apply (runs_eq js _ _ _ _ Hrun); [f_equal; lia |].
    rewrite !length_app, length_cons. fold q. subst k1. f_equal; lia.
  - replace (S m) with (1 + m)%nat by lia.
    eapply segment_app; [| replace (n + 1)%nat with (S n) by lia; exact Hseg].
    apply segment_one; [lia | cbn [tok_end key]; lia | cbn; lia].
  - rewrite (segment_below _ _ _ _ _ n Hseg) by lia. exact Hkey.
Qed.

Lemma members_last_run (e : list Z) (m : nat) : member_runs js e m -> members_run js e m.
Proof.
  intros IH k n c sh cnt Hat Hend Hroom Hc.
  destruct (IH k n c sh cnt Hat Hend Hroom Hc) as (sh' & name & Hrun & Hseg & _).
  exists sh', (Z.of_nat n). split; [exact Hrun | exact Hseg].
Qed.

Lemma members_more_run (e : list Z) (m1 : nat) (ms : list Z) (m2 : nat) :
  member_runs js e m1 -> members_run js ms m2 -> members_run js (e ++ CH_COMMA :: ms) (m1 + m2).
Proof.
  intros IH1 IH2 k n c sh cnt Hat Hend Hroom Hc.
  apply at_pos_app in Hat as [Hate Hat]. apply at_pos_cons in Hat as [Hcomma Hatms].
  rewrite length_app, length_cons in Hend.
  destruct (IH1 k n c sh cnt Hate (value_end_here js _ CH_COMMA Hcomma eq_refl))
    as (sh1 & name & Hrun1 & Hseg1 & Hm1 & Hname & Hstring & Hparent); [lia | lia |].
  pose proof Hseg1 as (Hlen1 & _).
  destruct (IH2 (S (k + length e)) (n + m1)%nat c sh1 (cnt + Z.of_nat m1) Hatms)
    as (sh2 & s2 & Hrun2 & Hseg2); [| lia | lia |].
  { replace (S (k + length e) + length ms)%nat with (k + (length e + S (length ms)))%nat
      by lia.
    exact Hend. }
  exists sh2, s2. split; [| exact (segment_app _ _ _ _ _ _ _ Hseg1 Hseg2)].
  eapply runs_trans; [exact Hrun1 |].
  eapply runs_trans;
    [exact (runs_comma_name js _ _ n sh1 _ name Hcomma Hname Hstring) |].
  rewrite Hparent.
  eapply runs_to; [exact Hrun2 |].
  rewrite length_app, length_cons. f_equal; lia.
Qed.

(** The filling pass runs over every JSON text, and counts its tokens. *)
Lemma json_text_runs :
  (forall v m, json_value v m -> value_runs js v m)
  /\ (forall e m, json_element e m -> value_runs js e m)
  /\ (forall es m, json_elements es m -> elements_run js es m)
  /\ (forall e m, json_member e m -> member_runs js e m)
  /\ (forall ms m, json_members ms m -> members_run js ms m).
Proof.
  apply json_mutind.
  - exact value_literal_runs.
  - exact value_string_runs.
  - intros w Hw. apply (value_empty_runs CH_LBRACKET CH_RBRACKET JSMN_ARRAY); auto.
  - intros es m _. apply value_array_runs.
  - intros w Hw. apply (value_empty_runs CH_LBRACE CH_RBRACE JSMN_OBJECT); auto.
  - intros ms m _. apply value_object_runs.
  - intros w1 v m w2 Hw1 _ IH Hw2. apply element_runs; assumption.
  - intros e m _. apply elements_last_run.
  - intros e m1 es m2 _ IH1 _ IH2. apply elements_more_run; assumption.
  - intros w1 name w2 e m Hw1 Hname Hw2 _ IH. apply member_pair_runs; assumption.
  - intros e m _. apply members_last_run.
  - intros e m1 ms m2 _ IH1 _ IH2. apply members_more_run; assumption.
Qed.

End TextRuns.

(** *** From the rounds to the result of [ideal_jsmn_parse] *)

(** More fuel does not change a result. *)
Lemma ideal_jsmn_parse_loop_fuel (js : list Z) (N : Z) (fuel : nat) :
  forall p t cnt res,
    ideal_jsmn_parse_loop fuel js N p t cnt = Some res ->
    forall fuel', (fuel <= fuel')%nat -> ideal_jsmn_parse_loop fuel' js N p t cnt = Some res.
Proof.
  induction fuel as [| fuel IH]; intros p t cnt res Hrun fuel' Hle.
  - destruct fuel'; cbn [ideal_jsmn_parse_loop] in *; [exact Hrun |].
    destruct (js !! pos p) as [c |]; [| exact Hrun].
    destruct (c =? 0); [exact Hrun | discriminate].
  - destruct fuel' as [| fuel']; [lia |]. cbn [ideal_jsmn_parse_loop] in *.
    destruct (js !! pos p) as [c |]; [| exact Hrun].
    destruct (c =? 0); [exact Hrun |].
    destruct (ideal_jsmn_parse_char c p js t N cnt) as [[q t' cnt' | r q t'] |];
      [| exact Hrun | discriminate].
    apply (IH _ _ _ _ Hrun). lia.
Qed.

Lemma jsmn_rounds_loop (js : list Z) (N : Z) st st' :
  jsmn_rounds js N st st' ->
  forall fuel res,
    ideal_jsmn_parse_loop fuel js N (fst (fst st')) (Some (snd (fst st'))) (snd st') = Some res ->
    exists fuel',
      ideal_jsmn_parse_loop fuel' js N (fst (fst st)) (Some (snd (fst st))) (snd st) = Some res.
Proof.
  induction 1 as [| p toks cnt c q toks' cnt' st Hc Hnz Hstep _ IH]; intros fuel res Hres.
  - eauto.
  - destruct (IH fuel res Hres) as (fuel' & Hrun). exists (S fuel').
    cbn [ideal_jsmn_parse_loop fst snd]. rewrite Hc.
    destruct (Z.eqb_spec c 0); [contradiction |]. rewrite Hstep. exact Hrun.
Qed.

(** The filling pass returns for every input and every token array. *)
Lemma ideal_jsmn_parse_loop_fill_defined (js : list Z) (fuel : nat) :
  forall p toks cnt,
    tokens_wf p toks -> (length js <= fuel + pos p)%nat ->
    exists res,
      ideal_jsmn_parse_loop fuel js (Z.of_nat (length toks)) p (Some toks) cnt = Some res.
Proof.
  induction fuel as [| fuel IH]; intros p toks cnt Hwf Hfuel; cbn [ideal_jsmn_parse_loop].
  - destruct (js !! pos p) as [c |] eqn:Hc; [| eauto].
    apply lookup_lt_Some in Hc. lia.
  - destruct (js !! pos p) as [c |] eqn:Hc; [| eauto].
    destruct (Z.eqb_spec c 0) as [| Hnz]; [eauto |].
    destruct (jsmn_lex_defined c js (pos p) Hc Hnz) as (s & Hs & Hprop).
    pose proof (ideal_jsmn_parse_char_fill c p js toks (Z.of_nat (length toks)) cnt Hwf eq_refl)
      as Hfill.
    rewrite Hs in Hfill. destruct s as [pos' d | e].
    + destruct Hfill as [(q & toks' & -> & Hq & _ & Hwf' & Hlen')
                        | [(q & -> & _) | (_ & _ & q & -> & _)]]; [| eauto | eauto].
      rewrite <- Hlen'. apply IH; [apply tokens_wf_set_pos, Hwf' | cbn; lia].
    + destruct Hfill as (q & -> & _). eauto.
Qed.

(** A count returned by the filling pass is the count of the counting pass. *)
Lemma ideal_jsmn_parse_loop_count_of_fill (js : list Z) (n : Z) (fuel : nat) :
  forall p1 p2 toks cnt r q t,
    ideal_jsmn_parse_loop fuel js (Z.of_nat (length toks)) p2 (Some toks) cnt = Some (r, q, t) ->
    0 <= r -> pos p1 = pos p2 -> tokens_wf p2 toks ->
    exists q1, ideal_jsmn_parse_loop fuel js n p1 None cnt = Some (r, q1, None).
Proof.
  assert (Hfinish : forall p1 p2 toks cnt r q t,
            Some (ideal_jsmn_parse_finish p2 (Some toks) cnt) = Some (r, q, t) -> 0 <= r ->
            exists q1, Some (ideal_jsmn_parse_finish p1 None cnt) = Some (r, q1, None)).
  { intros p1 p2 toks cnt r q t. unfold ideal_jsmn_parse_finish.
    destruct (jsmn_unmatched p2 toks); intros [= <- _ _] Hr;
      [unfold JSMN_ERROR_PART in Hr; lia | eauto]. }
  induction fuel as [| fuel IH]; intros p1 p2 toks cnt r q t Hrun Hr Hpos Hwf;
    cbn [ideal_jsmn_parse_loop] in *; rewrite Hpos.
  - destruct (js !! pos p2) as [c |]; [| eapply Hfinish; eauto].
    destruct (c =? 0); [eapply Hfinish; eauto | discriminate].
  - destruct (js !! pos p2) as [c |] eqn:Hc; [| eapply Hfinish; eauto].
    destruct (Z.eqb_spec c 0) as [| Hnz]; [eapply Hfinish; eauto |].
    destruct (jsmn_lex_defined c js (pos p2) Hc Hnz) as (s & Hs & Hprop).
    pose proof (ideal_jsmn_parse_char_null c p1 js n cnt) as Hnull.
    pose proof (ideal_jsmn_parse_char_fill c p2 js toks (Z.of_nat (length toks)) cnt Hwf eq_refl)
      as Hfill.
    rewrite Hpos, Hs in Hnull. rewrite Hs in Hfill.
    unfold JSMN_ERROR_INVAL, JSMN_ERROR_PART, JSMN_ERROR_NOMEM in *.
    destruct s as [pos' d | e].
    + destruct Hnull as (q1 & -> & Hq1).
      destruct Hfill as [(q2 & toks' & Hstep & Hq2 & _ & Hwf' & Hlen')
                        | [(q2 & Hstep & _) | (_ & _ & q2 & Hstep & _)]];
        rewrite Hstep in Hrun; [| injection Hrun as <- _ _; lia ..].
      rewrite <- Hlen' in Hrun.
      apply (IH _ _ _ _ _ _ _ Hrun Hr); [cbn; congruence | apply tokens_wf_set_pos, Hwf'].
    + destruct Hfill as (q2 & Hstep & _). rewrite Hstep in Hrun.
      injection Hrun as <- _ _. lia.
Qed.

Lemma segment_unmatched (n : nat) (toks : list jsmntok_t) (sh : list jsmntok_t) (p : nat)
    (s : Z) :
  segment (-1) 0 n sh (shapes toks) ->
  jsmn_unmatched (mk_jsmn_parser p n s) toks = false.
Proof.
  intros (_ & _ & Hnew). unfold jsmn_unmatched. cbn [toknext].
  apply not_true_is_false. intros Hex. apply existsb_exists in Hex as (u & Hin & Hopen).
  apply list_elem_of_In, list_elem_of_lookup_1 in Hin as (i & Hi).
  apply lookup_take_Some in Hi as [Hi Hlt].
  destruct (Hnew i ltac:(lia)) as (u' & Hu' & Hend & _).
  apply shapes_lookup in Hu' as (u0 & Hu0 & <-). rewrite Hi in Hu0. injection Hu0 as <-.
  destruct (shape_fields u) as (_ & _ & Hen & _). rewrite Hen in Hend.
  rewrite (closed_not_open u Hend) in Hopen. discriminate.
Qed.

(** A JSON text has a token at least. *)
Lemma json_text_tokens (js : list Z) (m : nat) : json_text js m -> (1 <= m)%nat.
Proof. intros [w1 v n w2 _ Hv _]. destruct Hv; lia. Qed.

(** On a JSON text of [m] tokens both passes return [m]. *)
Lemma ideal_jsmn_parse_json_text (js : list Z) (m : nat) (toks : list jsmntok_t) :
  json_text js m -> length toks = m ->
  exists q1 q2 toks2,
    ideal_jsmn_parse (mk_jsmn_parser 0 0 0) js None 0 = Some (Z.of_nat m, q1, None)
    /\ ideal_jsmn_parse (jsmn_init (mk_jsmn_parser 0 0 0)) js (Some toks) (Z.of_nat m)
       = Some (Z.of_nat m, q2, Some toks2).
Proof.
  intros Htext Hlen.
  destruct (json_text_runs js) as (_ & Helement & _).
  destruct (Helement js m Htext 0%nat 0%nat (-1) (shapes toks) 0 (-1) (at_pos_whole js))
    as (sh' & [_ Hruns] & Hseg).
  { unfold value_end. rewrite lookup_ge_None_2 by (cbn; lia). exact I. }
  { rewrite length_shapes. lia. }
  { lia. }
  { lia. }
  destruct (Hruns toks eq_refl) as (toks' & Hsh' & Hrounds).
  cbn [token_shapes] in Hsh'. subst sh'.
  cbn [at_byte next_token super_token counted Nat.add] in Hrounds.
  rewrite Hlen in Hrounds. rewrite Z.add_0_l in Hrounds.
  destruct (jsmn_rounds_loop js _ _ _ Hrounds 0%nat
              (Z.of_nat m, mk_jsmn_parser (length js) m (-1), Some toks'))
    as (fuel & Hfuel).
  { cbn [ideal_jsmn_parse_loop fst snd pos]. rewrite lookup_ge_None_2 by lia.
    unfold ideal_jsmn_parse_finish. rewrite (segment_unmatched m toks' _ _ _ Hseg). reflexivity. }
  cbn [fst snd] in Hfuel.
  destruct (ideal_jsmn_parse_loop_fill_defined js (length js) (mk_jsmn_parser 0 0 (-1)) toks 0
              (tokens_wf_init toks (mk_jsmn_parser 0 0 0)) ltac:(cbn; lia))
    as (res & Hres).
  rewrite Hlen in Hres.
  pose proof (ideal_jsmn_parse_loop_fuel js _ _ _ _ _ _ Hfuel (Nat.max fuel (length js))
                ltac:(lia)) as H1.
  pose proof (ideal_jsmn_parse_loop_fuel js _ _ _ _ _ _ Hres (Nat.max fuel (length js))
                ltac:(lia)) as H2.
  rewrite H1 in H2. injection H2 as <-.
  destruct (ideal_jsmn_parse_loop_count_of_fill js 0 (length js) (mk_jsmn_parser 0 0 0)
              (mk_jsmn_parser 0 0 (-1)) toks 0 (Z.of_nat m) _ _
              ltac:(rewrite Hlen; exact Hres) ltac:(lia) eq_refl
              (tokens_wf_init toks (mk_jsmn_parser 0 0 0)))
    as (q1 & Hcount).
  exists q1, (mk_jsmn_parser (length js) m (-1)), toks'.
  split; [exact Hcount | exact Hres].
Qed.

(** The two passes: the counting pass returns; the filling pass over the
    counted number of tokens returns the same count or a bracket error; on
    a JSON text both return the number of tokens of the text. *)
Lemma ideal_jsmn_parse_two_pass (js : list Z) :
  (exists res, ideal_jsmn_parse (mk_jsmn_parser 0 0 0) js None 0 = Some res)
  /\ (forall N q1 t1 toks,
        ideal_jsmn_parse (mk_jsmn_parser 0 0 0) js None 0 = Some (N, q1, t1) ->
        0 <= N -> Z.of_nat (length toks) = N ->
        exists r q2 toks2,
          ideal_jsmn_parse (jsmn_init (mk_jsmn_parser 0 0 0)) js (Some toks) N
          = Some (r, q2, Some toks2)
          /\ r <> JSMN_ERROR_NOMEM
          /\ (0 <= r -> r = N)
          /\ (r = N \/ r = JSMN_ERROR_INVAL \/ r = JSMN_ERROR_PART)
          /\ length toks2 = length toks
          /\ (toknext q2 <= length toks2)%nat)
  /\ (forall m toks,
        json_text js m -> length toks = m ->
        exists q1 q2 toks2,
          ideal_jsmn_parse (mk_jsmn_parser 0 0 0) js None 0 = Some (Z.of_nat m, q1, None)
          /\ ideal_jsmn_parse (jsmn_init (mk_jsmn_parser 0 0 0)) js (Some toks) (Z.of_nat m)
             = Some (Z.of_nat m, q2, Some toks2)).
Proof.
  split; [| split].
  - apply ideal_jsmn_parse_loop_count_defined. cbn. lia.
  - intros N q1 t1 toks Hcount HN Hlen. unfold ideal_jsmn_parse in *. cbn [toknext] in *.
    subst N.
    destruct (ideal_jsmn_parse_loop_fill js 0 (length js) (mk_jsmn_parser 0 0 0)
                (jsmn_init (mk_jsmn_parser 0 0 0)) toks 0 _ q1 t1 Hcount
                eq_refl (tokens_wf_init toks _) eq_refl ltac:(lia))
      as (r & q2 & toks2 & Hrun & Hr & Hlen2 & Hnext).
    exists r, q2, toks2. split; [exact Hrun |].
    unfold JSMN_ERROR_NOMEM, JSMN_ERROR_INVAL, JSMN_ERROR_PART in *.
    split; [lia |]. split; [lia |]. auto.
  - intros m toks. apply ideal_jsmn_parse_json_text.
Qed.

(** ** Properties of the filled token array *)

(** A count returned by the filling pass is the number of tokens it has
    allocated, and they lie inside the array. *)
Lemma ideal_jsmn_parse_loop_fill_count (js : list Z) (fuel : nat) :
  forall p toks cnt r q t,
    ideal_jsmn_parse_loop fuel js (Z.of_nat (length toks)) p (Some toks) cnt = Some (r, q, t) ->
    tokens_wf p toks -> cnt = Z.of_nat (toknext p) -> 0 <= r ->
    r = Z.of_nat (toknext q)
    /\ exists toks', t = Some toks' /\ length toks' = length toks /\ tokens_wf q toks'.
Proof.
  assert (Hfinish : forall p toks cnt r q t,
            Some (ideal_jsmn_parse_finish p (Some toks) cnt) = Some (r, q, t) ->
            tokens_wf p toks -> cnt = Z.of_nat (toknext p) -> 0 <= r ->
            r = Z.of_nat (toknext q)
            /\ exists toks', t = Some toks' /\ length toks' = length toks
                             /\ tokens_wf q toks').
  { intros p toks cnt r q t. unfold ideal_jsmn_parse_finish.
    destruct (jsmn_unmatched p toks); intros [= <- <- <-] Hwf Hcnt Hr;
      [unfold JSMN_ERROR_PART in Hr; lia |].
    split; [exact Hcnt |]. exists toks. auto. }
  induction fuel as [| fuel IH]; intros p toks cnt r q t Hrun Hwf Hcnt Hr;
    cbn [ideal_jsmn_parse_loop] in Hrun.
  - destruct (js !! pos p) as [c |]; [| eapply Hfinish; eauto].
    destruct (c =? 0); [eapply Hfinish; eauto | discriminate].
  - destruct (js !! pos p) as [c |] eqn:Hc; [| eapply Hfinish; eauto].
    destruct (Z.eqb_spec c 0) as [| Hnz]; [eapply Hfinish; eauto |].
    destruct (jsmn_lex_defined c js (pos p) Hc Hnz) as (s & Hs & Hprop).
    pose proof (ideal_jsmn_parse_char_fill c p js toks (Z.of_nat (length toks)) cnt Hwf eq_refl)
      as Hfill.
    rewrite Hs in Hfill.
    unfold JSMN_ERROR_INVAL, JSMN_ERROR_PART, JSMN_ERROR_NOMEM in *.
    destruct s as [pos' d | e].
    + destruct Hfill as [(q2 & toks' & Hstep & Hq2 & Hnext & Hwf' & Hlen')
                        | [(q2 & Hstep & _) | (_ & _ & q2 & Hstep & _)]];
        rewrite Hstep in Hrun; [| injection Hrun as <- _ _; lia ..].
      rewrite <- Hlen' in Hrun.
      destruct (IH _ _ _ _ _ _ Hrun) as (Hcount & toks2 & -> & Hlen2 & Hwf2);
        [apply tokens_wf_set_pos, Hwf' | cbn; lia | exact Hr |].
      split; [exact Hcount |]. exists toks2. split; [reflexivity |].
      split; [congruence | exact Hwf2].
    + destruct Hfill as (q2 & Hstep & _). rewrite Hstep in Hrun.
      injection Hrun as <- _ _. lia.
Qed.

(** On a JSON text of [m] tokens the filling pass over an array of [m]
    tokens or more returns [m]; the tokens it fills are closed and hang
    under earlier tokens. *)
Lemma ideal_jsmn_parse_fill_json_text (js : list Z) (m : nat) (toks : list jsmntok_t) :
  json_text js m -> (m <= length toks)%nat ->
  exists q toks',
    ideal_jsmn_parse (jsmn_init (mk_jsmn_parser 0 0 0)) js (Some toks) (Z.of_nat (length toks))
    = Some (Z.of_nat m, q, Some toks')
    /\ segment (-1) 0 m (shapes toks) (shapes toks').
Proof.
  intros Htext Hlen.
  destruct (json_text_runs js) as (_ & Helement & _).
  destruct (Helement js m Htext 0%nat 0%nat (-1) (shapes toks) 0 (-1) (at_pos_whole js))
    as (sh' & [_ Hruns] & Hseg).
  { unfold value_end. rewrite lookup_ge_None_2 by (cbn; lia). exact I. }
  { rewrite length_shapes. lia. }
  { lia. }
  { lia. }
  destruct (Hruns toks eq_refl) as (toks' & Hsh' & Hrounds).
  cbn [token_shapes] in Hsh'. subst sh'.
  cbn [at_byte next_token super_token counted Nat.add] in Hrounds.
  rewrite Z.add_0_l in Hrounds.
  destruct (jsmn_rounds_loop js _ _ _ Hrounds 0%nat
              (Z.of_nat m, mk_jsmn_parser (length js) m (-1), Some toks'))
    as (fuel & Hfuel).
  { cbn [ideal_jsmn_parse_loop fst snd pos]. rewrite lookup_ge_None_2 by lia.
    unfold ideal_jsmn_parse_finish. rewrite (segment_unmatched m toks' _ _ _ Hseg). reflexivity. }
  cbn [fst snd] in Hfuel.
  destruct (ideal_jsmn_parse_loop_fill_defined js (length js) (mk_jsmn_parser 0 0 (-1)) toks 0
              (tokens_wf_init toks (mk_jsmn_parser 0 0 0)) ltac:(cbn; lia))
    as (res & Hres).
  pose proof (ideal_jsmn_parse_loop_fuel js _ _ _ _ _ _ Hfuel (Nat.max fuel (length js))
                ltac:(lia)) as H1.
  pose proof (ideal_jsmn_parse_loop_fuel js _ _ _ _ _ _ Hres (Nat.max fuel (length js))
                ltac:(lia)) as H2.
  rewrite H1 in H2. injection H2 as <-.
  exists (mk_jsmn_parser (length js) m (-1)), toks'. split; [exact Hres | exact Hseg].
Qed.

(** On a JSON text of [m] tokens the filling pass over an array of fewer
    tokens returns an error. *)
Lemma ideal_jsmn_parse_fill_too_small (js : list Z) (m : nat) (toks : list jsmntok_t) :
  json_text js m -> (length toks < m)%nat ->
  exists r q t,
    ideal_jsmn_parse (jsmn_init (mk_jsmn_parser 0 0 0)) js (Some toks) (Z.of_nat (length toks))
    = Some (r, q, t)
    /\ r < 0.
Proof.
  intros Htext Hlen. unfold ideal_jsmn_parse. cbn [jsmn_init toknext]. change (Z.of_nat 0) with 0.
  destruct (ideal_jsmn_parse_loop_fill_defined js (length js) (mk_jsmn_parser 0 0 (-1)) toks 0
              (tokens_wf_init toks (mk_jsmn_parser 0 0 0)) ltac:(cbn; lia))
    as ([[r q] t] & Hres).
  exists r, q, t. split; [exact Hres |].
  destruct (Z.lt_ge_cases r 0) as [| Hr]; [assumption | exfalso].
  destruct (ideal_jsmn_parse_loop_count_of_fill js 0 (length js) (mk_jsmn_parser 0 0 0)
              (mk_jsmn_parser 0 0 (-1)) toks 0 r q t Hres Hr eq_refl
              (tokens_wf_init toks (mk_jsmn_parser 0 0 0))) as (q1 & Hcount).
  destruct (ideal_jsmn_parse_json_text js m (replicate m (mk_jsmntok JSMN_UNDEFINED 0 0 0 0)) Htext
              (length_replicate _ _)) as (q1' & _ & _ & Hcount' & _).
  unfold ideal_jsmn_parse in Hcount'. cbn [toknext] in Hcount'.
  change (Z.of_nat 0) with 0 in Hcount'. rewrite Hcount in Hcount'.
  injection Hcount' as -> _.
  destruct (ideal_jsmn_parse_loop_fill_count js _ _ _ _ _ _ _ Hres
              (tokens_wf_init toks (mk_jsmn_parser 0 0 0)) eq_refl Hr)
    as (Hcnt & toks' & _ & Hlen' & (Hnext & _)).
  lia.
Qed.

Lemma jsmn_close_walk_open (toks : list jsmntok_t) (type : jsmntype_t) (super : Z)
    (fuel : nat) :
  forall idx k,
    jsmn_close_walk fuel toks type super idx = Some (CloseAt k) ->
    exists t, tok_at toks k = Some t /\ tok_is_open t = true.
Proof.
  induction fuel as [| fuel IH]; intros idx k; cbn [jsmn_close_walk]; [discriminate |].
  destruct (tok_at toks idx) as [token |] eqn:Ht; [| discriminate].
  destruct (tok_is_open token) eqn:Hopen.
  - destruct (bool_decide _); [discriminate |]. intros [= <-]. eauto.
  - destruct (tok_parent token =? -1); [destruct (_ || _); discriminate |]. apply IH.
Qed.

Lemma push_token_eq (toks : list jsmntok_t) (n : nat) (s : Z) (v : jsmntok_t)
    (f : jsmntok_t -> jsmntok_t) :
  (forall t, f t = v) -> s < Z.of_nat n ->
  tok_update incr_tok_size s
    (alter f n (alter (fun tok => mk_jsmntok (tok_type tok) (-1) (-1) 0 (-1)) n toks))
  = <[n := v]> (tok_update incr_tok_size s toks).
Proof.
  intros Hf Hs. rewrite (alter_constant f v) by exact Hf. rewrite insert_alter_same.
  unfold tok_update. destruct (Z.ltb_spec s 0); [reflexivity |].
  rewrite <- !(alter_constant (fun _ => v) v n) by reflexivity.
  apply list_alter_alter_ne. lia.
Qed.

Lemma ideal_bump_super_size_push (p : jsmn_parser) (toks : list jsmntok_t) (n : nat)
    (v : jsmntok_t) (f : jsmntok_t -> jsmntok_t) :
  (forall t, f t = v) -> -1 <= toksuper p < Z.of_nat n ->
  ideal_bump_super_size p
    (Some (alter f n
             (alter (fun tok => mk_jsmntok (tok_type tok) (-1) (-1) 0 (-1)) n toks)))
  = Some (<[n := v]> (tok_update incr_tok_size (toksuper p) toks)).
Proof.
  intros Hf Hs. unfold ideal_bump_super_size.
  destruct (Z.eqb_spec (toksuper p) (-1)) as [E | Hne]; f_equal.
  - rewrite E. unfold tok_update. cbn [Z.ltb Z.compare].
    rewrite list_alter_alter_eq. apply alter_constant. intros t. apply Hf.
  - apply push_token_eq; [exact Hf | lia].
Qed.

Lemma ideal_jsmn_parse_char_tokens (c : Z) (p : jsmn_parser) (js : list Z)
    (toks : list jsmntok_t) (cnt : Z) (q : jsmn_parser) (toks' : option (list jsmntok_t))
    (cnt' : Z) :
  tokens_wf p toks -> js !! pos p = Some c -> c <> 0 ->
  ideal_jsmn_parse_char c p js (Some toks) (Z.of_nat (length toks)) cnt
  = Some (StepNext q toks' cnt') ->
  exists toks2, toks' = Some toks2 /\ token_step p toks q toks2
                /\ (pos p <= pos q < length js)%nat.
Proof.
  intros Hwf Hc Hnz. pose proof Hwf as (Hlen & Hsuper & Hpar).
  pose proof (lookup_lt_Some _ _ _ Hc) as Hpos.
  unfold ideal_jsmn_parse_char.
  destruct ((c =? CH_LBRACE) || (c =? CH_LBRACKET)).
  { destruct (ideal_jsmn_alloc_token_spec p toks (Z.of_nat (length toks)))
      as [[Hfull ->] | [Hroom ->]]; [discriminate |].
    cbn [toksuper toknext pos set_toksuper]. intros [= <- <- _].
    eexists. split; [reflexivity |]. cbn [pos]. split; [| cbn; lia].
    apply (step_push _ _ _ _ (if c =? CH_LBRACE then JSMN_OBJECT else JSMN_ARRAY)
             (Z.of_nat (pos p)) (-1)); cbn [toknext pos toksuper set_toksuper set_pos];
      [reflexivity | lia | | destruct (c =? CH_LBRACE); discriminate | lia | auto].
    destruct (Z.eqb_spec (toksuper p) (-1)) as [E | Hne].
    - rewrite E. unfold tok_update at 1. cbn [Z.ltb Z.compare].
      rewrite list_alter_alter_eq. apply alter_constant. intros t. cbn. reflexivity.
    - rewrite list_alter_alter_eq.
      unfold tok_update. destruct (Z.ltb_spec (toksuper p) 0); [lia |].
      rewrite (list_alter_alter_ne incr_tok_size) by lia.
      rewrite list_alter_alter_eq. apply alter_constant. intros t. reflexivity. }
  destruct ((c =? CH_RBRACE) || (c =? CH_RBRACKET)) eqn:Eclose.
  { destruct (Nat.ltb_spec (toknext p) 1) as [Hnone | Hsome]; [discriminate |].
    destruct (jsmn_close_walk_defined p toks
                (if c =? CH_RBRACE then JSMN_OBJECT else JSMN_ARRAY) (toksuper p)
                (toknext p) Hwf (Z.of_nat (toknext p) - 1) ltac:(lia) ltac:(lia))
      as (w & Hwalk & Hw).
    rewrite Hwalk. destruct w as [k | |]; [| | discriminate].
    - destruct (jsmn_close_walk_open _ _ _ _ _ _ Hwalk) as (t & Ht & Hopen).
      rewrite Ht. intros [= <- <- _]. eexists. split; [reflexivity |].
      cbn [pos set_toksuper]. split; [| cbn; lia].
      unfold tok_at in Ht. destruct (Z.ltb_spec k 0); [lia |].
      apply (step_close _ _ _ _ (Z.to_nat k) t); cbn [toknext];
        [reflexivity | lia | exact Ht | exact Hopen |].
      unfold tok_update. destruct (Z.ltb_spec k 0); [lia |]. apply alter_at, Ht.
    - intros [= <- <- _]. eexists. split; [reflexivity |]. split; [| cbn; lia].
      apply step_keep; reflexivity. }
  destruct (c =? CH_QUOTE).
  { unfold ideal_jsmn_parse_string.
    destruct (jsmn_string_scan_defined js (length js) (S (pos p)) ltac:(lia))
      as (res & Hscan & Hres).
    rewrite Hscan. destruct res as [e | r].
    - destruct (ideal_jsmn_alloc_token_spec (set_pos e p) toks (Z.of_nat (length toks)))
        as [[Hfull ->] | [Hroom ->]].
      + cbn. discriminate.
      + cbn [toksuper toknext pos set_pos] in *. cbn [Z.ltb Z.compare].
        erewrite (ideal_bump_super_size_push _ toks _
                    (mk_jsmntok JSMN_STRING (Z.of_nat (pos p) + 1) (Z.of_nat e) 0
                       (toksuper p)));
          [| intros t; reflexivity | cbn; lia].
        intros [= <- <- _]. eexists. split; [reflexivity |].
        specialize (Hres e eq_refl). split; [| cbn; lia].
        apply (step_push _ _ _ _ JSMN_STRING (Z.of_nat (pos p) + 1) (Z.of_nat e));
          cbn [toknext pos toksuper set_toksuper set_pos];
          [reflexivity | lia | reflexivity | discriminate | lia | lia].
    - apply jsmn_string_scan_error in Hscan. destruct Hscan as [-> | ->]; discriminate. }
  destruct ((c =? CH_TAB) || (c =? CH_CR) || (c =? CH_LF) || (c =? CH_SPACE)) eqn:Espace.
  { intros [= <- <- _]. eexists. split; [reflexivity |]. split; [| cbn; lia].
    apply step_keep; reflexivity. }
  destruct (c =? CH_COLON) eqn:Ecolon.
  { intros [= <- <- _]. eexists. split; [reflexivity |]. split; [| cbn; lia].
    apply step_keep; reflexivity. }
  destruct (c =? CH_COMMA) eqn:Ecomma.
  { destruct (Z.eqb_spec (toksuper p) (-1)) as [E | Hne].
    { intros [= <- <- _]. eexists. split; [reflexivity |]. split; [| cbn; lia].
      apply step_keep; reflexivity. }
    destruct (tok_at_wf p toks (toksuper p) Hwf ltac:(lia)) as (token & -> & Hk).
    destruct (_ && _); intros [= <- <- _]; (eexists; split; [reflexivity |]);
      (split; [| cbn; lia]); apply step_keep; reflexivity. }
  unfold ideal_jsmn_parse_primitive.
  destruct (jsmn_primitive_scan (drop (pos p) js) (pos p)) as [e |] eqn:Hs;
    [| discriminate].
  pose proof (jsmn_primitive_scan_bound (drop (pos p) js) (pos p) e Hs) as Hbound.
  assert (Hdelim : primitive_delimiter c = false).
  { unfold primitive_delimiter.
    repeat match goal with
           | H : (_ || _) = false |- _ => apply orb_false_elim in H as [? ?]
           end.
    repeat match goal with H : (c =? _) = false |- _ => rewrite H; clear H end.
    reflexivity. }
  pose proof (jsmn_primitive_scan_lt js (pos p) e c Hc Hnz Hdelim Hs) as Hlt.
  rewrite length_drop in Hbound.
  destruct (ideal_jsmn_alloc_token_spec (set_pos e p) toks (Z.of_nat (length toks)))
    as [[Hfull ->] | [Hroom ->]]; [discriminate |].
  cbn [toksuper toknext pos set_pos] in *. cbn [Z.ltb Z.compare].
  erewrite (ideal_bump_super_size_push _ toks _
              (mk_jsmntok JSMN_PRIMITIVE (Z.of_nat (pos p)) (Z.of_nat e) 0 (toksuper p)));
    [| intros t; reflexivity | cbn; lia].
  intros [= <- <- _]. eexists. split; [reflexivity |]. split; [| cbn; lia].
  apply (step_push _ _ _ _ JSMN_PRIMITIVE (Z.of_nat (pos p)) (Z.of_nat e));
    cbn [toknext pos toksuper set_toksuper set_pos];
    [reflexivity | lia | reflexivity | discriminate | lia | lia].
Qed.

Lemma child_tokens_links (toks toks' : list jsmntok_t) (n i : nat) :
  parent_links toks' = parent_links toks -> child_tokens toks' n i = child_tokens toks n i.
Proof. unfold child_tokens. intros ->. reflexivity. Qed.

Lemma child_tokens_push (toks toks' : list jsmntok_t) (n i : nat) (s : Z) :
  (n < length toks)%nat ->
  parent_links toks' = <[n := s]> (parent_links toks) ->
  child_tokens toks' (S n) i
  = (child_tokens toks n i + (if decide (s = Z.of_nat i) then 1 else 0))%nat.
Proof.
  intros Hn Hlinks. unfold child_tokens. rewrite Hlinks.
  assert (Hlen : (n < length (parent_links toks))%nat).
  { unfold parent_links. rewrite length_fmap. exact Hn. }
  rewrite (take_S_r _ n s) by (apply list_lookup_insert_eq; exact Hlen).
  rewrite take_insert_ge by lia. rewrite filter_app, length_app. f_equal.
  rewrite filter_cons. destruct (decide (s = Z.of_nat i)); reflexivity.
Qed.

Lemma child_tokens_none (toks : list jsmntok_t) (n i : nat) :
  (forall j x, (j < n)%nat -> parent_links toks !! j = Some x -> x < Z.of_nat i) ->
  child_tokens toks n i = 0%nat.
Proof.
  intros H. unfold child_tokens.
  assert (Hall : Forall (fun x => x <> Z.of_nat i) (take n (parent_links toks))).
  { apply Forall_forall. intros x Hx.
    apply list_elem_of_lookup_1 in Hx as (j & Hj).
    apply lookup_take_Some in Hj as [Hj Hlt]. specialize (H j x Hlt Hj). lia. }
  induction Hall as [| x l Hx _ IH]; [reflexivity |].
  rewrite filter_cons. destruct (decide (x = Z.of_nat i)); [contradiction | exact IH].
Qed.

Lemma tokens_filled_limit (limit limit' : Z) (n : nat) (toks : list jsmntok_t) :
  limit <= limit' -> tokens_filled limit n toks -> tokens_filled limit' n toks.
Proof.
  intros Hle [Hall Hsorted]. split; [| exact Hsorted].
  intros i Hi. destruct (Hall i Hi) as (t & Ht & Hty & Hst & Hen & Hpar & Hsize).
  exists t. split; [exact Ht |]. unfold filled. repeat split; try assumption; lia.
Qed.

Lemma parent_links_lookup (toks : list jsmntok_t) (i : nat) (t : jsmntok_t) :
  toks !! i = Some t -> parent_links toks !! i = Some (tok_parent t).
Proof. intros H. unfold parent_links. rewrite list_lookup_fmap, H. reflexivity. Qed.

Lemma parent_links_insert_same (toks : list jsmntok_t) (i : nat) (t t' : jsmntok_t) :
  toks !! i = Some t -> tok_parent t' = tok_parent t ->
  parent_links (<[i := t']> toks) = parent_links toks.
Proof.
  intros Ht Hp. unfold parent_links. rewrite list_fmap_insert, Hp.
  apply list_insert_id. rewrite list_lookup_fmap, Ht. reflexivity.
Qed.

(** A round of the filling pass keeps the filled tokens filled. *)
Lemma token_step_filled (p q : jsmn_parser) (toks toks' : list jsmntok_t) :
  token_step p toks q toks' -> tokens_wf p toks -> (pos p <= pos q)%nat ->
  tokens_filled (Z.of_nat (pos p)) (toknext p) toks ->
  tokens_filled (Z.of_nat (S (pos q))) (toknext q) toks'
  /\ length toks' = length toks
  /\ forall i, (toknext q <= i)%nat -> toks' !! i = toks !! i.
Proof.
  intros Hstep Hwf Hpos Hfilled. pose proof Hwf as (Hlen & Hsuper & Hpar).
  destruct Hstep as [-> Hnext | idx t Hnext Hidx Ht Hopen -> | ty st en Hnext Hroom -> Hty Hst Hen].
  - rewrite Hnext. split; [| auto]. eapply tokens_filled_limit; [| exact Hfilled]. lia.
  - rewrite Hnext. split; [| split; [apply length_insert |]].
    2:{ intros i Hi. apply list_lookup_insert_ne. lia. }
    destruct Hfilled as [Hall Hsorted].
    assert (Hlinks : parent_links (<[idx := set_tok_end (Z.of_nat (pos p) + 1) t]> toks)
                     = parent_links toks).
    { apply (parent_links_insert_same toks idx t); [exact Ht | reflexivity]. }
    split.
    + intros i Hi. destruct (Hall i Hi) as (u & Hu & Hty & Hst & Hen & Hp & Hsize).
      destruct (decide (i = idx)) as [-> | Hne].
      * rewrite Ht in Hu. injection Hu as <-.
        exists (set_tok_end (Z.of_nat (pos p) + 1) t).
        split; [apply list_lookup_insert_eq; eapply lookup_lt_Some, Ht |].
        unfold filled. cbn. rewrite (child_tokens_links toks) by exact Hlinks.
        repeat split; try assumption; try lia.
      * exists u. split; [rewrite list_lookup_insert_ne by auto; exact Hu |].
        unfold filled. rewrite (child_tokens_links toks) by exact Hlinks.
        repeat split; try assumption; try lia.
        all: destruct Hen as [? | ?]; [left; assumption | right; lia].
    + intros i j ti tj Hij Hi Hj.
      assert (Hstart : forall k u, (<[idx := set_tok_end (Z.of_nat (pos p) + 1) t]> toks) !! k
                                   = Some u ->
                                   exists u', toks !! k = Some u' /\ tok_start u = tok_start u').
      { intros k u. destruct (decide (k = idx)) as [-> | Hne].
        - rewrite list_lookup_insert_eq by (eapply lookup_lt_Some, Ht).
          intros [= <-]. eauto.
        - rewrite list_lookup_insert_ne by auto. eauto. }
      apply Hstart in Hi as (ti' & Hi & ->). apply Hstart in Hj as (tj' & Hj & ->).
      exact (Hsorted i j ti' tj' Hij Hi Hj).
  - rewrite Hnext. set (n := toknext p) in *. set (s := toksuper p) in *.
    set (v := mk_jsmntok ty st en 0 s).
    assert (Hlinks : parent_links (<[n := v]> (tok_update incr_tok_size s toks))
                     = <[n := s]> (parent_links toks)).
    { unfold parent_links at 1. rewrite list_fmap_insert. fold (parent_links (tok_update incr_tok_size s toks)).
      rewrite parent_links_update_keep by reflexivity. reflexivity. }
    split; [| split; [rewrite length_insert; apply length_tok_update |]].
    2:{ intros i Hi. rewrite list_lookup_insert_ne by lia.
        unfold tok_update. destruct (s <? 0); [reflexivity |].
        apply list_lookup_alter_ne. lia. }
    destruct Hfilled as [Hall Hsorted].
    assert (Hold : forall i u, (i < n)%nat -> toks !! i = Some u ->
              exists u', (<[n := v]> (tok_update incr_tok_size s toks)) !! i = Some u'
                         /\ tok_type u' = tok_type u /\ tok_start u' = tok_start u
                         /\ tok_end u' = tok_end u /\ tok_parent u' = tok_parent u
                         /\ tok_size u' = tok_size u
                                          + (if decide (s = Z.of_nat i) then 1 else 0)).
    { intros i u Hi Hu. rewrite list_lookup_insert_ne by lia. unfold tok_update.
      destruct (Z.ltb_spec s 0) as [Hneg | Hnn].
      - exists u. rewrite decide_False by lia. repeat split; auto; lia.
      - destruct (decide (s = Z.of_nat i)) as [E | Hne].
        + exists (incr_tok_size u). replace (Z.to_nat s) with i by lia.
          rewrite list_lookup_alter_eq, Hu. repeat split.
        + exists u. rewrite list_lookup_alter_ne by lia. repeat split; auto; lia. }
    split.
    + intros i Hi. destruct (decide (i = n)) as [-> | Hne].
      * exists v. split; [apply list_lookup_insert_eq; rewrite length_tok_update; exact Hroom |].
        unfold filled, v. cbn [tok_type tok_start tok_end tok_size tok_parent].
        fold v. rewrite (child_tokens_push toks _ n n s Hroom Hlinks).
        rewrite decide_False by lia.
        rewrite (child_tokens_none toks n n).
        2:{ intros j x Hj Hx. specialize (Hpar j x Hj Hx). lia. }
        repeat split; try assumption; try lia.
      * destruct (Hall i ltac:(lia)) as (u & Hu & Hty' & Hst' & Hen' & Hp & Hsize).
        destruct (Hold i u ltac:(lia) Hu) as (u' & Hu' & E1 & E2 & E3 & E4 & Hs').
        exists u'. split; [exact Hu' |]. unfold filled. rewrite E1, E2, E3, E4.
        rewrite (child_tokens_push toks _ n i s Hroom Hlinks).
        repeat split; try assumption; try lia;
          first [ destruct Hen' as [? | ?]; [left; assumption | right; lia]
                | rewrite Hs', Hsize; destruct (decide (s = Z.of_nat i)); lia ].
    + intros i j ti tj Hij Hi Hj.
      assert (Hi' : exists u, toks !! i = Some u /\ tok_start ti = tok_start u
                              /\ tok_start u < Z.of_nat (pos p)).
      { destruct (Hall i ltac:(lia)) as (u & Hu & _ & Hst' & _).
        destruct (Hold i u ltac:(lia) Hu) as (u' & Hu' & _ & Hs' & _).
        rewrite Hu' in Hi. injection Hi as <-. exists u. split; [exact Hu |].
        split; [exact Hs' | lia]. }
      destruct Hi' as (ui & Hui & -> & Hlim).
      destruct (decide (j = n)) as [-> | Hne].
      * rewrite list_lookup_insert_eq in Hj by (rewrite length_tok_update; exact Hroom).
        injection Hj as <-. cbn. lia.
      * destruct (Hall j ltac:(lia)) as (u & Hu & _).
        destruct (Hold j u ltac:(lia) Hu) as (u' & Hu' & _ & Hs' & _).
        rewrite Hu' in Hj. injection Hj as <-. rewrite Hs'.
        apply (Hsorted i j ui u); [lia | exact Hui | exact Hu].
Qed.

(** The filling pass, from any round on: when it returns a count, the
    tokens it has allocated are filled and closed, and the others are as
    they were. *)
Lemma ideal_jsmn_parse_loop_tokens (js : list Z) (toks0 : list jsmntok_t) (fuel : nat) :
  forall p toks cnt r q t,
    ideal_jsmn_parse_loop fuel js (Z.of_nat (length toks)) p (Some toks) cnt = Some (r, q, t) ->
    tokens_wf p toks -> (pos p <= length js)%nat ->
    tokens_filled (Z.of_nat (pos p)) (toknext p) toks ->
    length toks = length toks0 ->
    (forall i, (toknext p <= i)%nat -> toks !! i = toks0 !! i) ->
    0 <= r ->
    exists toks',
      t = Some toks'
      /\ tokens_filled (Z.of_nat (length js)) (toknext q) toks'
      /\ (forall i u, (i < toknext q)%nat -> toks' !! i = Some u -> tok_end u <> -1)
      /\ length toks' = length toks0
      /\ forall i, (toknext q <= i)%nat -> toks' !! i = toks0 !! i.
Proof.
  assert (Hfinish : forall p toks cnt r q t,
            Some (ideal_jsmn_parse_finish p (Some toks) cnt) = Some (r, q, t) ->
            (pos p <= length js)%nat ->
            tokens_filled (Z.of_nat (pos p)) (toknext p) toks ->
            length toks = length toks0 ->
            (forall i, (toknext p <= i)%nat -> toks !! i = toks0 !! i) ->
            0 <= r ->
            exists toks',
              t = Some toks'
              /\ tokens_filled (Z.of_nat (length js)) (toknext q) toks'
              /\ (forall i u, (i < toknext q)%nat -> toks' !! i = Some u ->
                    tok_end u <> -1)
              /\ length toks' = length toks0
              /\ forall i, (toknext q <= i)%nat -> toks' !! i = toks0 !! i).
  { intros p toks cnt r q t. unfold ideal_jsmn_parse_finish.
    destruct (jsmn_unmatched p toks) eqn:Hun; intros [= <- <- <-] Hpos Hfilled Hlen Hrest Hr;
      [unfold JSMN_ERROR_PART in Hr; lia |].
    exists toks. split; [reflexivity |].
    split; [eapply tokens_filled_limit; [| exact Hfilled]; lia |].
    split; [| auto]. intros i u Hi Hu Hend.
    destruct Hfilled as [Hall _]. destruct (Hall i Hi) as (u' & Hu' & _ & Hst & _).
    rewrite Hu in Hu'. injection Hu' as <-.
    assert (Hopen : tok_is_open u = true).
    { unfold tok_is_open. rewrite Hend. cbn.
      destruct (Z.eqb_spec (tok_start u) (-1)); [lia | reflexivity]. }
    unfold jsmn_unmatched in Hun.
    assert (Hex : existsb tok_is_open (take (toknext p) toks) = true).
    { apply existsb_exists. exists u. split; [| exact Hopen].
      apply list_elem_of_In, (list_elem_of_lookup_2 _ i).
      apply lookup_take_Some. auto. }
    congruence. }
  induction fuel as [| fuel IH]; intros p toks cnt r q t Hrun Hwf Hpos Hfilled Hlen Hrest Hr;
    cbn [ideal_jsmn_parse_loop] in Hrun.
  - destruct (js !! pos p) as [c |]; [| eapply Hfinish; eauto].
    destruct (c =? 0); [eapply Hfinish; eauto | discriminate].
  - destruct (js !! pos p) as [c |] eqn:Hc; [| eapply Hfinish; eauto].
    destruct (Z.eqb_spec c 0) as [| Hnz]; [eapply Hfinish; eauto |].
    destruct (ideal_jsmn_parse_char c p js (Some toks) (Z.of_nat (length toks)) cnt)
      as [[q1 t1 cnt1 | r1 q1 t1] |] eqn:Hstep; [| | discriminate].
    + destruct (ideal_jsmn_parse_char_tokens c p js toks cnt q1 t1 cnt1 Hwf Hc Hnz Hstep)
        as (toks1 & -> & Htok & Hq1).
      destruct (token_step_filled p q1 toks toks1 Htok Hwf ltac:(lia) Hfilled)
        as (Hfilled1 & Hlen1 & Hrest1).
      assert (Hwf1 : tokens_wf q1 toks1).
      { destruct (jsmn_lex_defined c js (pos p) Hc Hnz) as (s & Hs & _).
        pose proof (ideal_jsmn_parse_char_fill c p js toks (Z.of_nat (length toks)) cnt Hwf
                      eq_refl) as Hfill.
        rewrite Hs in Hfill. destruct s as [pos' d | e].
        - destruct Hfill as [(q2 & toks2 & Hstep2 & _ & _ & Hwf2 & _)
                            | [(q2 & Hstep2 & _) | (_ & _ & q2 & Hstep2 & _)]];
            rewrite Hstep in Hstep2; [| discriminate ..].
          injection Hstep2 as <- <- _. exact Hwf2.
        - destruct Hfill as (q2 & Hstep2 & _). rewrite Hstep in Hstep2. discriminate. }
      assert (Hnext : (toknext p <= toknext q1)%nat).
      { destruct Htok as [_ E | ? ? E | ? ? ? E]; rewrite E; lia. }
      rewrite <- Hlen1 in Hrun.
      apply (IH _ _ _ _ _ _ Hrun); cbn [pos toknext set_pos];
        [apply tokens_wf_set_pos, Hwf1 | lia | exact Hfilled1 | congruence | | exact Hr].
      intros i Hi. rewrite Hrest1 by exact Hi. apply Hrest. lia.
    + injection Hrun as <- _ _. exfalso.
      destruct (jsmn_lex_defined c js (pos p) Hc Hnz) as (s & Hs & Hprop).
      pose proof (ideal_jsmn_parse_char_fill c p js toks (Z.of_nat (length toks)) cnt Hwf
                    eq_refl) as Hfill.
      rewrite Hs in Hfill. unfold JSMN_ERROR_INVAL, JSMN_ERROR_PART, JSMN_ERROR_NOMEM in *.
      destruct s as [pos' d | e].
      * destruct Hfill as [(q2 & toks2 & Hstep2 & _)
                          | [(q2 & Hstep2 & _) | (_ & _ & q2 & Hstep2 & _)]];
          rewrite Hstep in Hstep2; [discriminate | |]; injection Hstep2 as -> _ _; lia.
      * destruct Hfill as (q2 & Hstep2 & _). rewrite Hstep in Hstep2.
        injection Hstep2 as -> _ _. lia.
Qed.

(** The token array after a filling pass that returns a count [r]. *)
Lemma ideal_jsmn_parse_tokens (js : list Z) (toks : list jsmntok_t) (r : Z) (q : jsmn_parser)
    (toks' : list jsmntok_t) :
  ideal_jsmn_parse (jsmn_init (mk_jsmn_parser 0 0 0)) js (Some toks) (Z.of_nat (length toks))
  = Some (r, q, Some toks') ->
  0 <= r ->
  r = Z.of_nat (toknext q)
  /\ r <= Z.of_nat (length toks)
  /\ length toks' = length toks
  /\ (forall i, (toknext q <= i)%nat -> toks' !! i = toks !! i)
  /\ (forall i, (i < toknext q)%nat ->
        exists t,
          toks' !! i = Some t
          /\ tok_type t <> JSMN_UNDEFINED
          /\ 0 <= tok_start t <= tok_end t /\ tok_end t <= Z.of_nat (length js)
          /\ -1 <= tok_parent t < Z.of_nat i
          /\ tok_size t = Z.of_nat (child_tokens toks' (toknext q) i))
  /\ (forall i j ti tj, (i < j < toknext q)%nat ->
        toks' !! i = Some ti -> toks' !! j = Some tj -> tok_start ti < tok_start tj).
Proof.
  unfold ideal_jsmn_parse. cbn [jsmn_init toknext]. change (Z.of_nat 0) with 0.
  intros Hrun Hr.
  destruct (ideal_jsmn_parse_loop_fill_count js _ _ _ _ _ _ _ Hrun
              (tokens_wf_init toks (mk_jsmn_parser 0 0 0)) eq_refl Hr)
    as (Hcount & toks1 & [= <-] & Hlen1 & (Hnext & _)).
  destruct (ideal_jsmn_parse_loop_tokens js toks _ _ _ _ _ _ _ Hrun
              (tokens_wf_init toks (mk_jsmn_parser 0 0 0)) ltac:(cbn; lia))
    as (toks2 & [= <-] & [Hall Hsorted] & Hclosed & Hlen & Hrest); auto.
  { split; cbn; intros; lia. }
  split; [exact Hcount |]. split; [lia |]. split; [exact Hlen |].
  split; [exact Hrest |]. split; [| exact Hsorted].
  intros i Hi. destruct (Hall i Hi) as (t & Ht & Hty & Hst & Hen & Hp & Hsize).
  exists t. split; [exact Ht |]. pose proof (Hclosed i t Hi Ht) as Hend.
  repeat split; try assumption; lia.
Qed.

(** ** The tokeniser on inputs of at most [INT_MAX] bytes *)

(** *** The integer conversions are exact in range *)

Lemma int_wrap_exact (z : Z) : INT_MIN <= z <= INT_MAX -> int_wrap z = z.
Proof.
  unfold int_wrap, INT_MIN, INT_MAX, UINT_MODULUS. intros H.
  change (2 ^ 32) with 4294967296. rewrite Z.mod_small; lia.
Qed.

Lemma uint_nat_exact (n : nat) : Z.of_nat n <= INT_MAX -> uint_nat (Z.of_nat n) = n.
Proof.
  unfold uint_nat, uint_wrap, INT_MAX, UINT_MODULUS. intros H.
  change (2 ^ 32) with 4294967296. rewrite Z.mod_small by lia. apply Nat2Z.id.
Qed.

Lemma uint_nat_succ (n : nat) : Z.of_nat n < INT_MAX -> uint_nat (Z.of_nat n + 1) = S n.
Proof.
  intros H. replace (Z.of_nat n + 1) with (Z.of_nat (S n)) by lia.
  apply uint_nat_exact. lia.
Qed.

Lemma uint_nat_pred (n : nat) :
  (0 < n)%nat -> Z.of_nat n <= INT_MAX -> uint_nat (Z.of_nat n - 1) = Nat.pred n.
Proof.
  intros Hn H. replace (Z.of_nat n - 1) with (Z.of_nat (Nat.pred n)) by lia.
  apply uint_nat_exact. lia.
Qed.

(** *** The rounds of the filling pass *)

Lemma child_tokens_bound (toks : list jsmntok_t) (n i : nat) : (child_tokens toks n i <= n)%nat.
Proof.
  unfold child_tokens.
  etransitivity; [apply length_filter |]. rewrite length_take. lia.
Qed.

Lemma tokens_filled_size (limit : Z) (n : nat) (toks : list jsmntok_t) (i : nat)
    (t : jsmntok_t) :
  tokens_filled limit n toks -> (i < n)%nat -> toks !! i = Some t ->
  tok_size t <= Z.of_nat n.
Proof.
  intros [Hall _] Hi Ht. destruct (Hall i Hi) as (t' & Ht' & _ & _ & _ & _ & Hsize).
  rewrite Ht in Ht'. injection Ht' as <-. rewrite Hsize.
  pose proof (child_tokens_bound toks n i). lia.
Qed.

Lemma jsmn_alloc_token_exact (p : jsmn_parser) (toks : list jsmntok_t) :
  Z.of_nat (toknext p) < INT_MAX ->
  jsmn_alloc_token p toks (Z.of_nat (length toks))
  = Some (ideal_jsmn_alloc_token p toks (Z.of_nat (length toks))).
Proof.
  intros Hnext. unfold jsmn_alloc_token, ideal_jsmn_alloc_token.
  destruct (Z.leb_spec (Z.of_nat (length toks)) (Z.of_nat (toknext p))); [reflexivity |].
  destruct (Nat.leb_spec (length toks) (toknext p)); [lia |].
  rewrite uint_nat_succ by exact Hnext. reflexivity.
Qed.

Lemma tok_size_incr_exact (toks : list jsmntok_t) (s : Z) (t : jsmntok_t) :
  0 <= s -> toks !! Z.to_nat s = Some t -> tok_size t < INT_MAX ->
  tok_size_incr s toks = Some (tok_update incr_tok_size s toks).
Proof.
  intros Hs Ht Hsize. unfold tok_size_incr, tok_at.
  destruct (Z.ltb_spec s 0); [lia |]. rewrite Ht. cbn.
  destruct (Z.leb_spec INT_MAX (tok_size t)); [lia | reflexivity].
Qed.

(** The token [toksuper] after a token has been allocated and filled. *)
Lemma super_after_push (js : list Z) (p : jsmn_parser) (toks : list jsmntok_t)
    (f g : jsmntok_t -> jsmntok_t) :
  fill_state js p toks -> (pos p < length js)%nat -> toksuper p <> -1 ->
  exists t,
    alter f (toknext p) (alter g (toknext p) toks) !! Z.to_nat (toksuper p) = Some t
    /\ 0 <= toksuper p /\ tok_size t < INT_MAX.
Proof.
  intros (Hlen & Hpos & Hnext & Hwf & Hfilled) Hin Hsuper.
  pose proof Hwf as (Hroom & Hrange & _).
  destruct (lookup_lt_is_Some_2 toks (Z.to_nat (toksuper p)) ltac:(lia)) as [t Ht].
  exists t. rewrite !list_lookup_alter_ne by lia. split; [exact Ht |]. split; [lia |].
  pose proof (tokens_filled_size _ _ _ (Z.to_nat (toksuper p)) t Hfilled ltac:(lia) Ht).
  lia.
Qed.

Lemma primitive_delimiter_default (c : Z) :
  (c =? CH_RBRACE) || (c =? CH_RBRACKET) = false ->
  (c =? CH_TAB) || (c =? CH_CR) || (c =? CH_LF) || (c =? CH_SPACE) = false ->
  (c =? CH_COLON) = false -> (c =? CH_COMMA) = false ->
  primitive_delimiter c = false.
Proof.
  intros Hclose Hws Hcolon Hcomma. unfold primitive_delimiter. rewrite Hcolon, Hcomma.
  apply orb_false_elim in Hclose as [Hc1 Hc2].
  apply orb_false_elim in Hws as [Hws Hw4].
  apply orb_false_elim in Hws as [Hws Hw3].
  apply orb_false_elim in Hws as [Hw1 Hw2].
  rewrite Hc1, Hc2, Hw1, Hw2, Hw3, Hw4. reflexivity.
Qed.

(** A round of the filling pass is the round of the idealised tokeniser. *)
Lemma jsmn_parse_char_exact_fill (c : Z) (p : jsmn_parser) (js : list Z)
    (toks : list jsmntok_t) (cnt : Z) :
  fill_state js p toks -> js !! pos p = Some c -> c <> 0 ->
  cnt = Z.of_nat (toknext p) ->
  jsmn_parse_char c p js (Some toks) (Z.of_nat (length toks)) cnt
  = ideal_jsmn_parse_char c p js (Some toks) (Z.of_nat (length toks)) cnt.
Proof.
  intros Hstate Hc Hnz ->. pose proof Hstate as (Hlen & Hpos & Hnext & Hwf & Hfilled).
  pose proof Hwf as (Hroom & Hrange & _).
  pose proof (lookup_lt_Some _ _ _ Hc) as Hin.
  assert (Hcount : count_incr (Z.of_nat (toknext p)) = Some (Z.of_nat (toknext p) + 1)).
  { unfold count_incr. destruct (Z.leb_spec INT_MAX (Z.of_nat (toknext p))); [lia |].
    reflexivity. }
  unfold jsmn_parse_char, ideal_jsmn_parse_char.
  destruct ((c =? CH_LBRACE) || (c =? CH_LBRACKET)).
  { rewrite Hcount. cbn [mbind option_bind].
    rewrite jsmn_alloc_token_exact by lia. cbn [mbind option_bind].
    destruct (ideal_jsmn_alloc_token_spec p toks (Z.of_nat (length toks)))
      as [[Hfull ->] | [Hroom' ->]]; [reflexivity |].
    cbn [toksuper toknext pos].
    rewrite (int_wrap_exact (Z.of_nat (pos p))) by (unfold INT_MIN; lia).
    rewrite (int_wrap_exact (Z.of_nat (S (toknext p)) - 1)) by (unfold INT_MIN; lia).
    destruct (Z.eqb_spec (toksuper p) (-1)) as [E | Hsuper]; [reflexivity |].
    destruct (super_after_push js p toks id
                (fun tok => mk_jsmntok (tok_type tok) (-1) (-1) 0 (-1)) Hstate Hin Hsuper)
      as (t & Ht & Hs & Hsize).
    rewrite list_alter_id in Ht by reflexivity.
    rewrite (tok_size_incr_exact _ _ t Hs Ht Hsize). reflexivity. }
  destruct ((c =? CH_RBRACE) || (c =? CH_RBRACKET)) eqn:Hclose.
  { rewrite (int_wrap_exact (Z.of_nat (pos p) + 1)) by (unfold INT_MIN; lia).
    reflexivity. }
  destruct (c =? CH_QUOTE).
  { unfold jsmn_parse_string, ideal_jsmn_parse_string.
    rewrite (int_wrap_exact (Z.of_nat (pos p))) by (unfold INT_MIN; lia).
    rewrite uint_nat_exact by lia.
    destruct (jsmn_string_scan_defined js (length js) (S (pos p)) ltac:(lia))
      as (s & Hs & Hend).
    rewrite Hs. cbn [mbind option_bind].
    destruct s as [e | r];
      [| apply jsmn_string_scan_error in Hs as [-> | ->]; reflexivity].
    specialize (Hend e eq_refl).
    rewrite jsmn_alloc_token_exact by (cbn; lia). cbn [mbind option_bind].
    destruct (ideal_jsmn_alloc_token_spec (set_pos e p) toks (Z.of_nat (length toks)))
      as [[Hfull ->] | [Hroom' ->]]; [reflexivity |].
    cbn [toksuper toknext pos set_pos].
    destruct (Z.leb_spec INT_MAX (Z.of_nat (pos p))); [lia |].
    rewrite (int_wrap_exact (Z.of_nat e)) by (unfold INT_MIN; lia).
    cbn [Z.ltb Z.compare]. rewrite Hcount. cbn [mbind option_bind].
    unfold bump_super_size, ideal_bump_super_size. cbn [toksuper].
    destruct (Z.eqb_spec (toksuper p) (-1)) as [E | Hsuper]; [reflexivity |].
    match goal with
    | |- context [tok_size_incr _ (alter ?f _ (alter ?g _ _))] =>
        destruct (super_after_push js p toks f g Hstate Hin Hsuper)
          as (t & Ht & Hs' & Hsize)
    end.
    rewrite (tok_size_incr_exact _ _ t Hs' Ht Hsize). reflexivity. }
  destruct ((c =? CH_TAB) || (c =? CH_CR) || (c =? CH_LF) || (c =? CH_SPACE)) eqn:Hws;
    [reflexivity |].
  destruct (c =? CH_COLON) eqn:Hcolon.
  { rewrite (int_wrap_exact (Z.of_nat (toknext p) - 1)) by (unfold INT_MIN; lia).
    reflexivity. }
  destruct (c =? CH_COMMA) eqn:Hcomma; [reflexivity |].
  pose proof (primitive_delimiter_default c Hclose Hws Hcolon Hcomma) as Hd.
  unfold jsmn_parse_primitive, ideal_jsmn_parse_primitive.
  rewrite (int_wrap_exact (Z.of_nat (pos p))) by (unfold INT_MIN; lia).
  rewrite uint_nat_exact by lia.
  destruct (jsmn_primitive_scan (drop (pos p) js) (pos p)) as [e |] eqn:Hs;
    [| reflexivity].
  pose proof (jsmn_primitive_scan_lt js (pos p) e c Hc Hnz Hd Hs) as Hgt.
  pose proof (jsmn_primitive_scan_bound _ _ _ Hs) as Hle. rewrite length_drop in Hle.
  rewrite jsmn_alloc_token_exact by (cbn; lia). cbn [mbind option_bind].
  destruct (ideal_jsmn_alloc_token_spec (set_pos e p) toks (Z.of_nat (length toks)))
    as [[Hfull ->] | [Hroom' ->]]; [reflexivity |].
  cbn [toksuper toknext pos set_pos].
  rewrite (int_wrap_exact (Z.of_nat e)) by (unfold INT_MIN; lia).
  rewrite uint_nat_pred by lia.
  cbn [Z.ltb Z.compare mbind option_bind]. rewrite Hcount. cbn [mbind option_bind].
  unfold bump_super_size, ideal_bump_super_size. cbn [toksuper toknext pos set_pos].
  destruct (Z.eqb_spec (toksuper p) (-1)) as [E | Hsuper]; [reflexivity |].
  match goal with
  | |- context [tok_size_incr _ (alter ?f _ (alter ?g _ _))] =>
      destruct (super_after_push js p toks f g Hstate Hin Hsuper)
        as (t & Ht & Hs' & Hsize)
  end.
  rewrite (tok_size_incr_exact _ _ t Hs' Ht Hsize). reflexivity.
Qed.

Lemma jsmn_parse_finish_exact (js : list Z) (p : jsmn_parser) (toks : list jsmntok_t)
    (cnt : Z) :
  fill_state js p toks ->
  jsmn_parse_finish p (Some toks) cnt = Some (ideal_jsmn_parse_finish p (Some toks) cnt).
Proof.
  intros (Hlen & Hpos & Hnext & (Hroom & _) & _).
  unfold jsmn_parse_finish, ideal_jsmn_parse_finish, jsmn_unmatched.
  rewrite (int_wrap_exact (Z.of_nat (toknext p) - 1)) by (unfold INT_MIN; lia).
  destruct (Z.leb_spec (Z.of_nat (length toks)) (Z.of_nat (toknext p) - 1)); [lia |].
  replace (Z.to_nat (Z.of_nat (toknext p) - 1 + 1)) with (toknext p) by lia.
  destruct (existsb _ _); reflexivity.
Qed.

(** The state at the head of the next round. *)
Lemma fill_state_next (c : Z) (p q : jsmn_parser) (js : list Z)
    (toks : list jsmntok_t) (t' : option (list jsmntok_t)) (cnt' : Z) :
  fill_state js p toks -> js !! pos p = Some c -> c <> 0 ->
  ideal_jsmn_parse_char c p js (Some toks) (Z.of_nat (length toks)) (Z.of_nat (toknext p))
  = Some (StepNext q t' cnt') ->
  exists toks',
    t' = Some toks' /\ length toks' = length toks
    /\ cnt' = Z.of_nat (toknext q)
    /\ fill_state js (set_pos (S (pos q)) q) toks'.
Proof.
  intros (Hlen & Hpos & Hnext & Hwf & Hfilled) Hc Hnz Hstep.
  destruct (ideal_jsmn_parse_char_tokens c p js toks _ q t' cnt' Hwf Hc Hnz Hstep)
    as (toks' & -> & Htok & Hq).
  destruct (token_step_filled p q toks toks' Htok Hwf ltac:(lia) Hfilled)
    as (Hfilled' & Hlen' & _).
  exists toks'. split; [reflexivity |]. split; [exact Hlen' |].
  destruct (jsmn_lex_defined c js (pos p) Hc Hnz) as (s & Hs & Hprop).
  pose proof (ideal_jsmn_parse_char_fill c p js toks (Z.of_nat (length toks))
                (Z.of_nat (toknext p)) Hwf eq_refl) as Hfill.
  rewrite Hs in Hfill.
  assert (Hstate : cnt' = Z.of_nat (toknext q) /\ tokens_wf q toks'
                   /\ (toknext q <= S (toknext p))%nat).
  { destruct s as [pos' d | e].
    - destruct Hfill as [(q2 & toks2 & Hstep2 & _ & Hn & Hwf' & _)
                        | [(q2 & Hstep2 & _) | (_ & _ & q2 & Hstep2 & _)]];
        rewrite Hstep in Hstep2; [| discriminate ..].
      injection Hstep2 as <- <- ->. split; [lia |]. split; [exact Hwf' |].
      destruct Hprop as [_ [-> | ->]]; lia.
    - destruct Hfill as (q2 & Hstep2 & _). rewrite Hstep in Hstep2. discriminate. }
  destruct Hstate as (Hcnt & Hwf' & Hn). split; [exact Hcnt |].
  unfold fill_state. cbn [pos toknext set_pos].
  split; [exact Hlen |]. split; [lia |]. split; [lia |].
  split; [apply tokens_wf_set_pos, Hwf' | exact Hfilled'].
Qed.

(** The filling pass is the filling pass of the idealised tokeniser. *)
Lemma jsmn_parse_loop_exact_fill (js : list Z) (fuel : nat) :
  forall p toks,
    fill_state js p toks ->
    jsmn_parse_loop fuel js (Z.of_nat (length toks)) p (Some toks) (Z.of_nat (toknext p))
    = ideal_jsmn_parse_loop fuel js (Z.of_nat (length toks)) p (Some toks)
        (Z.of_nat (toknext p)).
Proof.
  induction fuel as [| fuel IH]; intros p toks Hstate;
    cbn [jsmn_parse_loop ideal_jsmn_parse_loop].
  - destruct (js !! pos p) as [c |]; [| apply (jsmn_parse_finish_exact js), Hstate].
    destruct (c =? 0); [apply (jsmn_parse_finish_exact js), Hstate | reflexivity].
  - destruct (js !! pos p) as [c |] eqn:Hc;
      [| apply (jsmn_parse_finish_exact js), Hstate].
    destruct (Z.eqb_spec c 0) as [| Hnz]; [apply (jsmn_parse_finish_exact js), Hstate |].
    rewrite (jsmn_parse_char_exact_fill c p js toks _ Hstate Hc Hnz eq_refl).
    destruct (ideal_jsmn_parse_char c p js (Some toks) (Z.of_nat (length toks))
                (Z.of_nat (toknext p))) as [[q t' cnt' | r q t'] |] eqn:Hstep;
      [| reflexivity ..].
    destruct (fill_state_next c p q js toks t' cnt' Hstate Hc Hnz Hstep)
      as (toks' & -> & Hlen' & -> & Hstate').
    rewrite <- Hlen'. apply (IH (set_pos (S (pos q)) q) toks' Hstate').
Qed.

Lemma fill_state_init (js : list Z) (toks : list jsmntok_t) (parser : jsmn_parser) :
  Z.of_nat (length js) <= INT_MAX -> fill_state js (jsmn_init parser) toks.
Proof.
  intros Hlen. unfold fill_state. cbn [jsmn_init pos toknext].
  split; [exact Hlen |]. split; [lia |]. split; [lia |].
  split; [apply tokens_wf_init |].
  split; cbn; intros; lia.
Qed.

Lemma UINT_MODULUS_above (js : list Z) :
  Z.of_nat (length js) <= INT_MAX -> (UINT_MODULUS <=? Z.of_nat (length js)) = false.
Proof.
  unfold INT_MAX, UINT_MODULUS. change (2 ^ 32) with 4294967296. intros H.
  destruct (Z.leb_spec 4294967296 (Z.of_nat (length js))); [lia | reflexivity].
Qed.

(** On an input of at most [INT_MAX] bytes the filling pass over an array
    of [num_tokens] tokens is the one of the idealised tokeniser. *)
Lemma jsmn_parse_exact_fill (js : list Z) (toks : list jsmntok_t) (parser : jsmn_parser) :
  Z.of_nat (length js) <= INT_MAX ->
  jsmn_parse (jsmn_init parser) js (Some toks) (Z.of_nat (length toks))
  = ideal_jsmn_parse (jsmn_init parser) js (Some toks) (Z.of_nat (length toks)).
Proof.
  intros Hlen. unfold jsmn_parse, ideal_jsmn_parse.
  rewrite (UINT_MODULUS_above js Hlen).
  cbn [jsmn_init toknext]. change (int_wrap (Z.of_nat 0)) with (Z.of_nat 0).
  apply (jsmn_parse_loop_exact_fill js (length js) (jsmn_init parser) toks).
  apply fill_state_init, Hlen.
Qed.

(** *** The rounds of the counting pass *)

Lemma ideal_jsmn_parse_char_null_toknext (c : Z) (p q : jsmn_parser) (js : list Z)
    (n cnt cnt' : Z) (t : option (list jsmntok_t)) :
  ideal_jsmn_parse_char c p js None n cnt = Some (StepNext q t cnt') ->
  toknext q = toknext p /\ t = None.
Proof.
  unfold ideal_jsmn_parse_char.
  destruct ((c =? CH_LBRACE) || (c =? CH_LBRACKET)); [intros [= <- <- _]; auto |].
  destruct ((c =? CH_RBRACE) || (c =? CH_RBRACKET)); [intros [= <- <- _]; auto |].
  destruct (c =? CH_QUOTE).
  { unfold ideal_jsmn_parse_string.
    destruct (jsmn_string_scan (length js) js (S (pos p))) as [[e | r] |];
      [| | discriminate].
    - cbn. intros [= <- <- _]. auto.
    - destruct (r <? 0); [discriminate |]. cbn. intros [= <- <- _]. auto. }
  destruct ((c =? CH_TAB) || (c =? CH_CR) || (c =? CH_LF) || (c =? CH_SPACE));
    [intros [= <- <- _]; auto |].
  destruct (c =? CH_COLON); [intros [= <- <- _]; auto |].
  destruct (c =? CH_COMMA); [intros [= <- <- _]; auto |].
  unfold ideal_jsmn_parse_primitive.
  destruct (jsmn_primitive_scan (drop (pos p) js) (pos p)); cbn;
    [intros [= <- <- _]; auto | discriminate].
Qed.

Lemma jsmn_parse_char_exact_count (c : Z) (p : jsmn_parser) (js : list Z) (n cnt : Z) :
  Z.of_nat (length js) <= INT_MAX -> js !! pos p = Some c -> c <> 0 ->
  0 <= cnt <= Z.of_nat (pos p) -> (toknext p <= length js)%nat ->
  jsmn_parse_char c p js None n cnt = ideal_jsmn_parse_char c p js None n cnt.
Proof.
  intros Hlen Hc Hnz Hcnt Hnext. pose proof (lookup_lt_Some _ _ _ Hc) as Hin.
  assert (Hcount : count_incr cnt = Some (cnt + 1)).
  { unfold count_incr. destruct (Z.leb_spec INT_MAX cnt); [lia | reflexivity]. }
  unfold jsmn_parse_char, ideal_jsmn_parse_char.
  destruct ((c =? CH_LBRACE) || (c =? CH_LBRACKET)); [rewrite Hcount; reflexivity |].
  destruct ((c =? CH_RBRACE) || (c =? CH_RBRACKET)) eqn:Hclose; [reflexivity |].
  destruct (c =? CH_QUOTE).
  { unfold jsmn_parse_string, ideal_jsmn_parse_string.
    rewrite (int_wrap_exact (Z.of_nat (pos p))) by (unfold INT_MIN; lia).
    rewrite uint_nat_exact by lia.
    destruct (jsmn_string_scan (length js) js (S (pos p))) as [[e | r] |] eqn:Hs;
      cbn [mbind option_bind]; [| | reflexivity].
    - cbn [Z.ltb Z.compare]. rewrite Hcount. reflexivity.
    - apply jsmn_string_scan_error in Hs as [-> | ->]; reflexivity. }
  destruct ((c =? CH_TAB) || (c =? CH_CR) || (c =? CH_LF) || (c =? CH_SPACE)) eqn:Hws;
    [reflexivity |].
  destruct (c =? CH_COLON) eqn:Hcolon.
  { rewrite (int_wrap_exact (Z.of_nat (toknext p) - 1)) by (unfold INT_MIN; lia).
    reflexivity. }
  destruct (c =? CH_COMMA) eqn:Hcomma; [reflexivity |].
  pose proof (primitive_delimiter_default c Hclose Hws Hcolon Hcomma) as Hd.
  unfold jsmn_parse_primitive, ideal_jsmn_parse_primitive.
  rewrite (int_wrap_exact (Z.of_nat (pos p))) by (unfold INT_MIN; lia).
  rewrite uint_nat_exact by lia.
  destruct (jsmn_primitive_scan (drop (pos p) js) (pos p)) as [e |] eqn:Hs;
    [| reflexivity].
  pose proof (jsmn_primitive_scan_lt js (pos p) e c Hc Hnz Hd Hs) as Hgt.
  pose proof (jsmn_primitive_scan_bound _ _ _ Hs) as Hle. rewrite length_drop in Hle.
  rewrite uint_nat_pred by lia.
  cbn [Z.ltb Z.compare mbind option_bind]. rewrite Hcount. reflexivity.
Qed.

(** The counting pass is the counting pass of the idealised tokeniser. *)
Lemma jsmn_parse_loop_exact_count (js : list Z) (n : Z) (fuel : nat) :
  forall p cnt,
    Z.of_nat (length js) <= INT_MAX -> 0 <= cnt <= Z.of_nat (pos p) ->
    (toknext p <= length js)%nat ->
    jsmn_parse_loop fuel js n p None cnt = ideal_jsmn_parse_loop fuel js n p None cnt.
Proof.
  induction fuel as [| fuel IH]; intros p cnt Hlen Hcnt Hnext;
    cbn [jsmn_parse_loop ideal_jsmn_parse_loop].
  - destruct (js !! pos p) as [c |]; [| reflexivity].
    destruct (c =? 0); reflexivity.
  - destruct (js !! pos p) as [c |] eqn:Hc; [| reflexivity].
    destruct (Z.eqb_spec c 0) as [| Hnz]; [reflexivity |].
    rewrite (jsmn_parse_char_exact_count c p js n cnt Hlen Hc Hnz Hcnt Hnext).
    destruct (jsmn_lex_defined c js (pos p) Hc Hnz) as (s & Hs & Hprop).
    pose proof (ideal_jsmn_parse_char_null c p js n cnt) as Hnull. rewrite Hs in Hnull.
    destruct s as [pos' d | e].
    + destruct Hnull as (q & Hstep & Hq). rewrite Hstep.
      destruct (ideal_jsmn_parse_char_null_toknext _ _ _ _ _ _ _ _ Hstep) as [Hn _].
      apply IH; [exact Hlen | cbn; destruct Hprop as [? [-> | ->]]; lia | cbn; lia].
    + destruct Hnull as (q & t & ->). reflexivity.
Qed.

Lemma jsmn_parse_exact_count (js : list Z) (n : Z) (parser : jsmn_parser) :
  Z.of_nat (length js) <= INT_MAX -> toknext parser = 0%nat ->
  jsmn_parse parser js None n = ideal_jsmn_parse parser js None n.
Proof.
  intros Hlen Hnext. unfold jsmn_parse, ideal_jsmn_parse.
  rewrite (UINT_MODULUS_above js Hlen), Hnext.
  change (int_wrap (Z.of_nat 0)) with (Z.of_nat 0).
  apply jsmn_parse_loop_exact_count; [exact Hlen | cbn; lia | lia].
Qed.

(** *** The two passes *)

(** The counting pass returns. *)
Lemma jsmn_parse_count_defined (js : list Z) :
  Z.of_nat (length js) <= INT_MAX ->
  exists res, jsmn_parse (mk_jsmn_parser 0 0 0) js None 0 = Some res.
Proof.
  intros Hlen. rewrite (jsmn_parse_exact_count js 0 (mk_jsmn_parser 0 0 0) Hlen eq_refl).
  exact (proj1 (ideal_jsmn_parse_two_pass js)).
Qed.

(** On a JSON text both passes return the number of tokens of the text. *)
Lemma jsmn_parse_json_text (js : list Z) (m : nat) (toks : list jsmntok_t) :
  Z.of_nat (length js) <= INT_MAX -> json_text js m -> length toks = m ->
  exists q1 q2 toks2,
    jsmn_parse (mk_jsmn_parser 0 0 0) js None 0 = Some (Z.of_nat m, q1, None)
    /\ jsmn_parse (jsmn_init (mk_jsmn_parser 0 0 0)) js (Some toks) (Z.of_nat m)
       = Some (Z.of_nat m, q2, Some toks2).
Proof.
  intros Hlen Hjs Hm. subst m.
  rewrite (jsmn_parse_exact_count js 0 (mk_jsmn_parser 0 0 0) Hlen eq_refl).
  rewrite (jsmn_parse_exact_fill js toks _ Hlen).
  exact (ideal_jsmn_parse_json_text js _ toks Hjs eq_refl).
Qed.

(** C9 (amended): on an input of at most [INT_MAX] bytes, the counting
    pass ([tokens == NULL]) returns.  When it returns a count [N >= 0], the
    filling pass over an array of exactly [N] tokens returns too, stays
    within the array, never returns [JSMN_ERROR_NOMEM], and returns the same
    count [N] unless it finds a bracket error ([JSMN_ERROR_INVAL] or
    [JSMN_ERROR_PART]), which only the filling pass checks.  On every JSON
    text of at most [INT_MAX] bytes both passes return the same count, the
    number of tokens of the text. *)
Theorem jsmn_parse_two_pass (js : list Z) :
  Z.of_nat (length js) <= INT_MAX ->
  (exists res, jsmn_parse (mk_jsmn_parser 0 0 0) js None 0 = Some res)
  /\ (forall N q1 t1 toks,
        jsmn_parse (mk_jsmn_parser 0 0 0) js None 0 = Some (N, q1, t1) ->
        0 <= N -> Z.of_nat (length toks) = N ->
        exists r q2 toks2,
          jsmn_parse (jsmn_init (mk_jsmn_parser 0 0 0)) js (Some toks) N
          = Some (r, q2, Some toks2)
          /\ r <> JSMN_ERROR_NOMEM
          /\ (0 <= r -> r = N)
          /\ (r = N \/ r = JSMN_ERROR_INVAL \/ r = JSMN_ERROR_PART)
          /\ length toks2 = length toks
          /\ (toknext q2 <= length toks2)%nat)
  /\ (forall m toks,
        json_text js m -> length toks = m ->
        exists q1 q2 toks2,
          jsmn_parse (mk_jsmn_parser 0 0 0) js None 0 = Some (Z.of_nat m, q1, None)
          /\ jsmn_parse (jsmn_init (mk_jsmn_parser 0 0 0)) js (Some toks) (Z.of_nat m)
             = Some (Z.of_nat m, q2, Some toks2)).
Proof.
  intros Hlen. rewrite (jsmn_parse_exact_count js 0 (mk_jsmn_parser 0 0 0) Hlen eq_refl).
  destruct (ideal_jsmn_parse_two_pass js) as (Hcount & Hfill & Htext).
  split; [exact Hcount |]. split.
  - intros N q1 t1 toks Hrun HN HN'. subst N.
    rewrite (jsmn_parse_exact_fill js toks _ Hlen). exact (Hfill _ q1 t1 toks Hrun HN eq_refl).
  - intros m toks Hjs Hm. subst m.
    rewrite (jsmn_parse_exact_fill js toks _ Hlen). exact (Htext _ toks Hjs eq_refl).
Qed.

Lemma jsmn_parse_two_pass_witness :
  Z.of_nat (length asset_doc) <= INT_MAX
  /\ exists q1 q2 toks2,
       jsmn_parse (mk_jsmn_parser 0 0 0) asset_doc None 0 = Some (5, q1, None)
       /\ jsmn_parse (jsmn_init (mk_jsmn_parser 0 0 0)) asset_doc
            (Some (replicate 5 (mk_jsmntok JSMN_UNDEFINED 0 0 0 0))) 5
          = Some (5, q2, Some toks2).
Proof.
  split; [vm_compute; discriminate |].
  exact (proj2 (proj2 (jsmn_parse_two_pass asset_doc ltac:(vm_compute; discriminate))) 5%nat
           (replicate 5 (mk_jsmntok JSMN_UNDEFINED 0 0 0 0)) json_text_asset eq_refl).
Defined.

(** Brackets are checked by the filling pass only: on the input [{] the
    counting pass returns 1 and the filling pass [JSMN_ERROR_PART]. *)
Example jsmn_parse_unclosed_object :
  fst <$> (fst <$> jsmn_parse (mk_jsmn_parser 0 0 0) (json_bytes "{"%string) None 0)
  = Some 1
  /\ fst <$> (fst <$> jsmn_parse (jsmn_init (mk_jsmn_parser 0 0 0))
                        (json_bytes "{"%string)
                        (Some [mk_jsmntok JSMN_UNDEFINED 0 0 0 0]) 1)
     = Some JSMN_ERROR_PART.
Proof. vm_compute. split; reflexivity. Qed.

(** *** A text of 2^32 - 1 bytes *)

(** Rounds over white space leave the state as it is. *)
Lemma jsmn_parse_loop_spaces (js : list Z) (N : Z) (tokens : option (list jsmntok_t))
    (cnt : Z) (n : nat) :
  forall fuel p,
    (forall i, (i < n)%nat -> js !! (pos p + i)%nat = Some CH_SPACE) ->
    jsmn_parse_loop (n + fuel) js N p tokens cnt
    = jsmn_parse_loop fuel js N (set_pos (pos p + n) p) tokens cnt.
Proof.
  induction n as [| n IH]; intros fuel p Hspaces.
  - destruct p as [ps tn ts]. unfold set_pos. cbn [pos toknext toksuper].
    rewrite Nat.add_0_r. reflexivity.
  - change (S n + fuel)%nat with (S (n + fuel)). cbn [jsmn_parse_loop].
    pose proof (Hspaces 0%nat ltac:(lia)) as H0. rewrite Nat.add_0_r in H0. rewrite H0.
    change (CH_SPACE =? 0) with false. cbv iota.
    change (jsmn_parse_char CH_SPACE p js tokens N cnt)
      with (Some (StepNext p tokens cnt)).
    cbv iota beta. rewrite IH.
    + destruct p as [ps tn ts]. unfold set_pos. cbn [pos toknext toksuper].
      replace (S ps + n)%nat with (ps + S n)%nat by lia. reflexivity.
    + intros i Hi. cbn [pos set_pos]. replace (S (pos p) + i)%nat with (pos p + S i)%nat by lia.
      apply Hspaces. lia.
Qed.

Lemma length_spaced_array (n : nat) : length (spaced_array n) = S (S n).
Proof.
  unfold spaced_array. cbn [length]. rewrite length_app, length_replicate. cbn. lia.
Qed.

Lemma spaced_array_space (n i : nat) :
  (i < n)%nat -> spaced_array n !! (1 + i)%nat = Some CH_SPACE.
Proof.
  intros Hi.
  change (spaced_array n !! (1 + i)%nat)
    with ((replicate n CH_SPACE ++ [CH_RBRACKET]) !! i).
  rewrite lookup_app_l by (rewrite length_replicate; exact Hi).
  apply lookup_replicate_2, Hi.
Qed.

Lemma spaced_array_close (n : nat) : spaced_array n !! S n = Some CH_RBRACKET.
Proof.
  change (spaced_array n !! S n) with ((replicate n CH_SPACE ++ [CH_RBRACKET]) !! n).
  rewrite lookup_app_r by (rewrite length_replicate; lia).
  rewrite length_replicate, Nat.sub_diag. reflexivity.
Qed.

Lemma spaced_array_end (n : nat) : spaced_array n !! S (S n) = None.
Proof. apply lookup_ge_None_2. rewrite length_spaced_array. lia. Qed.

Lemma json_text_spaced_array (n : nat) : json_text (spaced_array n) 1.
Proof.
  apply json_element_tight, value_empty_array, Forall_replicate. left. reflexivity.
Qed.

Lemma jsmn_parse_loop_round (fuel : nat) (js : list Z) (N : Z) (p q : jsmn_parser)
    (tokens t : option (list jsmntok_t)) (cnt cnt' c : Z) :
  js !! pos p = Some c -> (c =? 0) = false ->
  jsmn_parse_char c p js tokens N cnt = Some (StepNext q t cnt') ->
  jsmn_parse_loop (S fuel) js N p tokens cnt
  = jsmn_parse_loop fuel js N (set_pos (S (pos q)) q) t cnt'.
Proof. intros Hc Hnz Hstep. cbn [jsmn_parse_loop]. rewrite Hc, Hnz, Hstep. reflexivity. Qed.

Lemma jsmn_parse_loop_end (fuel : nat) (js : list Z) (N : Z) (p : jsmn_parser)
    (tokens : option (list jsmntok_t)) (cnt : Z) :
  js !! pos p = None ->
  jsmn_parse_loop fuel js N p tokens cnt = jsmn_parse_finish p tokens cnt.
Proof. intros Hc. destruct fuel; cbn [jsmn_parse_loop]; rewrite Hc; reflexivity. Qed.

(** The two passes over the text of 2^32 - 1 bytes: the counting pass
    returns 1; the filling pass stores the end of the array, 2^32 - 1, in an
    [int], where it is the -1 of an open token, and returns
    [JSMN_ERROR_PART]. *)
Lemma jsmn_parse_spaced_array (n : nat) (token : jsmntok_t) :
  Z.of_nat n = UINT_MODULUS - 3 ->
  jsmn_parse (mk_jsmn_parser 0 0 0) (spaced_array n) None 0
  = Some (1, mk_jsmn_parser (S (S n)) 0 0, None)
  /\ jsmn_parse (jsmn_init (mk_jsmn_parser 0 0 0)) (spaced_array n) (Some [token]) 1
     = Some (JSMN_ERROR_PART, mk_jsmn_parser (S (S n)) 1 (-1),
             Some [mk_jsmntok JSMN_ARRAY 0 (-1) 0 (-1)]).
Proof.
  intros Hn. unfold jsmn_parse. rewrite length_spaced_array.
  assert (Hguard : (UINT_MODULUS <=? Z.of_nat (S (S n))) = false).
  { destruct (Z.leb_spec UINT_MODULUS (Z.of_nat (S (S n)))); [lia | reflexivity]. }
  rewrite Hguard. cbn [toknext jsmn_init].
  change (int_wrap (Z.of_nat 0)) with 0.
  assert (Hend : int_wrap (Z.of_nat (S n) + 1) = -1).
  { replace (Z.of_nat (S n) + 1) with (UINT_MODULUS - 1) by lia. reflexivity. }
  replace (S (S n)) with (S (n + 1)) at 1 3 by lia.
  split.
  - rewrite (jsmn_parse_loop_round _ _ _ _ (mk_jsmn_parser 0 0 0) _ None _ 1 CH_LBRACKET)
      by reflexivity.
    rewrite jsmn_parse_loop_spaces
      by (intros i Hi; cbn [pos set_pos]; apply spaced_array_space, Hi).
    cbn [set_pos pos toknext toksuper Nat.add].
    rewrite (jsmn_parse_loop_round _ _ _ _ (mk_jsmn_parser (S n) 0 0) _ None _ 1
               CH_RBRACKET);
      [| apply spaced_array_close | reflexivity | reflexivity].
    cbn [set_pos pos toknext toksuper].
    rewrite jsmn_parse_loop_end by apply spaced_array_end. reflexivity.
  - rewrite (jsmn_parse_loop_round _ _ _ _ (mk_jsmn_parser 0 1 0) _
               (Some [mk_jsmntok JSMN_ARRAY 0 (-1) 0 (-1)]) _ 1 CH_LBRACKET)
      by reflexivity.
    rewrite jsmn_parse_loop_spaces
      by (intros i Hi; cbn [pos set_pos]; apply spaced_array_space, Hi).
    cbn [set_pos pos toknext toksuper Nat.add].
    rewrite (jsmn_parse_loop_round _ _ _ _ (mk_jsmn_parser (S n) 1 (-1)) _
               (Some [mk_jsmntok JSMN_ARRAY 0 (-1) 0 (-1)]) _ 1 CH_RBRACKET);
      [| apply spaced_array_close | reflexivity
       | ].
    2:{ unfold jsmn_parse_char. cbn [set_pos pos toknext toksuper Nat.add].
        rewrite Hend. reflexivity. }
    cbn [set_pos pos toknext toksuper].
    rewrite jsmn_parse_loop_end by apply spaced_array_end. reflexivity.
Qed.

(** C9, as stated, fails on a JSON text of 2^32 - 1 bytes: the counting
    pass returns 1, and the filling pass over an array of exactly one token
    returns [JSMN_ERROR_PART].  The closing bracket stands at offset
    2^32 - 2, so that the end of the array token is 2^32 - 1, which is -1 in
    the [int] field [end]: the token counts as open. *)
Lemma jsmn_parse_long_text :
  Z.of_nat (length long_text) = UINT_MODULUS - 1
  /\ json_text long_text 1
  /\ (exists q, jsmn_parse (mk_jsmn_parser 0 0 0) long_text None 0 = Some (1, q, None))
  /\ (exists q toks,
        jsmn_parse (jsmn_init (mk_jsmn_parser 0 0 0)) long_text
          (Some [mk_jsmntok JSMN_UNDEFINED 0 0 0 0]) 1
        = Some (JSMN_ERROR_PART, q, Some toks))
  /\ JSMN_ERROR_PART <> 1.
Proof.
  unfold long_text.
  assert (Hn : Z.of_nat (Z.to_nat (UINT_MODULUS - 3)) = UINT_MODULUS - 3).
  { apply Z2Nat.id. vm_compute. discriminate. }
  revert Hn. generalize (Z.to_nat (UINT_MODULUS - 3)). intros n Hn.
  destruct (jsmn_parse_spaced_array n (mk_jsmntok JSMN_UNDEFINED 0 0 0 0) Hn)
    as [Hcount Hfill].
  split; [rewrite length_spaced_array; lia |].
  split; [apply json_text_spaced_array |].
  split; [eexists; exact Hcount |].
  split; [eexists _, _; exact Hfill | discriminate].
Qed.

(** *** The filled token array *)

(** X12: the token array after a filling pass that returns a count [r], on
    any input of at most [INT_MAX] bytes.  The count is the number of
    tokens allocated; the array keeps its length and its tokens from [r]
    on.  Each of the first [r] tokens has a type, a range [start <= end]
    inside the input, a parent link that is [-1] or points to an earlier
    token, and a [size] that is the number of tokens whose parent link
    points to it; the tokens are in the order of their starts. *)
Theorem jsmn_parse_tokens (js : list Z) (toks : list jsmntok_t) (r : Z) (q : jsmn_parser)
    (toks' : list jsmntok_t) :
  Z.of_nat (length js) <= INT_MAX ->
  jsmn_parse (jsmn_init (mk_jsmn_parser 0 0 0)) js (Some toks) (Z.of_nat (length toks))
  = Some (r, q, Some toks') ->
  0 <= r ->
  r = Z.of_nat (toknext q)
  /\ r <= Z.of_nat (length toks)
  /\ length toks' = length toks
  /\ (forall i, (toknext q <= i)%nat -> toks' !! i = toks !! i)
  /\ (forall i, (i < toknext q)%nat ->
        exists t,
          toks' !! i = Some t
          /\ tok_type t <> JSMN_UNDEFINED
          /\ 0 <= tok_start t <= tok_end t /\ tok_end t <= Z.of_nat (length js)
          /\ -1 <= tok_parent t < Z.of_nat i
          /\ tok_size t = Z.of_nat (child_tokens toks' (toknext q) i))
  /\ (forall i j ti tj, (i < j < toknext q)%nat ->
        toks' !! i = Some ti -> toks' !! j = Some tj -> tok_start ti < tok_start tj).
Proof.
  intros Hlen Hrun. rewrite (jsmn_parse_exact_fill js toks _ Hlen) in Hrun.
  exact (ideal_jsmn_parse_tokens js toks r q toks' Hrun).
Qed.

(** *** The filling pass of [cgltf_parse_json] *)

(** The count that [jsmn_parse] returns is an [int]. *)
Lemma jsmn_parse_loop_int (js : list Z) (N : Z) (fuel : nat) :
  forall p tokens cnt r q t,
    jsmn_parse_loop fuel js N p tokens cnt = Some (r, q, t) ->
    cnt <= INT_MAX -> r <= INT_MAX.
Proof.
  assert (Hfinish : forall p tokens cnt r q t,
            jsmn_parse_finish p tokens cnt = Some (r, q, t) -> cnt <= INT_MAX ->
            r <= INT_MAX).
  { intros p tokens cnt r q t. unfold jsmn_parse_finish.
    destruct tokens as [toks |]; [| intros [= <- _ _]; auto].
    destruct (_ <=? _); [discriminate |].
    destruct (existsb _ _); intros [= <- _ _]; auto. intros _. discriminate. }
  assert (Hincr : forall cnt cnt', count_incr cnt = Some cnt' -> cnt' <= INT_MAX).
  { intros cnt cnt'. unfold count_incr.
    destruct (Z.leb_spec INT_MAX cnt); [discriminate |]. intros [= <-]. lia. }
  assert (Hstep : forall c p tokens cnt,
            cnt <= INT_MAX ->
            match jsmn_parse_char c p js tokens N cnt with
            | Some (StepNext _ _ cnt') => cnt' <= INT_MAX
            | Some (StepReturn r _ _) => r < 0
            | None => True
            end).
  { intros c p tokens cnt Hcnt. unfold jsmn_parse_char.
    repeat match goal with
           | |- match (if ?b then _ else _) with _ => _ end => destruct b
           end.
    - destruct (count_incr cnt) as [cnt' |] eqn:E; [| exact I]. apply Hincr in E.
      cbn [mbind option_bind]. destruct tokens as [toks |]; [| exact E].
      destruct (jsmn_alloc_token p toks N) as [[[[i p1] toks1] |] |];
        cbn [mbind option_bind]; [| reflexivity | exact I].
      destruct (if toksuper p1 =? -1 then _ else _); cbn [mbind option_bind];
        [exact E | exact I].
    - destruct tokens as [toks |]; [| exact Hcnt].
      destruct (_ <? _)%nat; [reflexivity |].
      destruct (jsmn_close_walk _ _ _ _ _) as [[idx | |] |];
        [| exact Hcnt | reflexivity | exact I].
      destruct (tok_at toks idx); [exact Hcnt | exact I].
    - destruct (jsmn_parse_string p js tokens N) as [[[r p1] t1] |];
        cbn [mbind option_bind]; [| exact I].
      destruct (Z.ltb_spec r 0); [assumption |].
      destruct (count_incr cnt) as [cnt' |] eqn:E; [| exact I]. apply Hincr in E.
      cbn [mbind option_bind]. destruct (bump_super_size p1 t1); [exact E | exact I].
    - exact Hcnt.
    - exact Hcnt.
    - destruct tokens as [toks |]; [| exact Hcnt].
      destruct (_ =? _); [exact Hcnt |].
      destruct (tok_at toks (toksuper p)); [| exact I].
      destruct (_ && _); exact Hcnt.
    - destruct (jsmn_parse_primitive p js tokens N) as [[[r p1] t1] |];
        cbn [mbind option_bind]; [| exact I].
      destruct (Z.ltb_spec r 0); [assumption |].
      destruct (count_incr cnt) as [cnt' |] eqn:E; [| exact I]. apply Hincr in E.
      cbn [mbind option_bind]. destruct (bump_super_size p1 t1); [exact E | exact I]. }
  induction fuel as [| fuel IH]; intros p tokens cnt r q t; cbn [jsmn_parse_loop].
  - destruct (js !! pos p) as [c |]; [| apply Hfinish].
    destruct (c =? 0); [apply Hfinish | discriminate].
  - destruct (js !! pos p) as [c |]; [| apply Hfinish].
    destruct (c =? 0); [apply Hfinish |]. intros Hrun Hcnt.
    pose proof (Hstep c p tokens cnt Hcnt) as Hs.
    destruct (jsmn_parse_char c p js tokens N cnt) as [[q1 t1 cnt1 | r1 q1 t1] |];
      [| | discriminate].
    + exact (IH _ _ _ _ _ _ Hrun Hs).
    + injection Hrun as <- _ _. unfold INT_MAX. lia.
Qed.

Lemma jsmn_parse_int (p : jsmn_parser) (js : list Z) (tokens : option (list jsmntok_t))
    (N r : Z) (q : jsmn_parser) (t : option (list jsmntok_t)) :
  jsmn_parse p js tokens N = Some (r, q, t) -> r <= INT_MAX.
Proof.
  unfold jsmn_parse. destruct (_ <=? _); [discriminate |].
  intros Hrun. apply (jsmn_parse_loop_int _ _ _ _ _ _ _ _ _ Hrun).
  unfold int_wrap, INT_MIN, INT_MAX, UINT_MODULUS. change (2 ^ 32) with 4294967296.
  pose proof (Z.mod_pos_bound (Z.of_nat (toknext p) - -2147483648) 4294967296 ltac:(lia)).
  lia.
Qed.

(** The block of [sizeof(jsmntok_t) * count] bytes holds [count] tokens
    when the product does not wrap around. *)
Lemma tokens_block (count : Z) :
  0 <= count -> SIZEOF_jsmntok_t * count < SIZE_MODULUS ->
  size_wrap (SIZEOF_jsmntok_t * count) / SIZEOF_jsmntok_t = count.
Proof.
  intros Hcount Hsize. unfold size_wrap, SIZEOF_jsmntok_t in *.
  rewrite Z.mod_small by lia. rewrite Z.mul_comm. apply Z.div_mul. lia.
Qed.

Lemma jsmn_parse_exact_tokens (js : list Z) (count : Z) (token : jsmntok_t)
    (parser : jsmn_parser) :
  Z.of_nat (length js) <= INT_MAX -> 0 <= count ->
  jsmn_parse (jsmn_init parser) js (Some (replicate (Z.to_nat count) token)) count
  = ideal_jsmn_parse (jsmn_init parser) js (Some (replicate (Z.to_nat count) token)) count.
Proof.
  intros Hlen Hcount.
  pose proof (jsmn_parse_exact_fill js (replicate (Z.to_nat count) token) parser Hlen) as H.
  rewrite length_replicate, Z2Nat.id in H by exact Hcount. exact H.
Qed.

(** ** The container demultiplexer *)

Section ParseProperties.

Variable decoder : cgltf_options -> list jsmntok_t -> list Z -> Z * cgltf_data encoded.
Variable malloc : Z -> bool.
Variable sizeof_data : Z.
Variable garbage : jsmntok_t.

Local Abbreviation parse := (cgltf_parse decoder malloc sizeof_data garbage).
Local Abbreviation parse_json := (cgltf_parse_json decoder malloc sizeof_data garbage).

(** C10: an input shorter than the twelve bytes of a GLB header is answered
    with data-too-short, whatever its content and whatever the options, null
    options included: the length check is the first statement of
    [cgltf_parse], before the check of [options]. *)
Theorem cgltf_parse_short_input (options : option cgltf_options) (data : list Z) :
  count_of data < GlbHeaderSize ->
  parse options data = Some (cgltf_result_data_too_short, None).
Proof.
  intros Hshort. unfold cgltf_parse.
  destruct (Z.ltb_spec (count_of data) GlbHeaderSize) as [_ | Hge]; [reflexivity | lia].
Qed.

(** With twelve bytes or more, null options are answered with
    invalid-options. *)
Lemma cgltf_parse_null_options (data : list Z) :
  GlbHeaderSize <= count_of data ->
  parse None data = Some (cgltf_result_invalid_options, None).
Proof.
  intros Hlong. unfold cgltf_parse.
  destruct (Z.ltb_spec (count_of data) GlbHeaderSize) as [Hlt | _]; [lia | reflexivity].
Qed.

(** The filling pass of [cgltf_parse_json] returns, whatever the count
    the array was allocated for. *)
Lemma jsmn_parse_fill_total (js : list Z) (count : Z) (token : jsmntok_t) :
  Z.of_nat (length js) <= INT_MAX -> 0 <= count ->
  exists res,
    jsmn_parse (jsmn_init (mk_jsmn_parser 0 0 0)) js
      (Some (replicate (Z.to_nat count) token)) count = Some res.
Proof.
  intros Hlen Hcount. rewrite (jsmn_parse_exact_tokens js count token _ Hlen Hcount).
  unfold ideal_jsmn_parse.
  destruct (ideal_jsmn_parse_loop_fill_defined js (length js)
              (jsmn_init (mk_jsmn_parser 0 0 0))
              (replicate (Z.to_nat count) token) 0 (tokens_wf_init _ _) ltac:(cbn; lia))
    as (res & Hres).
  rewrite length_replicate, Z2Nat.id in Hres by exact Hcount. eauto.
Qed.

(** [cgltf_parse_json] returns on an input of at most [INT_MAX] bytes
    when the size of the token array does not wrap around. *)
Lemma cgltf_parse_json_tokens_total (options : cgltf_options) (json : list Z) :
  Z.of_nat (length json) <= INT_MAX ->
  0 <= json_token_count options ->
  SIZEOF_jsmntok_t * json_token_count options < SIZE_MODULUS ->
  exists res,
    cgltf_parse_json_tokens decoder malloc sizeof_data garbage options json = Some res.
Proof.
  intros Hlen Hcount Hsize. unfold cgltf_parse_json_tokens.
  destruct (negb _); [eauto |]. rewrite (tokens_block _ Hcount Hsize).
  destruct (jsmn_parse_fill_total json (json_token_count options) garbage Hlen Hcount)
    as ([[tc q] toks] & ->). cbn.
  destruct (tc <=? 0); [eauto |]. destruct (negb _); [eauto |].
  destruct (decoder _ _ _). eauto.
Qed.

Lemma cgltf_parse_json_total (options : cgltf_options) (json : list Z) :
  Z.of_nat (length json) <= INT_MAX ->
  0 <= json_token_count options ->
  SIZEOF_jsmntok_t * json_token_count options < SIZE_MODULUS ->
  exists res, parse_json options json = Some res.
Proof.
  intros Hlen Hcount Hsize. unfold cgltf_parse_json.
  destruct (Z.eqb_spec (json_token_count options) 0) as [Hauto | Hgiven];
    [| apply cgltf_parse_json_tokens_total; assumption].
  destruct (jsmn_parse_count_defined json Hlen) as ([[tc q] toks] & Hpass).
  rewrite Hpass. cbn. destruct (Z.leb_spec tc 0); [eauto |].
  pose proof (jsmn_parse_int _ _ _ _ _ _ _ Hpass) as Hint.
  apply cgltf_parse_json_tokens_total; [exact Hlen | cbn; lia |].
  cbn. unfold SIZEOF_jsmntok_t, SIZE_MODULUS, SIZE_BITS, INT_MAX in *.
  change (2 ^ 64) with 18446744073709551616. lia.
Qed.

(** [cgltf_parse_json] never answers unknown-format. *)
Lemma cgltf_parse_json_tokens_not_unknown options json r out :
  cgltf_parse_json_tokens decoder malloc sizeof_data garbage options json = Some (r, out) ->
  r <> cgltf_result_unknown_format.
Proof.
  unfold cgltf_parse_json_tokens. intros H.
  destruct (options_alloc _ _ _); simpl in H; [| congruence].
  destruct (jsmn_parse _ json (Some _) _) as [[[tc2 ?] ?]|]; simpl in H; [| discriminate].
  destruct (tc2 <=? 0); [congruence |].
  destruct (options_alloc _ _ _); simpl in H; [| congruence].
  destruct (decoder _ _ _) as [i d]. unfold cgltf_parse_json_link in H.
  destruct (i <? 0); [destruct (i =? CGLTF_ERROR_NOMEM); congruence |].
  destruct (cgltf_fixup_pointers d); congruence.
Qed.

Lemma cgltf_parse_json_not_unknown options json r out :
  parse_json options json = Some (r, out) -> r <> cgltf_result_unknown_format.
Proof.
  unfold cgltf_parse_json. intros H.
  destruct (json_token_count options =? 0);
    [| exact (cgltf_parse_json_tokens_not_unknown _ _ _ _ H)].
  destruct (jsmn_parse _ json None 0) as [[[tc ?] ?]|]; simpl in H; [| discriminate].
  destruct (tc <=? 0); [congruence |].
  exact (cgltf_parse_json_tokens_not_unknown _ _ _ _ H).
Qed.

(** With the type pinned to glTF text the whole input goes to
    [cgltf_parse_json], whatever its first bytes are; so it does when the
    type is left to be detected and the input does not start with the GLB
    magic. *)
Lemma cgltf_parse_as_text (options : cgltf_options) (data : list Z) :
  GlbHeaderSize <= count_of data ->
  type options = cgltf_file_type_gltf
  \/ (type options = cgltf_file_type_invalid /\ load_u32 data 0 <> GlbMagic) ->
  parse (Some options) data =
    parse_json_as decoder malloc sizeof_data garbage cgltf_file_type_gltf None
      (mk_options cgltf_file_type_gltf (json_token_count options)
         (Some (options_alloc malloc options)))
      data.
Proof.
  intros Hlong Htype. unfold cgltf_parse.
  destruct (Z.ltb_spec (count_of data) GlbHeaderSize) as [Hlt | _]; [lia |].
  destruct options as [ty tc ma]. cbn [type json_token_count memory_alloc] in *.
  destruct Htype as [-> | [-> Hmagic]].
  - destruct (bool_decide (load_u32 data 0 <> GlbMagic)); reflexivity.
  - rewrite (bool_decide_eq_true_2 _ Hmagic). reflexivity.
Qed.

(** When the counting pass returns a count [N > 0], no allocation fails and
    the filling pass over [N] tokens returns a positive count,
    [cgltf_parse_json] runs the decoder on the tokens that the filling pass
    leaves, under the options with the count [N], and ends on what the
    decoder returns. *)
Lemma cgltf_parse_json_decoded (options : cgltf_options) (js : list Z) (N N' : Z)
    (q1 q2 : jsmn_parser) (t1 : option (list jsmntok_t)) (tokens : list jsmntok_t) :
  json_token_count options = 0 ->
  (forall size, options_alloc malloc options size = true) ->
  jsmn_parse (mk_jsmn_parser 0 0 0) js None 0 = Some (N, q1, t1) -> 0 < N ->
  jsmn_parse (jsmn_init (mk_jsmn_parser 0 0 0)) js (Some (replicate (Z.to_nat N) garbage)) N
  = Some (N', q2, Some tokens) ->
  0 < N' ->
  parse_json options js
  = Some (let '(i, data) :=
            decoder (mk_options (type options) N (memory_alloc options)) tokens js in
          cgltf_parse_json_link i data js).
Proof.
  intros Hauto Halloc Hcount HN Hfill HN'. unfold cgltf_parse_json.
  rewrite Hauto. cbn [Z.eqb]. rewrite Hcount. cbn [mbind option_bind].
  destruct (Z.leb_spec N 0); [lia |].
  unfold cgltf_parse_json_tokens. cbn [json_token_count].
  assert (Hsame : forall size,
            options_alloc malloc (mk_options (type options) N (memory_alloc options)) size
            = true)
    by (intros size; exact (Halloc size)).
  rewrite Hsame. cbn [negb]. rewrite tokens_block.
  - rewrite Hfill. cbn [mbind option_bind].
    destruct (Z.leb_spec N' 0); [lia |]. rewrite Hsame. cbn [negb].
    change (default [] (Some tokens)) with tokens.
    destruct (decoder _ _ _). reflexivity.
  - lia.
  - pose proof (jsmn_parse_int _ _ _ _ _ _ _ Hcount) as Hint.
    unfold SIZEOF_jsmntok_t, SIZE_MODULUS, SIZE_BITS, INT_MAX in *.
    change (2 ^ 64) with 18446744073709551616. lia.
Qed.

(** The same for [cgltf_parse] on an input of twelve bytes or more, parsed
    as glTF text: a decoder result whose root fails the fix-up ends in
    invalid-gltf. *)
Lemma cgltf_parse_decoded (options : cgltf_options) (js : list Z) (N N' : Z)
    (q1 q2 : jsmn_parser) (t1 : option (list jsmntok_t)) (tokens : list jsmntok_t)
    (i : Z) (data : cgltf_data encoded) :
  GlbHeaderSize <= count_of js ->
  json_token_count options = 0 ->
  type options = cgltf_file_type_gltf
  \/ (type options = cgltf_file_type_invalid /\ load_u32 js 0 <> GlbMagic) ->
  (forall size, options_alloc malloc options size = true) ->
  jsmn_parse (mk_jsmn_parser 0 0 0) js None 0 = Some (N, q1, t1) -> 0 < N ->
  jsmn_parse (jsmn_init (mk_jsmn_parser 0 0 0)) js (Some (replicate (Z.to_nat N) garbage)) N
  = Some (N', q2, Some tokens) ->
  0 < N' ->
  decoder (mk_options cgltf_file_type_gltf N (Some (options_alloc malloc options)))
    tokens js = (i, data) ->
  cgltf_parse_json_link i data js = (cgltf_result_invalid_gltf, None) ->
  parse (Some options) js = Some (cgltf_result_invalid_gltf, None).
Proof.
  intros Hlong Hauto Htype Halloc Hcount HN Hfill HN' Hdecoder Hlink.
  rewrite (cgltf_parse_as_text options js Hlong Htype). unfold parse_json_as.
  rewrite (cgltf_parse_json_decoded
             (mk_options cgltf_file_type_gltf (json_token_count options)
                (Some (options_alloc malloc options)))
             js N N' q1 q2 t1 tokens Hauto (fun size => Halloc size) Hcount HN Hfill HN').
  cbn [type memory_alloc]. rewrite Hdecoder, Hlink. reflexivity.
Qed.

(** A successful [cgltf_parse_json] hands out the root the decoder left,
    linked by the fix-up. *)
Lemma cgltf_parse_json_tokens_success options json root :
  cgltf_parse_json_tokens decoder malloc sizeof_data garbage options json
  = Some (cgltf_result_success, Some root) ->
  exists o toks i decoded linked,
    decoder o toks json = (i, decoded) /\ 0 <= i
    /\ cgltf_fixup_pointers decoded = Fixed linked
    /\ nodes root = nodes linked /\ scenes root = scenes linked.
Proof.
  unfold cgltf_parse_json_tokens. intros Ho. destruct (negb _); [discriminate |].
  destruct (jsmn_parse _ json (Some _) _) as [[[tc q] toks] |]; cbn in Ho;
    [| discriminate].
  destruct (tc <=? 0); [discriminate |]. destruct (negb _); [discriminate |].
  destruct (decoder options (default [] toks) json) as [i decoded] eqn:Hdecoder.
  unfold cgltf_parse_json_link in Ho.
  destruct (Z.ltb_spec i 0);
    [destruct (i =? CGLTF_ERROR_NOMEM); discriminate |].
  destruct (cgltf_fixup_pointers decoded) as [linked | code] eqn:Hfix;
    [| discriminate].
  injection Ho as <-. exists options, (default [] toks), i, decoded, linked. auto.
Qed.

Lemma cgltf_parse_json_success options json root :
  parse_json options json = Some (cgltf_result_success, Some root) ->
  exists o toks i decoded linked,
    decoder o toks json = (i, decoded) /\ 0 <= i
    /\ cgltf_fixup_pointers decoded = Fixed linked
    /\ nodes root = nodes linked /\ scenes root = scenes linked.
Proof.
  unfold cgltf_parse_json. intros H.
  destruct (json_token_count options =? 0);
    [| exact (cgltf_parse_json_tokens_success _ _ _ H)].
  destruct (jsmn_parse _ json None 0) as [[[tc q] toks] |]; cbn in H; [| discriminate].
  destruct (tc <=? 0); cbn in H; [discriminate |].
  exact (cgltf_parse_json_tokens_success _ _ _ H).
Qed.

Lemma parse_json_as_success ft bin options json root :
  parse_json_as decoder malloc sizeof_data garbage ft bin options json
  = Some (cgltf_result_success, Some root) ->
  exists o toks js i decoded linked,
    decoder o toks js = (i, decoded) /\ 0 <= i
    /\ cgltf_fixup_pointers decoded = Fixed linked
    /\ nodes root = nodes linked /\ scenes root = scenes linked.
Proof.
  unfold parse_json_as.
  destruct (parse_json options json) as [[r out] |] eqn:Hjson; [| discriminate].
  case_bool_decide as Hr; [discriminate |].
  assert (r = cgltf_result_success) as -> by (destruct r; congruence).
  destruct out as [root0 |]; cbn; [| discriminate]. intros [= <-].
  destruct (cgltf_parse_json_success options json root0 Hjson)
    as (o & toks & i & decoded & linked & Hdecoder & Hi & Hfix & Hnodes & Hscenes).
  exists o, toks, json, i, decoded, linked. auto.
Qed.

(** A successful [cgltf_parse] hands out a root linked by the fix-up. *)
Lemma cgltf_parse_success (options : option cgltf_options) (data : list Z) root :
  parse options data = Some (cgltf_result_success, Some root) ->
  exists o toks js i decoded linked,
    decoder o toks js = (i, decoded) /\ 0 <= i
    /\ cgltf_fixup_pointers decoded = Fixed linked
    /\ nodes root = nodes linked /\ scenes root = scenes linked.
Proof.
  unfold cgltf_parse.
  destruct (count_of data <? GlbHeaderSize); [discriminate |].
  destruct options as [o |]; [| discriminate]. cbv zeta.
  repeat match goal with
         | |- Some (_, None) = Some _ -> _ => discriminate
         | |- parse_json_as _ _ _ _ _ _ _ _ = Some _ -> _ => apply parse_json_as_success
         | |- context [bool_decide ?P] => destruct (bool_decide P); cbn
         | |- context [?a <? ?b] => destruct (a <? b); cbn
         | |- context [?a <=? ?b] => destruct (a <=? b); cbn
         end.
Qed.

Lemma parse_json_as_total (ft : cgltf_file_type) (bin : option (list Z))
    (options : cgltf_options) (json : list Z) :
  Z.of_nat (length json) <= INT_MAX ->
  0 <= json_token_count options ->
  SIZEOF_jsmntok_t * json_token_count options < SIZE_MODULUS ->
  exists res, parse_json_as decoder malloc sizeof_data garbage ft bin options json = Some res.
Proof.
  intros Hlen Hcount Hsize. unfold parse_json_as.
  destruct (cgltf_parse_json_total options json Hlen Hcount Hsize) as ([r out] & ->).
  destruct (bool_decide _); eauto.
Qed.

(** C2 (amended): on an input of at least twelve bytes, options that pin
    the type to GLB make [cgltf_parse] return unknown-format when the first
    four bytes are not the GLB magic; options that pin the type to glTF text
    make it hand the whole input to [cgltf_parse_json], whatever the first
    four bytes are: the result is the one of [cgltf_parse_json] on the whole
    input, and it is never unknown-format.  (There is a result when the
    input has at most [INT_MAX] bytes and the size of the token array does
    not wrap around.) *)
Theorem cgltf_parse_pinned_type (options : cgltf_options) (data : list Z) :
  GlbHeaderSize <= count_of data ->
  (type options = cgltf_file_type_glb -> load_u32 data 0 <> GlbMagic ->
   parse (Some options) data = Some (cgltf_result_unknown_format, None))
  /\ (type options = cgltf_file_type_gltf ->
      parse (Some options) data =
        parse_json_as decoder malloc sizeof_data garbage cgltf_file_type_gltf None
          (mk_options cgltf_file_type_gltf (json_token_count options)
             (Some (options_alloc malloc options)))
          data
      /\ (forall r out, parse (Some options) data = Some (r, out) ->
                       r <> cgltf_result_unknown_format)
      /\ (Z.of_nat (length data) <= INT_MAX -> 0 <= json_token_count options ->
          SIZEOF_jsmntok_t * json_token_count options < SIZE_MODULUS ->
          exists r out, parse (Some options) data = Some (r, out))).
Proof.
  intros Hlong. unfold cgltf_parse.
  destruct (Z.ltb_spec (count_of data) GlbHeaderSize) as [Hlt | _]; [lia |].
  split.
  - intros Hglb Hmagic. cbn [type]. rewrite Hglb.
    rewrite (bool_decide_eq_true_2 _ Hmagic). reflexivity.
  - intros Hgltf. destruct options as [ty tc ma]. cbn in Hgltf. subst ty.
    cbn [type json_token_count memory_alloc].
    assert (Hnot : forall r out,
      parse_json_as decoder malloc sizeof_data garbage cgltf_file_type_gltf None
        (mk_options cgltf_file_type_gltf tc
           (Some (options_alloc malloc (mk_options cgltf_file_type_gltf tc ma)))) data
      = Some (r, out) -> r <> cgltf_result_unknown_format).
    { intros r out. unfold parse_json_as.
      match goal with |- context [cgltf_parse_json ?a ?b ?c ?d ?e ?f] =>
        destruct (cgltf_parse_json a b c d e f) as [[jr jo]|] eqn:E end; [|discriminate].
      apply cgltf_parse_json_not_unknown in E.
      case_bool_decide; intros [= <- <-]; [assumption | discriminate]. }
    assert (Htotal : Z.of_nat (length data) <= INT_MAX -> 0 <= tc ->
                     SIZEOF_jsmntok_t * tc < SIZE_MODULUS ->
      exists r out,
        parse_json_as decoder malloc sizeof_data garbage cgltf_file_type_gltf None
          (mk_options cgltf_file_type_gltf tc
             (Some (options_alloc malloc (mk_options cgltf_file_type_gltf tc ma)))) data
        = Some (r, out)).
    { intros Hlen Htc Hsize.
      destruct (parse_json_as_total cgltf_file_type_gltf None
                  (mk_options cgltf_file_type_gltf tc
                     (Some (options_alloc malloc (mk_options cgltf_file_type_gltf tc ma))))
                  data Hlen Htc Hsize) as ([r out] & Hres).
      eauto. }
    destruct (bool_decide (load_u32 data 0 <> GlbMagic)); cbn;
      (split; [reflexivity | split; [exact Hnot | exact Htotal]]).
Qed.

End ParseProperties.

(** C2, as stated, fails in the text direction: with the type pinned to
    glTF text, the twelve bytes of a GLB header, which start with the GLB
    magic, are parsed as JSON and the result is invalid-json, not
    unknown-format. *)
Lemma cgltf_parse_text_pinned_on_glb_magic :
  load_u32 glb_header 0 = GlbMagic
  /\ (forall decoder malloc sizeof_data garbage,
        cgltf_parse decoder malloc sizeof_data garbage
          (Some (mk_options cgltf_file_type_gltf 0 None)) glb_header
        = Some (cgltf_result_invalid_json, None))
  /\ cgltf_result_invalid_json <> cgltf_result_unknown_format.
Proof.
  split; [reflexivity |]. split; [| discriminate].
  intros decoder malloc sizeof_data garbage. vm_compute. reflexivity.
Qed.

Lemma cgltf_parse_pinned_type_witness :
  GlbHeaderSize <= count_of (json_bytes "{'asset':{}}"%string)
  /\ cgltf_parse reject_all always_alloc 0 zero_token
       (Some (mk_options cgltf_file_type_glb 0 None)) (json_bytes "{'asset':{}}"%string)
     = Some (cgltf_result_unknown_format, None).
Proof.
  split; [vm_compute; discriminate |].
  apply (cgltf_parse_pinned_type reject_all always_alloc 0 zero_token
           (mk_options cgltf_file_type_glb 0 None) (json_bytes "{'asset':{}}"%string)).
  - vm_compute; discriminate.
  - reflexivity.
  - vm_compute; discriminate.
Defined.

Lemma cgltf_parse_short_input_witness :
  count_of (json_bytes "{}"%string) < GlbHeaderSize
  /\ cgltf_parse reject_all always_alloc 0 zero_token None (json_bytes "{}"%string)
     = Some (cgltf_result_data_too_short, None).
Proof.
  split; [reflexivity |].
  apply (cgltf_parse_short_input reject_all always_alloc 0 zero_token None (json_bytes "{}"%string)).
  reflexivity.
Defined.

(** ** Properties of the reference fix-up *)

Lemma CGLTF_PTRFIXUP_REQ_policy (var size : Z) :
  CGLTF_PTRFIXUP_REQ var size =
    if decide (var <> 0 /\ var <= size) then Fixed (Z.to_nat (var - 1))
    else FixupError CGLTF_ERROR_JSON.
Proof.
  unfold CGLTF_PTRFIXUP_REQ.
  destruct (Z.eqb_spec var 0), (Z.ltb_spec size var); cbn; case_decide; (reflexivity || lia).
Qed.

Lemma CGLTF_PTRFIXUP_policy (var size : Z) :
  CGLTF_PTRFIXUP var size =
    if decide (var = 0) then Fixed None
    else if decide (var <= size) then Fixed (Some (Z.to_nat (var - 1)))
         else FixupError CGLTF_ERROR_JSON.
Proof.
  unfold CGLTF_PTRFIXUP.
  destruct (Z.eqb_spec var 0), (Z.ltb_spec size var); cbn;
    repeat case_decide; (reflexivity || lia).
Qed.

Lemma passes_ret {A : Type} (a : A) : passes (Fixed a) [].
Proof. constructor. Qed.

Lemma passes_bind {A B : Type} (m : fixup A) (f : A -> fixup B) (e1 e2 : list edge) :
  passes m e1 -> (forall a, passes (f a) e2) -> passes (m ≫= f) (e1 ++ e2).
Proof.
  intros Hm Hf. destruct m as [a | code]; cbn in *; [| exact Hm].
  specialize (Hf a). unfold passes in *. destruct (f a); [| exact Hf].
  apply Forall_app. split; assumption.
Qed.

Lemma passes_req (var size : Z) : passes (CGLTF_PTRFIXUP_REQ var size) [Required var size].
Proof.
  rewrite CGLTF_PTRFIXUP_REQ_policy. case_decide; cbn; [| reflexivity].
  repeat constructor; tauto.
Qed.

Lemma passes_opt (var size : Z) : passes (CGLTF_PTRFIXUP var size) [Optional var size].
Proof.
  rewrite CGLTF_PTRFIXUP_policy. repeat case_decide; cbn; try reflexivity;
    repeat constructor; cbn; tauto.
Qed.

Lemma passes_each {A B : Type} (body : A -> fixup B) (edges : A -> list edge)
    (array : list A) :
  (forall a, passes (body a) (edges a)) -> passes (fixup_each body array) (array ≫= edges).
Proof.
  intros Hbody. induction array as [| a array IH]; cbn; [constructor |].
  apply passes_bind; [apply Hbody |]. intros b.
  rewrite <- (app_nil_r (array ≫= edges)).
  apply passes_bind; [exact IH |]. intros bs. apply passes_ret.
Qed.

Lemma passes_eq {A : Type} (m : fixup A) (e1 e2 : list edge) :
  e1 = e2 -> passes m e1 -> passes m e2.
Proof. intros ->. auto. Qed.

Create HintDb passes discriminated.

Ltac passes_go :=
  cbv zeta;
  lazymatch goal with
  | |- passes (Fixed _) _ => apply passes_ret
  | |- passes (mbind _ _) _ => eapply passes_bind; [passes_leaf | intros; passes_go]
  end
with passes_leaf :=
  first [ apply passes_req
        | apply passes_opt
        | apply passes_each; intros; solve [eauto with passes]
        | solve [eauto with passes]
        | passes_go ].

Ltac solve_passes :=
  eapply passes_eq; [| passes_go]; cbn; rewrite ?app_nil_r; reflexivity.

Section FixupPasses.

Variable data : cgltf_data encoded.

Lemma fixup_attribute_passes a :
  passes (fixup_attribute data a) (attribute_edges data a).
Proof. unfold fixup_attribute. solve_passes. Qed.
#[local] Hint Resolve fixup_attribute_passes : passes.

Lemma fixup_morph_target_passes t :
  passes (fixup_morph_target data t) (morph_target_edges data t).
Proof. unfold fixup_morph_target. solve_passes. Qed.
#[local] Hint Resolve fixup_morph_target_passes : passes.

Lemma fixup_primitive_passes p :
  passes (fixup_primitive data p) (primitive_edges data p).
Proof. unfold fixup_primitive. solve_passes. Qed.
#[local] Hint Resolve fixup_primitive_passes : passes.

Lemma fixup_mesh_passes m : passes (fixup_mesh data m) (mesh_edges data m).
Proof. unfold fixup_mesh. solve_passes. Qed.

Lemma fixup_accessor_passes a : passes (fixup_accessor data a) (accessor_edges data a).
Proof.
  unfold fixup_accessor, accessor_edges. destruct (is_sparse a).
  - solve_passes.
  - solve_passes.
Qed.

Lemma fixup_texture_passes t : passes (fixup_texture data t) (texture_edges data t).
Proof. unfold fixup_texture. solve_passes. Qed.

Lemma fixup_image_passes i : passes (fixup_image data i) (image_edges data i).
Proof. unfold fixup_image. solve_passes. Qed.

Lemma fixup_texture_view_passes v :
  passes (fixup_texture_view data v) [texture_view_edge data v].
Proof. unfold fixup_texture_view. solve_passes. Qed.
#[local] Hint Resolve fixup_texture_view_passes : passes.

Lemma fixup_material_passes m : passes (fixup_material data m) (material_edges data m).
Proof. unfold fixup_material. solve_passes. Qed.

Lemma fixup_buffer_view_passes v :
  passes (fixup_buffer_view data v) (buffer_view_edges data v).
Proof. unfold fixup_buffer_view. solve_passes. Qed.

Lemma fixup_joint_passes j : passes (fixup_joint data j) (node_slot_edges data j).
Proof. unfold fixup_joint. solve_passes. Qed.
#[local] Hint Resolve fixup_joint_passes : passes.

Lemma fixup_skin_passes s : passes (fixup_skin data s) (skin_edges data s).
Proof. unfold fixup_skin. solve_passes. Qed.

Lemma fixup_children_passes i slots :
  forall parents,
    passes (fixup_children data i slots parents) (slots ≫= node_slot_edges data).
Proof.
  induction slots as [| slot slots IH]; intros parents; cbn; [constructor |].
  eapply (passes_bind _ _ [_]); [apply passes_req |]. intros c.
  destruct (parents !!! c); [reflexivity |].
  rewrite <- (app_nil_r (slots ≫= _)).
  apply passes_bind; [apply IH |]. intros [cs ps]. apply passes_ret.
Qed.
#[local] Hint Resolve fixup_children_passes : passes.

Lemma fixup_node_passes i n parents :
  passes (fixup_node data i n parents) (node_edges data n).
Proof.
  unfold fixup_node, node_edges.
  apply passes_bind; [apply fixup_children_passes |]. intros [cs ps].
  solve_passes.
Qed.

Lemma fixup_nodes_passes ns :
  forall i parents, passes (fixup_nodes data i ns parents) (ns ≫= node_edges data).
Proof.
  induction ns as [| n ns IH]; intros i parents; cbn; [constructor |].
  apply passes_bind; [apply fixup_node_passes |]. intros [n' ps].
  rewrite <- (app_nil_r (ns ≫= _)).
  apply passes_bind; [apply IH |]. intros [ns' ps']. apply passes_ret.
Qed.

Lemma fixup_scene_node_passes parents slot :
  passes (fixup_scene_node data parents slot) (node_slot_edges data slot).
Proof.
  unfold fixup_scene_node, node_slot_edges.
  rewrite <- (app_nil_r [_]). apply passes_bind; [apply passes_req |]. intros r.
  destruct (parents !!! r); [reflexivity | apply passes_ret].
Qed.
#[local] Hint Resolve fixup_scene_node_passes : passes.

Lemma fixup_scene_passes parents s :
  passes (fixup_scene data parents s) (scene_edges data s).
Proof. unfold fixup_scene. solve_passes. Qed.

Lemma fixup_animation_sampler_passes s :
  passes (fixup_animation_sampler data s) (animation_sampler_edges data s).
Proof. unfold fixup_animation_sampler. solve_passes. Qed.
#[local] Hint Resolve fixup_animation_sampler_passes : passes.

Lemma fixup_animation_channel_passes samplers c :
  passes (fixup_animation_channel data samplers c)
    (animation_channel_edges data samplers c).
Proof. unfold fixup_animation_channel. solve_passes. Qed.
#[local] Hint Resolve fixup_animation_channel_passes : passes.

Lemma fixup_animation_passes a :
  passes (fixup_animation data a) (animation_edges data a).
Proof. unfold fixup_animation. solve_passes. Qed.

Lemma cgltf_fixup_pointers_passes :
  passes (cgltf_fixup_pointers data) (data_edges data).
Proof.
  unfold cgltf_fixup_pointers, data_edges.
  apply passes_bind; [apply passes_each, fixup_mesh_passes |]. intros ?.
  apply passes_bind; [apply passes_each, fixup_accessor_passes |]. intros ?.
  apply passes_bind; [apply passes_each, fixup_texture_passes |]. intros ?.
  apply passes_bind; [apply passes_each, fixup_image_passes |]. intros ?.
  apply passes_bind; [apply passes_each, fixup_material_passes |]. intros ?.
  apply passes_bind; [apply passes_each, fixup_buffer_view_passes |]. intros ?.
  apply passes_bind; [apply passes_each, fixup_skin_passes |]. intros ?.
  apply passes_bind; [apply fixup_nodes_passes |]. intros [? parents].
  apply passes_bind; [apply passes_each, fixup_scene_passes |]. intros ?.
  apply passes_bind; [apply passes_opt |]. intros ?.
  rewrite <- (app_nil_r (animations data ≫= _)).
  apply passes_bind; [apply passes_each, fixup_animation_passes |]. intros ?.
  apply passes_ret.
Qed.

End FixupPasses.

Lemma cgltf_fixup_pointers_rejects (data : cgltf_data encoded) (e : edge) :
  e ∈ data_edges data -> ~ edge_ok e ->
  cgltf_fixup_pointers data = FixupError CGLTF_ERROR_JSON
  /\ (forall i json_chunk,
        0 <= i ->
        cgltf_parse_json_link i data json_chunk = (cgltf_result_invalid_gltf, None))
  /\ parse_returns_invalid_gltf data.
Proof.
  intros Hin Hbad.
  assert (Hfix : cgltf_fixup_pointers data = FixupError CGLTF_ERROR_JSON).
  { pose proof (cgltf_fixup_pointers_passes data) as Hp. unfold passes in Hp.
    destruct (cgltf_fixup_pointers data) as [d | code]; [| congruence].
    rewrite Forall_forall in Hp. destruct (Hbad (Hp e Hin)). }
  assert (Hlink : forall i json_chunk,
            0 <= i ->
            cgltf_parse_json_link i data json_chunk = (cgltf_result_invalid_gltf, None)).
  { intros i json_chunk Hi. unfold cgltf_parse_json_link.
    destruct (Z.ltb_spec i 0); [lia |]. rewrite Hfix. reflexivity. }
  split; [exact Hfix |]. split; [exact Hlink |].
  intros decoder malloc sizeof_data garbage options js N N' q1 q2 t1 tokens i Hlong Hauto
    Htype Halloc Hcount HN Hfill HN' Hdecoder Hi.
  exact (cgltf_parse_decoded decoder malloc sizeof_data garbage options js N N' q1 q2 t1
           tokens i data Hlong Hauto Htype Halloc Hcount HN Hfill HN' Hdecoder
           (Hlink i js Hi)).
Qed.

Lemma attribute_edge_in_data (data : cgltf_data encoded) m p a :
  m ∈ meshes data -> p ∈ primitives m -> a ∈ prim_attributes p ->
  Required (attr_data a) (count_of (accessors data)) ∈ data_edges data.
Proof.
  intros Hm Hp Ha. unfold data_edges. apply elem_of_app. left.
  apply list_elem_of_bind. exists m. split; [| exact Hm].
  apply list_elem_of_bind. exists p. split; [| exact Hp].
  unfold primitive_edges. do 2 right. apply elem_of_app. left.
  apply list_elem_of_bind. exists a. split; [| exact Ha]. left.
Qed.

(** *** The attribute references that the decoder stores *)

Section AttributeList.

Variable uninitialized_byte : Z.
Variable SIZEOF_cgltf_attribute : Z.
Variable options : cgltf_options.
Variable tokens : list jsmntok_t.
Variable json_chunk : list Z.

Lemma parse_json_string_next (i i' : Z) (out name : option (list Z)) :
  parse_json_string uninitialized_byte options tokens i json_chunk out
  = Some (Decoded i' name) ->
  i' = i + 1.
Proof.
  unfold parse_json_string, cgltf_parse_json_string. intros H.
  destruct (tok_at tokens i) as [tok |]; [| discriminate]. cbn [mbind option_bind] in H.
  repeat case_bool_decide; try discriminate.
  destruct (options_memory_alloc options _) as [[] |]; try discriminate.
  cbn [mbind option_bind negb] in H.
  destruct (tok_start tok <? 0); [discriminate |].
  destruct (strncpy _ _ _ _) as [result | |]; try discriminate.
  destruct (store_nul _ _) as [result' | |]; try discriminate.
  cbn [mbind option_bind] in H. unfold decode_int in H.
  destruct (i + 1 <? 0); congruence.
Qed.

Lemma attribute_member_data (i i' : Z) (a a' : decoded_attribute) :
  attribute_member uninitialized_byte options tokens json_chunk i a = Some (Decoded i' a') ->
  i' = i + 2 /\ attribute_value tokens json_chunk (i + 1) a'.
Proof.
  unfold attribute_member. intros H.
  destruct (tok_at tokens i) as [key |]; [| discriminate]. cbn [mbind option_bind] in H.
  destruct (is_key key); [| discriminate]. cbn [negb] in H.
  destruct (parse_json_string _ _ _ _ _ _) as [[code | k name] |] eqn:Hname;
    try discriminate.
  apply parse_json_string_next in Hname as ->. cbn [mbind option_bind] in H.
  destruct (cgltf_parse_attribute_type _ _) as [[type index] |]; [| discriminate].
  cbn [mbind option_bind] in H. unfold json_to_ptrindex in H.
  destruct (json_to_int_at tokens (i + 1) json_chunk) as [n |] eqn:Hn; [| discriminate].
  cbn [mbind option_bind] in H.
  destruct (Z.leb_spec INT_MAX n); [discriminate |]. cbn [mbind option_bind] in H.
  injection H as <- <-. split; [lia |]. exists n. auto.
Qed.

Lemma decode_each_attribute_member (array array' : list decoded_attribute) (i r : Z) :
  decode_each (attribute_member uninitialized_byte options tokens json_chunk) i array
  = Some (Decoded r array') ->
  length array' = length array
  /\ r = i + 2 * Z.of_nat (length array)
  /\ forall (j : nat) a, array' !! j = Some a -> attribute_value tokens json_chunk (i + 1 + 2 * Z.of_nat j) a.
Proof.
  revert array' i r. induction array as [| a rest IH]; intros array' i r H.
  - injection H as <- <-. cbn [length]. split; [reflexivity |]. split; [lia |].
    intros j b Hb. rewrite lookup_nil in Hb. discriminate.
  - cbn [decode_each] in H.
    destruct (attribute_member _ _ _ _ i a) as [[code | k a'] |] eqn:Ha; try discriminate.
    cbn [decode_bind] in H.
    destruct (decode_each _ k rest) as [[code | r' rest'] |] eqn:Hrest; try discriminate.
    cbn [decode_bind] in H. injection H as <- <-.
    apply attribute_member_data in Ha as [-> Ha].
    destruct (IH _ _ _ Hrest) as (Hlen & -> & Hvalues).
    cbn [length]. split; [lia |]. split; [lia |].
    intros [| j] b Hb.
    + injection Hb as <-. replace (i + 1 + 2 * Z.of_nat 0) with (i + 1) by lia. exact Ha.
    + replace (i + 1 + 2 * Z.of_nat (S j)) with (i + 2 + 1 + 2 * Z.of_nat j) by lia.
      exact (Hvalues j b Hb).
Qed.

Lemma cgltf_parse_json_attribute_list_data (i r : Z)
    (out out' : option (list decoded_attribute)) :
  cgltf_parse_json_attribute_list uninitialized_byte SIZEOF_cgltf_attribute options tokens
    i json_chunk out = Some (Decoded r out') ->
  exists tok attributes,
    tok_at tokens i = Some tok /\ out' = Some attributes
    /\ count_of attributes = size_wrap (tok_size tok)
    /\ r = i + 1 + 2 * count_of attributes
    /\ forall (j : nat) a,
         attributes !! j = Some a -> attribute_value tokens json_chunk (i + 2 + 2 * Z.of_nat j) a.
Proof.
  unfold cgltf_parse_json_attribute_list. intros H.
  destruct (tok_at tokens i) as [tok |]; [| discriminate]. cbn [mbind option_bind] in H.
  repeat case_bool_decide; try discriminate.
  destruct (cgltf_calloc _ _ _) as [[block |] |]; try discriminate.
  cbn [mbind option_bind] in H.
  destruct (decode_each _ _ _) as [[code | k attributes] |] eqn:Heach; try discriminate.
  cbn [decode_bind] in H. injection H as <- <-.
  apply decode_each_attribute_member in Heach as (Hlen & -> & Hvalues).
  rewrite length_replicate in Hlen.
  assert (Hcount : count_of attributes = size_wrap (tok_size tok)).
  { unfold count_of. rewrite Hlen. apply Z2Nat.id.
    unfold size_wrap. apply Z.mod_pos_bound. reflexivity. }
  exists tok, attributes. split; [reflexivity |]. split; [reflexivity |].
  split; [exact Hcount |]. rewrite length_replicate, Hcount.
  split.
  - rewrite Z2Nat.id; [lia |]. unfold size_wrap. apply Z.mod_pos_bound. reflexivity.
  - intros j a Ha. replace (i + 2 + 2 * Z.of_nat j) with (i + 1 + 1 + 2 * Z.of_nat j) by lia.
    exact (Hvalues j a Ha).
Qed.

End AttributeList.




(** *** Parent links *)

Section ParentLinks.

Variable data : cgltf_data encoded.

Lemma CGLTF_PTRFIXUP_REQ_index {A : Type} (array : list A) (slot : encoded) (c : nat) :
  (0 < length array)%nat ->
  CGLTF_PTRFIXUP_REQ slot (count_of array) = Fixed c -> (c < length array)%nat.
Proof.
  intros Hpos. rewrite CGLTF_PTRFIXUP_REQ_policy. unfold count_of.
  case_decide as H; [| discriminate]. intros [= <-]. lia.
Qed.

Lemma fixup_children_spec (i : nat) (slots : list encoded) :
  forall parents cs parents',
    (0 < length (nodes data))%nat ->
    length parents = length (nodes data) ->
    fixup_children data i slots parents = Fixed (cs, parents') ->
    exists ks, cs = Some <$> ks /\ NoDup ks /\ adopts i ks parents parents'.
Proof.
  induction slots as [| slot slots IH]; intros parents cs parents' Hpos Hlen; cbn.
  - intros [= <- <-]. exists []. split; [reflexivity |]. split; [constructor |].
    split; [reflexivity |]. split; [intros k Hk; inversion Hk |].
    split; [auto |]. intros c p Hp. left. exact Hp.
  - destruct (CGLTF_PTRFIXUP_REQ slot (count_of (nodes data))) as [c | code] eqn:Hreq;
      cbn; [| discriminate].
    apply CGLTF_PTRFIXUP_REQ_index in Hreq; [| exact Hpos].
    assert (Hcl : (c < length parents)%nat) by (rewrite Hlen; exact Hreq).
    assert (Hc : parents !! c = Some (parents !!! c)).
    { apply list_lookup_lookup_total_lt. exact Hcl. }
    destruct (parents !!! c) as [p |]; [discriminate |].
    destruct (fixup_children data i slots (<[c := Some i]> parents))
      as [[cs' ps'] | code] eqn:Hrest; cbn; [| discriminate].
    intros [= <- <-].
    destruct (IH _ _ _ Hpos ltac:(rewrite length_insert; exact Hlen) Hrest)
      as (ks & -> & Hnd & Hlen' & Hks & Hkeep & Horigin).
    rewrite length_insert in Hlen'.
    assert (Hset : <[c := Some i]> parents !! c = Some (Some i)).
    { apply list_lookup_insert_eq. exact Hcl. }
    assert (Hnotin : c ∉ ks).
    { intros Hin. destruct (Hks c Hin) as [Hnone _]. rewrite Hset in Hnone.
      discriminate. }
    exists (c :: ks). split; [reflexivity |]. split; [constructor; assumption |].
    split; [exact Hlen' |]. split; [| split].
    + intros k [-> | Hk]%elem_of_cons.
      * split; [exact Hc | eauto].
      * destruct (Hks k Hk) as [Hnone Hsome]. split; [| exact Hsome].
        rewrite list_lookup_insert_ne in Hnone; [exact Hnone |].
        intros ->. contradiction.
    + intros c' p Hp. apply Hkeep. rewrite list_lookup_insert_ne; [exact Hp |].
      intros ->. rewrite Hc in Hp. discriminate.
    + intros c' p Hp. destruct (Horigin c' p Hp) as [Hold | [-> Hin]].
      * destruct (decide (c = c')) as [<- | Hne].
        -- right. rewrite Hset in Hold. injection Hold as <-. split; [reflexivity | left].
        -- left. rewrite list_lookup_insert_ne in Hold by exact Hne. exact Hold.
      * right. split; [reflexivity | right; exact Hin].
Qed.

Lemma child_indices_fmap (ks : list nat) skin mesh camera light weights parent :
  child_indices (mk_node parent (Some <$> ks) skin mesh camera light weights) = ks.
Proof.
  unfold child_indices. cbn. induction ks as [| k ks IH]; cbn; [reflexivity |].
  f_equal. exact IH.
Qed.

Lemma fixup_node_spec (i : nat) (n : cgltf_node encoded) parents n' parents' :
  (0 < length (nodes data))%nat ->
  length parents = length (nodes data) ->
  fixup_node data i n parents = Fixed (n', parents') ->
  children n' = Some <$> child_indices n'
  /\ NoDup (child_indices n')
  /\ adopts i (child_indices n') parents parents'.
Proof.
  intros Hpos Hlen. unfold fixup_node.
  destruct (fixup_children data i (children n) parents) as [[cs ps] | code] eqn:Hch;
    cbn; [| discriminate].
  destruct (fixup_children_spec _ _ _ _ _ Hpos Hlen Hch) as (ks & -> & Hnd & Had).
  repeat match goal with
         | |- context [CGLTF_PTRFIXUP ?v ?s] =>
             destruct (CGLTF_PTRFIXUP v s); cbn; [| discriminate]
         end.
  intros ?. simplify_eq. rewrite child_indices_fmap. cbn. auto.
Qed.

Lemma child_at_cons_0 n ns j c :
  child_at (n :: ns) 0 j c <-> children n !! j = Some (Some c).
Proof.
  unfold child_at. cbn. split.
  - intros (n0 & [= <-] & H). exact H.
  - intros H. eauto.
Qed.

Lemma child_at_cons_S n ns p j c : child_at (n :: ns) (S p) j c <-> child_at ns p j c.
Proof. reflexivity. Qed.

Lemma children_lookup (n : cgltf_node ptr) (j c : nat) :
  children n = Some <$> child_indices n ->
  children n !! j = Some (Some c) <-> child_indices n !! j = Some c.
Proof.
  intros ->. rewrite list_lookup_fmap. destruct (child_indices n !! j); cbn.
  - split; intros [= ->]; reflexivity.
  - split; discriminate.
Qed.

Lemma fixup_nodes_spec (ns : list (cgltf_node encoded)) :
  forall i parents ns' parents',
    (ns <> [] -> (0 < length (nodes data))%nat) ->
    length parents = length (nodes data) ->
    fixup_nodes data i ns parents = Fixed (ns', parents') ->
    length ns' = length ns
    /\ length parents' = length parents
    /\ (forall a j c, child_at ns' a j c ->
          parents !! c = Some None /\ parents' !! c = Some (Some (i + a)%nat))
    /\ (forall c p, parents !! c = Some (Some p) -> parents' !! c = Some (Some p))
    /\ (forall c p, parents' !! c = Some (Some p) ->
          parents !! c = Some (Some p)
          \/ exists a j, p = (i + a)%nat /\ child_at ns' a j c)
    /\ (forall a1 j1 a2 j2 c,
          child_at ns' a1 j1 c -> child_at ns' a2 j2 c -> a1 = a2 /\ j1 = j2).
Proof.
  induction ns as [| n ns IH]; intros i parents ns' parents' Hpos Hlen; cbn.
  - intros ?. simplify_eq. repeat split; auto.
    + destruct H as (n & Hn & _). rewrite lookup_nil in Hn. discriminate.
    + destruct H as (n & Hn & _). rewrite lookup_nil in Hn. discriminate.
    + destruct H as (n & Hn & _). rewrite lookup_nil in Hn. discriminate.
    + destruct H as (n & Hn & _). rewrite lookup_nil in Hn. discriminate.
  - assert (Hpos' : (0 < length (nodes data))%nat) by (apply Hpos; discriminate).
    destruct (fixup_node data i n parents) as [[n' ps1] | code] eqn:Hnode;
      cbn; [| discriminate].
    destruct (fixup_node_spec _ _ _ _ _ Hpos' Hlen Hnode)
      as (Hch & Hnd & Hlen1 & Hks & Hkeep1 & Horigin1).
    destruct (fixup_nodes data (S i) ns ps1) as [[rest' ps2] | code] eqn:Hrest;
      cbn; [| discriminate].
    destruct (IH _ _ _ _ (fun _ => Hpos') ltac:(rewrite Hlen1; exact Hlen) Hrest)
      as (Hlenr & Hlen2 & HA & HB & HC & HD).
    intros ?. simplify_eq.
    assert (Hfresh : forall a j c, child_at rest' a j c -> parents !! c = Some None).
    { intros a j c Hc. destruct (HA a j c Hc) as [Hnone _].
      destruct (parents !! c) as [[p |] |] eqn:E.
      - apply Hkeep1 in E. rewrite E in Hnone. discriminate.
      - reflexivity.
      - apply lookup_ge_None in E. apply lookup_lt_Some in Hnone. lia. }
    split; [cbn; lia |]. split; [lia |]. split; [| split; [| split]].
    + intros [| a] j c Hc.
      * apply child_at_cons_0, (children_lookup _ _ _ Hch), list_elem_of_lookup_2 in Hc.
        destruct (Hks c Hc) as [Hnone Hsome]. split; [exact Hnone |].
        rewrite Nat.add_0_r. apply HB. exact Hsome.
      * apply child_at_cons_S in Hc. split; [eapply Hfresh; exact Hc |].
        destruct (HA a j c Hc) as [_ Hsome]. rewrite Hsome. do 2 f_equal. lia.
    + intros c p Hp. apply HB, Hkeep1, Hp.
    + intros c p Hp. destruct (HC c p Hp) as [Hold | (a & j & -> & Hc)].
      * destruct (Horigin1 c p Hold) as [Hold' | [-> Hin]]; [left; exact Hold' |].
        right. apply list_elem_of_lookup_1 in Hin as [j Hj]. exists 0%nat, j.
        split; [lia |]. apply child_at_cons_0, (children_lookup _ _ _ Hch). exact Hj.
      * right. exists (S a), j. split; [lia |]. apply child_at_cons_S. exact Hc.
    + intros [| a1] j1 [| a2] j2 c H1 H2.
      * apply child_at_cons_0, (children_lookup _ _ _ Hch) in H1, H2.
        split; [reflexivity |]. eapply NoDup_lookup; eassumption.
      * apply child_at_cons_0, (children_lookup _ _ _ Hch), list_elem_of_lookup_2 in H1.
        apply child_at_cons_S in H2. destruct (Hks c H1) as [_ Hsome].
        destruct (HA a2 j2 c H2) as [Hnone _]. rewrite Hsome in Hnone. discriminate.
      * apply child_at_cons_0, (children_lookup _ _ _ Hch), list_elem_of_lookup_2 in H2.
        apply child_at_cons_S in H1. destruct (Hks c H2) as [_ Hsome].
        destruct (HA a1 j1 c H1) as [Hnone _]. rewrite Hsome in Hnone. discriminate.
      * apply child_at_cons_S in H1, H2. destruct (HD _ _ _ _ _ H1 H2) as [-> ->]. auto.
Qed.

End ParentLinks.

Lemma fixup_each_lookup {A B : Type} (body : A -> fixup B) (array : list A) :
  forall array' (i : nat) (b : B),
    fixup_each body array = Fixed array' -> array' !! i = Some b ->
    exists a, array !! i = Some a /\ body a = Fixed b.
Proof.
  induction array as [| a array IH]; intros array' i b; cbn.
  - intros [= <-] Hi. rewrite lookup_nil in Hi. discriminate.
  - destruct (body a) as [b0 |] eqn:Hb; cbn; [| discriminate].
    destruct (fixup_each body array) as [bs |] eqn:Hbs; cbn; [| discriminate].
    intros [= <-]. destruct i as [| i]; cbn.
    + intros [= <-]. eauto.
    + intros Hi. eapply IH; [reflexivity | exact Hi].
Qed.

(** The node and scene loops inside a fix-up that carries on. *)
Lemma cgltf_fixup_pointers_nodes (data : cgltf_data encoded) (data' : cgltf_data ptr) :
  cgltf_fixup_pointers data = Fixed data' ->
  exists ns parents,
    fixup_nodes data 0 (nodes data) ((fun n => node_parent n) <$> nodes data)
    = Fixed (ns, parents)
    /\ nodes data' = zip_with set_node_parent ns parents
    /\ fixup_each (fixup_scene data parents) (scenes data) = Fixed (scenes data').
Proof.
  unfold cgltf_fixup_pointers. intros H.
  repeat match type of H with
         | mbind _ (fixup_each ?f ?l) = _ =>
             destruct (fixup_each f l) eqn:?; cbn in H; [| discriminate]
         | mbind _ (fixup_nodes ?d ?i ?l ?p) = _ =>
             destruct (fixup_nodes d i l p) as [[ns parents] |] eqn:Hnodes;
             cbn in H; [| discriminate]
         | mbind _ (CGLTF_PTRFIXUP ?v ?s) = _ =>
             destruct (CGLTF_PTRFIXUP v s) eqn:?; cbn in H; [| discriminate]
         end.
  injection H as <-. cbn. eauto.
Qed.

(** The fix-up of a decoded root whose nodes have null [parent] fields
    builds a scene forest. *)
Lemma cgltf_fixup_pointers_scene_forest (data : cgltf_data encoded)
    (data' : cgltf_data ptr) :
  Forall (fun n => node_parent n = None) (nodes data) ->
  cgltf_fixup_pointers data = Fixed data' ->
  scene_forest data'.
Proof.
  intros Hnull Hfix. unfold scene_forest.
  destruct (cgltf_fixup_pointers_nodes data data' Hfix)
    as (ns & parents & Hnodes & Hdata & Hscenes).
  set (parents0 := (fun n => node_parent n) <$> nodes data) in *.
  assert (Hlen0 : length parents0 = length (nodes data)).
  { subst parents0. apply length_fmap. }
  assert (Hnone0 : forall c x, parents0 !! c = Some x -> x = None).
  { subst parents0. intros c x. rewrite list_lookup_fmap.
    destruct (nodes data !! c) as [n |] eqn:E; cbn; [| discriminate].
    intros [= <-]. rewrite Forall_forall in Hnull. apply Hnull.
    eapply list_elem_of_lookup_2. exact E. }
  assert (Hpos0 : nodes data <> [] -> (0 < length (nodes data))%nat).
  { intros Hne. destruct (nodes data); [contradiction | cbn; lia]. }
  destruct (fixup_nodes_spec data (nodes data) 0 parents0 ns parents Hpos0 Hlen0 Hnodes)
    as (Hlenn & Hlenp & HA & HB & HC & HD).
  assert (Hchild : forall p j c, child_at (nodes data') p j c <-> child_at ns p j c).
  { intros p j c. rewrite Hdata. unfold child_at. split.
    - intros (n & Hn & Hc). apply lookup_zip_with_Some in Hn as (n0 & x & -> & Hn0 & _).
      exists n0. split; [exact Hn0 | exact Hc].
    - intros (n & Hn & Hc).
      destruct (lookup_lt_is_Some_2 parents p) as [x Hx].
      { apply lookup_lt_Some in Hn. lia. }
      exists (set_node_parent n x). split; [| exact Hc].
      apply lookup_zip_with_Some. eauto. }
  assert (Hparent : forall c, (c < length ns)%nat ->
                              parents !! c = Some (parent_of (nodes data') c)).
  { intros c Hc. unfold parent_of. rewrite Hdata.
    destruct (lookup_lt_is_Some_2 ns c Hc) as [n Hn].
    destruct (lookup_lt_is_Some_2 parents c ltac:(lia)) as [x Hx].
    rewrite (proj2 (lookup_zip_with_Some set_node_parent ns parents c _)
               (ex_intro _ n (ex_intro _ x (conj eq_refl (conj Hn Hx))))).
    cbn. exact Hx. }
  split; [| split].
  - intros p1 j1 p2 j2 c H1%Hchild H2%Hchild. eapply HD; eassumption.
  - intros p j s r c Hc%Hchild (sc & Hsc & Hr).
    destruct (HA p j c Hc) as [_ Hsome]. cbn in Hsome.
    destruct (fixup_each_lookup _ _ _ _ _ Hscenes Hsc) as (sc0 & _ & Hfs).
    unfold fixup_scene in Hfs.
    destruct (fixup_each (fixup_scene_node data parents) (scene_nodes sc0))
      as [roots |] eqn:Hroots; cbn in Hfs; [| discriminate].
    injection Hfs as <-. cbn in Hr.
    destruct (fixup_each_lookup _ _ _ _ _ Hroots Hr) as (slot & _ & Hslot).
    unfold fixup_scene_node in Hslot.
    destruct (CGLTF_PTRFIXUP_REQ slot (count_of (nodes data))) as [r0 |];
      cbn in Hslot; [| discriminate].
    destruct (parents !!! r0) as [x |] eqn:Hx; [discriminate |].
    injection Hslot as ->.
    rewrite (list_lookup_total_correct _ _ _ Hsome) in Hx. discriminate.
  - intros c p. split.
    + intros Hp.
      assert (Hc : (c < length ns)%nat).
      { unfold parent_of in Hp. rewrite Hdata in Hp.
        destruct (zip_with set_node_parent ns parents !! c) eqn:E; [| discriminate].
        apply lookup_lt_Some in E. rewrite length_zip_with in E. lia. }
      pose proof (Hparent c Hc) as Hpc. rewrite Hp in Hpc.
      destruct (HC c p Hpc) as [Hold | (a & j & -> & Hch)].
      * apply Hnone0 in Hold. discriminate.
      * exists j. apply Hchild. exact Hch.
    + intros (j & Hc%Hchild). destruct (HA p j c Hc) as [_ Hsome]. cbn in Hsome.
      assert (Hlt : (c < length ns)%nat).
      { apply lookup_lt_Some in Hsome. lia. }
      pose proof (Hparent c Hlt) as Hpc. rewrite Hsome in Hpc. congruence.
Qed.

(** C7: the fix-up sets the [parent] field of each child to the node that
    lists it and rejects a child, or a scene root, that has a parent
    already.  Hence after a successful fix-up of a decoded root whose nodes
    have null [parent] fields, and so after every successful parse with a
    decoder that leaves them null, a node is in at most one slot of one
    [children] array, a node in a [children] array is a root of no scene,
    and the [parent] field of a node is the one node that lists it: it was
    assigned once, by the loop of that node. *)
Theorem cgltf_fixup_pointers_forest :
  (forall (data : cgltf_data encoded) (data' : cgltf_data ptr),
     Forall (fun n => node_parent n = None) (nodes data) ->
     cgltf_fixup_pointers data = Fixed data' ->
     scene_forest data')
  /\ (forall decoder malloc sizeof_data garbage options input root,
        (forall o toks js,
           Forall (fun n => node_parent n = None) (nodes (snd (decoder o toks js)))) ->
        cgltf_parse decoder malloc sizeof_data garbage options input
        = Some (cgltf_result_success, Some root) ->
        scene_forest root)
  /\ (forall (data : cgltf_data encoded) i slot rest parents c p,
        CGLTF_PTRFIXUP_REQ slot (count_of (nodes data)) = Fixed c ->
        parents !! c = Some (Some p) ->
        fixup_children data i (slot :: rest) parents = FixupError CGLTF_ERROR_JSON
        /\ fixup_scene_node data parents slot = FixupError CGLTF_ERROR_JSON).
Proof.
  split; [exact cgltf_fixup_pointers_scene_forest |]. split.
  - intros decoder malloc sizeof_data garbage options input root Hnull Hparse.
    destruct (cgltf_parse_success decoder malloc sizeof_data garbage options input root
                Hparse)
      as (o & toks & js & i & decoded & linked & Hdecoder & _ & Hfix & Hnodes & Hscenes).
    specialize (Hnull o toks js). rewrite Hdecoder in Hnull. cbn in Hnull.
    pose proof (cgltf_fixup_pointers_scene_forest decoded linked Hnull Hfix) as Hforest.
    unfold scene_forest in *. rewrite Hnodes, Hscenes. exact Hforest.
  - intros data i slot rest parents c p Hslot Hparent.
    assert (Hc : parents !!! c = Some p)
      by (apply list_lookup_total_correct; exact Hparent).
    unfold fixup_scene_node. cbn [fixup_children]. rewrite Hslot. cbn.
    rewrite Hc. split; reflexivity.
Qed.

Lemma cgltf_fixup_pointers_forest_witness :
  cgltf_fixup_pointers family_data = Fixed family_linked
  /\ scene_forest family_linked
  /\ parent_of (nodes family_linked) 1 = Some 0%nat
  /\ parent_of (nodes family_linked) 0 = None.
Proof.
  split; [reflexivity |]. split; [| split; reflexivity].
  apply (proj1 cgltf_fixup_pointers_forest family_data family_linked).
  - repeat constructor.
  - reflexivity.
Defined.

(** Scenario: node 2 is asserted as a child of both node 0 and node 1, and
    a child that is also listed as a scene root. *)
Example double_parented_node_rejected :
  cgltf_fixup_pointers
    (mk_data cgltf_file_type_invalid [] [] [] [] [] [] [] 0 [] 0 0
       [mk_node None [CGLTF_PTRINDEX 2] 0 0 0 0 None;
        mk_node None [CGLTF_PTRINDEX 2] 0 0 0 0 None; leaf_node]
       [] 0 [] [] None)
  = FixupError CGLTF_ERROR_JSON
  /\ cgltf_fixup_pointers
       (mk_data cgltf_file_type_invalid [] [] [] [] [] [] [] 0 [] 0 0
          [mk_node None [CGLTF_PTRINDEX 1] 0 0 0 0 None; leaf_node]
          [mk_scene [CGLTF_PTRINDEX 1]] 0 [] [] None)
     = FixupError CGLTF_ERROR_JSON.
Proof. split; reflexivity. Qed.

(** ** Properties of the accessor readers *)

Lemma read_u8_in_bounds mem a :
  0 <= a -> a < count_of mem -> is_Some (read_u8 mem a).
Proof.
  intros H0 H1. unfold read_u8, count_of in *.
  destruct (Z.ltb_spec a 0); [lia |]. apply lookup_lt_is_Some. lia.
Qed.

Lemma read_u16_in_bounds mem a :
  0 <= a -> a + 2 <= count_of mem -> is_Some (read_u16 mem a).
Proof.
  intros H0 H1. unfold read_u16.
  destruct (read_u8_in_bounds mem a) as [b0 ->]; [lia | lia |].
  destruct (read_u8_in_bounds mem (a + 1)) as [b1 ->]; [lia | lia |].
  cbn. eauto.
Qed.

Lemma read_u32_in_bounds mem a :
  0 <= a -> a + 4 <= count_of mem -> is_Some (read_u32 mem a).
Proof.
  intros H0 H1. unfold read_u32.
  destruct (read_u8_in_bounds mem a) as [b0 ->]; [lia | lia |].
  destruct (read_u8_in_bounds mem (a + 1)) as [b1 ->]; [lia | lia |].
  destruct (read_u8_in_bounds mem (a + 2)) as [b2 ->]; [lia | lia |].
  destruct (read_u8_in_bounds mem (a + 3)) as [b3 ->]; [lia | lia |].
  cbn. eauto.
Qed.

Lemma cgltf_component_read_float_in_bounds mem a ct norm :
  0 <= a -> a + Z.max 1 (cgltf_component_size ct) <= count_of mem ->
  is_Some (cgltf_component_read_float mem a ct norm).
Proof.
  intros H0 H1. unfold cgltf_component_read_float, cgltf_component_read_index,
    read_f32, read_i16, read_i8.
  destruct ct, norm; cbn in H1 |- *;
    first [ destruct (read_u32_in_bounds mem a) as [v ->]; [lia | lia | cbn; eauto]
          | destruct (read_u16_in_bounds mem a) as [v ->]; [lia | lia | cbn; eauto]
          | destruct (read_u8_in_bounds mem a) as [v ->]; [lia | lia | cbn; eauto] ].
Qed.

Lemma read_components_spec mem element ct norm offsets :
  forall (i : nat) (out : list cgltf_float),
    Forall (fun off => is_Some (cgltf_component_read_float mem (element + off) ct norm))
      offsets ->
    (i + length offsets <= length out)%nat ->
    exists out',
      read_components mem element ct norm offsets i out = Some out'
      /\ length out' = length out
      /\ (forall (k : nat) off, offsets !! k = Some off ->
            out' !! (i + k)%nat = cgltf_component_read_float mem (element + off) ct norm)
      /\ (forall j : nat, (j < i \/ i + length offsets <= j)%nat -> out' !! j = out !! j).
Proof.
  induction offsets as [| off offsets IH]; intros i out Hall Hlen.
  - exists out. cbn. split; [reflexivity |]. split; [reflexivity |]. split; [| auto].
    intros k off H. rewrite lookup_nil in H. discriminate.
  - inversion Hall as [| ? ? [v Hv] Hall']; subst. cbn in Hlen. cbn. rewrite Hv. cbn.
    destruct (IH (S i) (<[i := v]> out) Hall') as (out' & Hrun & Hlen' & Hset & Hkeep).
    { rewrite length_insert. lia. }
    exists out'. split; [exact Hrun |]. rewrite length_insert in Hlen'.
    split; [exact Hlen' |]. split.
    + intros [| k] off' Hk; cbn in Hk.
      * injection Hk as <-. rewrite Nat.add_0_r, Hkeep by lia.
        rewrite list_lookup_insert_eq by lia. symmetry. exact Hv.
      * replace (i + S k)%nat with (S i + k)%nat by lia. apply Hset. exact Hk.
    + intros j Hj. rewrite Hkeep by lia. apply list_lookup_insert_ne. lia.
Qed.

Lemma cgltf_element_read_float_eq mem element type ct norm out n :
  cgltf_num_components type <= n ->
  cgltf_element_read_float mem element type ct norm out n =
    (bytes ← mem;
     out' ← read_components bytes element ct norm
              (component_offset type ct <$> seqZ 0 (cgltf_num_components type)) 0 out;
     Some (true, out')).
Proof.
  intros Hn. unfold cgltf_element_read_float.
  destruct (Z.ltb_spec n (cgltf_num_components type)) as [Hlt | _]; [lia |].
  destruct type, ct; reflexivity.
Qed.

Lemma component_offset_bound type ct k :
  0 <= k < cgltf_num_components type ->
  0 <= component_offset type ct k
  /\ component_offset type ct k + Z.max 1 (cgltf_component_size ct)
     <= Z.max 1 (cgltf_calc_size type ct).
Proof.
  intros Hk.
  destruct type, ct;
    match goal with |- context [cgltf_calc_size ?t ?c] =>
      let v := eval vm_compute in (cgltf_calc_size t c) in
      change (cgltf_calc_size t c) with v
    end;
    cbn in Hk |- *; Z.div_mod_to_equations; lia.
Qed.

(** C5: [cgltf_accessor_read_float] returns false and leaves the output as
    it is when the accessor is sparse or has no buffer view, and when the
    capacity [element_size] is smaller than the number of components.
    Otherwise, with the buffer loaded and the element inside it, it returns
    true and stores exactly [cgltf_num_components] floats: component [k] is
    read at [component_offset] (the columns of mat2 with 1-byte components
    and of mat3 with 1- or 2-byte components start at multiples of four
    bytes, every other shape is contiguous), and the rest of the output is
    left as it is. *)
Theorem cgltf_accessor_read_float_contract (data : cgltf_data ptr)
    (accessor : cgltf_accessor ptr) (index : Z) (out : list cgltf_float)
    (element_size : Z) :
  let n := cgltf_num_components (acc_type accessor) in
  let result := cgltf_accessor_read_float data accessor index out element_size in
  (is_sparse accessor = true \/ acc_buffer_view accessor = None ->
   result = Some (false, out))
  /\ (forall bv mem,
        is_sparse accessor = false ->
        view_data data (acc_buffer_view accessor) = Some (bv, mem) ->
        let element :=
          size_wrap (size_wrap (acc_offset accessor + bv_offset bv)
                     + acc_stride accessor * index) in
        (element_size < n -> result = Some (false, out))
        /\ (forall bytes,
              n <= element_size -> mem = Some bytes -> count_of out = element_size ->
              element
              + Z.max 1 (cgltf_calc_size (acc_type accessor) (component_type accessor))
              <= count_of bytes ->
              exists out',
                result = Some (true, out')
                /\ length out' = length out
                /\ (forall k, 0 <= k < n ->
                      out' !! Z.to_nat k =
                      cgltf_component_read_float bytes
                        (element
                         + component_offset (acc_type accessor) (component_type accessor) k)
                        (component_type accessor) (normalized accessor))
                /\ (forall j : nat, n <= Z.of_nat j -> out' !! j = out !! j)))
  /\ (forall b out',
        result = Some (b, out') ->
        (b = false <->
         is_sparse accessor = true \/ acc_buffer_view accessor = None
         \/ element_size < n)).
Proof.
  intros n result. subst result. unfold cgltf_accessor_read_float.
  split; [| split].
  - intros [Hs | Hv]; [rewrite Hs; reflexivity |].
    rewrite Hv, orb_true_r. reflexivity.
  - intros bv mem Hs Hview.
    set (element := size_wrap (size_wrap (acc_offset accessor + bv_offset bv)
                               + acc_stride accessor * index)).
    rewrite Hs. cbn [orb].
    assert (Hnn : acc_buffer_view accessor <> None).
    { intros E. rewrite E in Hview. discriminate. }
    rewrite (bool_decide_eq_false_2 _ Hnn), Hview. cbn [mbind option_bind].
    fold element. split.
    + intros Hsmall. unfold cgltf_element_read_float. fold n.
      destruct (Z.ltb_spec element_size n); [reflexivity | lia].
    + intros bytes Hn -> Hout Hin.
      rewrite cgltf_element_read_float_eq by (fold n; lia). cbn [mbind option_bind].
      fold n.
      assert (Hel : 0 <= element).
      { subst element. unfold size_wrap. apply Z.mod_pos_bound. reflexivity. }
      assert (Hlen : length (component_offset (acc_type accessor) (component_type accessor)
                               <$> seqZ 0 n) = Z.to_nat n).
      { rewrite length_fmap, length_seqZ. reflexivity. }
      destruct (read_components_spec bytes element (component_type accessor)
                  (normalized accessor)
                  (component_offset (acc_type accessor) (component_type accessor)
                     <$> seqZ 0 n) 0%nat out)
        as (out' & Hrun & Hlen' & Hset & Hkeep).
      { apply Forall_fmap, Forall_forall. intros k Hk%elem_of_seqZ. cbn.
        destruct (component_offset_bound (acc_type accessor) (component_type accessor) k)
          as [Hlo Hhi]; [fold n; lia |].
        apply cgltf_component_read_float_in_bounds; lia. }
      { rewrite Hlen. unfold count_of in Hout. lia. }
      exists out'. rewrite Hrun. cbn. split; [reflexivity |]. split; [exact Hlen' |]. split.
      * intros k Hk. rewrite <- (Hset (Z.to_nat k)
                                   (component_offset (acc_type accessor)
                                      (component_type accessor) k)).
        { reflexivity. }
        rewrite list_lookup_fmap, lookup_seqZ_lt by lia.
        cbn. f_equal. f_equal. lia.
      * intros j Hj. apply Hkeep. right. rewrite Hlen. lia.
  - intros b out'.
    destruct (is_sparse accessor) eqn:Hs; cbn [orb].
    { intros [= <- <-]. split; auto. }
    case_bool_decide as Hv.
    { intros [= <- <-]. split; auto. }
    destruct (view_data data (acc_buffer_view accessor)) as [[bv mem]|];
      cbn [mbind option_bind]; [| discriminate].
    destruct (Z.ltb_spec element_size n) as [Hlt | Hge].
    { unfold cgltf_element_read_float. fold n.
      destruct (Z.ltb_spec element_size n); [| lia].
      intros [= <- <-]. split; auto. }
    rewrite cgltf_element_read_float_eq by (fold n; lia).
    intros Hrun. assert (b = true) as ->.
    { destruct mem as [bytes|]; cbn in Hrun; [| discriminate].
      match type of Hrun with
      | context [read_components ?a ?b ?c ?d ?e ?f ?g] =>
          destruct (read_components a b c d e f g); cbn in Hrun; [| discriminate]
      end. congruence. }
    split; [discriminate |]. intros [? | [? | ?]]; [discriminate | contradiction | lia].
Qed.

(** C4: with [normalized] set, [cgltf_component_read_float] divides the raw
    integer by [UINT_MAX] for u32, [SHRT_MAX] for i16, [USHRT_MAX] for u16,
    [SCHAR_MAX] for i8 and [CHAR_MAX], which is 127 and not 255, for u8; and
    [cgltf_accessor_read_float] on a single-element scalar accessor with
    normalized u16 components over the bytes FF FF stores 1.0. *)
Theorem cgltf_component_read_float_divisors (mem : list Z) (in_ : Z) :
  let normalized_by (d v : Z) := f32_div (f32_of_Z v) (f32_of_Z d) in
  cgltf_component_read_float mem in_ cgltf_component_type_r_32u true
    = normalized_by 4294967295 <$> read_u32 mem in_
  /\ cgltf_component_read_float mem in_ cgltf_component_type_r_16 true
    = normalized_by 32767 <$> read_i16 mem in_
  /\ cgltf_component_read_float mem in_ cgltf_component_type_r_16u true
    = normalized_by 65535 <$> read_u16 mem in_
  /\ cgltf_component_read_float mem in_ cgltf_component_type_r_8 true
    = normalized_by 127 <$> read_i8 mem in_
  /\ cgltf_component_read_float mem in_ cgltf_component_type_r_8u true
    = normalized_by 127 <$> read_u8 mem in_
  /\ normalized_by 127 255 <> normalized_by 255 255
  /\ f32_of_Z 1 = f32_one
  /\ forall out0,
       cgltf_accessor_read_float u16_data u16_accessor 0 [out0] 1
       = Some (true, [f32_one]).
Proof.
  intros normalized_by.
  refine (conj _ (conj _ (conj _ (conj _ (conj _ (conj _ (conj _ _))))))).
  - unfold cgltf_component_read_float. cbn. destruct (read_u32 mem in_); reflexivity.
  - unfold cgltf_component_read_float. cbn. destruct (read_i16 mem in_); reflexivity.
  - unfold cgltf_component_read_float. cbn. destruct (read_u16 mem in_); reflexivity.
  - unfold cgltf_component_read_float. cbn. destruct (read_i8 mem in_); reflexivity.
  - unfold cgltf_component_read_float. cbn. destruct (read_u8 mem in_); reflexivity.
  - vm_compute. discriminate.
  - reflexivity.
  - intros out0. reflexivity.
Qed.

(** ** Properties of the validator *)

Lemma check_each_stop {A : Type} (body : A -> option check) (array : list A) (i : nat)
    (a : A) (r : cgltf_result) :
  array !! i = Some a ->
  check_each body (take i array) = Some Pass ->
  body a = Some (Stop r) ->
  check_each body array = Some (Stop r).
Proof.
  revert i. induction array as [| x array IH]; intros i Hi Hpre Hbody.
  - rewrite lookup_nil in Hi. discriminate.
  - destruct i as [| i]; cbn in *.
    + injection Hi as ->. rewrite Hbody. reflexivity.
    + destruct (body x) as [[| r'] |]; try discriminate. eauto.
Qed.

Lemma check_each_pass {A : Type} (body : A -> option check) (array : list A) :
  check_each body array = Some Pass -> Forall (fun a => body a = Some Pass) array.
Proof.
  induction array as [| x array IH]; cbn; intros H; [constructor |].
  destruct (body x) as [[| r] |] eqn:E; try discriminate. constructor; auto.
Qed.

Lemma accessor_req_size_exact (accessor : cgltf_accessor ptr) :
  1 <= acc_count accessor -> 0 <= acc_offset accessor -> 0 <= acc_stride accessor ->
  acc_offset accessor + acc_stride accessor * (acc_count accessor - 1)
  + cgltf_calc_size (acc_type accessor) (component_type accessor) < SIZE_MODULUS ->
  accessor_req_size accessor
  = acc_offset accessor + acc_stride accessor * (acc_count accessor - 1)
    + cgltf_calc_size (acc_type accessor) (component_type accessor).
Proof.
  intros Hc Ho Hs Hlt. unfold accessor_req_size, size_wrap.
  assert (He : 0 <= cgltf_calc_size (acc_type accessor) (component_type accessor)).
  { destruct (acc_type accessor), (component_type accessor); vm_compute; discriminate. }
  assert (Hm : SIZE_MODULUS <> 0) by discriminate.
  rewrite Z.mul_mod_idemp_r by exact Hm.
  set (x := acc_stride accessor * (acc_count accessor - 1)) in *.
  replace (acc_offset accessor + x mod SIZE_MODULUS
           + cgltf_calc_size (acc_type accessor) (component_type accessor))
    with (x mod SIZE_MODULUS
          + (acc_offset accessor
             + cgltf_calc_size (acc_type accessor) (component_type accessor))) by ring.
  rewrite Z.add_mod_idemp_l by exact Hm.
  rewrite Z.mod_small by nia. ring.
Qed.

Lemma validate_accessor_short (data : cgltf_data ptr) (accessor : cgltf_accessor ptr)
    (view : cgltf_buffer_view ptr) :
  deref (buffer_views data) (acc_buffer_view accessor) = Some view ->
  bv_size view < accessor_req_size accessor ->
  validate_accessor data accessor = Some (Stop cgltf_result_data_too_short).
Proof.
  intros Hview Hshort. unfold validate_accessor.
  assert (Hnn : acc_buffer_view accessor <> None).
  { intros E. rewrite E in Hview. discriminate. }
  rewrite (bool_decide_eq_false_2 _ Hnn), Hview. cbn.
  destruct (Z.ltb_spec (bv_size view) (accessor_req_size accessor)); [reflexivity | lia].
Qed.

Lemma check_each_stop_inv {A : Type} (body : A -> option check) (array : list A)
    (r : cgltf_result) :
  check_each body array = Some (Stop r) -> exists a, a ∈ array /\ body a = Some (Stop r).
Proof.
  induction array as [| x array IH]; cbn; intros H; [discriminate |].
  destruct (body x) as [[| r'] |] eqn:E; try discriminate.
  - destruct (IH H) as (a & Ha & Hb). exists a. split; [right; exact Ha | exact Hb].
  - injection H as ->. exists x. split; [left | exact E].
Qed.

Lemma validate_accessor_stop (data : cgltf_data ptr) (accessor : cgltf_accessor ptr)
    (r : cgltf_result) :
  validate_accessor data accessor = Some (Stop r) ->
  r = cgltf_result_data_too_short \/ r = cgltf_result_invalid_gltf.
Proof.
  unfold validate_accessor. intros H.
  repeat (match goal with
          | H : context [mbind _ ?x] |- _ => destruct x eqn:?; cbn in H
          | H : context [match ?x with _ => _ end] |- _ => destruct x eqn:?; cbn in H
          | H : context [if ?b then _ else _] |- _ => destruct b eqn:?; cbn in H
          end; try discriminate);
    simplify_eq; auto.
Qed.

Lemma cgltf_validate_success_bounds (data : cgltf_data ptr) :
  cgltf_validate data = Some cgltf_result_success ->
  Forall (fun accessor =>
            forall view,
              deref (buffer_views data) (acc_buffer_view accessor) = Some view ->
              accessor_req_size accessor <= bv_size view)
    (accessors data).
Proof.
  unfold cgltf_validate. intros H.
  destruct (check_each (validate_accessor data) (accessors data)) as [[| r] |] eqn:E;
    cbn in H; try discriminate.
  - apply check_each_pass in E. eapply Forall_impl; [exact E |].
    intros accessor Hpass view Hview. cbn in Hpass.
    destruct (Z.lt_ge_cases (bv_size view) (accessor_req_size accessor)) as [Hlt | Hge];
      [| lia].
    rewrite (validate_accessor_short data accessor view Hview Hlt) in Hpass. discriminate.
  - injection H as ->. apply check_each_stop_inv in E as (a & _ & Ha).
    apply validate_accessor_stop in Ha as [? | ?]; discriminate.
Qed.

(** C6 (amended): the loop of [cgltf_validate] over the accessors checks an
    accessor that has a buffer view against [view.size >= req_size], where
    [req_size] is [offset + stride * (count - 1) + element_size] in
    [cgltf_size] arithmetic: the mathematical value when [count] is 1 or
    more and the sum stays below 2^64.  When the inequality fails, the
    check of that accessor stops the validation with data-too-short;
    [cgltf_validate] returns data-too-short when the accessors before it
    pass their checks, and in any case it returns no success: an earlier
    accessor can only stop the validation with data-too-short or
    invalid-gltf. *)
Theorem cgltf_validate_accessor_bounds (data : cgltf_data ptr) (i : nat)
    (accessor : cgltf_accessor ptr) (view : cgltf_buffer_view ptr) :
  accessors data !! i = Some accessor ->
  deref (buffer_views data) (acc_buffer_view accessor) = Some view ->
  bv_size view < accessor_req_size accessor ->
  validate_accessor data accessor = Some (Stop cgltf_result_data_too_short)
  /\ (check_each (validate_accessor data) (take i (accessors data)) = Some Pass ->
      cgltf_validate data = Some cgltf_result_data_too_short)
  /\ (forall r, cgltf_validate data = Some r ->
                r = cgltf_result_data_too_short \/ r = cgltf_result_invalid_gltf)
  /\ (1 <= acc_count accessor -> 0 <= acc_offset accessor -> 0 <= acc_stride accessor ->
      acc_offset accessor + acc_stride accessor * (acc_count accessor - 1)
      + cgltf_calc_size (acc_type accessor) (component_type accessor) < SIZE_MODULUS ->
      accessor_req_size accessor
      = acc_offset accessor + acc_stride accessor * (acc_count accessor - 1)
        + cgltf_calc_size (acc_type accessor) (component_type accessor)).
Proof.
  intros Hi Hview Hshort.
  pose proof (validate_accessor_short data accessor view Hview Hshort) as Hstop.
  split; [exact Hstop |]. split; [| split; [| apply accessor_req_size_exact]].
  - intros Hbefore. unfold cgltf_validate.
    rewrite (check_each_stop _ _ i accessor cgltf_result_data_too_short Hi Hbefore Hstop).
    reflexivity.
  - intros r. unfold cgltf_validate.
    destruct (check_each (validate_accessor data) (accessors data)) as [[| r'] |] eqn:E;
      cbn; [| | discriminate].
    + apply check_each_pass in E. rewrite Forall_lookup in E.
      specialize (E i accessor Hi). cbn in E. congruence.
    + intros [= <-]. apply check_each_stop_inv in E as (a & _ & Ha).
      exact (validate_accessor_stop data a r' Ha).
Qed.

Lemma cgltf_validate_accessor_bounds_witness :
  accessor_req_size short_view_accessor = 36
  /\ cgltf_validate short_view_data = Some cgltf_result_data_too_short.
Proof.
  split; [reflexivity |].
  apply (proj1 (proj2 (cgltf_validate_accessor_bounds short_view_data 0
                         short_view_accessor (mk_buffer_view (Some 0%nat) 0 20 0)
                         eq_refl eq_refl eq_refl)));
    reflexivity.
Defined.

(** C6, as stated, fails where the sum wraps around: the accessor needs
    4 * 2^64 bytes, which is 0 in [cgltf_size] arithmetic, and the
    validation succeeds over a view of 8 bytes. *)
Lemma cgltf_validate_wrapped_accessor :
  cgltf_validate wrapped_data = Some cgltf_result_success
  /\ deref (buffer_views wrapped_data) (acc_buffer_view wrapped_accessor)
     = Some wrapped_view
  /\ accessor_req_size wrapped_accessor = 0
  /\ bv_size wrapped_view
     < acc_offset wrapped_accessor
       + acc_stride wrapped_accessor * (acc_count wrapped_accessor - 1)
       + cgltf_calc_size (acc_type wrapped_accessor) (component_type wrapped_accessor).
Proof. repeat split. Qed.

(** ** Properties of the extras helper *)

Lemma strncpy_fits (dest : list Z) :
  forall (src : list Z) (n : nat) (i : Z),
    (n <= length dest)%nat -> (n <= length src)%nat ->
    Forall (fun c => c <> 0) (take n src) ->
    strncpy dest src (Z.of_nat n) i = Copied (take n src ++ drop n dest).
Proof.
  induction dest as [| d dest IH]; intros src n i Hd Hs Hnz.
  - cbn in Hd. assert (n = 0%nat) as -> by lia. reflexivity.
  - destruct n as [| n]; [reflexivity |].
    cbn [strncpy]. destruct (Z.leb_spec (Z.of_nat (S n)) 0) as [? | _]; [lia |].
    destruct src as [| c src]; [cbn in Hs; lia |].
    cbn in Hnz. apply Forall_cons in Hnz as [Hc Hnz].
    destruct (Z.eqb_spec c 0) as [? | _]; [contradiction |].
    replace (Z.of_nat (S n) - 1) with (Z.of_nat n) by lia.
    rewrite IH; [reflexivity | cbn in Hd; lia | cbn in Hs; lia | exact Hnz].
Qed.

Lemma strncpy_overruns (dest : list Z) :
  forall (src : list Z) (n i : Z),
    count_of dest < n -> (length dest < length src)%nat ->
    Forall (fun c => c <> 0) (take (length dest) src) ->
    strncpy dest src n i = WritesOutside (i + count_of dest).
Proof.
  unfold count_of. induction dest as [| d dest IH]; intros src n i Hn Hs Hnz.
  - cbn in *. destruct (Z.leb_spec n 0); [lia |]. f_equal. lia.
  - cbn [strncpy]. destruct (Z.leb_spec n 0) as [? | _]; [cbn in Hn; lia |].
    destruct src as [| c src]; [cbn in Hs; lia |].
    cbn in Hnz. apply Forall_cons in Hnz as [Hc Hnz].
    destruct (Z.eqb_spec c 0) as [? | _]; [contradiction |].
    rewrite IH; [f_equal; cbn; lia | cbn in Hn; lia | cbn in Hs; lia | exact Hnz].
Qed.

(** Whenever the destination holds [size] bytes and the extras text has
    [size] or [size + 1] bytes, the copy writes at [dest[size]]. *)
Lemma cgltf_copy_extras_json_overrun {P : Set} (data : cgltf_data P)
    (extras : cgltf_extras) (buf : list Z) (size : Z) :
  let json_size := end_offset extras - start_offset extras in
  0 <= start_offset extras -> end_offset extras <= count_of (json data) ->
  Forall (fun c => c <> 0)
    (take (Z.to_nat json_size) (drop (Z.to_nat (start_offset extras)) (json data))) ->
  count_of buf = size -> json_size < SIZE_MODULUS - 1 ->
  size = json_size \/ size + 1 = json_size ->
  cgltf_copy_extras_json data extras (Some buf) (Some size) = WritesOutside size.
Proof.
  intros json_size Hstart Hend Hnz Hbuf Hmax Hsize. unfold cgltf_copy_extras_json.
  fold json_size. unfold count_of in *.
  assert (Hjs : 0 <= json_size) by lia.
  assert (Hw : size_wrap json_size = json_size).
  { apply Z.mod_small. unfold SIZE_MODULUS in *. lia. }
  assert (Hw1 : size_wrap (size + 1) = size + 1).
  { apply Z.mod_small. unfold SIZE_MODULUS in *. lia. }
  rewrite Hw, Hw1. destruct (Z.ltb_spec (size + 1) json_size) as [? | _]; [lia |].
  set (src := drop (Z.to_nat (start_offset extras)) (json data)) in *.
  assert (Hsrc : (Z.to_nat json_size <= length src)%nat).
  { subst src. rewrite length_drop. lia. }
  destruct Hsize as [Heq | Heq].
  - assert (Hcopy : strncpy buf src json_size 0
                    = Copied (take (Z.to_nat json_size) src
                              ++ drop (Z.to_nat json_size) buf)).
    { rewrite <- (Z2Nat.id json_size Hjs) at 1.
      apply strncpy_fits; [lia | exact Hsrc | exact Hnz]. }
    rewrite Hcopy.
    unfold store_nul, count_of. rewrite length_app, length_take, length_drop.
    destruct (Z.ltb_spec json_size 0); [lia |]. cbn [orb].
    match goal with |- context [?a <=? ?b] => destruct (Z.leb_spec a b) end;
      [f_equal; lia | lia].
  - rewrite (strncpy_overruns buf src json_size 0); unfold count_of.
    + f_equal. lia.
    + lia.
    + lia.
    + replace (length buf) with (Z.to_nat size) by lia.
      replace (take (Z.to_nat size) src)
        with (take (Z.to_nat size) (take (Z.to_nat json_size) src))
        by (rewrite take_take; f_equal; lia).
      apply Forall_take. exact Hnz.
Qed.

(** C8: [cgltf_copy_extras_json] on the five bytes of the extras [12345].
    With a null destination it stores the required size 6; with a capacity
    of 6 it copies the text and a NUL; with a capacity of 3 it copies two
    bytes and a NUL.  With a capacity of 5 or 4 the branch that truncates is
    not taken, five or four bytes are copied and the NUL is written at index
    [dest_size], outside the destination. *)
Theorem cgltf_copy_extras_json_overruns :
  let token := mk_extras 10 15 in
  cgltf_copy_extras_json extras_doc token None (Some 0)
    = Copied (cgltf_result_success, None, Some 6)
  /\ cgltf_copy_extras_json extras_doc token (Some [7; 7; 7; 7; 7; 7]) (Some 6)
    = Copied (cgltf_result_success, Some [49; 50; 51; 52; 53; 0], Some 6)
  /\ cgltf_copy_extras_json extras_doc token (Some [7; 7; 7]) (Some 3)
    = Copied (cgltf_result_success, Some [49; 50; 0], Some 3)
  /\ cgltf_copy_extras_json extras_doc token (Some [7; 7; 7; 7; 7]) (Some 5)
    = WritesOutside 5
  /\ cgltf_copy_extras_json extras_doc token (Some [7; 7; 7; 7]) (Some 4)
    = WritesOutside 4.
Proof. repeat split; vm_compute; reflexivity. Qed.

(** ** Properties of a successful validation *)

Lemma index_bound_loop_spec (read : list Z -> Z -> option Z) (width : Z) (mem : list Z) :
  forall (count : nat) (addr b0 b : Z),
    index_bound_loop read width mem addr count b0 = Some b ->
    b0 <= b
    /\ (forall k : nat, (k < count)%nat ->
          exists v, read mem (addr + width * Z.of_nat k) = Some v /\ v <= b)
    /\ (b = b0
        \/ exists k : nat, (k < count)%nat /\ read mem (addr + width * Z.of_nat k) = Some b).
Proof.
  induction count as [| count IH]; intros addr b0 b; cbn [index_bound_loop].
  - intros [= <-]. split; [lia |]. split; [lia | auto].
  - destruct (read mem addr) as [v |] eqn:Hv; cbn [mbind option_bind]; [| discriminate].
    intros Hrun. destruct (IH _ _ _ Hrun) as (Hge & Hall & Hmax).
    assert (Hb : b0 <= b /\ v <= b) by (destruct (Z.ltb_spec v b0); lia).
    split; [lia |]. split.
    + intros [| k] Hk.
      * exists v. rewrite Z.mul_0_r, Z.add_0_r. split; [exact Hv | lia].
      * destruct (Hall k ltac:(lia)) as (w & Hw & Hle). exists w.
        replace (addr + width * Z.of_nat (S k)) with (addr + width + width * Z.of_nat k)
          by lia.
        auto.
    + destruct Hmax as [Heq | (k & Hk & Hread)].
      * destruct (Z.ltb_spec v b0); [left; lia |].
        right. exists 0%nat. split; [lia |]. rewrite Z.mul_0_r, Z.add_0_r. congruence.
      * right. exists (S k). split; [lia |].
        replace (addr + width * Z.of_nat (S k)) with (addr + width + width * Z.of_nat k)
          by lia.
        exact Hread.
Qed.

(** What the bound computed by [cgltf_calc_index_bound] is. *)
Lemma cgltf_calc_index_bound_spec (data : cgltf_data ptr) (view : ptr) (offset : Z)
    (ct : cgltf_component_type) (count bound : Z) :
  cgltf_calc_index_bound data view offset ct count = Some bound ->
  exists bv mem,
    view_data data view = Some (bv, Some mem)
    /\ 0 <= bound
    /\ (is_index_type ct = false -> bound = 0)
    /\ (is_index_type ct = true ->
        (forall k, 0 <= k < count ->
           exists v, packed_index mem (view_address bv offset) ct k = Some v /\ v <= bound)
        /\ (bound = 0
            \/ exists k, 0 <= k < count
                         /\ packed_index mem (view_address bv offset) ct k = Some bound)).
Proof.
  unfold cgltf_calc_index_bound.
  destruct (view_data data view) as [[bv [mem |]] |]; cbn [mbind option_bind];
    try discriminate.
  intros Hrun. exists bv, mem. split; [reflexivity |].
  assert (Hloop : forall read width,
            index_bound_loop read width mem (size_wrap (offset + bv_offset bv))
              (Z.to_nat count) 0 = Some bound ->
            0 <= bound
            /\ (forall k, 0 <= k < count ->
                  exists v, read mem (view_address bv offset + width * k) = Some v
                            /\ v <= bound)
            /\ (bound = 0
                \/ exists k, 0 <= k < count
                             /\ read mem (view_address bv offset + width * k) = Some bound)).
  { intros read width H. apply index_bound_loop_spec in H as (Hge & Hall & Hmax).
    split; [exact Hge |]. split.
    - intros k Hk. destruct (Hall (Z.to_nat k) ltac:(lia)) as (v & Hv & Hle).
      rewrite Z2Nat.id in Hv by lia. eauto.
    - destruct Hmax as [-> | (k & Hk & Hread)]; [auto |].
      right. exists (Z.of_nat k). split; [lia | exact Hread]. }
  unfold packed_index.
  destruct ct; cbn [cgltf_component_size cgltf_component_read_index];
    try (injection Hrun as <-; split; [lia |]; split; [reflexivity | discriminate]);
    destruct (Hloop _ _ Hrun) as (Hge & Hall & Hmax);
    (split; [exact Hge |]); (split; [discriminate |]); intros _; auto.
Qed.

Lemma check_each_pass_elem {A : Type} (body : A -> option check) (array : list A) (a : A) :
  check_each body array = Some Pass -> a ∈ array -> body a = Some Pass.
Proof.
  intros H%check_each_pass Ha. rewrite Forall_forall in H. exact (H a Ha).
Qed.

Lemma validate_attribute_count_pass (data : cgltf_data ptr) (first : cgltf_accessor ptr)
    (attributes : list (cgltf_attribute ptr)) :
  check_each (validate_attribute_count data first) attributes = Some Pass ->
  attributes_have_count data (acc_count first) attributes.
Proof.
  intros H%check_each_pass. eapply Forall_impl; [exact H |].
  intros a Ha. cbn in Ha. unfold validate_attribute_count in Ha.
  destruct (deref (accessors data) (attr_data a)) as [acc |]; cbn in Ha; [| discriminate].
  case_bool_decide as Hcount; [discriminate |].
  exists acc. split; [reflexivity |]. destruct (decide (acc_count acc = acc_count first)); tauto.
Qed.

(** What a primitive that passes its checks looks like. *)
Lemma validate_primitive_pass (data : cgltf_data ptr) (first_prim p : cgltf_primitive ptr) :
  validate_primitive data first_prim p = Some Pass ->
  targets_count p = targets_count first_prim
  /\ forall a0 more,
       prim_attributes p = a0 :: more ->
       exists first,
         deref (accessors data) (attr_data a0) = Some first
         /\ attributes_have_count data (acc_count first) (prim_attributes p)
         /\ Forall (fun t => attributes_have_count data (acc_count first)
                               (target_attributes t)) (prim_targets p)
         /\ forall indices,
              deref (accessors data) (prim_indices p) = Some indices ->
              is_index_type (component_type indices) = true
              /\ forall bv mem,
                   view_data data (acc_buffer_view indices) = Some (bv, Some mem) ->
                   exists bound,
                     cgltf_calc_index_bound data (acc_buffer_view indices)
                       (acc_offset indices) (component_type indices) (acc_count indices)
                     = Some bound
                     /\ bound < acc_count first.
Proof.
  unfold validate_primitive. case_bool_decide as Htargets; [discriminate |].
  intros H. split; [destruct (decide (targets_count p = targets_count first_prim)); tauto |].
  intros a0 more Hattrs. rewrite Hattrs in H. rewrite <- Hattrs in H.
  destruct (deref (accessors data) (attr_data a0)) as [first |];
    cbn [mbind option_bind] in H; [| discriminate].
  exists first. split; [reflexivity |].
  destruct (check_each (validate_attribute_count data first) (prim_attributes p))
    as [[| r] |] eqn:E1; cbn [mbind option_bind] in H; try discriminate.
  split; [apply validate_attribute_count_pass, E1 |].
  match type of H with
  | context [check_each ?body (prim_targets p)] =>
      destruct (check_each body (prim_targets p)) as [[| r] |] eqn:E2;
        cbn [mbind option_bind] in H; try discriminate
  end.
  split.
  { apply check_each_pass in E2. eapply Forall_impl; [exact E2 |].
    intros t Ht. apply validate_attribute_count_pass, Ht. }
  intros indices Hind.
  destruct (prim_indices p) as [ip |] eqn:Hip; [| discriminate].
  rewrite Hind in H. cbn [mbind option_bind] in H.
  destruct (is_index_type (component_type indices)); cbn [negb] in H; [| discriminate].
  split; [reflexivity |]. intros bv mem Hview.
  case_bool_decide as Hnull; [rewrite Hnull in Hview; discriminate |].
  rewrite Hview in H. cbn [mbind option_bind] in H.
  destruct (cgltf_calc_index_bound data (acc_buffer_view indices) (acc_offset indices)
              (component_type indices) (acc_count indices)) as [bound |];
    cbn [mbind option_bind] in H; [| discriminate].
  exists bound. split; [reflexivity |].
  destruct (Z.leb_spec (acc_count first) bound); [discriminate | lia].
Qed.

Lemma check_each_stop_codes {A : Type} (body : A -> option check) (array : list A)
    (r : cgltf_result) :
  (forall a r, body a = Some (Stop r) -> validation_failure r) ->
  check_each body array = Some (Stop r) -> validation_failure r.
Proof.
  intros Hbody H. apply check_each_stop_inv in H as (a & _ & Ha). exact (Hbody a r Ha).
Qed.

Lemma validate_attribute_count_stop (data : cgltf_data ptr) (first : cgltf_accessor ptr)
    (a : cgltf_attribute ptr) (r : cgltf_result) :
  validate_attribute_count data first a = Some (Stop r) -> validation_failure r.
Proof.
  unfold validate_attribute_count.
  destruct (deref _ _); cbn; [| discriminate].
  case_bool_decide; intros [= <-]. right. reflexivity.
Qed.

Lemma validate_primitive_stop (data : cgltf_data ptr) (first_prim p : cgltf_primitive ptr)
    (r : cgltf_result) :
  validate_primitive data first_prim p = Some (Stop r) -> validation_failure r.
Proof.
  unfold validate_primitive. case_bool_decide; [intros [= <-]; right; reflexivity |].
  destruct (prim_attributes p) as [| a0 more] eqn:Hattrs; [discriminate |].
  rewrite <- Hattrs.
  destruct (deref (accessors data) (attr_data a0)) as [first |];
    cbn [mbind option_bind]; [| discriminate].
  destruct (check_each (validate_attribute_count data first) (prim_attributes p))
    as [[| r1] |] eqn:E1; cbn [mbind option_bind]; try discriminate.
  2:{ intros [= <-]. revert E1. apply check_each_stop_codes.
      apply validate_attribute_count_stop. }
  match goal with
  | |- context [check_each ?body (prim_targets p)] =>
      destruct (check_each body (prim_targets p)) as [[| r2] |] eqn:E2;
        cbn [mbind option_bind]; try discriminate
  end.
  2:{ intros [= <-]. revert E2. apply check_each_stop_codes.
      intros t r'. apply check_each_stop_codes, validate_attribute_count_stop. }
  destruct (prim_indices p) as [ip |]; [| discriminate].
  destruct (deref (accessors data) (Some ip)) as [indices |];
    cbn [mbind option_bind]; [| discriminate].
  destruct (is_index_type (component_type indices)); cbn [negb];
    [| intros [= <-]; right; reflexivity].
  case_bool_decide; [discriminate |].
  destruct (view_data data (acc_buffer_view indices)) as [[bv [mem |]] |];
    cbn [mbind option_bind]; try discriminate.
  destruct (cgltf_calc_index_bound _ _ _ _ _); cbn [mbind option_bind]; [| discriminate].
  destruct (_ <=? _); intros [= <-]. left. reflexivity.
Qed.

Lemma validate_mesh_stop (data : cgltf_data ptr) (m : cgltf_mesh ptr) (r : cgltf_result) :
  validate_mesh data m = Some (Stop r) -> validation_failure r.
Proof.
  unfold validate_mesh. destruct (primitives m) as [| first_prim rest]; [discriminate |].
  destruct (_ && _); [intros [= <-]; right; reflexivity |].
  apply check_each_stop_codes. intros p r'. apply validate_primitive_stop.
Qed.

Lemma validate_buffer_view_stop (data : cgltf_data ptr) (view : cgltf_buffer_view ptr)
    (r : cgltf_result) :
  validate_buffer_view data view = Some (Stop r) -> validation_failure r.
Proof.
  unfold validate_buffer_view. case_bool_decide; [discriminate |].
  destruct (deref _ _); cbn; [| discriminate].
  destruct (_ <? _); intros [= <-]. left. reflexivity.
Qed.

Lemma validate_node_stop (data : cgltf_data ptr) (n : cgltf_node ptr) (r : cgltf_result) :
  validate_node data n = Some (Stop r) -> validation_failure r.
Proof.
  unfold validate_node. destruct (_ && _); [| discriminate].
  destruct (deref _ _) as [m |]; cbn; [| discriminate].
  destruct (primitives m); [discriminate |].
  case_bool_decide; intros [= <-]. right. reflexivity.
Qed.

(** The result of a validation: success when the four loops pass, and the
    code of the first check that stops otherwise. *)
Lemma cgltf_validate_loops (data : cgltf_data ptr) (r : cgltf_result) :
  cgltf_validate data = Some r ->
  (r = cgltf_result_success
   /\ check_each (validate_accessor data) (accessors data) = Some Pass
   /\ check_each (validate_buffer_view data) (buffer_views data) = Some Pass
   /\ check_each (validate_mesh data) (meshes data) = Some Pass
   /\ check_each (validate_node data) (nodes data) = Some Pass)
  \/ validation_failure r.
Proof.
  unfold cgltf_validate.
  destruct (check_each (validate_accessor data) (accessors data)) as [[| r1] |] eqn:E1;
    cbn [mbind option_bind]; try discriminate.
  2:{ intros [= <-]. right. revert E1. apply check_each_stop_codes.
      intros a r'. apply validate_accessor_stop. }
  destruct (check_each (validate_buffer_view data) (buffer_views data)) as [[| r2] |] eqn:E2;
    cbn [mbind option_bind]; try discriminate.
  2:{ intros [= <-]. right. revert E2. apply check_each_stop_codes.
      intros a r'. apply validate_buffer_view_stop. }
  destruct (check_each (validate_mesh data) (meshes data)) as [[| r3] |] eqn:E3;
    cbn [mbind option_bind]; try discriminate.
  2:{ intros [= <-]. right. revert E3. apply check_each_stop_codes.
      intros a r'. apply validate_mesh_stop. }
  destruct (check_each (validate_node data) (nodes data)) as [[| r4] |] eqn:E4;
    cbn [mbind option_bind]; try discriminate.
  2:{ intros [= <-]. right. revert E4. apply check_each_stop_codes.
      intros a r'. apply validate_node_stop. }
  intros [= <-]. left. auto.
Qed.

Lemma cgltf_validate_success_loops (data : cgltf_data ptr) :
  cgltf_validate data = Some cgltf_result_success ->
  check_each (validate_accessor data) (accessors data) = Some Pass
  /\ check_each (validate_buffer_view data) (buffer_views data) = Some Pass
  /\ check_each (validate_mesh data) (meshes data) = Some Pass
  /\ check_each (validate_node data) (nodes data) = Some Pass.
Proof.
  intros H. apply cgltf_validate_loops in H as [(_ & H) | [H | H]];
    [exact H | discriminate | discriminate].
Qed.

(** What an accessor that passes its checks looks like. *)
Lemma validate_accessor_pass (data : cgltf_data ptr) (accessor : cgltf_accessor ptr) :
  validate_accessor data accessor = Some Pass ->
  (forall view,
     deref (buffer_views data) (acc_buffer_view accessor) = Some view ->
     accessor_req_size accessor <= bv_size view)
  /\ (is_sparse accessor = true ->
      exists ibv vbv,
        deref (buffer_views data) (indices_buffer_view (sparse accessor)) = Some ibv
        /\ deref (buffer_views data) (values_buffer_view (sparse accessor)) = Some vbv
        /\ sparse_indices_req_size accessor <= bv_size ibv
        /\ sparse_values_req_size accessor <= bv_size vbv
        /\ is_index_type (indices_component_type (sparse accessor)) = true
        /\ forall bv mem,
             view_data data (indices_buffer_view (sparse accessor)) = Some (bv, Some mem) ->
             exists bound,
               cgltf_calc_index_bound data (indices_buffer_view (sparse accessor))
                 (indices_byte_offset (sparse accessor))
                 (indices_component_type (sparse accessor))
                 (sparse_count (sparse accessor)) = Some bound
               /\ bound < acc_count accessor).
Proof.
  intros H. split.
  - intros view Hview.
    destruct (Z.lt_ge_cases (bv_size view) (accessor_req_size accessor)) as [Hlt | Hge];
      [| lia].
    rewrite (validate_accessor_short data accessor view Hview Hlt) in H. discriminate.
  - intros Hsparse. unfold validate_accessor in H.
    match type of H with
    | context [mbind _ ?c] => destruct c as [[| r] |]; cbn [mbind option_bind] in H
    end; try discriminate.
    rewrite Hsparse in H. cbv zeta in H.
    fold (sparse_indices_req_size accessor) in H.
    fold (sparse_values_req_size accessor) in H.
    destruct (deref (buffer_views data) (indices_buffer_view (sparse accessor)))
      as [ibv |]; cbn [mbind option_bind] in H; [| discriminate].
    destruct (Z.ltb_spec (bv_size ibv) (sparse_indices_req_size accessor)) as [| Hi];
      cbn [mbind option_bind] in H; [discriminate |].
    destruct (deref (buffer_views data) (values_buffer_view (sparse accessor)))
      as [vbv |]; cbn [mbind option_bind] in H; [| discriminate].
    destruct (Z.ltb_spec (bv_size vbv) (sparse_values_req_size accessor)) as [| Hv];
      cbn [mbind option_bind] in H; [discriminate |].
    destruct (is_index_type (indices_component_type (sparse accessor)));
      cbn [negb] in H; [| discriminate].
    exists ibv, vbv. repeat (split; [first [reflexivity | lia] |]).
    intros bv mem Hview. rewrite Hview in H. cbn [mbind option_bind] in H.
    destruct (cgltf_calc_index_bound _ _ _ _ _) as [bound |];
      cbn [mbind option_bind] in H; [| discriminate].
    exists bound. split; [reflexivity |].
    destruct (Z.leb_spec (acc_count accessor) bound); [discriminate | lia].
Qed.

Lemma validate_buffer_view_pass (data : cgltf_data ptr) (view : cgltf_buffer_view ptr)
    (buffer : cgltf_buffer) :
  validate_buffer_view data view = Some Pass ->
  deref (buffers data) (bv_buffer view) = Some buffer ->
  size_wrap (bv_offset view + bv_size view) <= buffer_size buffer.
Proof.
  unfold validate_buffer_view. intros H Hbuf.
  case_bool_decide as Hnull; [rewrite Hnull in Hbuf; discriminate |].
  rewrite Hbuf in H. cbn [mbind option_bind] in H.
  destruct (Z.ltb_spec (buffer_size buffer) (size_wrap (bv_offset view + bv_size view)));
    [discriminate | lia].
Qed.

Lemma validate_mesh_pass (data : cgltf_data ptr) (m : cgltf_mesh ptr)
    (first_prim : cgltf_primitive ptr) (rest : list (cgltf_primitive ptr)) :
  validate_mesh data m = Some Pass ->
  primitives m = first_prim :: rest ->
  (mesh_weights m <> None -> weights_count (mesh_weights m) = targets_count first_prim)
  /\ check_each (validate_primitive data first_prim) (primitives m) = Some Pass.
Proof.
  unfold validate_mesh. intros H Hprims. rewrite Hprims in H. rewrite <- Hprims in H.
  destruct (bool_decide (mesh_weights m <> None)) eqn:Hw; cbn [andb] in H.
  - case_bool_decide as Hcount; [discriminate |]. split; [| exact H].
    intros _. destruct (decide (weights_count (mesh_weights m) = targets_count first_prim));
      [assumption | congruence].
  - apply bool_decide_eq_false_1 in Hw. split; [tauto | exact H].
Qed.

Lemma validate_node_pass (data : cgltf_data ptr) (n : cgltf_node ptr) (m : cgltf_mesh ptr)
    (first_prim : cgltf_primitive ptr) (rest : list (cgltf_primitive ptr)) :
  validate_node data n = Some Pass ->
  node_weights n <> None ->
  deref (meshes data) (node_mesh n) = Some m ->
  primitives m = first_prim :: rest ->
  weights_count (node_weights n) = targets_count first_prim.
Proof.
  unfold validate_node. intros H Hw Hm Hprims.
  assert (Hmesh : node_mesh n <> None) by (intros E; rewrite E in Hm; discriminate).
  rewrite (bool_decide_eq_true_2 _ Hw), (bool_decide_eq_true_2 _ Hmesh) in H.
  cbn [andb] in H. rewrite Hm in H. cbn [mbind option_bind] in H. rewrite Hprims in H.
  case_bool_decide as Hcount; [discriminate |].
  destruct (decide (weights_count (node_weights n) = targets_count first_prim));
    [assumption | congruence].
Qed.

(** An element that lies inside the loaded buffer is read in full. *)
Lemma cgltf_accessor_read_float_in_bounds (data : cgltf_data ptr)
    (accessor : cgltf_accessor ptr) (view : cgltf_buffer_view ptr) (bytes : list Z)
    (index : Z) (out : list cgltf_float) (element_size : Z) :
  is_sparse accessor = false ->
  view_data data (acc_buffer_view accessor) = Some (view, Some bytes) ->
  cgltf_num_components (acc_type accessor) <= element_size ->
  count_of out = element_size ->
  size_wrap (size_wrap (acc_offset accessor + bv_offset view) + acc_stride accessor * index)
  + Z.max 1 (cgltf_calc_size (acc_type accessor) (component_type accessor))
  <= count_of bytes ->
  exists out',
    cgltf_accessor_read_float data accessor index out element_size = Some (true, out')
    /\ length out' = length out.
Proof.
  intros Hs Hview Hn Hout Hin. unfold cgltf_accessor_read_float.
  set (n := cgltf_num_components (acc_type accessor)) in *.
  set (element := size_wrap (size_wrap (acc_offset accessor + bv_offset view)
                             + acc_stride accessor * index)) in *.
  rewrite Hs. cbn [orb].
  assert (Hnn : acc_buffer_view accessor <> None).
  { intros E. rewrite E in Hview. discriminate. }
  rewrite (bool_decide_eq_false_2 _ Hnn), Hview. cbn [mbind option_bind].
  fold element.
  rewrite cgltf_element_read_float_eq by (fold n; lia). cbn [mbind option_bind].
  fold n.
  assert (Hel : 0 <= element).
  { subst element. unfold size_wrap. apply Z.mod_pos_bound. reflexivity. }
  destruct (read_components_spec bytes element (component_type accessor)
              (normalized accessor)
              (component_offset (acc_type accessor) (component_type accessor)
                 <$> seqZ 0 n) 0%nat out)
    as (out' & Hrun & Hlen' & _).
  { apply Forall_fmap, Forall_forall. intros k Hk%elem_of_seqZ. cbn.
    destruct (component_offset_bound (acc_type accessor) (component_type accessor) k)
      as [Hlo Hhi]; [fold n; lia |].
    apply cgltf_component_read_float_in_bounds; lia. }
  { rewrite length_fmap, length_seqZ. unfold count_of in Hout. lia. }
  exists out'. rewrite Hrun. cbn. split; [reflexivity | exact Hlen'].
Qed.

(** X1: the bound that [cgltf_calc_index_bound] returns is the maximum of
    the [count] tightly packed indices that start [offset] bytes into the
    view: every one of them is at most the bound, and the bound is one of
    them, or 0 when all are 0 or there is none.  For a component type other
    than unsigned 8, 16 or 32 bits the bound is 0. *)
Theorem cgltf_calc_index_bound_maximum (data : cgltf_data ptr) (view : ptr) (offset : Z)
    (component_type : cgltf_component_type) (count bound : Z) :
  cgltf_calc_index_bound data view offset component_type count = Some bound ->
  exists bv mem,
    view_data data view = Some (bv, Some mem)
    /\ 0 <= bound
    /\ (is_index_type component_type = false -> bound = 0)
    /\ (is_index_type component_type = true ->
        (forall k, 0 <= k < count ->
           exists v, packed_index mem (view_address bv offset) component_type k = Some v
                     /\ v <= bound)
        /\ (bound = 0
            \/ exists k, 0 <= k < count
                         /\ packed_index mem (view_address bv offset) component_type k
                            = Some bound)).
Proof. apply cgltf_calc_index_bound_spec. Qed.

Lemma cgltf_calc_index_bound_maximum_witness :
  cgltf_calc_index_bound triangle_data (Some 1%nat) 0 cgltf_component_type_r_16u 3 = Some 2
  /\ exists bv mem,
       view_data triangle_data (Some 1%nat) = Some (bv, Some mem)
       /\ packed_index mem (view_address bv 0) cgltf_component_type_r_16u 2 = Some 2.
Proof.
  split; [reflexivity |].
  destruct (cgltf_calc_index_bound_maximum triangle_data (Some 1%nat) 0
              cgltf_component_type_r_16u 3 2 eq_refl) as (bv & mem & Hview & _).
  exists bv, mem. split; [exact Hview |].
  injection Hview as <- <-. reflexivity.
Defined.

(** X2: [cgltf_validate] returns success, data-too-short or invalid-gltf and
    no other code; it returns success exactly when every accessor, every
    buffer view, every mesh and every node passes its checks. *)
Theorem cgltf_validate_result_codes (data : cgltf_data ptr) (r : cgltf_result) :
  cgltf_validate data = Some r ->
  (r = cgltf_result_success \/ r = cgltf_result_data_too_short
   \/ r = cgltf_result_invalid_gltf)
  /\ (r = cgltf_result_success <->
      Forall (fun a => validate_accessor data a = Some Pass) (accessors data)
      /\ Forall (fun v => validate_buffer_view data v = Some Pass) (buffer_views data)
      /\ Forall (fun m => validate_mesh data m = Some Pass) (meshes data)
      /\ Forall (fun n => validate_node data n = Some Pass) (nodes data)).
Proof.
  intros H. pose proof (cgltf_validate_loops data r H) as Hloops. split.
  - destruct Hloops as [(-> & _) | [-> | ->]]; auto.
  - split.
    + intros ->. apply cgltf_validate_success_loops in H as (H1 & H2 & H3 & H4).
      repeat split; apply check_each_pass; assumption.
    + intros (H1 & H2 & H3 & H4).
      assert (Hpass : forall {A} (body : A -> option check) array,
                Forall (fun a => body a = Some Pass) array ->
                check_each body array = Some Pass).
      { intros A body array. induction 1 as [| a array Ha _ IH]; [reflexivity |].
        cbn. rewrite Ha. exact IH. }
      unfold cgltf_validate in H.
      rewrite (Hpass _ _ _ H1), (Hpass _ _ _ H2), (Hpass _ _ _ H3), (Hpass _ _ _ H4) in H.
      cbn in H. congruence.
Qed.

Lemma cgltf_validate_result_codes_witness :
  cgltf_validate triangle_data = Some cgltf_result_success
  /\ Forall (fun a => validate_accessor triangle_data a = Some Pass)
       (accessors triangle_data).
Proof.
  split; [reflexivity |].
  exact (proj1 (proj1 (proj2 (cgltf_validate_result_codes triangle_data
                                cgltf_result_success eq_refl)) eq_refl)).
Defined.

(** X3: after a successful validation the attributes of a primitive agree on
    the vertex count: the accessor of every attribute of the primitive, and
    of every attribute of each of its morph targets, has the element count
    of the accessor of the first attribute. *)
Theorem cgltf_validate_success_attribute_counts (data : cgltf_data ptr)
    (m : cgltf_mesh ptr) (p : cgltf_primitive ptr) (a0 : cgltf_attribute ptr)
    (more : list (cgltf_attribute ptr)) :
  cgltf_validate data = Some cgltf_result_success ->
  m ∈ meshes data -> p ∈ primitives m -> prim_attributes p = a0 :: more ->
  exists first,
    deref (accessors data) (attr_data a0) = Some first
    /\ attributes_have_count data (acc_count first) (prim_attributes p)
    /\ Forall (fun t => attributes_have_count data (acc_count first) (target_attributes t))
         (prim_targets p).
Proof.
  intros Hok Hm Hp Hattrs.
  apply cgltf_validate_success_loops in Hok as (_ & _ & Hmeshes & _).
  pose proof (check_each_pass_elem _ _ m Hmeshes Hm) as Hmesh.
  destruct (primitives m) as [| first_prim rest] eqn:Hprims; [inversion Hp |].
  destruct (validate_mesh_pass data m first_prim rest Hmesh Hprims) as [_ Hall].
  rewrite Hprims in Hall.
  pose proof (check_each_pass_elem _ _ p Hall Hp) as Hprim.
  destruct (validate_primitive_pass data first_prim p Hprim) as [_ Hp'].
  destruct (Hp' a0 more Hattrs) as (first & Hfirst & Hcounts & Htargets & _).
  eauto.
Qed.

Lemma cgltf_validate_success_attribute_counts_witness :
  cgltf_validate morph_data = Some cgltf_result_success
  /\ exists first,
       deref (accessors morph_data) (attr_data morph_normal) = Some first
       /\ attributes_have_count morph_data (acc_count first)
            (prim_attributes morph_primitive_b)
       /\ Forall (fun t => attributes_have_count morph_data (acc_count first)
                             (target_attributes t))
            (prim_targets morph_primitive_b).
Proof.
  split; [reflexivity |].
  exact (cgltf_validate_success_attribute_counts morph_data morph_mesh
           morph_primitive_b morph_normal [morph_position] eq_refl
           ltac:(left) ltac:(right; left) eq_refl).
Defined.

(** X4: after a successful validation the indices of a primitive that has
    attributes are vertex indices: the index accessor has unsigned 8-, 16-
    or 32-bit components, and when its buffer is loaded each of its [count]
    tightly packed indices is below the element count of the accessor of the
    first attribute. *)
Theorem cgltf_validate_success_indices (data : cgltf_data ptr) (m : cgltf_mesh ptr)
    (p : cgltf_primitive ptr) (a0 : cgltf_attribute ptr)
    (more : list (cgltf_attribute ptr)) (indices : cgltf_accessor ptr) :
  cgltf_validate data = Some cgltf_result_success ->
  m ∈ meshes data -> p ∈ primitives m -> prim_attributes p = a0 :: more ->
  deref (accessors data) (prim_indices p) = Some indices ->
  is_index_type (component_type indices) = true
  /\ exists first,
       deref (accessors data) (attr_data a0) = Some first
       /\ forall view mem,
            view_data data (acc_buffer_view indices) = Some (view, Some mem) ->
            forall k, 0 <= k < acc_count indices ->
              exists v,
                packed_index mem (view_address view (acc_offset indices))
                  (component_type indices) k = Some v
                /\ v < acc_count first.
Proof.
  intros Hok Hm Hp Hattrs Hind.
  apply cgltf_validate_success_loops in Hok as (_ & _ & Hmeshes & _).
  pose proof (check_each_pass_elem _ _ m Hmeshes Hm) as Hmesh.
  destruct (primitives m) as [| first_prim rest] eqn:Hprims; [inversion Hp |].
  destruct (validate_mesh_pass data m first_prim rest Hmesh Hprims) as [_ Hall].
  rewrite Hprims in Hall.
  pose proof (check_each_pass_elem _ _ p Hall Hp) as Hprim.
  destruct (validate_primitive_pass data first_prim p Hprim) as [_ Hp'].
  destruct (Hp' a0 more Hattrs) as (first & Hfirst & _ & _ & Hindices).
  destruct (Hindices indices Hind) as [Htype Hbound].
  split; [exact Htype |]. exists first. split; [exact Hfirst |].
  intros view mem Hview k Hk.
  destruct (Hbound view mem Hview) as (bound & Hcalc & Hlt).
  apply cgltf_calc_index_bound_spec in Hcalc as (bv & mem' & Hview' & _ & _ & Hmax).
  rewrite Hview in Hview'. injection Hview' as <- <-.
  destruct (Hmax Htype) as [Hall' _].
  destruct (Hall' k Hk) as (v & Hv & Hle). exists v. split; [exact Hv | lia].
Qed.

Lemma cgltf_validate_success_indices_witness :
  cgltf_validate triangle_data = Some cgltf_result_success
  /\ exists v,
       packed_index triangle_bytes 36 cgltf_component_type_r_16u 2 = Some v /\ v < 3.
Proof.
  split; [reflexivity |].
  destruct (cgltf_validate_success_indices triangle_data triangle_mesh triangle_primitive
              (mk_attribute (Some 0%nat)) [] triangle_indices eq_refl
              ltac:(left) ltac:(left) eq_refl eq_refl)
    as (_ & first & Hfirst & Hall).
  injection Hfirst as <-.
  exact (Hall (mk_buffer_view (Some 0%nat) 36 6 0) triangle_bytes eq_refl 2
           ltac:(cbn; lia)).
Defined.

(** X5: after a successful validation the morph targets of a mesh agree with
    its weights: every primitive of the mesh has as many targets as the
    first one, the [weights] of the mesh, when present, are as many, and so
    are the [weights] of every node that has weights and refers to the mesh. *)
Theorem cgltf_validate_success_targets (data : cgltf_data ptr) (m : cgltf_mesh ptr)
    (first_prim : cgltf_primitive ptr) (rest : list (cgltf_primitive ptr)) :
  cgltf_validate data = Some cgltf_result_success ->
  m ∈ meshes data -> primitives m = first_prim :: rest ->
  (forall p, p ∈ primitives m -> targets_count p = targets_count first_prim)
  /\ (mesh_weights m <> None ->
      weights_count (mesh_weights m) = targets_count first_prim)
  /\ (forall n, n ∈ nodes data -> deref (meshes data) (node_mesh n) = Some m ->
        node_weights n <> None ->
        weights_count (node_weights n) = targets_count first_prim).
Proof.
  intros Hok Hm Hprims.
  apply cgltf_validate_success_loops in Hok as (_ & _ & Hmeshes & Hnodes).
  pose proof (check_each_pass_elem _ _ m Hmeshes Hm) as Hmesh.
  destruct (validate_mesh_pass data m first_prim rest Hmesh Hprims) as [Hweights Hall].
  split; [| split; [exact Hweights |]].
  - intros p Hp. pose proof (check_each_pass_elem _ _ p Hall Hp) as Hprim.
    exact (proj1 (validate_primitive_pass data first_prim p Hprim)).
  - intros n Hn Hmesh' Hw.
    pose proof (check_each_pass_elem _ _ n Hnodes Hn) as Hnode.
    exact (validate_node_pass data n m first_prim rest Hnode Hw Hmesh' Hprims).
Qed.

Lemma cgltf_validate_success_targets_witness :
  cgltf_validate morph_data = Some cgltf_result_success
  /\ targets_count morph_primitive_b = targets_count morph_primitive_a
  /\ weights_count (mesh_weights morph_mesh) = targets_count morph_primitive_a
  /\ weights_count (node_weights morph_node) = targets_count morph_primitive_a.
Proof.
  split; [reflexivity |].
  destruct (cgltf_validate_success_targets morph_data morph_mesh morph_primitive_a
              [morph_primitive_b] eq_refl ltac:(left) eq_refl)
    as (Hprims & Hmesh & Hnodes).
  split; [exact (Hprims morph_primitive_b ltac:(right; left)) |].
  split; [exact (Hmesh ltac:(discriminate)) |].
  exact (Hnodes morph_node ltac:(left) eq_refl ltac:(discriminate)).
Defined.

Lemma cgltf_calc_size_nonneg (type : cgltf_type) (ct : cgltf_component_type) :
  0 <= cgltf_calc_size type ct.
Proof. destruct type, ct; vm_compute; discriminate. Qed.

(** A required size of the sparse checks is the mathematical value when it
    stays below 2^64. *)
Lemma sparse_req_size_exact (offset size count : Z) :
  0 <= offset -> 0 <= size -> 0 <= count -> offset + size * count < SIZE_MODULUS ->
  size_wrap (offset + size_wrap (size * count)) = offset + size * count.
Proof.
  intros Ho Hs Hc Hlt. unfold size_wrap.
  assert (0 <= size * count) by nia.
  rewrite (Z.mod_small (size * count)) by lia. apply Z.mod_small. lia.
Qed.

(** X6: after a successful validation a sparse accessor has passed its
    checks.  Both of its views exist; the sizes the validator requires of
    them, byte offset + component (or element) size * [sparse.count] in
    [cgltf_size] arithmetic, are at most the sizes of the views; where these
    sums do not wrap around, the view of the indices holds [sparse.count]
    indices from their offset on and the view of the values as many
    elements.  The indices have unsigned 8-, 16- or 32-bit components, and
    when their buffer is loaded every sparse index is below the element
    count of the accessor. *)
Theorem cgltf_validate_success_sparse (data : cgltf_data ptr)
    (accessor : cgltf_accessor ptr) :
  cgltf_validate data = Some cgltf_result_success ->
  accessor ∈ accessors data -> is_sparse accessor = true ->
  exists indices_view values_view,
    deref (buffer_views data) (indices_buffer_view (sparse accessor)) = Some indices_view
    /\ deref (buffer_views data) (values_buffer_view (sparse accessor)) = Some values_view
    /\ sparse_indices_req_size accessor <= bv_size indices_view
    /\ sparse_values_req_size accessor <= bv_size values_view
    /\ (0 <= indices_byte_offset (sparse accessor) -> 0 <= sparse_count (sparse accessor) ->
        indices_byte_offset (sparse accessor)
        + cgltf_component_size (indices_component_type (sparse accessor))
          * sparse_count (sparse accessor) < SIZE_MODULUS ->
        indices_byte_offset (sparse accessor)
        + cgltf_component_size (indices_component_type (sparse accessor))
          * sparse_count (sparse accessor) <= bv_size indices_view)
    /\ (0 <= values_byte_offset (sparse accessor) -> 0 <= sparse_count (sparse accessor) ->
        values_byte_offset (sparse accessor)
        + cgltf_calc_size (acc_type accessor) (component_type accessor)
          * sparse_count (sparse accessor) < SIZE_MODULUS ->
        values_byte_offset (sparse accessor)
        + cgltf_calc_size (acc_type accessor) (component_type accessor)
          * sparse_count (sparse accessor) <= bv_size values_view)
    /\ is_index_type (indices_component_type (sparse accessor)) = true
    /\ forall view mem,
         view_data data (indices_buffer_view (sparse accessor)) = Some (view, Some mem) ->
         forall k, 0 <= k < sparse_count (sparse accessor) ->
           exists v,
             packed_index mem (view_address view (indices_byte_offset (sparse accessor)))
               (indices_component_type (sparse accessor)) k = Some v
             /\ v < acc_count accessor.
Proof.
  intros Hok Ha Hsparse.
  apply cgltf_validate_success_loops in Hok as (Haccessors & _).
  pose proof (check_each_pass_elem _ _ accessor Haccessors Ha) as Hpass.
  destruct (validate_accessor_pass data accessor Hpass) as [_ Hsp].
  destruct (Hsp Hsparse) as (ibv & vbv & Hi & Hv & Hisize & Hvsize & Htype & Hbound).
  exists ibv, vbv. do 4 (split; [assumption |]).
  split; [| split; [| split; [exact Htype |]]].
  - intros Ho Hc Hlt. unfold sparse_indices_req_size in Hisize. cbv zeta in Hisize.
    assert (Hscalar : cgltf_calc_size cgltf_type_scalar
                        (indices_component_type (sparse accessor))
                      = cgltf_component_size (indices_component_type (sparse accessor))).
    { destruct (indices_component_type (sparse accessor)); reflexivity. }
    rewrite Hscalar in Hisize.
    rewrite sparse_req_size_exact in Hisize; try assumption.
    destruct (indices_component_type (sparse accessor)); cbn; lia.
  - intros Ho Hc Hlt. unfold sparse_values_req_size in Hvsize. cbv zeta in Hvsize.
    rewrite sparse_req_size_exact in Hvsize; try assumption.
    apply cgltf_calc_size_nonneg.
  - intros view mem Hview k Hk.
    destruct (Hbound view mem Hview) as (bound & Hcalc & Hlt).
    apply cgltf_calc_index_bound_spec in Hcalc as (bv & mem' & Hview' & _ & _ & Hmax).
    rewrite Hview in Hview'. injection Hview' as <- <-.
    destruct (Hmax Htype) as [Hall' _].
    destruct (Hall' k Hk) as (v & Hv' & Hle). exists v. split; [exact Hv' | lia].
Qed.

Lemma cgltf_validate_success_sparse_witness :
  cgltf_validate sparse_data = Some cgltf_result_success
  /\ exists indices_view values_view,
       deref (buffer_views sparse_data) (Some 0%nat) = Some indices_view
       /\ deref (buffer_views sparse_data) (Some 1%nat) = Some values_view
       /\ 0 + 1 * 2 <= bv_size indices_view
       /\ 0 + 4 * 2 <= bv_size values_view.
Proof.
  split; [reflexivity |].
  destruct (cgltf_validate_success_sparse sparse_data sparse_accessor eq_refl
              ltac:(left) eq_refl) as (iv & vv & H1 & H2 & _ & _ & H5 & H6 & _).
  exists iv, vv. split; [exact H1 |]. split; [exact H2 |].
  split; [apply H5 | apply H6]; vm_compute; congruence.
Defined.

Lemma deref_elem_of {A : Type} (array : list A) (p : ptr) (a : A) :
  deref array p = Some a -> a ∈ array.
Proof.
  unfold deref. destruct p as [i |]; cbn; [| discriminate].
  apply list_elem_of_lookup_2.
Qed.

Lemma cgltf_calc_size_positive (type : cgltf_type) (ct : cgltf_component_type) :
  ct <> cgltf_component_type_invalid -> 1 <= cgltf_calc_size type ct.
Proof. intros H. destruct type, ct; try contradiction; vm_compute; discriminate. Qed.

(** X7: after a successful validation every element of an accessor that is
    not sparse lies inside its buffer, and [cgltf_accessor_read_float] reads
    it: with the buffer loaded in full, fields that do not wrap around, a
    valid component type and room for the components in the output, the
    call returns true for every index below the element count. *)
Theorem cgltf_validate_success_read_float (data : cgltf_data ptr)
    (accessor : cgltf_accessor ptr) (view : cgltf_buffer_view ptr) (buffer : cgltf_buffer)
    (bytes : list Z) (index : Z) (out : list cgltf_float) (element_size : Z) :
  cgltf_validate data = Some cgltf_result_success ->
  accessor ∈ accessors data -> is_sparse accessor = false ->
  deref (buffer_views data) (acc_buffer_view accessor) = Some view ->
  deref (buffers data) (bv_buffer view) = Some buffer ->
  buffer_data buffer = Some bytes -> buffer_size buffer <= count_of bytes ->
  component_type accessor <> cgltf_component_type_invalid ->
  sizes_do_not_wrap accessor view ->
  0 <= index < acc_count accessor ->
  cgltf_num_components (acc_type accessor) <= element_size ->
  count_of out = element_size ->
  bv_offset view + acc_offset accessor + acc_stride accessor * index
  + cgltf_calc_size (acc_type accessor) (component_type accessor) <= buffer_size buffer
  /\ exists out',
       cgltf_accessor_read_float data accessor index out element_size = Some (true, out')
       /\ length out' = length out.
Proof.
  intros Hok Ha Hsparse Hview Hbuffer Hbytes Hloaded Hct
    (Hoff & Hstride & Hvoff & Hvsize & Hsum & Hvsum) Hindex Hn Hout.
  apply cgltf_validate_success_loops in Hok as (Haccessors & Hviews & _).
  pose proof (check_each_pass_elem _ _ accessor Haccessors Ha) as Hpass.
  destruct (validate_accessor_pass data accessor Hpass) as [Hreq _].
  specialize (Hreq view Hview).
  rewrite accessor_req_size_exact in Hreq by lia.
  pose proof (check_each_pass_elem _ _ view Hviews (deref_elem_of _ _ _ Hview)) as Hvpass.
  pose proof (validate_buffer_view_pass data view buffer Hvpass Hbuffer) as Hfits.
  unfold size_wrap in Hfits. rewrite Z.mod_small in Hfits by lia.
  pose proof (cgltf_calc_size_positive (acc_type accessor) (component_type accessor) Hct)
    as Hsize.
  assert (Hmul : acc_stride accessor * index
                 <= acc_stride accessor * (acc_count accessor - 1)) by nia.
  assert (Hmul0 : 0 <= acc_stride accessor * index) by nia.
  split; [lia |].
  apply (cgltf_accessor_read_float_in_bounds data accessor view bytes);
    try assumption.
  - unfold view_data. rewrite Hview. cbn [mbind option_bind]. rewrite Hbuffer.
    cbn [mbind option_bind]. rewrite Hbytes. reflexivity.
  - unfold size_wrap. rewrite (Z.mod_small (acc_offset accessor + bv_offset view)) by lia.
    rewrite Z.mod_small by lia. lia.
Qed.

Lemma cgltf_validate_success_read_float_witness :
  cgltf_validate triangle_data = Some cgltf_result_success
  /\ exists out',
       cgltf_accessor_read_float triangle_data triangle_positions 2
         (replicate 3 (S754_zero false)) 3 = Some (true, out').
Proof.
  split; [reflexivity |].
  destruct (cgltf_validate_success_read_float triangle_data triangle_positions
              (mk_buffer_view (Some 0%nat) 0 36 0) (mk_buffer 42 (Some triangle_bytes))
              triangle_bytes 2 (replicate 3 (S754_zero false)) 3
              eq_refl ltac:(left) eq_refl eq_refl eq_refl eq_refl
              ltac:(vm_compute; discriminate) ltac:(discriminate)
              ltac:(repeat split; vm_compute; congruence)
              ltac:(cbn; lia) ltac:(cbn; lia) eq_refl)
    as (_ & out' & Hread & _).
  exists out'. exact Hread.
Defined.

(** ** Properties of the results of the parse *)

Lemma lor_shiftl_add (a b k : Z) :
  0 <= k -> 0 <= a < 2 ^ k -> Z.lor a (b * 2 ^ k) = a + b * 2 ^ k.
Proof.
  intros Hk Ha.
  rewrite <- Z.lxor_lor, <- Z.add_nocarry_lxor; try reflexivity.
  all: apply Z.bits_inj'; intros i Hi; rewrite Z.land_spec, Z.bits_0;
    destruct (Z.lt_ge_cases i k) as [Hlt | Hge];
    [ rewrite (Z.mul_pow2_bits_low b k i Hlt); apply andb_false_r
    | destruct (Z.eq_dec a 0) as [-> | Hnz]; [rewrite Z.bits_0; reflexivity |];
      rewrite (Z.bits_above_log2 a i); [reflexivity | lia |];
      apply Z.log2_lt_pow2; [lia |];
      pose proof (Z.pow_le_mono_r 2 k i ltac:(lia) Hge); lia ].
Qed.

Lemma read_u32_le32 (pre post : list Z) (n : Z) :
  0 <= n < 2 ^ 32 ->
  read_u32 (pre ++ le32 n ++ post) (count_of pre) = Some n.
Proof.
  intros Hn. unfold read_u32, read_u8, count_of.
  assert (Hat : forall i : Z, 0 <= i < 4 ->
            (pre ++ le32 n ++ post) !! Z.to_nat (Z.of_nat (length pre) + i)
            = le32 n !! Z.to_nat i).
  { intros i Hi. rewrite lookup_app_r by lia. rewrite lookup_app_l by (cbn; lia).
    f_equal. lia. }
  destruct (Z.ltb_spec (Z.of_nat (length pre)) 0) as [? | _]; [lia |].
  destruct (Z.ltb_spec (Z.of_nat (length pre) + 1) 0) as [? | _]; [lia |].
  destruct (Z.ltb_spec (Z.of_nat (length pre) + 2) 0) as [? | _]; [lia |].
  destruct (Z.ltb_spec (Z.of_nat (length pre) + 3) 0) as [? | _]; [lia |].
  pose proof (Hat 0 ltac:(lia)) as Hfirst. rewrite Z.add_0_r in Hfirst.
  rewrite Hfirst, (Hat 1), (Hat 2), (Hat 3) by lia.
  change (Z.to_nat 0) with 0%nat. change (Z.to_nat 1) with 1%nat.
  change (Z.to_nat 2) with 2%nat. change (Z.to_nat 3) with 3%nat.
  unfold le32. cbn [lookup list_lookup mbind option_bind]. f_equal.
  assert (Hb : forall x, 0 <= x mod 256 < 256) by (intros x; apply Z.mod_pos_bound; lia).
  pose proof (Hb n) as H0. pose proof (Hb (n / 256)) as H1.
  pose proof (Hb (n / 65536)) as H2.
  assert (H3 : (n / 16777216) mod 256 = n / 16777216).
  { apply Z.mod_small. split; [apply Z.div_pos; lia |].
    apply Z.div_lt_upper_bound; lia. }
  rewrite H3. rewrite !Z.shiftl_mul_pow2 by lia.
  rewrite (lor_shiftl_add (n mod 256) _ 8) by lia.
  replace (n / 16777216 * 2 ^ 24) with (n / 16777216 * 2 ^ 8 * 2 ^ 16) by lia.
  replace (Z.lor ((n / 65536) mod 256 * 2 ^ 16) (n / 16777216 * 2 ^ 8 * 2 ^ 16))
    with (((n / 65536) mod 256 + n / 16777216 * 2 ^ 8) * 2 ^ 16).
  2:{ rewrite <- !Z.shiftl_mul_pow2 by lia. rewrite <- Z.shiftl_lor.
      rewrite !Z.shiftl_mul_pow2 by lia. rewrite lor_shiftl_add by lia. reflexivity. }
  rewrite lor_shiftl_add by lia.
  change (2 ^ 8) with 256. change (2 ^ 16) with 65536.
  Z.div_mod_to_equations. lia.
Qed.

Lemma load_u32_le32 (pre post : list Z) (n offset : Z) :
  count_of pre = offset -> 0 <= n < 2 ^ 32 ->
  load_u32 (pre ++ le32 n ++ post) offset = n.
Proof.
  intros <- Hn. unfold load_u32. rewrite read_u32_le32 by exact Hn. reflexivity.
Qed.

Section ParseResults.

Variable decoder : cgltf_options -> list jsmntok_t -> list Z -> Z * cgltf_data encoded.
Variable malloc : Z -> bool.
Variable sizeof_data : Z.
Variable garbage : jsmntok_t.

Local Abbreviation parse := (cgltf_parse decoder malloc sizeof_data garbage).
Local Abbreviation parse_json := (cgltf_parse_json decoder malloc sizeof_data garbage).
Local Abbreviation parse_as := (parse_json_as decoder malloc sizeof_data garbage).

Lemma cgltf_parse_json_link_outcome (i : Z) (data : cgltf_data encoded) (text : list Z)
    (r : cgltf_result) (out : option (cgltf_data ptr)) :
  cgltf_parse_json_link i data text = (r, out) ->
  (r = cgltf_result_success
   /\ exists root, out = Some root /\ json root = text /\ bin root = bin data
                   /\ file_type root = file_type data)
  \/ (out = None /\ json_failure r).
Proof.
  unfold cgltf_parse_json_link, json_failure.
  destruct (i <? 0).
  { destruct (i =? CGLTF_ERROR_NOMEM); intros [= <- <-]; auto. }
  destruct (cgltf_fixup_pointers data) as [linked | code] eqn:Hfix;
    intros [= <- <-]; [| auto].
  left. split; [reflexivity |]. eexists. split; [reflexivity |]. cbn.
  split; [reflexivity |].
  unfold cgltf_fixup_pointers in Hfix.
  repeat match type of Hfix with
         | (mbind _ ?m) = _ =>
             destruct m as [? | ?] eqn:?; cbn [mbind fixup_mbind fixup_bind] in Hfix;
             [| discriminate]
         | (let '(_, _) := ?x in _) = _ => destruct x
         end.
  injection Hfix as <-. cbn. auto.
Qed.

Lemma cgltf_parse_json_tokens_outcome (options : cgltf_options) (text : list Z)
    (r : cgltf_result) (out : option (cgltf_data ptr)) :
  cgltf_parse_json_tokens decoder malloc sizeof_data garbage options text = Some (r, out) ->
  (r = cgltf_result_success /\ exists root, out = Some root /\ json root = text)
  \/ (out = None /\ json_failure r).
Proof.
  unfold cgltf_parse_json_tokens, json_failure. intros Ho.
  destruct (negb _); [injection Ho as <- <-; auto |].
  destruct (jsmn_parse _ text (Some _) _) as [[[tc q] toks] |]; cbn in Ho;
    [| discriminate].
  destruct (tc <=? 0); [injection Ho as <- <-; auto |].
  destruct (negb _); [injection Ho as <- <-; auto |].
  destruct (decoder options (default [] toks) text) as [i decoded].
  injection Ho as Ho.
  apply cgltf_parse_json_link_outcome in Ho
    as [(-> & root & -> & Htext & _) | [-> Hr]]; [left | right; auto].
  split; [reflexivity |]. exists root. auto.
Qed.

(** [cgltf_parse_json] writes [*out_data] exactly when it returns success;
    the root it hands out holds the JSON text it was given. *)
Lemma cgltf_parse_json_outcome (options : cgltf_options) (text : list Z)
    (r : cgltf_result) (out : option (cgltf_data ptr)) :
  parse_json options text = Some (r, out) ->
  (r = cgltf_result_success /\ exists root, out = Some root /\ json root = text)
  \/ (out = None /\ json_failure r).
Proof.
  unfold cgltf_parse_json. intros H.
  destruct (json_token_count options =? 0);
    [| exact (cgltf_parse_json_tokens_outcome _ _ _ _ H)].
  destruct (jsmn_parse _ text None 0) as [[[tc q] toks] |]; cbn in H; [| discriminate].
  destruct (tc <=? 0); cbn in H; [| exact (cgltf_parse_json_tokens_outcome _ _ _ _ H)].
  injection H as <- <-. right. unfold json_failure. auto.
Qed.

Lemma parse_json_as_outcome (ft : cgltf_file_type) (payload : option (list Z))
    (options : cgltf_options) (text : list Z) (r : cgltf_result)
    (out : option (cgltf_data ptr)) :
  parse_as ft payload options text = Some (r, out) ->
  (r = cgltf_result_success
   /\ exists root, out = Some root /\ json root = text
                   /\ file_type root = ft /\ bin root = payload)
  \/ (out = None /\ json_failure r).
Proof.
  unfold parse_json_as.
  destruct (parse_json options text) as [[jr jo] |] eqn:Hjson; [| discriminate].
  apply cgltf_parse_json_outcome in Hjson as [(-> & root & -> & Hjson) | [-> Hr]].
  - rewrite bool_decide_eq_false_2 by auto. intros [= <- <-]. left.
    split; [reflexivity |]. eexists. split; [reflexivity |]. cbn. auto.
  - assert (jr <> cgltf_result_success).
    { destruct Hr as [-> | [-> | ->]]; discriminate. }
    rewrite bool_decide_eq_true_2 by assumption. intros [= <- <-]. auto.
Qed.

Lemma load_u32_nonneg (data : list Z) (offset : Z) : bytes data -> 0 <= load_u32 data offset.
Proof.
  intros Hbytes. unfold load_u32, read_u32, read_u8.
  assert (Hbyte : forall a b, (if a <? 0 then None else data !! Z.to_nat a) = Some b ->
                              0 <= b).
  { intros a b H. destruct (a <? 0); [discriminate |].
    apply list_elem_of_lookup_2 in H. unfold bytes in Hbytes. rewrite Forall_forall in Hbytes.
    apply Hbytes in H. lia. }
  repeat match goal with
         | |- context [if ?a <? 0 then None else data !! Z.to_nat ?a] =>
             let E := fresh "E" in
             destruct (if a <? 0 then None else data !! Z.to_nat a) as [? |] eqn:E;
             cbn [mbind option_bind default]; [apply Hbyte in E | lia]
         end.
  repeat (apply Z.lor_nonneg; split); try apply Z.shiftl_nonneg; assumption.
Qed.

Lemma cgltf_parse_glb_outcome (o : cgltf_options) (data : list Z)
    (r : cgltf_result) (out : option (cgltf_data ptr)) :
  GlbHeaderSize <= count_of data ->
  type o <> cgltf_file_type_gltf -> load_u32 data 0 = GlbMagic ->
  parse (Some o) data = Some (r, out) ->
  (r = cgltf_result_success /\ exists root, out = Some root /\ glb_root data root)
  \/ (out = None /\ parse_failure r).
Proof.
  intros Hlong Hnot Hmagic. unfold cgltf_parse, parse_failure, glb_root.
  destruct (Z.ltb_spec (count_of data) GlbHeaderSize) as [| _]; [lia |].
  cbv zeta. cbn [type json_token_count memory_alloc].
  rewrite (bool_decide_eq_false_2 (load_u32 data 0 <> GlbMagic)) by tauto.
  cbn [type]. rewrite (bool_decide_eq_false_2 _ Hnot).
  change GlbHeaderSize with 12 in *. change GlbChunkHeaderSize with 8.
  change (12 + 8) with 20. change (12 + 4) with 16.
  case_bool_decide as Hversion; [intros [= <- <-]; auto 6 |].
  destruct (Z.ltb_spec (count_of data) (load_u32 data 8)) as [| Htotal];
    [intros [= <- <-]; auto 6 |].
  destruct (Z.ltb_spec (count_of data) 20) as [| Hchunk];
    [intros [= <- <-]; auto 6 |].
  destruct (Z.ltb_spec (count_of data) (20 + load_u32 data 12)) as [| Hjson];
    [intros [= <- <-]; auto 6 |].
  case_bool_decide as Hjmagic; [intros [= <- <-]; auto 6 |].
  assert (Hv : load_u32 data 4 = GlbVersion).
  { destruct (decide (load_u32 data 4 = GlbVersion)); [assumption | contradiction]. }
  assert (Hjm : load_u32 data 16 = GlbMagicJsonChunk).
  { destruct (decide (load_u32 data 16 = GlbMagicJsonChunk));
      [assumption | contradiction]. }
  change (Z.to_nat 20) with 20%nat.
  destruct (Z.leb_spec (20 + load_u32 data 12 + 8) (count_of data)) as [Hbin | Hnobin].
  - destruct (Z.ltb_spec (count_of data)
                (20 + load_u32 data 12 + 8 + load_u32 data (20 + load_u32 data 12)))
      as [| Hbinlen]; [intros [= <- <-]; auto 6 |].
    case_bool_decide as Hbmagic; [intros [= <- <-]; auto 6 |].
    intros H.
    apply parse_json_as_outcome in H as [(-> & root & -> & Hj & Hft & Hb) | [-> Hr]];
      [left | right; auto].
    split; [reflexivity |]. exists root. split; [reflexivity |].
    repeat (split; [first [assumption | lia] |]).
    right. split; [| split; [lia | exact Hb]].
    destruct (decide (load_u32 data (20 + load_u32 data 12 + 4) = GlbMagicBinChunk));
      [assumption | contradiction].
  - intros H.
    apply parse_json_as_outcome in H as [(-> & root & -> & Hj & Hft & Hb) | [-> Hr]];
      [left | right; auto].
    split; [reflexivity |]. exists root. split; [reflexivity |].
    repeat (split; [first [assumption | lia] |]).
    left. split; [lia | exact Hb].
Qed.

(** What [cgltf_parse] returns: the root of the text or of the JSON chunk
    with success, and no root with any other code. *)
Lemma cgltf_parse_outcome (options : option cgltf_options) (data : list Z)
    (r : cgltf_result) (out : option (cgltf_data ptr)) :
  parse options data = Some (r, out) ->
  (r = cgltf_result_success
   /\ exists o root,
        options = Some o /\ out = Some root /\ GlbHeaderSize <= count_of data
        /\ ((file_type root = cgltf_file_type_gltf /\ json root = data /\ bin root = None
             /\ (type o = cgltf_file_type_gltf
                 \/ (type o = cgltf_file_type_invalid /\ load_u32 data 0 <> GlbMagic)))
            \/ (type o <> cgltf_file_type_gltf /\ glb_root data root)))
  \/ (out = None /\ parse_failure r).
Proof.
  destruct (Z.lt_ge_cases (count_of data) GlbHeaderSize) as [Hshort | Hlong].
  { unfold cgltf_parse. destruct (Z.ltb_spec (count_of data) GlbHeaderSize); [| lia].
    intros [= <- <-]. right. unfold parse_failure. auto. }
  destruct options as [o |].
  2:{ rewrite cgltf_parse_null_options by exact Hlong. intros [= <- <-].
      right. unfold parse_failure. auto. }
  destruct (decide (type o = cgltf_file_type_gltf
                    \/ (type o = cgltf_file_type_invalid /\ load_u32 data 0 <> GlbMagic)))
    as [Htext | Hglb].
  - rewrite (cgltf_parse_as_text decoder malloc sizeof_data garbage o data Hlong Htext).
    intros H.
    apply parse_json_as_outcome in H as [(-> & root & -> & Hj & Hft & Hb) | [-> Hr]].
    + left. split; [reflexivity |]. exists o, root. auto 10.
    + right. unfold parse_failure. auto.
  - destruct (decide (load_u32 data 0 = GlbMagic)) as [Hmagic | Hmagic].
    + assert (Hnot : type o <> cgltf_file_type_gltf) by tauto.
      intros H. apply (cgltf_parse_glb_outcome o data r out Hlong Hnot Hmagic) in H
        as [(-> & root & -> & Hroot) | [-> Hr]]; [left | right; auto].
      split; [reflexivity |]. exists o, root. auto 10.
    + assert (Hpin : type o = cgltf_file_type_glb) by (destruct (type o); tauto).
      unfold cgltf_parse.
      destruct (Z.ltb_spec (count_of data) GlbHeaderSize); [lia |].
      cbv zeta. cbn [type]. rewrite Hpin.
      rewrite (bool_decide_eq_true_2 _ Hmagic). cbn.
      intros [= <- <-]. right. unfold parse_failure. auto.
Qed.

(** X8: [cgltf_parse] writes [*out_data] exactly when it returns success,
    and the codes it returns are success, data-too-short, unknown-format,
    invalid-json, invalid-gltf, invalid-options and out-of-memory: never
    file-not-found nor io-error. *)
Theorem cgltf_parse_writes_root_on_success (options : option cgltf_options)
    (data : list Z) (r : cgltf_result) (out : option (cgltf_data ptr)) :
  parse options data = Some (r, out) ->
  (r = cgltf_result_success <-> is_Some out)
  /\ r <> cgltf_result_file_not_found /\ r <> cgltf_result_io_error.
Proof.
  intros H. apply cgltf_parse_outcome in H as [(-> & o & root & _ & -> & _) | [-> Hr]].
  - split; [| split; discriminate]. split; eauto.
  - assert (Hcode : r <> cgltf_result_success /\ r <> cgltf_result_file_not_found
                    /\ r <> cgltf_result_io_error).
    { destruct Hr as [[-> | [-> | ->]] | [-> | [-> | ->]]]; repeat split; discriminate. }
    destruct Hcode as (Hs & Hf & Hio). split; [| auto].
    split; [contradiction | intros [? [=]]].
Qed.

(** X9: the root of a successful parse holds the chunks of the input.  For
    glTF text the JSON is the whole input and there is no BIN payload.  For
    a GLB container, which starts with the GLB magic and version 2, the JSON
    is the chunk that follows the 20 bytes of the two headers, of the length
    stored at offset 12, and the BIN payload, when the input goes on for 8
    bytes or more after the JSON chunk, is the chunk after the next 8 bytes,
    of the length stored there; both chunks lie inside the input. *)
Theorem cgltf_parse_success_chunks (options : option cgltf_options) (data : list Z)
    (root : cgltf_data ptr) :
  bytes data ->
  parse options data = Some (cgltf_result_success, Some root) ->
  (file_type root = cgltf_file_type_gltf /\ json root = data /\ bin root = None)
  \/ (file_type root = cgltf_file_type_glb
      /\ load_u32 data 0 = GlbMagic /\ load_u32 data 4 = GlbVersion
      /\ load_u32 data 16 = GlbMagicJsonChunk
      /\ json root = take (Z.to_nat (load_u32 data 12)) (drop 20 data)
      /\ count_of (json root) = load_u32 data 12
      /\ let bin_offset := 20 + load_u32 data 12 in
         (count_of data < bin_offset + 8 /\ bin root = None)
         \/ (load_u32 data (bin_offset + 4) = GlbMagicBinChunk
             /\ exists payload,
                  bin root = Some payload
                  /\ payload = take (Z.to_nat (load_u32 data bin_offset))
                                 (drop (Z.to_nat (bin_offset + 8)) data)
                  /\ count_of payload = load_u32 data bin_offset)).
Proof.
  intros Hbytes H.
  apply cgltf_parse_outcome in H as [(_ & o & root' & _ & [= <-] & Hlong & Hroot) | [[=] _]].
  destruct Hroot as [(Hft & Hj & Hb & _) | (_ & Hglb)]; [auto |]. right.
  destruct Hglb as (Hft & Hmagic & Hversion & _ & Hjmagic & Hjlen & Hj & Hbin).
  pose proof (load_u32_nonneg data 12 Hbytes) as Hnn.
  repeat (split; [assumption |]). split.
  { rewrite Hj. unfold count_of in *. rewrite length_take, length_drop. lia. }
  cbv zeta. destruct Hbin as [[Hshort Hb] | (Hbmagic & Hblen & Hb)]; [auto |].
  right. split; [exact Hbmagic |]. eexists. split; [exact Hb |]. split; [reflexivity |].
  pose proof (load_u32_nonneg data (20 + load_u32 data 12) Hbytes) as Hnn'.
  unfold count_of in *. rewrite length_take, length_drop. lia.
Qed.

(** X10: a GLB container built around a JSON chunk and a BIN chunk is taken
    apart into exactly these chunks: under options that do not pin the type
    to glTF text, [cgltf_parse] of the container is [cgltf_parse_json] of
    the JSON chunk, and on success the root is tagged GLB, its JSON is the
    JSON chunk and its BIN payload is the BIN chunk. *)
Theorem cgltf_parse_glb_file (o : cgltf_options) (js payload : list Z) :
  type o <> cgltf_file_type_gltf ->
  28 + count_of js + count_of payload < 2 ^ 32 ->
  parse (Some o) (glb_file js payload)
  = parse_as cgltf_file_type_glb (Some payload)
      (mk_options (type o) (json_token_count o) (Some (options_alloc malloc o))) js
  /\ forall r out,
       parse (Some o) (glb_file js payload) = Some (r, out) ->
       (r = cgltf_result_success
        /\ exists root,
             out = Some root /\ file_type root = cgltf_file_type_glb
             /\ json root = js /\ bin root = Some payload)
       \/ (out = None /\ json_failure r).
Proof.
  intros Hnot Hsize.
  assert (Hparse : parse (Some o) (glb_file js payload)
                   = parse_as cgltf_file_type_glb (Some payload)
                       (mk_options (type o) (json_token_count o)
                          (Some (options_alloc malloc o))) js).
  2:{ split; [exact Hparse |]. intros r out. rewrite Hparse. intros H.
      apply parse_json_as_outcome in H as [(-> & root & -> & Hj & Hft & Hb) | [-> Hr]];
        [left | right; auto].
      split; [reflexivity |]. exists root. auto. }
  set (total := GlbHeaderSize + GlbChunkHeaderSize + count_of js
                + GlbChunkHeaderSize + count_of payload).
  set (h1 := le32 GlbMagic ++ le32 GlbVersion ++ le32 total).
  set (h2 := le32 (count_of js) ++ le32 GlbMagicJsonChunk).
  set (h3 := le32 (count_of payload) ++ le32 GlbMagicBinChunk).
  assert (Hfile : glb_file js payload = (h1 ++ h2) ++ js ++ h3 ++ payload).
  { unfold glb_file, h1, h2, h3. fold total. rewrite <- !app_assoc. reflexivity. }
  assert (Hlen : count_of (glb_file js payload) = 28 + count_of js + count_of payload).
  { rewrite Hfile. unfold count_of. rewrite !length_app. cbn. lia. }
  pose proof (Nat2Z.is_nonneg (length js)) as Hjs.
  pose proof (Nat2Z.is_nonneg (length payload)) as Hbin. fold (count_of js) in Hjs.
  fold (count_of payload) in Hbin.
  assert (Hmagic : load_u32 (glb_file js payload) 0 = GlbMagic).
  { apply (load_u32_le32 []); [reflexivity | vm_compute; split; congruence]. }
  assert (Hversion : load_u32 (glb_file js payload) 4 = GlbVersion).
  { unfold glb_file. apply (load_u32_le32 (le32 GlbMagic));
      [reflexivity | vm_compute; split; congruence]. }
  assert (Htotal : load_u32 (glb_file js payload) 8 = total).
  { unfold glb_file. fold total. rewrite (app_assoc (le32 GlbMagic)).
    apply load_u32_le32; [reflexivity |]. subst total.
    change GlbHeaderSize with 12. change GlbChunkHeaderSize with 8. lia. }
  assert (Hload : forall pre n post offset,
            glb_file js payload = pre ++ le32 n ++ post ->
            count_of pre = offset -> 0 <= n < 2 ^ 32 ->
            load_u32 (glb_file js payload) offset = n).
  { intros pre n post offset ->. apply load_u32_le32. }
  assert (Hjlen : load_u32 (glb_file js payload) 12 = count_of js).
  { apply (Hload h1 _ (le32 GlbMagicJsonChunk ++ js ++ h3 ++ payload));
      [| reflexivity | lia].
    rewrite Hfile. unfold h2. rewrite <- !app_assoc. reflexivity. }
  assert (Hjmagic : load_u32 (glb_file js payload) 16 = GlbMagicJsonChunk).
  { apply (Hload (h1 ++ le32 (count_of js)) _ (js ++ h3 ++ payload));
      [| reflexivity | vm_compute; split; congruence].
    rewrite Hfile. unfold h2. rewrite <- !app_assoc. reflexivity. }
  assert (Hblen : load_u32 (glb_file js payload) (20 + count_of js) = count_of payload).
  { apply (Hload (h1 ++ h2 ++ js) _ (le32 GlbMagicBinChunk ++ payload)); [| | lia].
    - rewrite Hfile. unfold h3. rewrite <- !app_assoc. reflexivity.
    - unfold count_of. rewrite !length_app. cbn. lia. }
  assert (Hbmagic : load_u32 (glb_file js payload) (20 + count_of js + 4)
                    = GlbMagicBinChunk).
  { apply (Hload (h1 ++ h2 ++ js ++ le32 (count_of payload)) _ payload);
      [| | vm_compute; split; congruence].
    - rewrite Hfile. unfold h3. rewrite <- !app_assoc. reflexivity.
    - unfold count_of. rewrite !length_app. cbn. lia. }
  unfold cgltf_parse. rewrite Hlen.
  change GlbHeaderSize with 12 in *. change GlbChunkHeaderSize with 8 in *.
  change (12 + 8) with 20. change (12 + 4) with 16.
  destruct (Z.ltb_spec (28 + count_of js + count_of payload) 12); [lia |].
  cbv zeta. cbn [type json_token_count memory_alloc]. rewrite Hmagic.
  rewrite (bool_decide_eq_false_2 (GlbMagic <> GlbMagic)) by tauto.
  cbn [type]. rewrite (bool_decide_eq_false_2 _ Hnot).
  rewrite Hversion, (bool_decide_eq_false_2 (GlbVersion <> GlbVersion)) by tauto.
  rewrite Htotal, Hjlen, Hjmagic, Hblen, Hbmagic.
  rewrite (bool_decide_eq_false_2 (GlbMagicJsonChunk <> GlbMagicJsonChunk)) by tauto.
  rewrite (bool_decide_eq_false_2 (GlbMagicBinChunk <> GlbMagicBinChunk)) by tauto.
  subst total.
  repeat match goal with
         | |- context [?a <? ?b] => destruct (Z.ltb_spec a b); [lia |]
         | |- context [?a <=? ?b] => destruct (Z.leb_spec a b); [| lia]
         end.
  f_equal.
  - f_equal.
    replace (glb_file js payload) with ((h1 ++ h2 ++ js ++ h3) ++ payload)
      by (rewrite Hfile, <- !app_assoc; reflexivity).
    rewrite drop_app_length' by (rewrite !length_app; unfold count_of; cbn; lia).
    apply take_ge. unfold count_of. lia.
  - rewrite Hfile. rewrite (drop_app_length' (h1 ++ h2)) by reflexivity.
    apply take_app_length'. unfold count_of. lia.
Qed.

End ParseResults.

Lemma cgltf_parse_writes_root_on_success_witness :
  cgltf_parse accept_all always_alloc 0 zero_token (Some auto_options) asset_doc
  = Some (cgltf_result_success, Some (empty_root cgltf_file_type_gltf asset_doc None))
  /\ (cgltf_result_success = cgltf_result_success
      <-> is_Some (Some (empty_root cgltf_file_type_gltf asset_doc None))).
Proof.
  split; [vm_compute; reflexivity |].
  apply (cgltf_parse_writes_root_on_success accept_all always_alloc 0 zero_token
           (Some auto_options) asset_doc).
  vm_compute. reflexivity.
Defined.

Lemma cgltf_parse_success_chunks_witness :
  bytes asset_glb
  /\ cgltf_parse accept_all always_alloc 0 zero_token (Some auto_options) asset_glb
     = Some (cgltf_result_success,
             Some (empty_root cgltf_file_type_glb asset_doc (Some [1; 2; 3; 4])))
  /\ count_of asset_doc = load_u32 asset_glb 12.
Proof.
  assert (Hbytes : bytes asset_glb).
  { apply (bool_decide_unpack _). vm_compute. exact I. }
  assert (Hparse : cgltf_parse accept_all always_alloc 0 zero_token (Some auto_options)
                     asset_glb
                   = Some (cgltf_result_success,
                           Some (empty_root cgltf_file_type_glb asset_doc
                                   (Some [1; 2; 3; 4])))).
  { vm_compute. reflexivity. }
  split; [exact Hbytes |]. split; [exact Hparse |].
  destruct (cgltf_parse_success_chunks accept_all always_alloc 0 zero_token
              (Some auto_options) asset_glb _ Hbytes Hparse)
    as [(Hft & _) | (_ & _ & _ & _ & _ & Hcount & _)]; [discriminate Hft | exact Hcount].
Defined.

Lemma cgltf_parse_glb_file_witness :
  type auto_options <> cgltf_file_type_gltf
  /\ 28 + count_of asset_doc + count_of [1; 2; 3; 4] < 2 ^ 32
  /\ cgltf_parse accept_all always_alloc 0 zero_token (Some auto_options) asset_glb
     = parse_json_as accept_all always_alloc 0 zero_token cgltf_file_type_glb
         (Some [1; 2; 3; 4])
         (mk_options cgltf_file_type_invalid 0 (Some (options_alloc always_alloc auto_options)))
         asset_doc.
Proof.
  split; [discriminate |]. split; [reflexivity |].
  apply (cgltf_parse_glb_file accept_all always_alloc 0 zero_token auto_options asset_doc
           [1; 2; 3; 4]); [discriminate | reflexivity].
Defined.

(** ** Properties of the token count *)

(** On a JSON text of [m] tokens the filling pass over an array of [m]
    tokens or more returns [m] and keeps the length of the array. *)
Lemma jsmn_parse_fill_json_text (js : list Z) (m : nat) (count : Z) (token : jsmntok_t) :
  json_text js m -> Z.of_nat (length js) <= INT_MAX -> Z.of_nat m <= count ->
  exists q toks',
    jsmn_parse (jsmn_init (mk_jsmn_parser 0 0 0)) js
      (Some (replicate (Z.to_nat count) token)) count
    = Some (Z.of_nat m, q, Some toks')
    /\ length toks' = Z.to_nat count.
Proof.
  intros Htext Hlen Hcount.
  rewrite (jsmn_parse_exact_tokens js count token _ Hlen ltac:(lia)).
  destruct (ideal_jsmn_parse_fill_json_text js m (replicate (Z.to_nat count) token) Htext)
    as (q & toks' & Hrun & Hseg).
  { rewrite length_replicate. lia. }
  rewrite length_replicate, Z2Nat.id in Hrun by lia.
  exists q, toks'. split; [exact Hrun |].
  destruct Hseg as (Hl & _). rewrite !length_shapes in Hl.
  rewrite Hl, length_replicate. reflexivity.
Qed.

(** Over an array of fewer tokens it returns an error. *)
Lemma jsmn_parse_fill_too_small (js : list Z) (m : nat) (count : Z) (token : jsmntok_t) :
  json_text js m -> Z.of_nat (length js) <= INT_MAX -> 0 <= count < Z.of_nat m ->
  exists r q t,
    jsmn_parse (jsmn_init (mk_jsmn_parser 0 0 0)) js
      (Some (replicate (Z.to_nat count) token)) count
    = Some (r, q, t)
    /\ r < 0.
Proof.
  intros Htext Hlen Hcount.
  rewrite (jsmn_parse_exact_tokens js count token _ Hlen ltac:(lia)).
  destruct (ideal_jsmn_parse_fill_too_small js m (replicate (Z.to_nat count) token) Htext)
    as (r & q & t & Hrun & Hr).
  { rewrite length_replicate. lia. }
  rewrite length_replicate, Z2Nat.id in Hrun by lia. eauto.
Qed.

(** A JSON text of at most [INT_MAX] bytes has at most [INT_MAX] tokens. *)
Lemma json_text_tokens_int (js : list Z) (m : nat) :
  json_text js m -> Z.of_nat (length js) <= INT_MAX -> Z.of_nat m <= INT_MAX.
Proof.
  intros Htext Hlen.
  destruct (jsmn_parse_json_text js m (replicate m (mk_jsmntok JSMN_UNDEFINED 0 0 0 0))
              Hlen Htext (length_replicate _ _)) as (q1 & _ & _ & Hcount & _).
  exact (jsmn_parse_int _ _ _ _ _ _ _ Hcount).
Qed.

Section TokenCount.

Variable decoder : cgltf_options -> list jsmntok_t -> list Z -> Z * cgltf_data encoded.
Variable malloc : Z -> bool.
Variable sizeof_data : Z.
Variable garbage : jsmntok_t.

Local Abbreviation parse_json := (cgltf_parse_json decoder malloc sizeof_data garbage).

(** X11: [json_token_count] against the number [m] of tokens of a JSON text
    of at most [INT_MAX] bytes.  A count between 1 and [m - 1] makes
    [cgltf_parse_json] fail: with invalid-json, or with out-of-memory when
    the token array cannot be allocated.  With the count 0 the tokens are
    counted first, and with a count of [m] or more whose array size
    [sizeof(jsmntok_t) * count] does not wrap around they fit: when both
    allocations succeed the decoder runs, on the array of that many tokens
    as the filling pass leaves it, and its root goes to the fix-up. *)
Theorem cgltf_parse_json_token_count (options : cgltf_options) (js : list Z) (m : nat) :
  json_text js m -> Z.of_nat (length js) <= INT_MAX ->
  let N := json_token_count options in
  let counted :=
    mk_options (type options) (if N =? 0 then Z.of_nat m else N) (memory_alloc options) in
  let tokens_size := size_wrap (SIZEOF_jsmntok_t * json_token_count counted) in
  (0 < N < Z.of_nat m ->
   parse_json options js
   = Some (if options_alloc malloc options tokens_size then cgltf_result_invalid_json
           else cgltf_result_out_of_memory, None))
  /\ (N = 0 \/ Z.of_nat m <= N ->
      SIZEOF_jsmntok_t * N < SIZE_MODULUS ->
      options_alloc malloc options tokens_size = true ->
      options_alloc malloc options sizeof_data = true ->
      exists q tokens,
        jsmn_parse (jsmn_init (mk_jsmn_parser 0 0 0)) js
          (Some (replicate (Z.to_nat (json_token_count counted)) garbage))
          (json_token_count counted)
        = Some (Z.of_nat m, q, Some tokens)
        /\ length tokens = Z.to_nat (json_token_count counted)
        /\ parse_json options js
           = Some (let '(i, data) :=
                     decoder (if N =? 0 then counted else options) tokens js in
                   cgltf_parse_json_link i data js)).
Proof.
  intros Htext Hlen N counted tokens_size.
  pose proof (json_text_tokens js m Htext) as Hm.
  pose proof (json_text_tokens_int js m Htext Hlen) as Hint.
  assert (Hblock : forall count,
            0 <= count -> count <= INT_MAX \/ SIZEOF_jsmntok_t * count < SIZE_MODULUS ->
            size_wrap (SIZEOF_jsmntok_t * count) / SIZEOF_jsmntok_t = count).
  { intros count Hcount Hsmall. apply tokens_block; [exact Hcount |].
    destruct Hsmall as [Hsmall | Hsmall]; [| exact Hsmall].
    unfold SIZEOF_jsmntok_t, SIZE_MODULUS, SIZE_BITS, INT_MAX in *.
    change (2 ^ 64) with 18446744073709551616. lia. }
  split.
  - intros HN. unfold cgltf_parse_json. fold N.
    destruct (Z.eqb_spec N 0) as [| _]; [lia |].
    subst tokens_size counted. cbn [json_token_count].
    destruct (Z.eqb_spec N 0) as [| _]; [lia |]. unfold cgltf_parse_json_tokens. fold N.
    destruct (options_alloc malloc options (size_wrap (SIZEOF_jsmntok_t * N)));
      cbn [negb]; [| reflexivity].
    rewrite Hblock by lia.
    destruct (jsmn_parse_fill_too_small js m N garbage Htext Hlen ltac:(lia))
      as (r & q & t & -> & Hr).
    cbn [mbind option_bind]. destruct (Z.leb_spec r 0); [reflexivity | lia].
  - intros HN Hsize Htokens Hdata.
    assert (Hfill : forall (o : cgltf_options),
              Z.of_nat m <= json_token_count o ->
              SIZEOF_jsmntok_t * json_token_count o < SIZE_MODULUS ->
              options_alloc malloc o (size_wrap (SIZEOF_jsmntok_t * json_token_count o))
              = true ->
              options_alloc malloc o sizeof_data = true ->
              exists q tokens,
                jsmn_parse (jsmn_init (mk_jsmn_parser 0 0 0)) js
                  (Some (replicate (Z.to_nat (json_token_count o)) garbage))
                  (json_token_count o)
                = Some (Z.of_nat m, q, Some tokens)
                /\ length tokens = Z.to_nat (json_token_count o)
                /\ cgltf_parse_json_tokens decoder malloc sizeof_data garbage o js
                   = Some (let '(i, data) := decoder o tokens js in
                           cgltf_parse_json_link i data js)).
    { intros o Ho Hs Ht Hd. unfold cgltf_parse_json_tokens. rewrite Ht, Hd. cbn [negb].
      rewrite Hblock by lia.
      destruct (jsmn_parse_fill_json_text js m (json_token_count o) garbage Htext Hlen Ho)
        as (q & toks' & Hrun & Hl).
      exists q, toks'. split; [exact Hrun |]. split; [exact Hl |].
      rewrite Hrun. cbn [mbind option_bind]. change (default [] (Some toks')) with toks'.
      destruct (Z.leb_spec (Z.of_nat m) 0); [lia |].
      destruct (decoder o toks' js). reflexivity. }
    unfold cgltf_parse_json. fold N.
    subst tokens_size counted. cbn [json_token_count] in *.
    destruct (Z.eqb_spec N 0) as [Hauto | Hgiven].
    + destruct (jsmn_parse_json_text js m (replicate m garbage) Hlen Htext
                  (length_replicate _ _)) as (q1 & _ & _ & Hcount & _).
      rewrite Hcount. cbn [mbind option_bind].
      destruct (Z.leb_spec (Z.of_nat m) 0); [lia |].
      apply (Hfill (mk_options (type options) (Z.of_nat m) (memory_alloc options)));
        [cbn; lia | | exact Htokens | exact Hdata].
      cbn. unfold SIZEOF_jsmntok_t, SIZE_MODULUS, SIZE_BITS, INT_MAX in *.
      change (2 ^ 64) with 18446744073709551616. lia.
    + apply Hfill; [fold N; lia | exact Hsize | exact Htokens | exact Hdata].
Qed.

End TokenCount.

Lemma cgltf_parse_json_token_count_witness :
  json_text asset_doc 5
  /\ Z.of_nat (length asset_doc) <= INT_MAX
  /\ cgltf_parse_json accept_all always_alloc 0 zero_token
       (mk_options cgltf_file_type_gltf 4 None) asset_doc
     = Some (cgltf_result_invalid_json, None)
  /\ exists q tokens,
       jsmn_parse (jsmn_init (mk_jsmn_parser 0 0 0)) asset_doc
         (Some (replicate 7 zero_token)) 7 = Some (5, q, Some tokens)
       /\ length tokens = 7%nat
       /\ cgltf_parse_json accept_all always_alloc 0 zero_token
            (mk_options cgltf_file_type_gltf 7 None) asset_doc
          = Some (let '(i, data) :=
                    accept_all (mk_options cgltf_file_type_gltf 7 None) tokens asset_doc in
                  cgltf_parse_json_link i data asset_doc).
Proof.
  assert (Hlen : Z.of_nat (length asset_doc) <= INT_MAX) by (vm_compute; discriminate).
  split; [exact json_text_asset |]. split; [exact Hlen |]. split.
  - apply (proj1 (cgltf_parse_json_token_count accept_all always_alloc 0 zero_token
                    (mk_options cgltf_file_type_gltf 4 None) asset_doc 5 json_text_asset
                    Hlen)).
    cbn. lia.
  - apply (proj2 (cgltf_parse_json_token_count accept_all always_alloc 0 zero_token
                    (mk_options cgltf_file_type_gltf 7 None) asset_doc 5 json_text_asset
                    Hlen)).
    + right. cbn. lia.
    + vm_compute. reflexivity.
    + reflexivity.
    + reflexivity.
Defined.

Lemma jsmn_parse_tokens_witness :
  Z.of_nat (length asset_doc) <= INT_MAX
  /\ jsmn_parse (jsmn_init (mk_jsmn_parser 0 0 0)) asset_doc
       (Some (replicate 6 zero_token)) (Z.of_nat (length (replicate 6 zero_token)))
     = Some (5, mk_jsmn_parser 27 5 (-1), Some (asset_tokens ++ [zero_token]))
  /\ 0 <= 5
  /\ length (asset_tokens ++ [zero_token]) = length (replicate 6 zero_token)
  /\ exists t, (asset_tokens ++ [zero_token]) !! 2%nat = Some t
               /\ tok_size t = Z.of_nat (child_tokens (asset_tokens ++ [zero_token]) 5 2).
Proof.
  assert (Hlen : Z.of_nat (length asset_doc) <= INT_MAX) by (vm_compute; discriminate).
  assert (Hrun : jsmn_parse (jsmn_init (mk_jsmn_parser 0 0 0)) asset_doc
                   (Some (replicate 6 zero_token))
                   (Z.of_nat (length (replicate 6 zero_token)))
                 = Some (5, mk_jsmn_parser 27 5 (-1), Some (asset_tokens ++ [zero_token]))).
  { vm_compute. reflexivity. }
  split; [exact Hlen |]. split; [exact Hrun |]. split; [lia |].
  destruct (jsmn_parse_tokens asset_doc (replicate 6 zero_token) 5 _ _ Hlen Hrun
              ltac:(lia)) as (_ & _ & Hlen' & _ & Hall & _).
  split; [exact Hlen' |].
  destruct (Hall 2%nat ltac:(cbn; lia)) as (t & Ht & _ & _ & _ & _ & Hsize).
  exists t. split; [exact Ht | exact Hsize].
Defined.

(** ** Properties of the strings and of the path of a buffer file *)

Lemma c_str_nonzero (s : list Z) : Forall (fun c => c <> 0) (c_str s).
Proof.
  induction s as [| c s IH]; cbn [c_str]; [constructor |].
  unfold CH_NUL. destruct (Z.eqb_spec c 0); [constructor | constructor; assumption].
Qed.

Lemma c_str_split (s : list Z) : exists rest, s = c_str s ++ rest.
Proof.
  induction s as [| c s [rest IH]]; cbn [c_str]; [exists []; reflexivity |].
  unfold CH_NUL. destruct (Z.eqb_spec c 0).
  - exists (c :: s). reflexivity.
  - exists rest. cbn. congruence.
Qed.

Lemma c_str_app_nul (a b : list Z) :
  Forall (fun c => c <> 0) a -> c_str (a ++ CH_NUL :: b) = a.
Proof.
  induction 1 as [| c a Hc _ IH]; cbn [c_str app]; [reflexivity |].
  unfold CH_NUL in *. destruct (Z.eqb_spec c 0); [contradiction | congruence].
Qed.

Lemma c_str_id (a : list Z) : Forall (fun c => c <> 0) a -> c_str a = a.
Proof.
  induction 1 as [| c a Hc _ IH]; cbn [c_str]; [reflexivity |].
  unfold CH_NUL. destruct (Z.eqb_spec c 0); [contradiction | congruence].
Qed.

Lemma c_str_length (s : list Z) : (length (c_str s) <= length s)%nat.
Proof.
  destruct (c_str_split s) as [rest H]. rewrite H at 2. rewrite length_app. lia.
Qed.

Lemma c_str_take (s : list Z) (n : nat) :
  (n <= length (c_str s))%nat -> take n s = take n (c_str s).
Proof.
  intros Hn. destruct (c_str_split s) as [rest H]. rewrite H at 1.
  apply take_app_le. exact Hn.
Qed.

(** [strcpy] into an array with room for the string and its terminator. *)
Lemma strcpy_fits (dest : list Z) :
  forall (src : list Z) (i : Z),
    (length (c_str src) < length dest)%nat ->
    strcpy dest src i
    = Copied (c_str src ++ CH_NUL :: drop (S (length (c_str src))) dest).
Proof.
  induction dest as [| d dest IH]; intros src i Hlen; [cbn in Hlen; lia |].
  cbn [strcpy]. destruct src as [| c src]; [reflexivity |].
  revert Hlen. cbn [str_head c_str tail]. destruct (c =? CH_NUL); [reflexivity |].
  intros Hlen. rewrite IH by (cbn in Hlen; lia). reflexivity.
Qed.

(** [strcpy] into an array that is too small writes just behind it. *)
Lemma strcpy_overruns (dest : list Z) :
  forall (src : list Z) (i : Z),
    (length dest <= length (c_str src))%nat ->
    strcpy dest src i = WritesOutside (i + count_of dest).
Proof.
  unfold count_of.
  induction dest as [| d dest IH]; intros src i Hlen; [cbn; f_equal; lia |].
  cbn [strcpy]. destruct src as [| c src]; [cbn in Hlen; lia |].
  revert Hlen. cbn [str_head c_str tail]. destruct (c =? CH_NUL); cbn [length];
    intros Hlen; [lia |].
  rewrite IH by lia. f_equal. lia.
Qed.

Lemma strrchr_c_str (s : list Z) (c : Z) : strrchr (c_str s) c = strrchr s c.
Proof.
  induction s as [| x s IH]; cbn [c_str strrchr]; [reflexivity |].
  destruct (x =? CH_NUL) eqn:Hx; [reflexivity |].
  cbn [strrchr]. rewrite Hx, IH. reflexivity.
Qed.

Lemma strrchr_none (s : list Z) (c : Z) : c ∉ s -> strrchr s c = None.
Proof.
  induction s as [| x s IH]; intros Hc; cbn [strrchr]; [reflexivity |].
  apply not_elem_of_cons in Hc as [Hx Hs].
  destruct (x =? CH_NUL); [reflexivity |]. rewrite (IH Hs).
  destruct (Z.eqb_spec x c); [congruence | reflexivity].
Qed.

Lemma strrchr_last (a b : list Z) (c : Z) :
  Forall (fun x => x <> 0) (a ++ [c]) -> c ∉ b ->
  strrchr (a ++ c :: b) c = Some (length a).
Proof.
  intros Hnz Hb. induction a as [| x a IH]; cbn [app strrchr length].
  - apply Forall_cons in Hnz as [Hc _]. unfold CH_NUL.
    destruct (Z.eqb_spec c 0); [contradiction |].
    rewrite (strrchr_none b c Hb), Z.eqb_refl. reflexivity.
  - cbn [app] in Hnz. apply Forall_cons in Hnz as [Hx Hnz]. unfold CH_NUL.
    destruct (Z.eqb_spec x 0); [contradiction |]. rewrite (IH Hnz). reflexivity.
Qed.

Lemma strrchr_lookup (s : list Z) (c : Z) :
  forall k, strrchr s c = Some k -> s !! k = Some c.
Proof.
  induction s as [| x s IH]; intros k; cbn [strrchr]; [discriminate |].
  destruct (x =? CH_NUL); [discriminate |].
  destruct (strrchr s c) as [j |].
  - intros [= <-]. cbn. apply IH. reflexivity.
  - destruct (Z.eqb_spec x c); [intros [= <-]; cbn; congruence | discriminate].
Qed.

Lemma strncmp_prefix (p s : list Z) : strncmp (p ++ s) p (length p) = 0.
Proof.
  induction p as [| c p IH]; cbn [strncmp length app str_head tail]; [reflexivity |].
  rewrite Z.eqb_refl. destruct (c =? CH_NUL); [reflexivity | exact IH].
Qed.

Lemma strncmp_equal (s : list Z) :
  forall name, Forall (fun c => c <> 0) s ->
    strncmp name s (length s) = 0 <-> take (length s) name = s.
Proof.
  induction s as [| c s IH]; intros name Hs; cbn [length strncmp].
  - rewrite take_0. tauto.
  - apply Forall_cons in Hs as [Hc Hs]. cbn [str_head tail].
    destruct name as [| x name]; cbn [str_head tail take].
    + unfold CH_NUL. destruct (Z.eqb_spec 0 c); [congruence |].
      split; [lia | discriminate].
    + destruct (Z.eqb_spec x c) as [-> | Hne].
      * unfold CH_NUL. destruct (Z.eqb_spec c 0); [contradiction |].
        rewrite (IH name Hs). split; [congruence | intros [= H]; exact H].
      * split; [lia | congruence].
Qed.

Lemma strchr_first (a b : list Z) (c : Z) :
  Forall (fun x => x <> 0 /\ x <> c) a -> c <> 0 ->
  strchr (a ++ c :: b) c = Some (length a).
Proof.
  intros Ha Hc. induction Ha as [| x a [Hx Hxc] _ IH]; cbn [app strchr length]; unfold CH_NUL.
  - destruct (Z.eqb_spec c 0); [contradiction |]. rewrite Z.eqb_refl. reflexivity.
  - destruct (Z.eqb_spec x 0); [contradiction |].
    destruct (Z.eqb_spec x c); [contradiction |]. rewrite IH. reflexivity.
Qed.

Lemma strchr_stops (a rest : list Z) (c : Z) :
  Forall (fun x => x <> 0 /\ x <> c) a -> str_head rest = CH_NUL ->
  strchr (a ++ rest) c = None.
Proof.
  intros Ha Hrest. induction Ha as [| x a [Hx Hxc] _ IH]; cbn [app].
  - destruct rest as [| r rest]; [reflexivity |]. cbn [str_head] in Hrest. subst r.
    reflexivity.
  - cbn [strchr]. unfold CH_NUL. destruct (Z.eqb_spec x 0); [contradiction |].
    destruct (Z.eqb_spec x c); [contradiction |]. rewrite IH. reflexivity.
Qed.

Lemma strstr_found (a sub b : list Z) :
  Forall (fun x => x <> 0) a -> strstr (a ++ sub ++ b) sub = true.
Proof.
  induction 1 as [| x a Hx _ IH]; cbn [app].
  - destruct (sub ++ b) as [| y s] eqn:Hs.
    + destruct sub; [reflexivity | discriminate].
    + cbn [strstr]. rewrite <- Hs, strncmp_prefix. reflexivity.
  - cbn [strstr]. unfold CH_NUL. destruct (Z.eqb_spec x 0); [contradiction |].
    rewrite IH. apply orb_true_r.
Qed.

(** The last slash or backslash of a string that ends its directory part. *)
Lemma last_separator (base d name : list Z) (c : Z) :
  c_str base = d ++ c :: name -> c = CH_SLASH \/ c = CH_BACKSLASH ->
  CH_SLASH ∉ name -> CH_BACKSLASH ∉ name ->
  match strrchr base CH_SLASH with
  | Some a =>
      match strrchr base CH_BACKSLASH with
      | Some b => if (a <? b)%nat then Some b else Some a
      | None => Some a
      end
  | None => strrchr base CH_BACKSLASH
  end = Some (length d).
Proof.
  intros Hbase Hc Hslash Hback.
  rewrite <- (strrchr_c_str base CH_SLASH), <- (strrchr_c_str base CH_BACKSLASH).
  assert (Hnz : Forall (fun x => x <> 0) (d ++ [c])).
  { pose proof (c_str_nonzero base) as H. rewrite Hbase in H.
    apply Forall_app in H as [Hd H]. apply Forall_cons in H as [Hc' _].
    apply Forall_app. split; [exact Hd | constructor; [exact Hc' | constructor]]. }
  assert (Hbefore : forall x k, x <> c -> x ∉ name ->
            strrchr (c_str base) x = Some k -> (k < length d)%nat).
  { intros x k Hx Hname H. apply strrchr_lookup in H. rewrite Hbase in H.
    destruct (Nat.lt_trichotomy k (length d)) as [Hk | [-> | Hk]]; [exact Hk | |].
    - rewrite list_lookup_middle in H by reflexivity. congruence.
    - exfalso. apply Hname. rewrite lookup_app_r in H by lia.
      destruct (k - length d)%nat as [| j] eqn:Hj; [lia |]. cbn in H.
      apply list_elem_of_lookup_2 in H. exact H. }
  destruct Hc as [-> | ->].
  - rewrite Hbase at 1. rewrite (strrchr_last d name CH_SLASH Hnz Hslash).
    destruct (strrchr (c_str base) CH_BACKSLASH) as [b |] eqn:Hb; [| reflexivity].
    apply Hbefore in Hb; [| discriminate | exact Hback].
    destruct (Nat.ltb_spec (length d) b); [lia | reflexivity].
  - assert (Hlast : strrchr (c_str base) CH_BACKSLASH = Some (length d)).
    { rewrite Hbase. exact (strrchr_last d name CH_BACKSLASH Hnz Hback). }
    rewrite Hlast.
    destruct (strrchr (c_str base) CH_SLASH) as [a |] eqn:Ha; [| reflexivity].
    apply Hbefore in Ha; [| discriminate | exact Hslash].
    destruct (Nat.ltb_spec a (length d)); [reflexivity | lia].
Qed.

Lemma no_separator (base : list Z) :
  CH_SLASH ∉ c_str base -> CH_BACKSLASH ∉ c_str base ->
  match strrchr base CH_SLASH with
  | Some a =>
      match strrchr base CH_BACKSLASH with
      | Some b => if (a <? b)%nat then Some b else Some a
      | None => Some a
      end
  | None => strrchr base CH_BACKSLASH
  end = None.
Proof.
  intros Hslash Hback.
  rewrite <- (strrchr_c_str base CH_SLASH), <- (strrchr_c_str base CH_BACKSLASH).
  rewrite (strrchr_none _ _ Hslash), (strrchr_none _ _ Hback). reflexivity.
Qed.

(** X17: cgltf_combine_paths writes into path the directory part of base (up
    to its last slash or backslash) followed by the URI and a terminator,
    when path has room for them; otherwise it writes just behind path. *)
Theorem cgltf_combine_paths_joins (path base uri dir name : list Z) :
  c_str base = dir ++ name -> directory dir ->
  CH_SLASH ∉ name -> CH_BACKSLASH ∉ name ->
  cgltf_combine_paths path base uri
  = if bool_decide (count_of dir + strlen uri + 1 <= count_of path)
    then Copied (dir ++ c_str uri
                 ++ CH_NUL :: drop (length dir + length (c_str uri) + 1) path)
    else WritesOutside (count_of path).
Proof.
  intros Hbase Hdir Hslash Hback. unfold cgltf_combine_paths, strlen, count_of.
  destruct Hdir as [-> | (d & c & -> & Hc)].
  - cbn [app] in Hbase. rewrite no_separator by (rewrite Hbase; assumption).
    cbn [length app]. case_bool_decide as Hroom.
    + rewrite strcpy_fits by lia.
      replace (0 + length (c_str uri) + 1)%nat with (S (length (c_str uri))) by lia.
      reflexivity.
    + rewrite strcpy_overruns by lia. reflexivity.
  - rewrite <- app_assoc in Hbase. cbn [app] in Hbase.
    rewrite (last_separator base d name c Hbase Hc Hslash Hback).
    rewrite length_app. cbn [length].
    assert (Hprefix : take (S (length d)) base = d ++ [c]).
    { rewrite c_str_take by (rewrite Hbase, length_app; cbn; lia).
      rewrite Hbase. change (c :: name) with ([c] ++ name). rewrite app_assoc.
      apply take_app_length'. rewrite length_app. cbn. lia. }
    assert (Hnz : Forall (fun x => x <> 0) (take (S (length d)) base)).
    { rewrite Hprefix. pose proof (c_str_nonzero base) as H. rewrite Hbase in H.
      apply Forall_app in H as [Hd H]. apply Forall_cons in H as [Hc' _].
      apply Forall_app. split; [exact Hd | constructor; [exact Hc' | constructor]]. }
    assert (Hlong : (S (length d) <= length base)%nat).
    { pose proof (c_str_length base) as H. rewrite Hbase, length_app in H.
      cbn in H. lia. }
    destruct (decide (S (length d) <= length path)%nat) as [Hfits | Hover].
    + rewrite strncpy_fits by assumption. rewrite Hprefix.
      rewrite drop_app_length' by (rewrite length_app; cbn; lia).
      rewrite take_app_length' by (rewrite length_app; cbn; lia).
      case_bool_decide as Hroom.
      * rewrite strcpy_fits by (rewrite length_drop; lia).
        rewrite drop_drop. rewrite <- !app_assoc. cbn [app].
        replace (S (length d) + S (length (c_str uri)))%nat
          with (length d + 1 + length (c_str uri) + 1)%nat by lia.
        reflexivity.
      * rewrite strcpy_overruns by (rewrite length_drop; lia).
        f_equal. unfold count_of. rewrite length_drop. lia.
    + rewrite bool_decide_eq_false_2 by lia.
      rewrite strncpy_overruns.
      * reflexivity.
      * unfold count_of. lia.
      * lia.
      * replace (length path) with (length path `min` S (length d))%nat by lia.
        rewrite <- take_take. apply Forall_take. exact Hnz.
Qed.

Lemma cgltf_combine_paths_joins_witness :
  c_str scene_path = json_bytes "models/" ++ json_bytes "scene.gltf"
  /\ cgltf_combine_paths fresh_path scene_path mesh_uri
     = Copied (json_bytes "models/mesh.bin" ++ CH_NUL :: replicate 10 205).
Proof.
  split; [reflexivity |].
  exact (cgltf_combine_paths_joins fresh_path scene_path mesh_uri
           (json_bytes "models/") (json_bytes "scene.gltf") eq_refl
           (or_intror (ex_intro _ (json_bytes "models")
                         (ex_intro _ CH_SLASH (conj eq_refl (or_introl eq_refl)))))
           ltac:(apply (bool_decide_unpack _); vm_compute; exact I)
           ltac:(apply (bool_decide_unpack _); vm_compute; exact I)).
Defined.

(** ** Properties of the buffer loaders *)

Lemma base64_shift_add (buffer index : Z) :
  0 <= index < 64 -> base64_shift buffer index = (buffer * 64 + index) mod 2 ^ 32.
Proof.
  intros H. unfold base64_shift, uint_wrap, UINT_MODULUS.
  rewrite Z.shiftl_mul_pow2 by lia. rewrite Z.lor_comm.
  rewrite (lor_shiftl_add index buffer 6) by lia. f_equal. lia.
Qed.

Lemma base64_group (B a b c : Z) :
  0 <= a < 256 -> 0 <= b < 256 -> 0 <= c < 256 ->
  let v1 := a / 4 in
  let v2 := a mod 4 * 16 + b / 16 in
  let v3 := b mod 16 * 4 + c / 64 in
  let v4 := c mod 64 in
  let B2 := base64_shift (base64_shift B v1) v2 in
  let B3 := base64_shift B2 v3 in
  let B4 := base64_shift B3 v4 in
  (0 <= v1 < 64 /\ 0 <= v2 < 64 /\ 0 <= v3 < 64 /\ 0 <= v4 < 64)
  /\ Z.shiftr B2 4 mod 256 = a
  /\ Z.shiftr B3 2 mod 256 = b
  /\ Z.shiftr B4 0 mod 256 = c.
Proof.
  intros Ha Hb Hc v1 v2 v3 v4 B2 B3 B4.
  assert (Hv : 0 <= v1 < 64 /\ 0 <= v2 < 64 /\ 0 <= v3 < 64 /\ 0 <= v4 < 64).
  { subst v1 v2 v3 v4. Z.div_mod_to_equations. lia. }
  split; [exact Hv |]. destruct Hv as (H1 & H2 & H3 & H4).
  subst B4 B3 B2. rewrite !base64_shift_add by assumption.
  rewrite !Z.shiftr_div_pow2 by lia.
  change (2 ^ 32) with 4294967296. change (2 ^ 4) with 16. change (2 ^ 2) with 4.
  change (2 ^ 0) with 1.
  subst v1 v2 v3 v4.
  repeat split; Z.div_mod_to_equations; lia.
Qed.

Lemma base64_index_char (v : Z) : 0 <= v < 64 -> base64_index (base64_char v) = v.
Proof.
  intros Hv.
  assert (Hall : forallb (fun v => base64_index (base64_char v) =? v) (seqZ 0 64) = true)
    by (vm_compute; reflexivity).
  rewrite forallb_forall in Hall. apply Z.eqb_eq, Hall.
  apply list_elem_of_In, elem_of_seqZ. lia.
Qed.

(** A byte outside the alphabet has no index. *)
Lemma base64_index_other (ch : Z) :
  0 <= ch < 256 -> (forall v, 0 <= v < 64 -> ch <> base64_char v) ->
  base64_index ch = -1.
Proof.
  intros Hch Hnot.
  assert (Hall : forallb (fun ch => (base64_index ch =? -1)
                                    || existsb (fun v => ch =? base64_char v) (seqZ 0 64))
                   (seqZ 0 256) = true)
    by (vm_compute; reflexivity).
  rewrite forallb_forall in Hall.
  specialize (Hall ch ltac:(apply list_elem_of_In, elem_of_seqZ; lia)).
  apply orb_true_iff in Hall as [H | H]; [apply Z.eqb_eq, H |].
  apply existsb_exists in H as (v & Hin & E).
  apply list_elem_of_In, elem_of_seqZ in Hin. apply Z.eqb_eq in E.
  exfalso. apply (Hnot v); [lia | exact E].
Qed.

(** An index is a value of six bits, or [-1]. *)
Lemma base64_index_range (ch : Z) :
  0 <= ch < 256 -> base64_index ch = -1 \/ 0 <= base64_index ch < 64.
Proof.
  intros Hch.
  assert (Hall : forallb (fun ch => (base64_index ch =? -1)
                                    || ((0 <=? base64_index ch) && (base64_index ch <? 64)))
                   (seqZ 0 256) = true)
    by (vm_compute; reflexivity).
  rewrite forallb_forall in Hall.
  specialize (Hall ch ltac:(apply list_elem_of_In, elem_of_seqZ; lia)).
  apply orb_true_iff in Hall as [H | H]; [left; apply Z.eqb_eq, H | right].
  apply andb_true_iff in H as [H1 H2]. lia.
Qed.

Lemma base64_fill_ready (s : list Z) (B bits : Z) :
  8 <= bits -> base64_fill s B bits = Some (s, B, bits).
Proof.
  intros H. destruct s; cbn [base64_fill]; destruct (Z.leb_spec 8 bits); auto; lia.
Qed.

Lemma base64_fill_char (v : Z) (s : list Z) (B bits : Z) :
  0 <= v < 64 -> bits < 8 ->
  base64_fill (base64_char v :: s) B bits = base64_fill s (base64_shift B v) (bits + 6).
Proof.
  intros Hv Hbits. cbn [base64_fill str_head].
  destruct (Z.leb_spec 8 bits); [lia |].
  rewrite base64_index_char by exact Hv.
  destruct (Z.ltb_spec v 0); [lia | reflexivity].
Qed.

(** The first byte of a group: two characters are read. *)
Lemma base64_loop_first (n : nat) (v1 v2 : Z) (s : list Z) (B : Z) :
  0 <= v1 < 64 -> 0 <= v2 < 64 ->
  base64_loop (S n) (base64_char v1 :: base64_char v2 :: s) B 0
  = (data ← base64_loop n s (base64_shift (base64_shift B v1) v2) 4;
     Some (Z.shiftr (base64_shift (base64_shift B v1) v2) 4 mod 256 :: data)).
Proof.
  intros H1 H2. cbn [base64_loop].
  rewrite base64_fill_char by (auto; lia). rewrite base64_fill_char by (auto; lia).
  rewrite base64_fill_ready by lia. reflexivity.
Qed.

(** The second and the third byte: one character is read. *)
Lemma base64_loop_next (n : nat) (v : Z) (s : list Z) (B bits : Z) :
  0 <= v < 64 -> 2 <= bits < 8 ->
  base64_loop (S n) (base64_char v :: s) B bits
  = (data ← base64_loop n s (base64_shift B v) (bits + 6 - 8);
     Some (Z.shiftr (base64_shift B v) (bits + 6 - 8) mod 256 :: data)).
Proof.
  intros Hv Hbits. cbn [base64_loop].
  rewrite base64_fill_char by (auto; lia). rewrite base64_fill_ready by lia. reflexivity.
Qed.

Lemma list_ind3 {A : Type} (P : list A -> Prop) :
  P [] -> (forall a, P [a]) -> (forall a b, P [a; b]) ->
  (forall a b c rest, P rest -> P (a :: b :: c :: rest)) ->
  forall l, P l.
Proof.
  intros H0 H1 H2 H3 l.
  assert (H : P l /\ (forall a, P (a :: l)) /\ (forall a b, P (a :: b :: l))).
  { induction l as [| x l (IH0 & IH1 & IH2)]; [auto |].
    split; [apply IH1 |]. split; [intros a; apply IH2 |]. intros a b. apply H3, IH0. }
  apply H.
Qed.

(** The decoding loop reads back the bytes that were encoded, as many as
    asked for, whatever [buffer] held before. *)
Lemma base64_loop_encode (data : list Z) :
  Forall (fun b => 0 <= b < 256) data ->
  forall (n : nat) (tail : list Z) (B : Z),
    (n <= length data)%nat ->
    base64_loop n (base64_encode data ++ tail) B 0 = Some (take n data).
Proof.
  induction data as [| a | a b | a b c rest IH] using list_ind3; intros Hall n rest' B Hn.
  - destruct n; [reflexivity | cbn in Hn; lia].
  - inversion Hall as [| ? ? Ha _]; subst.
    destruct (base64_group B a 0 0 Ha ltac:(lia) ltac:(lia)) as ((H1 & H2 & _) & E1 & _).
    cbv zeta in *. change (0 / 16) with 0 in *. rewrite Z.add_0_r in *.
    destruct n as [| [| n]]; [reflexivity | | cbn in Hn; lia].
    cbn [base64_encode app]. rewrite base64_loop_first by assumption.
    cbn [base64_loop mbind option_bind]. rewrite E1. reflexivity.
  - inversion Hall as [| ? ? Ha Hall']; subst. inversion Hall' as [| ? ? Hb _]; subst.
    destruct (base64_group B a b 0 Ha Hb ltac:(lia)) as ((H1 & H2 & H3 & _) & E1 & E2 & _).
    cbv zeta in *. change (0 / 64) with 0 in *. rewrite Z.add_0_r in *.
    destruct n as [| [| [| n]]]; [reflexivity | | | cbn in Hn; lia];
      cbn [base64_encode app]; rewrite base64_loop_first by assumption.
    + cbn [base64_loop mbind option_bind]. rewrite E1. reflexivity.
    + rewrite base64_loop_next by (auto; lia).
      cbn [base64_loop mbind option_bind Z.add Z.sub Z.opp Z.pos_sub Pos.add Pos.succ].
      change (4 + 6 - 8) with 2. rewrite E1, E2. reflexivity.
  - inversion Hall as [| ? ? Ha Hall']; subst. inversion Hall' as [| ? ? Hb Hall'']; subst.
    inversion Hall'' as [| ? ? Hc Hrest]; subst.
    destruct (base64_group B a b c Ha Hb Hc) as ((H1 & H2 & H3 & H4) & E1 & E2 & E3).
    cbv zeta in *.
    destruct n as [| [| [| n]]]; [reflexivity | | |];
      cbn [base64_encode app]; rewrite base64_loop_first by assumption.
    + cbn [base64_loop mbind option_bind]. rewrite E1. reflexivity.
    + rewrite base64_loop_next by (auto; lia). change (4 + 6 - 8) with 2.
      cbn [base64_loop mbind option_bind]. rewrite E1, E2. reflexivity.
    + rewrite base64_loop_next by (auto; lia). change (4 + 6 - 8) with 2.
      rewrite base64_loop_next by (auto; lia). change (2 + 6 - 8) with 0.
      rewrite (IH Hrest n rest') by (cbn in Hn; lia).
      cbn [mbind option_bind]. rewrite E1, E2, E3. reflexivity.
Qed.

(** Past the encoded bytes the loop meets the padding, or whatever follows
    the encoding. *)
Lemma base64_loop_encode_more (data : list Z) :
  Forall (fun b => 0 <= b < 256) data ->
  forall (n : nat) (tail : list Z) (B : Z),
    (length data < n)%nat -> base64_index (str_head tail) = -1 ->
    base64_loop n (base64_encode data ++ tail) B 0 = None.
Proof.
  assert (Hpad : forall s B bits, bits < 8 -> base64_fill (CH_PAD :: s) B bits = None).
  { intros s B bits Hbits. cbn [base64_fill str_head].
    destruct (Z.leb_spec 8 bits); [lia | reflexivity]. }
  assert (Htail : forall tail B bits,
            bits < 8 -> base64_index (str_head tail) = -1 -> base64_fill tail B bits = None).
  { intros tail B bits Hbits Hidx. destruct tail as [| c tail]; cbn [base64_fill];
      (destruct (Z.leb_spec 8 bits); [lia |]); rewrite Hidx; reflexivity. }
  induction data as [| a | a b | a b c rest IH] using list_ind3; intros Hall n rest' B Hn Hidx.
  - destruct n; [cbn in Hn; lia |]. cbn [base64_encode app base64_loop].
    rewrite Htail by (auto; lia). reflexivity.
  - inversion Hall as [| ? ? Ha _]; subst.
    destruct (base64_group B a 0 0 Ha ltac:(lia) ltac:(lia)) as ((H1 & H2 & _) & _).
    cbv zeta in *. change (0 / 16) with 0 in *. rewrite Z.add_0_r in *.
    destruct n as [| [| n]]; [cbn in Hn; lia .. |].
    cbn [base64_encode app]. rewrite base64_loop_first by assumption.
    cbn [base64_loop]. rewrite Hpad by lia. reflexivity.
  - inversion Hall as [| ? ? Ha Hall']; subst. inversion Hall' as [| ? ? Hb _]; subst.
    destruct (base64_group B a b 0 Ha Hb ltac:(lia)) as ((H1 & H2 & H3 & _) & _).
    cbv zeta in *. change (0 / 64) with 0 in *. rewrite Z.add_0_r in *.
    destruct n as [| [| [| n]]]; [cbn in Hn; lia .. |].
    cbn [base64_encode app]. rewrite base64_loop_first by assumption.
    rewrite base64_loop_next by (auto; lia). change (4 + 6 - 8) with 2.
    cbn [base64_loop]. rewrite Hpad by lia. reflexivity.
  - inversion Hall as [| ? ? Ha Hall']; subst. inversion Hall' as [| ? ? Hb Hall'']; subst.
    inversion Hall'' as [| ? ? Hc Hrest]; subst.
    destruct (base64_group B a b c Ha Hb Hc) as ((H1 & H2 & H3 & H4) & _).
    cbv zeta in *.
    destruct n as [| [| [| n]]]; [cbn in Hn; lia .. |].
    cbn [base64_encode app]. rewrite base64_loop_first by assumption.
    rewrite base64_loop_next by (auto; lia). change (4 + 6 - 8) with 2.
    rewrite base64_loop_next by (auto; lia). change (2 + 6 - 8) with 0.
    rewrite (IH Hrest n rest') by (cbn in Hn; auto; lia). reflexivity.
Qed.

(** The loop stores as many bytes as asked for, on any string. *)
Lemma base64_loop_length (n : nat) :
  forall s B bits data,
    base64_loop n s B bits = Some data ->
    length data = n /\ Forall (fun b => 0 <= b < 256) data.
Proof.
  induction n as [| n IH]; intros s B bits data; cbn [base64_loop].
  - intros [= <-]. split; [reflexivity | constructor].
  - destruct (base64_fill s B bits) as [[[rest B'] bits'] |]; cbn [mbind option_bind];
      [| discriminate].
    destruct (base64_loop n rest B' (bits' - 8)) as [data' |] eqn:Hrest;
      cbn [mbind option_bind]; [| discriminate].
    intros [= <-]. destruct (IH _ _ _ _ Hrest) as [Hlen Hall].
    split; [cbn; lia |]. constructor; [apply Z.mod_pos_bound; lia | exact Hall].
Qed.

Section LoadBufferProperties.

Variable malloc : Z -> bool.

Local Abbreviation load_base64 := (cgltf_load_buffer_base64 malloc).

(** X13: decoding reads back what the base64 encoding of RFC 4648 encodes.
    For bytes [data] and [size] of them at most, when the allocation
    succeeds, [cgltf_load_buffer_base64] returns success with the first
    [size] bytes of [data], whatever follows the encoding in the string
    (the padding included): with [size] the number of bytes, it returns
    [data]. *)
Theorem cgltf_load_buffer_base64_encode (options : cgltf_options) (data tail : list Z)
    (size : Z) :
  Forall (fun b => 0 <= b < 256) data ->
  0 <= size <= count_of data ->
  options_alloc malloc options size = true ->
  load_base64 options size (base64_encode data ++ tail)
  = (cgltf_result_success, Some (take (Z.to_nat size) data)).
Proof.
  intros Hdata Hsize Halloc. unfold cgltf_load_buffer_base64. rewrite Halloc. cbn [negb].
  rewrite base64_loop_encode by (auto; unfold count_of in Hsize; lia). reflexivity.
Qed.

(** X14: the results of [cgltf_load_buffer_base64].  It returns
    out-of-memory when the allocation fails, before it reads the string;
    otherwise io-error or success, and the output is written with success
    only and holds exactly [size] bytes.  Asking for more bytes than were
    encoded is answered with io-error when the encoding is followed by the
    end of the string or by a byte outside the alphabet: the decoder stops
    at the padding and at the terminator. *)
Theorem cgltf_load_buffer_base64_results (options : cgltf_options) (size : Z)
    (base64 : list Z) :
  (options_alloc malloc options size = false ->
   load_base64 options size base64 = (cgltf_result_out_of_memory, None))
  /\ (options_alloc malloc options size = true ->
      load_base64 options size base64 = (cgltf_result_io_error, None)
      \/ exists data,
           load_base64 options size base64 = (cgltf_result_success, Some data)
           /\ length data = Z.to_nat size
           /\ Forall (fun b => 0 <= b < 256) data)
  /\ (forall data tail,
        options_alloc malloc options size = true ->
        base64 = base64_encode data ++ tail ->
        Forall (fun b => 0 <= b < 256) data ->
        count_of data < size -> base64_index (str_head tail) = -1 ->
        load_base64 options size base64 = (cgltf_result_io_error, None)).
Proof.
  unfold cgltf_load_buffer_base64. split; [| split].
  - intros ->. reflexivity.
  - intros ->. cbn [negb].
    destruct (base64_loop (Z.to_nat size) base64 0 0) as [data |] eqn:Hloop; [| auto].
    right. exists data. split; [reflexivity |]. exact (base64_loop_length _ _ _ _ _ Hloop).
  - intros data tail -> -> Hdata Hsize Htail. cbn [negb].
    rewrite base64_loop_encode_more by (auto; unfold count_of in Hsize; lia). reflexivity.
Qed.

Lemma cgltf_load_buffer_base64_outcome (options : cgltf_options) (size : Z)
    (base64 : list Z) (res : cgltf_result) (out : option (list Z)) :
  load_base64 options size base64 = (res, out) ->
  loader_outcome size res out
  /\ (res = cgltf_result_success \/ res = cgltf_result_io_error
      \/ res = cgltf_result_out_of_memory).
Proof.
  unfold cgltf_load_buffer_base64, loader_outcome.
  destruct (negb _); [intros [= <- <-]; split; [right; split; [discriminate | reflexivity] | auto] |].
  destruct (base64_loop (Z.to_nat size) base64 0 0) as [data |] eqn:Hloop;
    intros [= <- <-].
  - split; [left | auto]. split; [reflexivity |]. exists data. split; [reflexivity |].
    exact (proj1 (base64_loop_length _ _ _ _ _ Hloop)).
  - split; [right; split; [discriminate | reflexivity] | auto].
Qed.

Variable uninitialized_byte : Z.
Variable fopen : list Z -> option (list Z).

Local Abbreviation load_file := (cgltf_load_buffer_file malloc uninitialized_byte fopen).
Local Abbreviation load_loop := (load_buffers_loop malloc uninitialized_byte fopen).
Local Abbreviation load_buffers := (cgltf_load_buffers malloc uninitialized_byte fopen).

Lemma cgltf_load_buffer_file_outcome (options : cgltf_options) (size : Z) (uri : list Z)
    (gltf_path : option (list Z)) (res : cgltf_result) (out : option (list Z)) :
  load_file options size uri gltf_path = Some (res, out) ->
  loader_outcome size res out
  /\ (res = cgltf_result_success \/ res = cgltf_result_io_error
      \/ res = cgltf_result_out_of_memory \/ res = cgltf_result_file_not_found).
Proof.
  unfold cgltf_load_buffer_file, loader_outcome.
  destruct gltf_path as [base |]; cbn [mbind option_bind]; [| discriminate].
  destruct (negb _);
    [intros [= <- <-]; split; [right; split; [discriminate | reflexivity] | auto] |].
  destruct (cgltf_combine_paths _ base uri) as [path | |]; try discriminate.
  destruct (fopen (c_str path)) as [file |];
    [| intros [= <- <-]; split; [right; split; [discriminate | reflexivity] | auto 6]].
  destruct (negb _);
    [intros [= <- <-]; split; [right; split; [discriminate | reflexivity] | auto] |].
  case_bool_decide as Hread; intros [= <- <-].
  - split; [right; split; [discriminate | reflexivity] | auto].
  - split; [left | auto]. split; [reflexivity |]. eexists. split; [reflexivity |].
    rewrite length_take. unfold count_of in Hread. lia.
Qed.

(** X18: cgltf_load_buffer_file opens the file named by the directory part
    of gltf_path followed by the URI, in a path buffer that is large enough
    for it, and returns the first size bytes of the file: file_not_found
    when the file cannot be opened, out_of_memory when the data cannot be
    allocated and io_error when the file is shorter than size. *)
Theorem cgltf_load_buffer_file_reads (options : cgltf_options) (size : Z)
    (uri base dir name : list Z) :
  c_str base = dir ++ name -> directory dir ->
  CH_SLASH ∉ name -> CH_BACKSLASH ∉ name ->
  strlen uri + strlen base + 1 < SIZE_MODULUS ->
  options_alloc malloc options (strlen uri + strlen base + 1) = true ->
  load_file options size uri (Some base)
  = Some match fopen (dir ++ c_str uri) with
         | None => (cgltf_result_file_not_found, None)
         | Some file =>
             if negb (options_alloc malloc options size)
             then (cgltf_result_out_of_memory, None)
             else if bool_decide (size <= count_of file)
                  then (cgltf_result_success, Some (take (Z.to_nat size) file))
                  else (cgltf_result_io_error, None)
         end.
Proof.
  intros Hbase Hdir Hslash Hback Hwrap Halloc.
  unfold cgltf_load_buffer_file. cbn [mbind option_bind].
  assert (Hsize : size_wrap (strlen uri + strlen base + 1) = strlen uri + strlen base + 1).
  { unfold size_wrap. apply Z.mod_small. unfold strlen, count_of in *. lia. }
  rewrite Hsize, Halloc. cbn [negb].
  rewrite (cgltf_combine_paths_joins _ base uri dir name Hbase Hdir Hslash Hback).
  rewrite bool_decide_eq_true_2.
  2: { unfold strlen, count_of in *. rewrite length_replicate, Hbase, length_app. lia. }
  rewrite (app_assoc dir), c_str_app_nul.
  2: { pose proof (c_str_nonzero base) as H. rewrite Hbase in H.
       apply Forall_app in H as [Hd _]. apply Forall_app.
       split; [exact Hd | apply c_str_nonzero]. }
  destruct (fopen (dir ++ c_str uri)) as [file |]; [| reflexivity].
  destruct (negb _); [reflexivity |].
  repeat case_bool_decide; first [reflexivity | lia].
Qed.

Lemma buffer_after_kept (uri : option (list Z)) (b : cgltf_buffer) :
  buffer_after false uri b b.
Proof.
  split; [reflexivity |]. destruct (buffer_data b), uri; auto.
Qed.

Lemma buffer_after_loaded (ok : bool) (uri : list Z) (b : cgltf_buffer) (data : list Z) :
  buffer_data b = None -> length data = Z.to_nat (buffer_size b) ->
  buffer_after ok (Some uri) b (mk_buffer (buffer_size b) (Some data)).
Proof.
  intros Hb Hlen. split; [reflexivity |]. rewrite Hb. left. exists data. auto.
Qed.

Lemma load_buffers_loop_after (options : cgltf_options) (gltf_path : option (list Z))
    (rows : list (option (list Z) * cgltf_buffer)) :
  forall res buffers',
    load_loop options gltf_path rows = Some (res, buffers') ->
    Forall2 (fun row b' =>
               buffer_after (bool_decide (res = cgltf_result_success)) row.1 row.2 b')
      rows buffers'
    /\ res <> cgltf_result_invalid_json /\ res <> cgltf_result_invalid_gltf
    /\ res <> cgltf_result_invalid_options /\ res <> cgltf_result_data_too_short.
Proof.
  induction rows as [| [uri b] rows IH]; intros res buffers'; cbn [load_buffers_loop].
  { intros [= <- <-]. split; [constructor | repeat split; discriminate]. }
  pose (post := fun (res : cgltf_result) (buffers' : list cgltf_buffer) =>
          Forall2 (fun row b' =>
                     buffer_after (bool_decide (res = cgltf_result_success)) row.1 row.2 b')
            ((uri, b) :: rows) buffers'
          /\ res <> cgltf_result_invalid_json /\ res <> cgltf_result_invalid_gltf
          /\ res <> cgltf_result_invalid_options /\ res <> cgltf_result_data_too_short).
  change (_ /\ _) with (post res buffers').
  assert (Hcontinue : forall b',
            (forall ok, buffer_after ok uri b b') ->
            ('(res, rest') ← load_loop options gltf_path rows; Some (res, b' :: rest'))
            = Some (res, buffers') ->
            post res buffers').
  { intros b' Hb' H.
    destruct (load_loop options gltf_path rows) as [[res0 rest'] |] eqn:Hrest;
      cbn [mbind option_bind] in H; [| discriminate].
    injection H as <- <-. destruct (IH _ _ eq_refl) as [Hall Hcodes].
    unfold post. split; [| exact Hcodes]. constructor; [apply Hb' | exact Hall]. }
  assert (Hstop : forall r,
            r <> cgltf_result_success ->
            r <> cgltf_result_invalid_json /\ r <> cgltf_result_invalid_gltf
            /\ r <> cgltf_result_invalid_options /\ r <> cgltf_result_data_too_short ->
            Some (r, b :: (snd <$> rows)) = Some (res, buffers') ->
            post res buffers').
  { intros r Hr Hcodes [= <- <-]. unfold post. split; [| exact Hcodes].
    rewrite (bool_decide_eq_false_2 _ Hr).
    constructor; [apply buffer_after_kept |].
    clear. induction rows as [| [u x] rows IH]; constructor;
      [apply buffer_after_kept | exact IH]. }
  clearbody post.
  assert (Hsame : forall ok, buffer_data b <> None \/ uri = None -> buffer_after ok uri b b).
  { intros ok H. split; [reflexivity |].
    destruct (buffer_data b), uri; auto; destruct H; congruence. }
  case_bool_decide as Hloaded; [apply Hcontinue; auto |].
  assert (Hnone : buffer_data b = None) by (destruct (buffer_data b); [first [discriminate | exfalso; apply Hloaded; discriminate] | reflexivity]).
  destruct uri as [uri |]; [| apply Hcontinue; auto].
  destruct (strncmp uri STR_DATA 5 =? 0).
  - destruct (strchr uri CH_COMMA) as [comma |];
      [| apply Hstop; [discriminate | repeat split; discriminate]].
    destruct (_ && _); [| apply Hstop; [discriminate | repeat split; discriminate]].
    destruct (load_base64 options (buffer_size b) (drop (S comma) uri)) as [r out] eqn:Hload.
    apply cgltf_load_buffer_base64_outcome in Hload
      as [[(-> & data & -> & Hlen) | (Hr & ->)] Hcodes].
    + case_bool_decide; [congruence |]. apply Hcontinue.
      intros ok. apply buffer_after_loaded; assumption.
    + case_bool_decide; [| tauto]. apply Hstop; [exact Hr |].
      destruct Hcodes as [-> | [-> | ->]]; repeat split; discriminate.
  - destruct (negb _); [| apply Hstop; [discriminate | repeat split; discriminate]].
    destruct (load_file options (buffer_size b) uri gltf_path) as [[r out] |] eqn:Hload;
      cbn [mbind option_bind]; [| discriminate].
    apply cgltf_load_buffer_file_outcome in Hload
      as [[(-> & data & -> & Hlen) | (Hr & ->)] Hcodes].
    + case_bool_decide; [congruence |]. apply Hcontinue.
      intros ok. apply buffer_after_loaded; assumption.
    + case_bool_decide; [| tauto]. apply Hstop; [exact Hr |].
      destruct Hcodes as [-> | [-> | [-> | ->]]]; repeat split; discriminate.
Qed.

(** The two ways through [cgltf_load_buffers] with options: it stops at the
    BIN chunk, or it runs the loop over the buffers with the BIN chunk
    attached to buffer 0 where that applies. *)
Lemma cgltf_load_buffers_run (options : cgltf_options) (data : cgltf_data ptr)
    (uris : list (option (list Z))) (gltf_path : option (list Z))
    (res : cgltf_result) (data' : cgltf_data ptr) :
  load_buffers (Some options) data uris gltf_path = Some (res, data') ->
  (res = cgltf_result_data_too_short /\ data' = data
   /\ exists b rest tail payload,
        buffers data = b :: rest /\ uris = None :: tail /\ bin data = Some payload
        /\ buffer_data b = None /\ count_of payload < buffer_size b)
  \/ (exists attached buffers',
        length uris = length attached
        /\ load_loop options gltf_path (zip uris attached) = Some (res, buffers')
        /\ data' = set_buffers buffers' data
        /\ ((attached = buffers data
             /\ forall b rest tail payload,
                  buffers data = b :: rest -> uris = None :: tail ->
                  bin data = Some payload -> buffer_data b <> None)
            \/ exists b rest tail payload,
                 buffers data = b :: rest /\ uris = None :: tail
                 /\ bin data = Some payload /\ buffer_data b = None
                 /\ buffer_size b <= count_of payload
                 /\ attached = mk_buffer (buffer_size b) (Some payload) :: rest)).
Proof.
  unfold cgltf_load_buffers.
  assert (Hloop : forall attached,
            (if bool_decide (length uris <> length attached) then None
             else '(res, buffers') ← load_loop options gltf_path (zip uris attached);
                  Some (res, set_buffers buffers' data)) = Some (res, data') ->
            exists buffers',
              length uris = length attached
              /\ load_loop options gltf_path (zip uris attached) = Some (res, buffers')
              /\ data' = set_buffers buffers' data).
  { intros attached H. case_bool_decide as Hlen; [discriminate |].
    destruct (load_loop options gltf_path (zip uris attached)) as [[r buffers'] |];
      cbn [mbind option_bind] in H; [| discriminate].
    injection H as <- <-. exists buffers'. repeat split.
    destruct (decide (length uris = length attached)); [assumption | tauto]. }
  assert (Hplain : (if bool_decide (length uris <> length (buffers data)) then None
             else '(res, buffers') ← load_loop options gltf_path (zip uris (buffers data));
                  Some (res, set_buffers buffers' data)) = Some (res, data') ->
            (forall b rest tail payload,
                  buffers data = b :: rest -> uris = None :: tail ->
                  bin data = Some payload -> buffer_data b <> None) ->
            exists attached buffers',
              length uris = length attached
              /\ load_loop options gltf_path (zip uris attached) = Some (res, buffers')
              /\ data' = set_buffers buffers' data
              /\ ((attached = buffers data
                   /\ forall b rest tail payload,
                        buffers data = b :: rest -> uris = None :: tail ->
                        bin data = Some payload -> buffer_data b <> None)
                  \/ exists b rest tail payload,
                       buffers data = b :: rest /\ uris = None :: tail
                       /\ bin data = Some payload /\ buffer_data b = None
                       /\ buffer_size b <= count_of payload
                       /\ attached = mk_buffer (buffer_size b) (Some payload) :: rest)).
  { intros H Hnot. destruct (Hloop _ H) as (buffers' & Hlen & Hrun & ->).
    exists (buffers data), buffers'. repeat split; try assumption. left. auto. }
  destruct (buffers data) as [| b rest] eqn:Hbuffers;
    [intros H; right; apply Hplain; [exact H | discriminate] |].
  destruct uris as [| [uri |] tail];
    [intros H; right; apply Hplain; [exact H | discriminate]
    | intros H; right; apply Hplain; [exact H | discriminate] |].
  destruct (bin data) as [payload |] eqn:Hbin;
    [| intros H; right; apply Hplain; [exact H | discriminate]].
  destruct (decide (buffer_data b = None)) as [Hdata | Hdata];
    [rewrite (bool_decide_eq_true_2 _ Hdata)
    | rewrite (bool_decide_eq_false_2 _ Hdata);
      intros H; right; apply Hplain; [exact H | intros ? ? ? ? [= <- <-] _ _; exact Hdata]].
  destruct (count_of payload <? buffer_size b) eqn:Hshort.
  - intros [= <- <-]. left. repeat split. exists b, rest, tail, payload.
    repeat split; try assumption. apply Z.ltb_lt. exact Hshort.
  - intros H. right. destruct (Hloop _ H) as (buffers' & Hlen & Hrun & ->).
    eexists _, buffers'. repeat split; [exact Hlen | exact Hrun |].
    right. exists b, rest, tail, payload. repeat split; try assumption.
    apply Z.ltb_ge. exact Hshort.
Qed.

(** X15: after a successful cgltf_load_buffers only the buffers of the root
    have changed, and each one has its size and: the data it had when it was
    loaded already; as many bytes as its size when it has a URI; the BIN
    payload, which is at least as long as its size, when it is buffer 0
    without a URI in a root with a BIN chunk; no data otherwise. *)
Theorem cgltf_load_buffers_success (options : cgltf_options) (data : cgltf_data ptr)
    (uris : list (option (list Z))) (gltf_path : option (list Z))
    (data' : cgltf_data ptr) :
  load_buffers (Some options) data uris gltf_path
  = Some (cgltf_result_success, data') ->
  data' = set_buffers (buffers data') data
  /\ length (buffers data') = length (buffers data)
  /\ forall (i : nat) (uri : option (list Z)) (b : cgltf_buffer),
       uris !! i = Some uri -> buffers data !! i = Some b ->
       exists b', buffers data' !! i = Some b'
                  /\ buffer_size b' = buffer_size b
                  /\ match buffer_data b, uri with
                     | Some _, _ => b' = b
                     | None, Some _ =>
                         exists bytes, buffer_data b' = Some bytes
                                       /\ length bytes = Z.to_nat (buffer_size b)
                     | None, None =>
                         match i, bin data with
                         | O, Some payload =>
                             buffer_data b' = Some payload
                             /\ buffer_size b <= count_of payload
                         | _, _ => b' = b
                         end
                     end.
Proof.
  intros H. apply cgltf_load_buffers_run in H
    as [(Hres & _) | (attached & buffers' & Hlen & Hrun & -> & Hattached)];
    [discriminate |].
  apply load_buffers_loop_after in Hrun as [Hall _].
  rewrite bool_decide_eq_true_2 in Hall by reflexivity.
  cbn [buffers set_buffers].
  assert (Hlen' : length buffers' = length attached).
  { apply Forall2_length in Hall. rewrite length_zip_with in Hall. lia. }
  split; [reflexivity |].
  assert (Hrow : forall i uri a, uris !! i = Some uri -> attached !! i = Some a ->
            exists b', buffers' !! i = Some b' /\ buffer_after true uri a b').
  { intros i uri a Huri Ha.
    assert (Hzip : zip uris attached !! i = Some (uri, a)).
    { apply lookup_zip_with_Some. exists uri, a. auto. }
    destruct (Forall2_lookup_l _ _ _ _ _ Hall Hzip) as (b' & Hb' & Hafter).
    exists b'. auto. }
  destruct Hattached as [[-> Hnot] | (b0 & rest & tail & payload & Hbuffers & -> & Hbin
                                      & Hdata & Hsize & ->)].
  - split; [exact Hlen' |]. intros i uri b Huri Hb.
    destruct (Hrow i uri b Huri Hb) as (b' & Hb' & Hsize & Hafter).
    exists b'. split; [exact Hb' |]. split; [exact Hsize |].
    destruct (buffer_data b) eqn:Hdata; [exact Hafter |].
    destruct uri as [uri |].
    + destruct Hafter as [Hloaded | [Hfalse _]]; [exact Hloaded | discriminate].
    + destruct i as [| i]; [| exact Hafter].
      destruct (bin data) as [payload |] eqn:Hbin; [| exact Hafter].
      exfalso. destruct (buffers data) as [| b0 rest] eqn:Hbuffers; [discriminate |].
      destruct uris as [| u tail]; [discriminate |].
      cbn in Huri, Hb. injection Huri as ->. injection Hb as ->.
      exact (Hnot b rest tail payload eq_refl eq_refl eq_refl Hdata).
  - rewrite Hbuffers. split; [rewrite Hlen'; reflexivity |].
    intros i uri b Huri Hb. destruct i as [| i].
    + cbn in Huri, Hb. injection Huri as <-. injection Hb as <-.
      destruct (Hrow 0%nat None _ eq_refl eq_refl) as (b' & Hb' & Hsize' & Hafter).
      cbn in Hafter. subst b'. exists (mk_buffer (buffer_size b0) (Some payload)).
      split; [exact Hb' |]. split; [reflexivity |].
      rewrite Hdata, Hbin. split; [reflexivity | exact Hsize].
    + cbn in Huri, Hb.
      destruct (Hrow (S i) uri b Huri Hb) as (b' & Hb' & Hsize' & Hafter).
      exists b'. split; [exact Hb' |]. split; [exact Hsize' |].
      destruct (buffer_data b) eqn:Hdata'; [exact Hafter |].
      destruct uri as [uri |]; [| exact Hafter].
      destruct Hafter as [Hloaded | [Hfalse _]]; [exact Hloaded | discriminate].
Qed.

(** X16: the failures of cgltf_load_buffers.  Null options give
    invalid_options and nothing else does; data_too_short is returned exactly
    when buffer 0 has neither data nor a URI and the BIN payload is shorter
    than its size; in both cases the root is untouched.  With any code the
    buffers keep their count and sizes, a buffer that had data keeps it, and
    a buffer left without data is as it was. *)
Theorem cgltf_load_buffers_failure (options : option cgltf_options)
    (data : cgltf_data ptr) (uris : list (option (list Z)))
    (gltf_path : option (list Z)) (res : cgltf_result) (data' : cgltf_data ptr) :
  load_buffers options data uris gltf_path = Some (res, data') ->
  (options = None <-> res = cgltf_result_invalid_options)
  /\ (res = cgltf_result_data_too_short
      <-> options <> None
          /\ exists b rest tail payload,
               buffers data = b :: rest /\ uris = None :: tail
               /\ bin data = Some payload /\ buffer_data b = None
               /\ count_of payload < buffer_size b)
  /\ (res = cgltf_result_invalid_options \/ res = cgltf_result_data_too_short ->
      data' = data)
  /\ res <> cgltf_result_invalid_json /\ res <> cgltf_result_invalid_gltf
  /\ length (buffers data') = length (buffers data)
  /\ forall (i : nat) (b : cgltf_buffer),
       buffers data !! i = Some b ->
       exists b', buffers data' !! i = Some b'
                  /\ buffer_size b' = buffer_size b
                  /\ (buffer_data b <> None -> b' = b)
                  /\ (buffer_data b' = None -> b' = b).
Proof.
  destruct options as [options |]; cycle 1.
  { cbn. intros [= <- <-]. repeat split; try tauto; try discriminate;
      try (intros [H _]; congruence).
    intros i b Hb. exists b. auto. }
  intros H. apply cgltf_load_buffers_run in H
    as [(-> & -> & Hshort) | (attached & buffers' & Hlen & Hrun & -> & Hattached)].
  { repeat split; try discriminate; try tauto; try (intros _; exact Hshort).
    intros i b Hb. exists b. auto. }
  apply load_buffers_loop_after in Hrun as (Hall & Hjson & Hgltf & Hoptions & Hshort).
  cbn [buffers set_buffers].
  assert (Hlen' : length buffers' = length attached).
  { apply Forall2_length in Hall. rewrite length_zip_with in Hall. lia. }
  assert (Hrow : forall i a, attached !! i = Some a ->
            exists b', buffers' !! i = Some b' /\ buffer_size b' = buffer_size a
                       /\ (buffer_data a <> None -> b' = a)
                       /\ (buffer_data b' = None -> b' = a)).
  { intros i a Ha.
    destruct (lookup_lt_is_Some_2 uris i) as [uri Huri].
    { rewrite Hlen. apply lookup_lt_is_Some. eauto. }
    assert (Hzip : zip uris attached !! i = Some (uri, a)).
    { apply lookup_zip_with_Some. exists uri, a. auto. }
    destruct (Forall2_lookup_l _ _ _ _ _ Hall Hzip) as (b' & Hb' & Hsize & Hafter).
    cbn in Hsize, Hafter. exists b'. split; [exact Hb' |]. split; [exact Hsize |].
    destruct (buffer_data a) eqn:Hdata.
    - split; [intros _; exact Hafter | intros _; exact Hafter].
    - split; [intros Hne; congruence |].
      destruct uri as [uri |]; [| intros _; exact Hafter].
      destruct Hafter as [(bytes & Hbytes & _) | [_ Hsame]];
        [congruence | intros _; exact Hsame]. }
  split; [split; [discriminate | intros ->; congruence] |].
  split; [split; [intros ->; congruence | intros [_ Hcase]] |].
  { exfalso. destruct Hcase as (b & rest & tail & payload & Hb & Hu & Hbin & Hdata & Hlt).
    destruct Hattached as [[-> Hnot] | (b0 & rest0 & tail0 & payload0 & Hb0 & Hu0 & Hbin0
                                        & Hdata0 & Hge & ->)].
    - exact (Hnot b rest tail payload Hb Hu Hbin Hdata).
    - rewrite Hb in Hb0. injection Hb0 as <- <-. rewrite Hbin in Hbin0.
      injection Hbin0 as <-. lia. }
  split; [intros [-> | ->]; congruence |].
  split; [exact Hjson |]. split; [exact Hgltf |].
  destruct Hattached as [[-> Hnot] | (b0 & rest & tail & payload & Hbuffers & -> & Hbin
                                      & Hdata & Hsize & ->)].
  - split; [exact Hlen' | exact Hrow].
  - rewrite Hbuffers. split; [rewrite Hlen'; reflexivity |].
    intros i b Hb. destruct i as [| i].
    + cbn in Hb. injection Hb as <-.
      destruct (Hrow 0%nat _ eq_refl) as (b' & Hb' & Hsize' & Hkept & Hnone).
      cbn in Hsize', Hkept. exists b'. split; [exact Hb' |]. split; [exact Hsize' |].
      rewrite Hkept by discriminate. cbn. split; [congruence | discriminate].
    + cbn in Hb. exact (Hrow (S i) b Hb).
Qed.

Lemma data_uri_parts (media payload : list Z) :
  Forall (fun c => c <> 0 /\ c <> CH_COMMA) media ->
  strncmp (data_uri media payload) STR_DATA 5 = 0
  /\ exists comma,
       strchr (data_uri media payload) CH_COMMA = Some comma
       /\ (7 <=? comma)%nat = true
       /\ strncmp (drop (comma - 7) (data_uri media payload)) STR_BASE64 7 = 0
       /\ drop (S comma) (data_uri media payload) = payload.
Proof.
  intros Hmedia. split; [exact (strncmp_prefix STR_DATA _) |].
  exists (5 + length media + 7)%nat.
  assert (Hsplit : data_uri media payload
                   = (STR_DATA ++ media ++ STR_BASE64) ++ CH_COMMA :: payload).
  { unfold data_uri. rewrite <- !app_assoc. reflexivity. }
  assert (Hlen : length (STR_DATA ++ media ++ STR_BASE64) = (5 + length media + 7)%nat).
  { rewrite !length_app. cbn. lia. }
  split; [| split; [apply Nat.leb_le; lia | split]].
  - rewrite Hsplit, <- Hlen. apply strchr_first; [| discriminate].
    apply Forall_app. split; [repeat constructor; discriminate |].
    apply Forall_app. split; [exact Hmedia | repeat constructor; discriminate].
  - replace (5 + length media + 7 - 7)%nat with (length (STR_DATA ++ media)) 
      by (rewrite length_app; cbn; lia).
    unfold data_uri. rewrite app_assoc, drop_app_length.
    exact (strncmp_prefix STR_BASE64 _).
  - rewrite Hsplit, <- Hlen. change (CH_COMMA :: payload) with ([CH_COMMA] ++ payload).
    rewrite (app_assoc _ [CH_COMMA] payload). apply drop_app_length'.
    rewrite (length_app _ [CH_COMMA]). cbn [length]. lia.
Qed.

(** X19: buffers embedded as base64 data URIs are decoded to their bytes.
    When every buffer of the root has no data, a data URI with the RFC 4648
    encoding of its bytes and their number as size, and the allocations
    succeed, cgltf_load_buffers returns success and each buffer holds its
    bytes. *)
Theorem cgltf_load_buffers_data_uris (options : cgltf_options) (data : cgltf_data ptr)
    (rows : list (list Z * list Z)) (gltf_path : option (list Z)) :
  buffers data = (fun r => mk_buffer (count_of r.2) None) <$> rows ->
  Forall (fun r => Forall (fun c => c <> 0 /\ c <> CH_COMMA) r.1
                   /\ Forall (fun b => 0 <= b < 256) r.2
                   /\ options_alloc malloc options (count_of r.2) = true) rows ->
  load_buffers (Some options) data
    ((fun r => Some (data_uri r.1 (base64_encode r.2))) <$> rows) gltf_path
  = Some (cgltf_result_success,
          set_buffers ((fun r => mk_buffer (count_of r.2) (Some r.2)) <$> rows) data).
Proof.
  intros Hbuffers Hrows. unfold cgltf_load_buffers. rewrite Hbuffers.
  assert (Hattached :
            match (fun r : list Z * list Z => mk_buffer (count_of r.2) None) <$> rows,
                  (fun r : list Z * list Z => Some (data_uri r.1 (base64_encode r.2))) <$> rows,
                  bin data
            return cgltf_result + list cgltf_buffer with
            | buffer :: rest, None :: _, Some payload =>
                if bool_decide (buffer_data buffer = None) then
                  if count_of payload <? buffer_size buffer
                  then inl cgltf_result_data_too_short
                  else inr (mk_buffer (buffer_size buffer) (Some payload) :: rest)
                else inr ((fun r : list Z * list Z => mk_buffer (count_of r.2) None) <$> rows)
            | _, _, _ => inr ((fun r : list Z * list Z => mk_buffer (count_of r.2) None) <$> rows)
            end = inr ((fun r : list Z * list Z => mk_buffer (count_of r.2) None) <$> rows)).
  { destruct rows as [| r rows']; [reflexivity |]. reflexivity. }
  rewrite Hattached. rewrite bool_decide_eq_false_2 by (rewrite !length_fmap; auto).
  assert (Hloop : load_loop options gltf_path
                    (zip ((fun r => Some (data_uri r.1 (base64_encode r.2))) <$> rows)
                         ((fun r => mk_buffer (count_of r.2) None) <$> rows))
                  = Some (cgltf_result_success,
                          (fun r => mk_buffer (count_of r.2) (Some r.2)) <$> rows)).
  { clear Hbuffers Hattached.
    induction Hrows as [| [media bytes] rows (Hmedia & Hbytes & Halloc) _ IH];
      [reflexivity |].
    cbn [fmap list_fmap zip zip_with load_buffers_loop fst snd buffer_data buffer_size].
    rewrite bool_decide_eq_false_2 by auto.
    destruct (data_uri_parts media (base64_encode bytes) Hmedia)
      as (Hdata & comma & Hcomma & Hseven & Hbase64 & Hpayload).
    cbn [fst snd] in *.
    rewrite Hdata, Hcomma, Hseven, Hbase64, Hpayload. cbn [Z.eqb andb].
    unfold cgltf_load_buffer_base64. rewrite Halloc. cbn [negb].
    rewrite <- (app_nil_r (base64_encode bytes)).
    rewrite base64_loop_encode by (auto; unfold count_of; lia).
    unfold count_of. rewrite Nat2Z.id, firstn_all.
    rewrite bool_decide_eq_false_2 by auto.
    fold (@fmap list _ _ _ (fun r : list Z * list Z => mk_buffer (count_of r.2) None) rows).
    unfold count_of in IH. cbn [fmap] in IH. rewrite IH. reflexivity. }
  rewrite Hloop. reflexivity.
Qed.

Lemma unsupported_uri_branch (uri : list Z) :
  unsupported_uri uri ->
  (if strncmp uri STR_DATA 5 =? 0 then
     match strchr uri CH_COMMA with
     | Some comma =>
         (7 <=? comma)%nat && (strncmp (drop (comma - 7) uri) STR_BASE64 7 =? 0)
     | None => false
     end
   else negb (strstr uri STR_SCHEME)) = false.
Proof.
  assert (Hdata : Forall (fun c => c <> 0) STR_DATA) by (repeat constructor; discriminate).
  assert (Hbase64 : Forall (fun c => c <> 0) STR_BASE64)
    by (repeat constructor; discriminate).
  intros [[Hprefix (a & b & -> & Ha)] | (media & rest & -> & Hmedia & Hrest)].
  - destruct (Z.eqb_spec (strncmp (a ++ STR_SCHEME ++ b) STR_DATA 5) 0) as [H0 | _].
    + exfalso. apply Hprefix. apply (proj1 (strncmp_equal STR_DATA _ Hdata)). exact H0.
    + rewrite strstr_found by exact Ha. reflexivity.
  - pose proof (strncmp_prefix STR_DATA (media ++ rest)) as Hp.
    change (length STR_DATA) with 5%nat in Hp. rewrite Hp. cbn [Z.eqb].
    assert (Hhead : Forall (fun c => c <> 0 /\ c <> CH_COMMA) (STR_DATA ++ media)).
    { apply Forall_app. split; [repeat constructor; discriminate | exact Hmedia]. }
    destruct Hrest as [Hnul | [Hcomma Hnot]].
    + rewrite app_assoc, strchr_stops by assumption. reflexivity.
    + destruct rest as [| c payload]; [discriminate |]. cbn [str_head] in Hcomma. subst c.
      rewrite app_assoc, strchr_first by (auto; discriminate).
      destruct (Nat.leb_spec 7 (length (STR_DATA ++ media))) as [Hlong | _];
        [| reflexivity].
      cbn [andb]. apply Z.eqb_neq. intros H0.
      apply (proj1 (strncmp_equal STR_BASE64 _ Hbase64)) in H0.
      change (length STR_BASE64) with 7%nat in H0.
      pose proof (take_take_drop ((STR_DATA ++ media) ++ CH_COMMA :: payload)
                    (length (STR_DATA ++ media) - 7) 7) as Hsplit.
      rewrite H0 in Hsplit.
      replace (length (STR_DATA ++ media) - 7 + 7)%nat
        with (length (STR_DATA ++ media)) in Hsplit by lia.
      rewrite take_app_length in Hsplit.
      set (x := take _ _) in Hsplit. clearbody x.
      destruct x as [| x0 [| x1 [| x2 [| x3 [| x4 x]]]]]; try discriminate Hsplit.
      injection Hsplit as _ _ _ _ _ Hsplit. exact (Hnot x (eq_sym Hsplit)).
Qed.

Lemma set_buffers_same (data : cgltf_data ptr) : set_buffers (buffers data) data = data.
Proof. destruct data. reflexivity. Qed.

Lemma load_buffers_loop_unsupported (options : cgltf_options)
    (gltf_path : option (list Z)) (uri : list Z) (b : cgltf_buffer) :
  buffer_data b = None -> unsupported_uri uri ->
  forall (i : nat) (uris : list (option (list Z))) (buffers : list cgltf_buffer),
    uris !! i = Some (Some uri) -> buffers !! i = Some b ->
    (forall j u x, (j < i)%nat -> uris !! j = Some u -> buffers !! j = Some x ->
                   buffer_data x <> None \/ u = None) ->
    length uris = length buffers ->
    load_loop options gltf_path (zip uris buffers)
    = Some (cgltf_result_unknown_format, buffers).
Proof.
  intros Hb Huri. pose proof (unsupported_uri_branch uri Huri) as Hbranch.
  assert (Hrest : forall (us : list (option (list Z))) (bs : list cgltf_buffer),
            length us = length bs -> (zip us bs).*2 = bs).
  { intros us bs Hlen. apply snd_zip. lia. }
  induction i as [| i IH]; intros uris buffers Hu Hx Hbefore Hlen;
    destruct uris as [| u uris]; try discriminate;
    destruct buffers as [| x buffers]; try discriminate;
    cbn [zip zip_with load_buffers_loop].
  - cbn in Hu, Hx. injection Hu as ->. injection Hx as ->.
    rewrite bool_decide_eq_false_2 by (rewrite Hb; auto).
    rewrite Hrest by (cbn in Hlen; lia).
    destruct (strncmp uri STR_DATA 5 =? 0).
    + destruct (strchr uri CH_COMMA) as [comma |]; [| reflexivity].
      rewrite Hbranch. reflexivity.
    + rewrite Hbranch. reflexivity.
  - cbn in Hu, Hx.
    rewrite (IH uris buffers Hu Hx); [| | cbn in Hlen; lia].
    + destruct (Hbefore 0%nat u x ltac:(lia) eq_refl eq_refl) as [Hloaded | ->].
      * rewrite bool_decide_eq_true_2 by exact Hloaded. reflexivity.
      * destruct (bool_decide (buffer_data x <> None)); reflexivity.
    + intros j u' x' Hj. apply (Hbefore (S j) u' x'). lia.
Qed.

(** X29: URIs that are not supported give unknown_format.  In a root
    without BIN chunk, when the first buffer that has a URI and no data has
    a URI with a scheme (one that holds [://] and does not start with
    [data:]), or a data URI without a comma or without [;base64] before its
    first comma, cgltf_load_buffers returns unknown_format and the root is
    as it was. *)
Theorem cgltf_load_buffers_unknown_format (options : cgltf_options)
    (data : cgltf_data ptr) (uris : list (option (list Z)))
    (gltf_path : option (list Z)) (i : nat) (uri : list Z) (b : cgltf_buffer) :
  bin data = None -> length uris = length (buffers data) ->
  uris !! i = Some (Some uri) -> buffers data !! i = Some b -> buffer_data b = None ->
  (forall j u x, (j < i)%nat -> uris !! j = Some u -> buffers data !! j = Some x ->
                 buffer_data x <> None \/ u = None) ->
  unsupported_uri uri ->
  load_buffers (Some options) data uris gltf_path
  = Some (cgltf_result_unknown_format, data).
Proof.
  intros Hbin Hlen Hu Hb Hdata Hbefore Huri. unfold cgltf_load_buffers. rewrite Hbin.
  assert (Hattached :
            match buffers data, uris, @None (list Z)
            return cgltf_result + list cgltf_buffer with
            | buffer :: rest, None :: _, Some payload =>
                if bool_decide (buffer_data buffer = None) then
                  if count_of payload <? buffer_size buffer
                  then inl cgltf_result_data_too_short
                  else inr (mk_buffer (buffer_size buffer) (Some payload) :: rest)
                else inr (buffers data)
            | _, _, _ => inr (buffers data)
            end = inr (buffers data)).
  { destruct (buffers data) as [| x xs]; [reflexivity |].
    destruct uris as [| [u |] us]; reflexivity. }
  rewrite Hattached. rewrite bool_decide_eq_false_2 by auto.
  rewrite (load_buffers_loop_unsupported options gltf_path uri b Hdata Huri i uris
             (buffers data) Hu Hb Hbefore Hlen).
  cbn [mbind option_bind]. rewrite set_buffers_same. reflexivity.
Qed.

End LoadBufferProperties.

Lemma cgltf_load_buffer_base64_encode_witness :
  Forall (fun b => 0 <= b < 256) man_bytes
  /\ base64_encode man_bytes = [84; 87; 70; 117]
  /\ cgltf_load_buffer_base64 always_alloc auto_options 3 ([84; 87; 70; 117] ++ [])
     = (cgltf_result_success, Some man_bytes).
Proof.
  assert (Hbytes : Forall (fun b => 0 <= b < 256) man_bytes).
  { apply (bool_decide_unpack _). vm_compute. exact I. }
  split; [exact Hbytes |]. split; [reflexivity |].
  exact (cgltf_load_buffer_base64_encode always_alloc auto_options man_bytes [] 3 Hbytes
           ltac:(vm_compute; split; congruence) eq_refl).
Defined.

Lemma cgltf_load_buffer_file_reads_witness :
  c_str scene_path = json_bytes "models/" ++ json_bytes "scene.gltf"
  /\ cgltf_load_buffer_file always_alloc 205 disk auto_options 4 mesh_uri (Some scene_path)
     = Some (cgltf_result_success, Some [1; 2; 3; 4]).
Proof.
  split; [reflexivity |].
  exact (cgltf_load_buffer_file_reads always_alloc 205 disk auto_options 4 mesh_uri
           scene_path (json_bytes "models/") (json_bytes "scene.gltf") eq_refl
           (or_intror (ex_intro _ (json_bytes "models")
                         (ex_intro _ CH_SLASH (conj eq_refl (or_introl eq_refl)))))
           ltac:(apply (bool_decide_unpack _); vm_compute; exact I)
           ltac:(apply (bool_decide_unpack _); vm_compute; exact I)
           eq_refl eq_refl).
Defined.

Lemma cgltf_load_buffers_success_witness :
  cgltf_load_buffers always_alloc 205 disk (Some auto_options) embedded_root
    embedded_uris None
  = Some (cgltf_result_success,
          buffers_root [mk_buffer 3 (Some [9; 8; 7; 6]); mk_buffer 3 (Some man_bytes)]
            (Some [9; 8; 7; 6]))
  /\ length [mk_buffer 3 (Some [9; 8; 7; 6]); mk_buffer 3 (Some man_bytes)]
     = length (buffers embedded_root).
Proof.
  assert (H : cgltf_load_buffers always_alloc 205 disk (Some auto_options) embedded_root
                embedded_uris None
              = Some (cgltf_result_success,
                      buffers_root
                        [mk_buffer 3 (Some [9; 8; 7; 6]); mk_buffer 3 (Some man_bytes)]
                        (Some [9; 8; 7; 6]))) by (vm_compute; reflexivity).
  split; [exact H |].
  exact (proj1 (proj2 (cgltf_load_buffers_success always_alloc 205 disk auto_options
                         embedded_root embedded_uris None _ H))).
Defined.

Lemma cgltf_load_buffers_failure_witness :
  cgltf_load_buffers always_alloc 205 disk (Some auto_options) short_bin_root [None] None
  = Some (cgltf_result_data_too_short, short_bin_root)
  /\ length (buffers short_bin_root) = length (buffers short_bin_root).
Proof.
  assert (H : cgltf_load_buffers always_alloc 205 disk (Some auto_options) short_bin_root
                [None] None
              = Some (cgltf_result_data_too_short, short_bin_root))
    by (vm_compute; reflexivity).
  split; [exact H |].
  exact (proj1 (proj2 (proj2 (proj2 (proj2 (proj2
           (cgltf_load_buffers_failure always_alloc 205 disk (Some auto_options)
              short_bin_root [None] None _ _ H))))))).
Defined.

Lemma cgltf_load_buffers_data_uris_witness :
  Forall (fun c => c <> 0 /\ c <> CH_COMMA) media_octets
  /\ cgltf_load_buffers always_alloc 205 disk (Some auto_options)
       (buffers_root [mk_buffer 3 None] None)
       [Some (data_uri media_octets (base64_encode man_bytes))] None
     = Some (cgltf_result_success, buffers_root [mk_buffer 3 (Some man_bytes)] None).
Proof.
  assert (Hmedia : Forall (fun c => c <> 0 /\ c <> CH_COMMA) media_octets).
  { apply (bool_decide_unpack _). vm_compute. exact I. }
  split; [exact Hmedia |].
  refine (cgltf_load_buffers_data_uris always_alloc 205 disk auto_options
            (buffers_root [mk_buffer 3 None] None) [(media_octets, man_bytes)] None
            eq_refl _).
  constructor; [| constructor]. split; [exact Hmedia |]. split; [| reflexivity].
  apply (bool_decide_unpack _). vm_compute. exact I.
Defined.

Lemma cgltf_load_buffers_unknown_format_witness :
  unsupported_uri (json_bytes "http://host/mesh.bin")
  /\ cgltf_load_buffers always_alloc 205 disk (Some auto_options)
       (buffers_root [mk_buffer 3 None] None)
       [Some (json_bytes "http://host/mesh.bin")] None
     = Some (cgltf_result_unknown_format, buffers_root [mk_buffer 3 None] None).
Proof.
  assert (Huri : unsupported_uri (json_bytes "http://host/mesh.bin")).
  { left. split; [discriminate |].
    exists (json_bytes "http"), (json_bytes "host/mesh.bin").
    split; [reflexivity | repeat constructor; discriminate]. }
  split; [exact Huri |].
  refine (cgltf_load_buffers_unknown_format always_alloc 205 disk auto_options
            (buffers_root [mk_buffer 3 None] None)
            [Some (json_bytes "http://host/mesh.bin")] None 0
            (json_bytes "http://host/mesh.bin") (mk_buffer 3 None)
            eq_refl eq_refl eq_refl eq_refl eq_refl _ Huri).
  intros j u x Hj. lia.
Defined.

(** ** Properties of the token readers *)

Lemma c_str_cons_inv (s : list Z) (n : nat) :
  length (c_str s) = S n ->
  exists c s', s = c :: s' /\ c <> 0 /\ c_str s = c :: c_str s'.
Proof.
  destruct s as [| c s']; cbn [c_str]; [discriminate |].
  unfold CH_NUL. destruct (Z.eqb_spec c 0); [discriminate |].
  intros _. exists c, s'. auto.
Qed.

(** Inside the array [strncmp] reads as many bytes as the string has, and
    compares them with the string. *)
Lemma strncmp_at_equal (n : nat) :
  forall (mem : list Z) (k : nat) (s2 : list Z),
    (k + n <= length mem)%nat -> length (c_str s2) = n ->
    exists r, strncmp_at mem (Z.of_nat k) s2 n = Some r
              /\ (r = 0 <-> take n (drop k mem) = c_str s2).
Proof.
  induction n as [| n IH]; intros mem k s2 Hk Hlen.
  - exists 0. split; [reflexivity |]. apply length_zero_iff_nil in Hlen as ->.
    rewrite take_0. tauto.
  - destruct (c_str_cons_inv s2 n Hlen) as (c2 & s2' & -> & Hc2 & Hstr).
    rewrite Hstr in *. cbn [length] in Hlen.
    destruct (lookup_lt_is_Some_2 mem k ltac:(lia)) as [c1 Hc1].
    cbn [strncmp_at str_head tail]. unfold read_u8.
    destruct (Z.ltb_spec (Z.of_nat k) 0) as [? | _]; [lia |].
    rewrite Nat2Z.id, Hc1. cbn [mbind option_bind].
    assert (Htake : take (S n) (drop k mem) = c1 :: take n (drop (S k) mem)).
    { rewrite (drop_S mem c1 k Hc1). reflexivity. }
    rewrite Htake.
    destruct (Z.eqb_spec c1 c2) as [-> | Hne].
    + unfold CH_NUL. destruct (Z.eqb_spec c2 0) as [? | _]; [contradiction |].
      replace (Z.of_nat k + 1) with (Z.of_nat (S k)) by lia.
      destruct (IH mem (S k) s2' ltac:(lia) ltac:(lia)) as (r & Hr & Hiff).
      exists r. split; [exact Hr |]. rewrite Hiff. split; [congruence |].
      intros [= H]. exact H.
    + exists (c1 - c2). split; [reflexivity |]. split; [lia | congruence].
Qed.

(** X20: cgltf_json_strcmp on a token inside the JSON text reads inside the
    text only, and it returns 0 exactly when the token is a string whose
    bytes are those of str. *)
Theorem cgltf_json_strcmp_equal (tok : jsmntok_t) (json_chunk str : list Z) :
  0 <= tok_start tok <= tok_end tok -> tok_end tok <= count_of json_chunk ->
  tok_end tok - tok_start tok < SIZE_MODULUS ->
  exists r, cgltf_json_strcmp tok json_chunk str = Some r
            /\ (r = 0 <-> tok_type tok = JSMN_STRING
                          /\ token_text tok json_chunk = c_str str).
Proof.
  intros Hstart Hend Hsize. unfold cgltf_json_strcmp, token_text, strlen, count_of in *.
  case_bool_decide as Htype.
  { exists CGLTF_ERROR_JSON. split; [reflexivity |].
    split; [discriminate | intros [H _]; contradiction]. }
  assert (Hstring : tok_type tok = JSMN_STRING)
    by (destruct (decide (tok_type tok = JSMN_STRING)); [assumption | tauto]).
  unfold size_wrap. rewrite Z.mod_small by lia.
  destruct (Z.eqb_spec (Z.of_nat (length (c_str str))) (tok_end tok - tok_start tok))
    as [Hlen | Hlen].
  - rewrite Nat2Z.id, <- Hlen, Nat2Z.id.
    destruct (strncmp_at_equal (length (c_str str)) json_chunk (Z.to_nat (tok_start tok))
                str ltac:(lia) eq_refl) as (r & Hr & Hiff).
    rewrite Z2Nat.id in Hr by lia. exists r. split; [exact Hr |].
    rewrite Hiff. tauto.
  - exists 128. split; [reflexivity |]. split; [discriminate |].
    intros [_ Htext]. exfalso. apply Hlen. rewrite <- Htext.
    rewrite length_take, length_drop. lia.
Qed.

Lemma token_tree_rect_nested (P : token_tree -> Prop) :
  P TPrimitive -> P TString ->
  (forall es, Forall P es -> P (TArray es)) ->
  (forall ms, Forall P ms -> P (TObject ms)) ->
  forall v, P v.
Proof.
  intros Hp Hs Ha Ho.
  fix IH 1. intros [| | es | ms]; [exact Hp | exact Hs | apply Ha | apply Ho].
  - induction es as [| e es IHes]; constructor; [apply IH | exact IHes].
  - induction ms as [| m ms IHms]; constructor; [apply IH | exact IHms].
Qed.

Lemma token_kinds_at (tokens : list jsmntok_t) (pre post : list (jsmntype_t * Z))
    (type : jsmntype_t) (size : Z) :
  token_kinds tokens = pre ++ (type, size) :: post ->
  exists tok, tok_at tokens (count_of pre) = Some tok
              /\ tok_type tok = type /\ tok_size tok = size.
Proof.
  intros H. unfold tok_at, count_of.
  destruct (Z.ltb_spec (Z.of_nat (length pre)) 0) as [? | _]; [lia |].
  rewrite Nat2Z.id.
  assert (Hk : token_kinds tokens !! length pre = Some (type, size)).
  { rewrite H. apply list_lookup_middle. reflexivity. }
  unfold token_kinds in Hk. rewrite list_lookup_fmap in Hk.
  destruct (tokens !! length pre) as [tok |]; [| discriminate].
  injection Hk as Htype Hsize. exists tok. auto.
Qed.

Lemma skip_elements_layout (fuel : nat) (tokens : list jsmntok_t) (es : list token_tree) :
  Forall (skips fuel tokens) es ->
  forall pre post,
    token_kinds tokens = pre ++ flat_map token_layout es ++ post ->
    skip_elements (cgltf_skip_json fuel tokens) (length es) (count_of pre)
    = Some (count_of pre + count_of (flat_map token_layout es)).
Proof.
  induction 1 as [| e es He _ IH]; intros pre post Hkinds.
  - cbn [skip_elements flat_map length]. unfold count_of. cbn [length]. f_equal. lia.
  - cbn [flat_map length skip_elements] in *. rewrite <- app_assoc in Hkinds.
    rewrite (He pre _ Hkinds). cbn [mbind option_bind].
    destruct (Z.ltb_spec (count_of pre + count_of (token_layout e)) 0) as [? | _];
      [unfold count_of in *; lia |].
    rewrite app_assoc in Hkinds.
    replace (count_of pre + count_of (token_layout e))
      with (count_of (pre ++ token_layout e)) by (unfold count_of; rewrite length_app; lia).
    rewrite (IH _ _ Hkinds). f_equal. unfold count_of. rewrite !length_app. lia.
Qed.

Lemma skip_members_layout (fuel : nat) (tokens : list jsmntok_t) (ms : list token_tree) :
  Forall (skips fuel tokens) ms ->
  forall pre post,
    token_kinds tokens
    = pre ++ flat_map (fun v => (JSMN_STRING, 1) :: token_layout v) ms ++ post ->
    skip_members (cgltf_skip_json fuel tokens) tokens (length ms) (count_of pre)
    = Some (count_of pre
            + count_of (flat_map (fun v => (JSMN_STRING, 1) :: token_layout v) ms)).
Proof.
  induction 1 as [| m ms Hm _ IH]; intros pre post Hkinds.
  - cbn [skip_members flat_map length]. unfold count_of. cbn [length]. f_equal. lia.
  - cbn [flat_map length skip_members app] in *.
    destruct (token_kinds_at tokens pre _ _ _ Hkinds) as (key & -> & Htype & Hsize).
    cbn [mbind option_bind]. unfold is_key. rewrite Htype, Hsize.
    rewrite bool_decide_eq_true_2 by reflexivity. cbn [Z.eqb negb andb].
    change ((JSMN_STRING, 1) :: (token_layout m ++ flat_map
              (fun v => (JSMN_STRING, 1) :: token_layout v) ms) ++ post)
      with ([(JSMN_STRING, 1)] ++ (token_layout m ++ flat_map
              (fun v => (JSMN_STRING, 1) :: token_layout v) ms) ++ post) in Hkinds.
    rewrite app_assoc, <- (app_assoc (token_layout m)) in Hkinds.
    replace (count_of pre + 1) with (count_of (pre ++ [(JSMN_STRING, 1)]))
      by (unfold count_of; rewrite length_app; cbn; lia).
    rewrite (Hm _ _ Hkinds). cbn [mbind option_bind].
    destruct (Z.ltb_spec (count_of (pre ++ [(JSMN_STRING, 1)])
                          + count_of (token_layout m)) 0) as [? | _];
      [unfold count_of in *; lia |].
    rewrite app_assoc in Hkinds.
    replace (count_of (pre ++ [(JSMN_STRING, 1)]) + count_of (token_layout m))
      with (count_of ((pre ++ [(JSMN_STRING, 1)]) ++ token_layout m))
      by (unfold count_of; rewrite !length_app; lia).
    rewrite (IH _ _ Hkinds). f_equal. unfold count_of. rewrite !length_app.
    cbn [length]. rewrite length_app. lia.
Qed.

Lemma list_max_elem (l : list nat) (n : nat) : In n l -> (n <= list_max l)%nat.
Proof.
  induction l as [| x l IH]; intros H; [destruct H |].
  change (list_max (x :: l)) with (Nat.max x (list_max l)).
  destruct H as [-> | H]; [lia | specialize (IH H); lia].
Qed.

Lemma cgltf_skip_json_layout (v : token_tree) :
  forall fuel tokens, (tree_depth v < fuel)%nat -> skips fuel tokens v.
Proof.
  induction v as [| | es IH | ms IH] using token_tree_rect_nested;
    intros fuel tokens Hfuel pre post Hkinds;
    (destruct fuel as [| fuel]; [lia |]); cbn [token_layout app] in Hkinds;
    destruct (token_kinds_at tokens pre _ _ _ Hkinds) as (tok & Htok & Htype & Hsize);
    cbn [cgltf_skip_json]; rewrite Htok; cbn [mbind option_bind]; rewrite Htype.
  - reflexivity.
  - reflexivity.
  - rewrite Hsize. unfold count_of at 1. rewrite Nat2Z.id.
    change ((JSMN_ARRAY, count_of es) :: flat_map token_layout es ++ post)
      with ([(JSMN_ARRAY, count_of es)] ++ flat_map token_layout es ++ post) in Hkinds.
    rewrite app_assoc in Hkinds.
    replace (count_of pre + 1) with (count_of (pre ++ [(JSMN_ARRAY, count_of es)]))
      by (unfold count_of; rewrite length_app; cbn; lia).
    rewrite (skip_elements_layout fuel tokens es) with (post := post); [| | exact Hkinds].
    + f_equal. unfold count_of. rewrite length_app. cbn [length token_layout]. lia.
    + apply Forall_forall. intros e He. rewrite Forall_forall in IH.
      apply IH; [exact He |]. cbn [tree_depth] in Hfuel.
      pose proof (list_max_elem (map tree_depth es) (tree_depth e)
                    (in_map tree_depth es e ltac:(apply list_elem_of_In; exact He))).
      lia.
  - rewrite Hsize. unfold count_of at 1. rewrite Nat2Z.id.
    change ((JSMN_OBJECT, count_of ms)
            :: flat_map (fun v => (JSMN_STRING, 1) :: token_layout v) ms ++ post)
      with ([(JSMN_OBJECT, count_of ms)]
            ++ flat_map (fun v => (JSMN_STRING, 1) :: token_layout v) ms ++ post) in Hkinds.
    rewrite app_assoc in Hkinds.
    replace (count_of pre + 1) with (count_of (pre ++ [(JSMN_OBJECT, count_of ms)]))
      by (unfold count_of; rewrite length_app; cbn; lia).
    rewrite (skip_members_layout fuel tokens ms) with (post := post); [| | exact Hkinds].
    + f_equal. unfold count_of. rewrite length_app. cbn [length token_layout]. lia.
    + apply Forall_forall. intros e He. rewrite Forall_forall in IH.
      apply IH; [exact He |]. cbn [tree_depth] in Hfuel.
      pose proof (list_max_elem (map tree_depth ms) (tree_depth e)
                    (in_map tree_depth ms e ltac:(apply list_elem_of_In; exact He))).
      lia.
Qed.

(** X21: cgltf_skip_json skips one value.  Where the tokens from index i on
    are those of a JSON value (for an array its elements after it, for an
    object its members, each a key string of size 1 and its value), the
    call, which nests as deep as the value does, returns the index just
    behind the tokens of the value. *)
Theorem cgltf_skip_json_value (v : token_tree) (fuel : nat) (tokens : list jsmntok_t)
    (pre post : list (jsmntype_t * Z)) :
  token_kinds tokens = pre ++ token_layout v ++ post ->
  (tree_depth v < fuel)%nat ->
  cgltf_skip_json fuel tokens (count_of pre)
  = Some (count_of pre + count_of (token_layout v)).
Proof.
  intros Hkinds Hfuel. exact (cgltf_skip_json_layout v fuel tokens Hfuel pre post Hkinds).
Qed.

Lemma skip_elements_advances (skip : Z -> option Z) (n : nat) :
  advances skip -> advances (skip_elements skip n).
Proof.
  intros Hskip. induction n as [| n IH]; intros i r Hi; cbn [skip_elements].
  - intros [= <-]. right. lia.
  - destruct (skip i) as [i' |] eqn:Hi'; cbn [mbind option_bind]; [| discriminate].
    destruct (Hskip i i' Hi Hi') as [-> | Hle].
    + cbn. intros [= <-]. left. reflexivity.
    + destruct (Z.ltb_spec i' 0) as [? | _]; [lia |]. intros Hrest.
      destruct (IH i' r ltac:(lia) Hrest) as [-> | Hle']; [left; reflexivity | right; lia].
Qed.

Lemma skip_members_advances (skip : Z -> option Z) (tokens : list jsmntok_t) (n : nat) :
  advances skip -> advances (skip_members skip tokens n).
Proof.
  intros Hskip. induction n as [| n IH]; intros i r Hi; cbn [skip_members].
  - intros [= <-]. right. lia.
  - destruct (tok_at tokens i) as [key |]; cbn [mbind option_bind]; [| discriminate].
    destruct (negb (is_key key)); [intros [= <-]; left; reflexivity |].
    destruct (skip (i + 1)) as [i' |] eqn:Hi'; cbn [mbind option_bind]; [| discriminate].
    destruct (Hskip (i + 1) i' ltac:(lia) Hi') as [-> | Hle].
    + cbn. intros [= <-]. left. reflexivity.
    + destruct (Z.ltb_spec i' 0) as [? | _]; [lia |]. intros Hrest.
      destruct (IH i' r ltac:(lia) Hrest) as [-> | Hle']; [left; reflexivity | right; lia].
Qed.

(** X22: cgltf_skip_json never moves backwards.  From an index i that is
    not negative it returns CGLTF_ERROR_JSON or an index that is not before
    i, on any token array; an object member whose key is not a string with
    a value makes it return CGLTF_ERROR_JSON. *)
Theorem cgltf_skip_json_advances (fuel : nat) (tokens : list jsmntok_t) (i r : Z) :
  0 <= i -> cgltf_skip_json fuel tokens i = Some r ->
  (r = CGLTF_ERROR_JSON \/ i <= r)
  /\ forall tok key,
       tok_at tokens i = Some tok -> tok_type tok = JSMN_OBJECT -> 0 < tok_size tok ->
       tok_at tokens (i + 1) = Some key -> is_key key = false ->
       r = CGLTF_ERROR_JSON.
Proof.
  intros Hi Hr. split.
  - revert i r Hi Hr. change (advances (cgltf_skip_json fuel tokens)).
    induction fuel as [| fuel IH]; intros i r Hi; cbn [cgltf_skip_json]; [discriminate |].
    destruct (tok_at tokens i) as [tok |]; cbn [mbind option_bind]; [| discriminate].
    destruct (tok_type tok).
    + intros [= <-]. right. lia.
    + intros H. destruct (skip_members_advances _ tokens _ IH (i + 1) r ltac:(lia) H);
        [left; assumption | right; lia].
    + intros H. destruct (skip_elements_advances _ _ IH (i + 1) r ltac:(lia) H);
        [left; assumption | right; lia].
    + intros [= <-]. right. lia.
    + intros [= <-]. right. lia.
  - intros tok key Htok Htype Hsize Hkey Hnot.
    destruct fuel as [| fuel]; [discriminate |]. cbn [cgltf_skip_json] in Hr.
    rewrite Htok in Hr. cbn [mbind option_bind] in Hr. rewrite Htype in Hr.
    destruct (Z.to_nat (tok_size tok)) as [| n] eqn:Hn; [lia |].
    cbn [skip_members] in Hr. rewrite Hkey in Hr. cbn [mbind option_bind] in Hr.
    rewrite Hnot in Hr. cbn [negb] in Hr. congruence.
Qed.

Lemma cgltf_skip_json_value_witness :
  token_kinds asset_tokens = [] ++ token_layout asset_tree ++ []
  /\ cgltf_skip_json 3 asset_tokens 0 = Some 5.
Proof.
  split; [reflexivity |].
  exact (cgltf_skip_json_value asset_tree 3 asset_tokens [] [] eq_refl
           ltac:(vm_compute; lia)).
Defined.

Lemma cgltf_skip_json_advances_witness :
  cgltf_skip_json 2 asset_tokens 2 = Some 5 /\ (5 = CGLTF_ERROR_JSON \/ 2 <= 5).
Proof.
  split; [reflexivity |].
  exact (proj1 (cgltf_skip_json_advances 2 asset_tokens 2 5 ltac:(lia) eq_refl)).
Defined.

(** ** Properties of the allocations of the decoder *)

Lemma calloc_check (element_size count : Z) :
  0 < element_size ->
  (SIZE_MAX / element_size <? count) = true <-> SIZE_MAX < element_size * count.
Proof.
  intros He. rewrite Z.ltb_lt. split; intros H.
  - destruct (Z.le_gt_cases (element_size * count) SIZE_MAX) as [Hle | Hgt]; [| lia].
    apply Z.div_le_lower_bound in Hle; lia.
  - apply Z.div_lt_upper_bound; assumption.
Qed.

Lemma cgltf_calloc_outcome (options : cgltf_options) (element_size count : Z)
    (result : option (list Z)) :
  0 < element_size -> 0 <= count ->
  cgltf_calloc options element_size count = Some result ->
  match result with
  | Some block =>
      element_size * count <= SIZE_MAX
      /\ block = replicate (Z.to_nat (element_size * count)) 0
  | None => True
  end.
Proof.
  intros He Hc. unfold cgltf_calloc.
  destruct (Z.eqb_spec element_size 0); [lia |].
  destruct (SIZE_MAX / element_size <? count) eqn:Hcheck;
    [intros [= <-]; exact I |].
  assert (Hfits : element_size * count <= SIZE_MAX).
  { destruct (Z.le_gt_cases (element_size * count) SIZE_MAX) as [Hle | Hgt]; [exact Hle |].
    apply calloc_check in Hgt; [congruence | exact He]. }
  destruct (options_memory_alloc options _) as [[|] |]; cbn [mbind option_bind negb];
    [| intros [= <-]; exact I | discriminate].
  intros [= <-]. split; [exact Hfits |].
  unfold size_wrap. rewrite Z.mod_small; [reflexivity |]. unfold SIZE_MAX in Hfits. nia.
Qed.

(** X23: cgltf_calloc never hands out a block of a wrapped size.  For an
    element size that is not 0, a product element_size * count above
    SIZE_MAX is answered with NULL before the allocator is called, and a
    block that is returned holds exactly element_size * count bytes, all
    zero. *)
Theorem cgltf_calloc_no_wrap (options : cgltf_options) (element_size count : Z) :
  0 < element_size -> 0 <= count ->
  (SIZE_MAX < element_size * count ->
   cgltf_calloc options element_size count = Some None)
  /\ forall block,
       cgltf_calloc options element_size count = Some (Some block) ->
       count_of block = element_size * count /\ Forall (fun b => b = 0) block.
Proof.
  intros He Hc. split.
  - intros Hwrap. unfold cgltf_calloc.
    destruct (Z.eqb_spec element_size 0); [lia |].
    rewrite (proj2 (calloc_check element_size count He) Hwrap). reflexivity.
  - intros block H.
    destruct (cgltf_calloc_outcome options element_size count (Some block) He Hc H)
      as [Hfits ->].
    split; [unfold count_of; rewrite length_replicate; nia |].
    apply Forall_replicate. reflexivity.
Qed.

(** X24: cgltf_parse_json_array allocates one zeroed element per element of
    the array token.  A result that is not negative is i + 1, for an array
    token and an output that was null: the output then holds exactly
    element_size * size zero bytes and *out_size is size, the size of the
    token.  A negative result is CGLTF_ERROR_JSON or CGLTF_ERROR_NOMEM, and
    both outputs are as they were. *)
Theorem cgltf_parse_json_array_block (options : cgltf_options) (tokens : list jsmntok_t)
    (i element_size : Z) (out_array : option (list Z)) (out_size : Z)
    (r : Z) (out_array' : option (list Z)) (out_size' : Z) :
  0 < element_size ->
  cgltf_parse_json_array options tokens i element_size out_array out_size
  = Some (r, out_array', out_size') ->
  (0 <= r ->
   exists tok block,
     tok_at tokens i = Some tok /\ tok_type tok = JSMN_ARRAY /\ out_array = None
     /\ r = i + 1 /\ out_size' = size_wrap (tok_size tok)
     /\ out_array' = Some block
     /\ count_of block = element_size * out_size' /\ Forall (fun b => b = 0) block)
  /\ (r < 0 ->
      (r = CGLTF_ERROR_JSON \/ r = CGLTF_ERROR_NOMEM)
      /\ out_array' = out_array /\ out_size' = out_size).
Proof.
  intros He. unfold cgltf_parse_json_array.
  destruct (tok_at tokens i) as [tok |] eqn:Htok; cbn [mbind option_bind]; [| discriminate].
  assert (Hi : 0 <= i).
  { unfold tok_at in Htok. destruct (Z.ltb_spec i 0); [discriminate | assumption]. }
  case_bool_decide as Htype.
  { intros [= <- <- <-]. split; [unfold CGLTF_ERROR_JSON; lia | auto]. }
  case_bool_decide as Hout.
  { intros [= <- <- <-]. split; [unfold CGLTF_ERROR_JSON; lia | auto]. }
  assert (Harray : tok_type tok = JSMN_ARRAY)
    by (destruct (decide (tok_type tok = JSMN_ARRAY)); [assumption | tauto]).
  assert (Hnull : out_array = None)
    by (destruct (decide (out_array = None)); [assumption | tauto]).
  assert (Hcount : 0 <= size_wrap (tok_size tok)).
  { unfold size_wrap. apply Z.mod_pos_bound. reflexivity. }
  destruct (cgltf_calloc options element_size (size_wrap (tok_size tok)))
    as [[block |] |] eqn:Hcalloc; cbn [mbind option_bind]; [| | discriminate].
  - intros [= <- <- <-]. split; [| lia]. intros _.
    destruct (cgltf_calloc_outcome options element_size _ (Some block) He Hcount Hcalloc)
      as [Hfits ->].
    exists tok, (replicate (Z.to_nat (element_size * size_wrap (tok_size tok))) 0).
    repeat split; try assumption.
    + unfold count_of. rewrite length_replicate. nia.
    + apply Forall_replicate. reflexivity.
  - intros [= <- <- <-]. split; [unfold CGLTF_ERROR_NOMEM; lia | auto].
Qed.

(** X25: cgltf_parse_json_string copies the text of a string token.  For a
    string token that lies inside the JSON text and holds no NUL, with an
    allocator, the call returns CGLTF_ERROR_JSON when the output is set
    already and CGLTF_ERROR_NOMEM when the allocation fails, the output
    being left as it was; otherwise it returns i + 1 and the output is the
    text of the token and a terminator, in a block of that size: no byte is
    written outside the block. *)
Theorem cgltf_parse_json_string_copy (options : cgltf_options) (tokens : list jsmntok_t)
    (i : Z) (json_chunk : list Z) (out_string : option (list Z)) (byte : Z)
    (tok : jsmntok_t) (alloc : Z -> bool) :
  tok_at tokens i = Some tok -> tok_type tok = JSMN_STRING ->
  0 <= tok_start tok <= tok_end tok -> tok_end tok <= count_of json_chunk ->
  tok_end tok - tok_start tok + 1 < SIZE_MODULUS ->
  Forall (fun c => c <> 0) (token_text tok json_chunk) ->
  memory_alloc options = Some alloc ->
  cgltf_parse_json_string options tokens i json_chunk out_string byte
  = Some (Copied
            (if bool_decide (out_string <> None) then (CGLTF_ERROR_JSON, out_string)
             else if alloc (tok_end tok - tok_start tok + 1)
                  then (i + 1, Some (token_text tok json_chunk ++ [CH_NUL]))
                  else (CGLTF_ERROR_NOMEM, out_string))).
Proof.
  intros Htok Htype Hstart Hend Hsize Htext Halloc.
  unfold cgltf_parse_json_string, options_memory_alloc, token_text, count_of in *.
  rewrite Htok, Halloc. cbn [mbind option_bind]. rewrite Htype.
  rewrite bool_decide_eq_false_2 by auto.
  case_bool_decide as Hout; [reflexivity |].
  unfold size_wrap. rewrite !Z.mod_small by lia.
  destruct (alloc (tok_end tok - tok_start tok + 1)); cbn [negb]; [| reflexivity].
  destruct (Z.ltb_spec (tok_start tok) 0) as [? | _]; [lia |].
  set (size := tok_end tok - tok_start tok) in *.
  set (src := drop (Z.to_nat (tok_start tok)) json_chunk) in *.
  assert (Hsrc : (Z.to_nat size <= length src)%nat).
  { subst src size. rewrite length_drop. lia. }
  rewrite <- (Z2Nat.id size) at 2 by (subst size; lia).
  rewrite strncpy_fits; [| rewrite length_replicate; lia | exact Hsrc | exact Htext].
  unfold store_nul, count_of.
  rewrite length_app, length_take, length_drop, length_replicate.
  destruct (Z.ltb_spec size 0) as [? | _]; [subst size; lia |].
  destruct (Z.leb_spec (Z.of_nat (Z.to_nat size `min` length src
                                  + (Z.to_nat (size + 1) - Z.to_nat size))) size)
    as [? | _]; [lia |].
  cbn [orb]. do 3 f_equal.
  replace (Z.to_nat (size + 1)) with (S (Z.to_nat size)) by lia.
  rewrite drop_replicate.
  replace (S (Z.to_nat size) - Z.to_nat size)%nat with 1%nat by lia.
  cbn [replicate].
  rewrite insert_app_r_alt by (rewrite length_take; lia).
  rewrite length_take. replace (Z.to_nat size - Z.to_nat size `min` length src)%nat
    with 0%nat by lia.
  reflexivity.
Qed.

(** ** Properties of the number and name readers *)

Lemma decimal_digits_app (fuel : nat) :
  forall n rest, decimal_digits fuel n rest = decimal_digits fuel n [] ++ rest.
Proof.
  induction fuel as [| fuel IH]; intros n rest; cbn [decimal_digits]; [reflexivity |].
  destruct (n <? 10); [reflexivity |].
  rewrite (IH _ (_ :: rest)), (IH _ [_]), <- app_assoc. reflexivity.
Qed.

Lemma decimal_digits_value (fuel : nat) :
  forall n rest acc,
    0 <= n < 10 ^ Z.of_nat fuel -> (0 < fuel)%nat ->
    exists k, digits_value (decimal_digits fuel n rest) acc
              = digits_value rest (acc * 10 ^ k + n)
              /\ 0 <= k.
Proof.
  induction fuel as [| fuel IH]; intros n rest acc Hn Hfuel; [lia |].
  cbn [decimal_digits].
  assert (Hdigit : forall m, 0 <= m -> isdigit (48 + m mod 10) = true).
  { intros m Hm. unfold isdigit. pose proof (Z.mod_pos_bound m 10 ltac:(lia)).
    apply andb_true_intro. split; apply Z.leb_le; lia. }
  destruct (Z.ltb_spec n 10) as [Hsmall | Hbig].
  - exists 1. cbn [digits_value]. rewrite Hdigit by lia.
    rewrite Z.mod_small by lia. split; [f_equal; lia | lia].
  - destruct fuel as [| fuel]; [cbn in Hn; lia |].
    destruct (IH (n / 10) ((48 + n mod 10) :: rest) acc) as (k & Hk & Hpos).
    + split; [apply Z.div_pos; lia |].
      apply Z.div_lt_upper_bound; [lia |].
      rewrite Nat2Z.inj_succ, Z.pow_succ_r in Hn by lia. lia.
    + lia.
    + exists (k + 1). rewrite Hk. cbn [digits_value]. rewrite Hdigit by lia.
      split; [| lia]. f_equal. rewrite Z.pow_add_r by lia.
      pose proof (Z.div_mod n 10 ltac:(lia)). lia.
Qed.

Lemma decimal_digits_digit (fuel : nat) :
  forall n rest,
    0 <= n -> Forall (fun c => isdigit c = true) rest ->
    Forall (fun c => isdigit c = true) (decimal_digits fuel n rest).
Proof.
  induction fuel as [| fuel IH]; intros n rest Hn Hrest; cbn [decimal_digits];
    [exact Hrest |].
  assert (Hdigit : isdigit (48 + n mod 10) = true).
  { unfold isdigit. pose proof (Z.mod_pos_bound n 10 ltac:(lia)).
    apply andb_true_intro. split; apply Z.leb_le; lia. }
  destruct (n <? 10); [constructor; assumption |].
  apply IH; [apply Z.div_pos; lia | constructor; assumption].
Qed.

Lemma decimal_digits_length (fuel : nat) :
  forall n rest, (length (decimal_digits fuel n rest) <= fuel + length rest)%nat.
Proof.
  induction fuel as [| fuel IH]; intros n rest; cbn [decimal_digits]; [lia |].
  destruct (n <? 10); [cbn; lia |]. specialize (IH (n / 10) ((48 + n mod 10) :: rest)).
  cbn [length] in IH. lia.
Qed.

Lemma decimal_digits_head (fuel : nat) (n : Z) (rest : list Z) :
  0 <= n -> (0 < fuel)%nat ->
  exists c s, decimal_digits fuel n rest = c :: s /\ isdigit c = true.
Proof.
  intros Hn Hfuel.
  pose proof (decimal_digits_digit fuel n [] Hn ltac:(constructor)) as Hall.
  rewrite decimal_digits_app.
  destruct fuel as [| fuel]; [lia |].
  destruct (decimal_digits (S fuel) n []) as [| c s] eqn:Hd.
  - exfalso. cbn [decimal_digits] in Hd. destruct (n <? 10); [discriminate |].
    rewrite decimal_digits_app in Hd. destruct (decimal_digits fuel (n / 10) []); discriminate.
  - apply Forall_cons in Hall as [Hc _]. exists c, (s ++ rest). auto.
Qed.

(** [atoi] reads back the decimal notation of an [int], whatever follows it
    that is not a digit. *)
Lemma atoi_decimal_int (z : Z) (tail : list Z) :
  INT_MIN <= z <= INT_MAX -> isdigit (str_head tail) = false ->
  atoi (decimal_int z ++ tail) = Some z.
Proof.
  intros Hz Htail. unfold INT_MIN, INT_MAX in Hz.
  assert (Hstop : forall acc, digits_value tail acc = acc).
  { intros acc. destruct tail as [| c tail]; [reflexivity |].
    cbn [digits_value]. cbn [str_head] in Htail. rewrite Htail. reflexivity. }
  assert (Hvalue : forall n, 0 <= n <= 2147483648 ->
            digits_value (decimal n ++ tail) 0 = n).
  { intros n Hn. unfold decimal. rewrite <- decimal_digits_app.
    destruct (decimal_digits_value 10 n tail 0 ltac:(cbn; lia) ltac:(lia)) as (k & -> & _).
    rewrite Hstop. lia. }
  assert (Hplain : forall n s, 0 <= n ->
            skip_spaces (decimal n ++ s) = decimal n ++ s
            /\ exists c r, decimal n ++ s = c :: r /\ isdigit c = true).
  { intros n s Hn. unfold decimal.
    destruct (decimal_digits_head 10 n [] Hn ltac:(lia)) as (c & r & -> & Hc).
    split; [| exists c, (r ++ s); auto].
    cbn [app skip_spaces]. unfold isdigit in Hc. unfold isspace.
    apply andb_prop in Hc as [H1 H2]. apply Z.leb_le in H1, H2.
    destruct (Z.eqb_spec c 32); [lia |].
    destruct (Z.leb_spec 9 c); destruct (Z.leb_spec c 13); try lia; reflexivity. }
  unfold atoi, decimal_int. destruct (Z.ltb_spec z 0) as [Hneg | Hpos].
  - change (skip_spaces ((45 :: decimal (- z)) ++ tail)) with (45 :: decimal (- z) ++ tail).
    cbv beta iota zeta. rewrite Hvalue by lia. rewrite Z.opp_involutive.
    unfold INT_MIN, INT_MAX.
    destruct (Z.leb_spec (-2147483648) z); [| lia].
    destruct (Z.leb_spec z 2147483647); [reflexivity | lia].
  - destruct (Hplain z tail Hpos) as (-> & c & r & Hcr & Hc). cbv zeta.
    assert (Hdigits : match decimal z ++ tail with
                      | 45 :: s' => - digits_value s' 0
                      | 43 :: s' => digits_value s' 0
                      | _ => digits_value (decimal z ++ tail) 0
                      end = z).
    { rewrite <- (Hvalue z) at 2 by lia. rewrite Hcr.
      unfold isdigit in Hc. apply andb_prop in Hc as [H1 H2]. apply Z.leb_le in H1, H2.
      destruct c as [| p |]; try lia.
      do 6 (destruct p as [p | p |]; try lia; try reflexivity). }
    rewrite Hdigits. unfold INT_MIN, INT_MAX.
    destruct (Z.leb_spec (-2147483648) z); [| lia].
    destruct (Z.leb_spec z 2147483647); [reflexivity | lia].
Qed.

Lemma read_string_text (n : nat) :
  forall (mem : list Z) (k : nat),
    (k + n <= length mem)%nat -> Forall (fun c => c <> 0) (take n (drop k mem)) ->
    read_string mem (Z.of_nat k) n = Some (take n (drop k mem)).
Proof.
  induction n as [| n IH]; intros mem k Hk Hnz; cbn [read_string]; [reflexivity |].
  destruct (lookup_lt_is_Some_2 mem k ltac:(lia)) as [c Hc].
  unfold read_u8. destruct (Z.ltb_spec (Z.of_nat k) 0) as [? | _]; [lia |].
  rewrite Nat2Z.id, Hc. cbn [mbind option_bind].
  rewrite (drop_S mem c k Hc) in *. cbn [take] in *.
  apply Forall_cons in Hnz as [Hc0 Hnz]. unfold CH_NUL.
  destruct (Z.eqb_spec c 0) as [? | _]; [contradiction |].
  replace (Z.of_nat k + 1) with (Z.of_nat (S k)) by lia.
  rewrite IH by (first [lia | exact Hnz]). reflexivity.
Qed.

Lemma decimal_int_bytes (z : Z) :
  Forall (fun c => c <> 0) (decimal_int z) /\ (length (decimal_int z) <= 11)%nat.
Proof.
  assert (Hdec : forall n, 0 <= n ->
            Forall (fun c => c <> 0) (decimal n) /\ (length (decimal n) <= 10)%nat).
  { intros n Hn. unfold decimal. split.
    - eapply Forall_impl; [apply decimal_digits_digit; [exact Hn | constructor] |].
      intros c Hc ->. discriminate.
    - pose proof (decimal_digits_length 10 n []) as H. cbn [length] in H. lia. }
  unfold decimal_int. destruct (Z.ltb_spec z 0).
  - destruct (Hdec (- z) ltac:(lia)) as [Hnz Hlen].
    split; [constructor; [discriminate | exact Hnz] | cbn [length]; lia].
  - destruct (Hdec z ltac:(lia)) as [Hnz Hlen]. split; [exact Hnz | lia].
Qed.

(** X26: cgltf_json_to_int reads back the decimal notation of an int: for
    a primitive token inside the JSON text whose bytes are the decimal
    notation of z, with a minus sign when z is negative, it returns z. *)
Theorem cgltf_json_to_int_decimal (tok : jsmntok_t) (json_chunk : list Z) (z : Z) :
  tok_type tok = JSMN_PRIMITIVE ->
  0 <= tok_start tok <= tok_end tok -> tok_end tok <= count_of json_chunk ->
  token_text tok json_chunk = decimal_int z -> INT_MIN <= z <= INT_MAX ->
  cgltf_json_to_int tok json_chunk = Some z.
Proof.
  intros Htype Hstart Hend Htext Hz. unfold cgltf_json_to_int, count_of in *.
  rewrite Htype. rewrite bool_decide_eq_false_2 by auto.
  destruct (decimal_int_bytes z) as [Hnz Hlen].
  assert (Hsize : Z.to_nat (tok_end tok - tok_start tok) = length (decimal_int z)).
  { rewrite <- Htext. unfold token_text. rewrite length_take, length_drop. lia. }
  unfold size_wrap, SIZEOF_tmp. rewrite Z.mod_small by (unfold SIZE_MODULUS, SIZE_BITS; lia).
  destruct (Z.ltb_spec (tok_end tok - tok_start tok) 128) as [_ | ?]; [| lia].
  rewrite <- (Z2Nat.id (tok_start tok)) at 1 by lia.
  unfold token_text in Htext.
  rewrite read_string_text; [| lia | rewrite Htext; exact Hnz].
  cbn [mbind option_bind]. rewrite Htext.
  rewrite <- (app_nil_r (decimal_int z)). apply atoi_decimal_int; [exact Hz | reflexivity].
Qed.

Lemma read_bytes_text (n : nat) :
  forall (mem : list Z) (k : nat),
    (k + n <= length mem)%nat -> read_bytes mem (Z.of_nat k) n = Some (take n (drop k mem)).
Proof.
  induction n as [| n IH]; intros mem k Hk; cbn [read_bytes]; [reflexivity |].
  destruct (lookup_lt_is_Some_2 mem k ltac:(lia)) as [c Hc].
  unfold read_u8. destruct (Z.ltb_spec (Z.of_nat k) 0) as [? | _]; [lia |].
  rewrite Nat2Z.id, Hc. cbn [mbind option_bind].
  replace (Z.of_nat k + 1) with (Z.of_nat (S k)) by lia.
  rewrite IH by lia. cbn [mbind option_bind].
  rewrite (drop_S mem c k Hc). reflexivity.
Qed.

(** X30: cgltf_json_to_bool on a token inside the JSON text reads inside
    the text only, and it returns true exactly when the bytes of the token
    are those of true. *)
Theorem cgltf_json_to_bool_true (tok : jsmntok_t) (json_chunk : list Z) :
  0 <= tok_start tok -> tok_end tok <= count_of json_chunk ->
  exists b, cgltf_json_to_bool tok json_chunk = Some b
            /\ (b = true <-> token_text tok json_chunk = STR_TRUE).
Proof.
  intros Hstart Hend. unfold cgltf_json_to_bool, token_text, count_of in *.
  destruct (Z.eqb_spec (tok_end tok - tok_start tok) 4) as [Hsize | Hsize].
  - replace (read_bytes json_chunk (tok_start tok) 4)
      with (read_bytes json_chunk (Z.of_nat (Z.to_nat (tok_start tok))) 4)
      by (rewrite Z2Nat.id by lia; reflexivity).
    rewrite read_bytes_text by lia. cbn [mbind option_bind]. rewrite Hsize.
    change (Z.to_nat 4) with 4%nat. eexists. split; [reflexivity |].
    split; [apply bool_decide_eq_true_1 | apply bool_decide_eq_true_2].
  - exists false. split; [reflexivity |]. split; [discriminate |].
    intros Htext. exfalso. apply Hsize.
    apply (f_equal length) in Htext. rewrite length_take, length_drop in Htext.
    cbn [STR_TRUE length] in Htext. lia.
Qed.

Lemma strchr_lt (s : list Z) (c : Z) :
  forall k, strchr s c = Some k -> (k < length s)%nat.
Proof.
  induction s as [| x s IH]; intros k; cbn [strchr]; [discriminate |].
  destruct (x =? CH_NUL); [discriminate |].
  destruct (x =? c); [intros [= <-]; cbn; lia |].
  destruct (strchr s c) as [j |]; [| discriminate].
  intros [= <-]. specialize (IH j eq_refl). cbn. lia.
Qed.

(** The test of one name in [cgltf_parse_attribute_type]. *)
Lemma attribute_test (name s : list Z) :
  Forall (fun c => c <> 0) s ->
  (match strchr name CH_UNDERSCORE with
   | Some k => Z.of_nat k
   | None => strlen name
   end =? count_of s) && (strncmp name s (length s) =? 0)
  = bool_decide (s = attribute_stem name).
Proof.
  intros Hs. unfold attribute_stem, strlen, count_of.
  destruct (strchr name CH_UNDERSCORE) as [k |] eqn:Hus.
  - apply strchr_lt in Hus.
    destruct (Z.eqb_spec (Z.of_nat k) (Z.of_nat (length s))) as [Hk | Hk]; cbn [andb].
    + apply Nat2Z.inj in Hk as ->.
      destruct (Z.eqb_spec (strncmp name s (length s)) 0) as [H0 | H0];
        rewrite (strncmp_equal s name Hs) in H0.
      * rewrite bool_decide_eq_true_2 by auto. reflexivity.
      * rewrite bool_decide_eq_false_2 by auto. reflexivity.
    + rewrite bool_decide_eq_false_2; [reflexivity |].
      intros ->. apply Hk. rewrite length_take. lia.
  - destruct (Z.eqb_spec (Z.of_nat (length (c_str name))) (Z.of_nat (length s)))
      as [Hk | Hk]; cbn [andb].
    + apply Nat2Z.inj in Hk.
      assert (Htake : take (length s) name = c_str name).
      { rewrite c_str_take by lia. apply take_ge. lia. }
      destruct (Z.eqb_spec (strncmp name s (length s)) 0) as [H0 | H0];
        rewrite (strncmp_equal s name Hs), Htake in H0.
      * rewrite bool_decide_eq_true_2 by auto. reflexivity.
      * rewrite bool_decide_eq_false_2 by auto. reflexivity.
    + rewrite bool_decide_eq_false_2; [reflexivity |]. intros ->. apply Hk. reflexivity.
Qed.

Lemma cgltf_parse_attribute_type_stem (name : list Z) (out_index : Z) :
  cgltf_parse_attribute_type name out_index
  = let out_type := attribute_of_stem (attribute_stem name) in
    match strchr name CH_UNDERSCORE with
    | Some k =>
        if bool_decide (out_type <> cgltf_attribute_type_invalid) then
          index ← atoi (drop (S k) name);
          Some (out_type, index)
        else Some (out_type, out_index)
    | None => Some (out_type, out_index)
    end.
Proof.
  unfold cgltf_parse_attribute_type.
  pose proof (attribute_test name STR_POSITION ltac:(repeat constructor; discriminate)) as H1.
  pose proof (attribute_test name STR_NORMAL ltac:(repeat constructor; discriminate)) as H2.
  pose proof (attribute_test name STR_TANGENT ltac:(repeat constructor; discriminate)) as H3.
  pose proof (attribute_test name STR_TEXCOORD ltac:(repeat constructor; discriminate)) as H4.
  pose proof (attribute_test name STR_COLOR ltac:(repeat constructor; discriminate)) as H5.
  pose proof (attribute_test name STR_JOINTS ltac:(repeat constructor; discriminate)) as H6.
  pose proof (attribute_test name STR_WEIGHTS ltac:(repeat constructor; discriminate)) as H7.
  change (count_of STR_POSITION) with 8 in H1. change (length STR_POSITION) with 8%nat in H1.
  change (count_of STR_NORMAL) with 6 in H2. change (length STR_NORMAL) with 6%nat in H2.
  change (count_of STR_TANGENT) with 7 in H3. change (length STR_TANGENT) with 7%nat in H3.
  change (count_of STR_TEXCOORD) with 8 in H4. change (length STR_TEXCOORD) with 8%nat in H4.
  change (count_of STR_COLOR) with 5 in H5. change (length STR_COLOR) with 5%nat in H5.
  change (count_of STR_JOINTS) with 6 in H6. change (length STR_JOINTS) with 6%nat in H6.
  change (count_of STR_WEIGHTS) with 7 in H7. change (length STR_WEIGHTS) with 7%nat in H7.
  cbv zeta. rewrite H1, H2, H3, H4, H5, H6, H7.
  unfold attribute_of_stem, attribute_names. cbn [find fst snd].
  destruct (bool_decide (STR_POSITION = attribute_stem name)); [reflexivity |].
  destruct (bool_decide (STR_NORMAL = attribute_stem name)); [reflexivity |].
  destruct (bool_decide (STR_TANGENT = attribute_stem name)); [reflexivity |].
  destruct (bool_decide (STR_TEXCOORD = attribute_stem name)); [reflexivity |].
  destruct (bool_decide (STR_COLOR = attribute_stem name)); [reflexivity |].
  destruct (bool_decide (STR_JOINTS = attribute_stem name)); [reflexivity |].
  destruct (bool_decide (STR_WEIGHTS = attribute_stem name)); reflexivity.
Qed.

(** X27: cgltf_parse_attribute_type reads the semantic and the set index
    of an attribute name.  For one of the seven names (POSITION, NORMAL,
    TANGENT, TEXCOORD, COLOR, JOINTS, WEIGHTS) followed by an underscore and
    the decimal notation of n, it gives the type of the name and the index
    n; for the name alone it gives the type and leaves the index as it was;
    for a name whose bytes before the first underscore are none of the
    seven, it gives the invalid type and leaves the index as it was. *)
Theorem cgltf_parse_attribute_type_names (out_index : Z) :
  (forall stem t n tail,
     (stem, t) ∈ attribute_names -> INT_MIN <= n <= INT_MAX ->
     isdigit (str_head tail) = false ->
     cgltf_parse_attribute_type (stem ++ CH_UNDERSCORE :: decimal_int n ++ tail) out_index
     = Some (t, n))
  /\ (forall stem t tail,
        (stem, t) ∈ attribute_names ->
        cgltf_parse_attribute_type (stem ++ CH_NUL :: tail) out_index
        = Some (t, out_index))
  /\ (forall name,
        (forall t, (attribute_stem name, t) ∉ attribute_names) ->
        cgltf_parse_attribute_type name out_index
        = Some (cgltf_attribute_type_invalid, out_index)).
Proof.
  assert (Hnames : forall stem t,
            (stem, t) ∈ attribute_names ->
            Forall (fun x => x <> 0 /\ x <> CH_UNDERSCORE) stem
            /\ attribute_of_stem stem = t /\ t <> cgltf_attribute_type_invalid).
  { intros stem t H. apply list_elem_of_In in H. cbn [attribute_names In] in H.
    repeat (destruct H as [[= <- <-] | H];
            [split; [repeat constructor; discriminate
                    | split; [reflexivity | discriminate]] |]).
    destruct H. }
  split; [| split].
  - intros stem t n tail Hin Hn Htail.
    destruct (Hnames stem t Hin) as (Hstem & Htype & Hvalid).
    rewrite cgltf_parse_attribute_type_stem. unfold attribute_stem.
    rewrite strchr_first by (auto; discriminate). cbv zeta.
    rewrite take_app_length, Htype. rewrite bool_decide_eq_true_2 by exact Hvalid.
    change (CH_UNDERSCORE :: decimal_int n ++ tail)
      with ([CH_UNDERSCORE] ++ decimal_int n ++ tail).
    rewrite app_assoc, drop_app_length' by (rewrite length_app; cbn; lia).
    rewrite atoi_decimal_int by assumption. reflexivity.
  - intros stem t tail Hin.
    destruct (Hnames stem t Hin) as (Hstem & Htype & Hvalid).
    rewrite cgltf_parse_attribute_type_stem. unfold attribute_stem.
    assert (Hnone : strchr (stem ++ CH_NUL :: tail) CH_UNDERSCORE = None).
    { clear Hin Htype. induction Hstem as [| x stem [Hx Hu] _ IH]; cbn [app strchr].
      - reflexivity.
      - unfold CH_NUL in *. destruct (Z.eqb_spec x 0); [contradiction |].
        destruct (Z.eqb_spec x CH_UNDERSCORE); [contradiction |]. rewrite IH. reflexivity. }
    rewrite Hnone. cbv zeta. rewrite c_str_app_nul, Htype; [reflexivity |].
    eapply Forall_impl; [exact Hstem |]. intros x [Hx _]. exact Hx.
  - intros name Hnot. rewrite cgltf_parse_attribute_type_stem. cbv zeta.
    assert (Hinvalid : attribute_of_stem (attribute_stem name) = cgltf_attribute_type_invalid).
    { unfold attribute_of_stem.
      destruct (find _ attribute_names) as [[stem t] |] eqn:Hfind; [| reflexivity].
      apply find_some in Hfind as [Hin Heq]. exfalso.
      apply bool_decide_eq_true_1 in Heq. cbn [fst] in Heq. subst stem.
      apply (Hnot t). apply list_elem_of_In. exact Hin. }
    rewrite Hinvalid. destruct (strchr name CH_UNDERSCORE); reflexivity.
Qed.

Lemma cgltf_json_strcmp_equal_witness :
  exists r, cgltf_json_strcmp asset_key asset_doc (json_bytes "asset") = Some r
            /\ (r = 0 <-> tok_type asset_key = JSMN_STRING
                          /\ token_text asset_key asset_doc = c_str (json_bytes "asset")).
Proof.
  apply (cgltf_json_strcmp_equal asset_key asset_doc (json_bytes "asset"));
    vm_compute; first [split; congruence | congruence | reflexivity].
Defined.

Lemma cgltf_calloc_no_wrap_witness :
  cgltf_calloc alloc_options 4 3 = Some (Some (replicate 12 0))
  /\ count_of (replicate 12 0) = 4 * 3.
Proof.
  split; [reflexivity |].
  exact (proj1 (proj2 (cgltf_calloc_no_wrap alloc_options 4 3 ltac:(lia) ltac:(lia))
                  (replicate 12 0) eq_refl)).
Defined.

Lemma cgltf_parse_json_array_block_witness :
  cgltf_parse_json_array alloc_options triple_tokens 0 4 None 0
  = Some (1, Some (replicate 12 0), 3)
  /\ count_of (replicate 12 0) = 4 * 3.
Proof.
  split; [reflexivity |].
  destruct (proj1 (cgltf_parse_json_array_block alloc_options triple_tokens 0 4 None 0
                     1 (Some (replicate 12 0)) 3 ltac:(lia) eq_refl) ltac:(lia))
    as (tok & block & _ & _ & _ & _ & _ & Hblock & Hcount & _).
  injection Hblock as <-. exact Hcount.
Defined.

Lemma cgltf_parse_json_string_copy_witness :
  token_text asset_key asset_doc = json_bytes "asset"
  /\ cgltf_parse_json_string alloc_options asset_tokens 1 asset_doc None 205
     = Some (Copied (2, Some (json_bytes "asset" ++ [CH_NUL]))).
Proof.
  split; [reflexivity |].
  exact (cgltf_parse_json_string_copy alloc_options asset_tokens 1 asset_doc None 205
           asset_key always_alloc eq_refl eq_refl
           ltac:(vm_compute; split; congruence) ltac:(vm_compute; congruence)
           ltac:(vm_compute; reflexivity)
           ltac:(apply (bool_decide_unpack _); vm_compute; exact I) eq_refl).
Defined.

Lemma cgltf_json_to_int_decimal_witness :
  token_text float_type_token (json_bytes "5126") = decimal_int 5126
  /\ cgltf_json_to_int float_type_token (json_bytes "5126") = Some 5126.
Proof.
  split; [reflexivity |].
  exact (cgltf_json_to_int_decimal float_type_token (json_bytes "5126") 5126 eq_refl
           ltac:(vm_compute; split; congruence) ltac:(vm_compute; congruence) eq_refl
           ltac:(vm_compute; split; congruence)).
Defined.

Lemma cgltf_json_to_bool_true_witness :
  exists b, cgltf_json_to_bool true_token (json_bytes "{'a':true}") = Some b
            /\ (b = true <-> token_text true_token (json_bytes "{'a':true}") = STR_TRUE).
Proof.
  apply (cgltf_json_to_bool_true true_token (json_bytes "{'a':true}"));
    vm_compute; congruence.
Defined.

(** ** Properties of the index reader after a validation *)

(** With a stride of one component, [cgltf_accessor_read_index] reads the
    tightly packed indices. *)
Lemma cgltf_accessor_read_index_packed (data : cgltf_data ptr)
    (accessor : cgltf_accessor ptr) (view : cgltf_buffer_view ptr) (mem : list Z) (k : Z) :
  view_data data (acc_buffer_view accessor) = Some (view, Some mem) ->
  acc_stride accessor = cgltf_component_size (component_type accessor) ->
  0 <= acc_stride accessor * k ->
  view_address view (acc_offset accessor) + acc_stride accessor * k < SIZE_MODULUS ->
  cgltf_accessor_read_index data accessor k
  = packed_index mem (view_address view (acc_offset accessor)) (component_type accessor) k.
Proof.
  intros Hview Hstride Hpos Hwrap. unfold cgltf_accessor_read_index, packed_index.
  case_bool_decide as Hnull.
  { rewrite Hnull in Hview. discriminate. }
  rewrite Hview. cbn [mbind option_bind]. fold (view_address view (acc_offset accessor)).
  rewrite <- Hstride. f_equal.
  unfold size_wrap at 1. apply Z.mod_small.
  assert (0 <= view_address view (acc_offset accessor)).
  { unfold view_address, size_wrap. apply Z.mod_pos_bound. reflexivity. }
  lia.
Qed.

(** X28: after a successful validation cgltf_accessor_read_index reads
    vertex indices.  For the index accessor of a primitive that has
    attributes, with its buffer loaded, a stride of one component and an
    address that does not wrap around, the call returns for every k below
    the count of the accessor an index below the element count of the
    accessor of the first attribute. *)
Theorem cgltf_validate_success_read_index (data : cgltf_data ptr) (m : cgltf_mesh ptr)
    (p : cgltf_primitive ptr) (a0 : cgltf_attribute ptr)
    (more : list (cgltf_attribute ptr)) (indices : cgltf_accessor ptr)
    (view : cgltf_buffer_view ptr) (mem : list Z) (k : Z) :
  cgltf_validate data = Some cgltf_result_success ->
  m ∈ meshes data -> p ∈ primitives m -> prim_attributes p = a0 :: more ->
  deref (accessors data) (prim_indices p) = Some indices ->
  view_data data (acc_buffer_view indices) = Some (view, Some mem) ->
  acc_stride indices = cgltf_component_size (component_type indices) ->
  0 <= k < acc_count indices ->
  view_address view (acc_offset indices) + acc_stride indices * k < SIZE_MODULUS ->
  exists v first,
    cgltf_accessor_read_index data indices k = Some v
    /\ deref (accessors data) (attr_data a0) = Some first
    /\ v < acc_count first.
Proof.
  intros Hok Hm Hp Hattrs Hind Hview Hstride Hk Hwrap.
  apply cgltf_validate_success_loops in Hok as (_ & _ & Hmeshes & _).
  pose proof (check_each_pass_elem _ _ m Hmeshes Hm) as Hmesh.
  destruct (primitives m) as [| first_prim rest] eqn:Hprims; [inversion Hp |].
  destruct (validate_mesh_pass data m first_prim rest Hmesh Hprims) as [_ Hall].
  rewrite Hprims in Hall.
  pose proof (check_each_pass_elem _ _ p Hall Hp) as Hprim.
  destruct (validate_primitive_pass data first_prim p Hprim) as [_ Hp'].
  destruct (Hp' a0 more Hattrs) as (first & Hfirst & _ & _ & Hindices).
  destruct (Hindices indices Hind) as [Htype Hbound].
  destruct (Hbound view mem Hview) as (bound & Hcalc & Hlt).
  apply cgltf_calc_index_bound_spec in Hcalc as (bv & mem' & Hview' & _ & _ & Hmax).
  rewrite Hview in Hview'. injection Hview' as <- <-.
  destruct (Hmax Htype) as [Hall' _].
  destruct (Hall' k Hk) as (v & Hv & Hle).
  assert (Hsize : 0 < cgltf_component_size (component_type indices)).
  { unfold is_index_type in Htype. destruct (component_type indices); try discriminate;
      reflexivity. }
  exists v, first. split; [| split; [exact Hfirst | lia]].
  rewrite (cgltf_accessor_read_index_packed data indices view mem k Hview Hstride);
    [exact Hv | nia | exact Hwrap].
Qed.

Lemma cgltf_validate_success_read_index_witness :
  cgltf_validate triangle_data = Some cgltf_result_success
  /\ exists v first,
       cgltf_accessor_read_index triangle_data triangle_indices 2 = Some v
       /\ deref (accessors triangle_data) (Some 0%nat) = Some first
       /\ v < acc_count first.
Proof.
  split; [reflexivity |].
  exact (cgltf_validate_success_read_index triangle_data triangle_mesh
           triangle_primitive (mk_attribute (Some 0%nat)) [] triangle_indices
           (mk_buffer_view (Some 0%nat) 36 6 0) triangle_bytes 2 eq_refl
           ltac:(left) ltac:(left) eq_refl eq_refl eq_refl eq_refl
           ltac:(cbn; lia) ltac:(vm_compute; reflexivity)).
Defined.
